(** * A shallow embedding of the gc-viz collector workbench (dkp.cc)

    The heap is the array [Mem::heap] of 16-bit words; objects are
    word runs that start with a header word.  Every function of the
    source that touches the heap, the allocation frontier, the root
    list, the live set, the forwarding table or the trace is a
    computation in a small state-and-error monad over [Mem]. *)

From Stdlib Require Import ZArith List Bool Lia Sorted.
Import ListNotations.
Local Open Scope Z_scope.



(** ** Constants and machine words *)

Definition HeapSize : Z := 2000.
Definition HeapSemiSize : Z := 1000.

(** [UWd] and [Loc] are [unsigned short]: arithmetic that is stored back
    into one of them wraps modulo 2^16. *)
Definition to_UWd (x : Z) : Z := x mod 65536.

(** [SWd] is [signed short]. *)
Definition to_SWd (x : Z) : Z :=
  let u := x mod 65536 in if u <? 32768 then u else u - 65536.

(** Type tags, [enum Obj::Type]. *)
Definition TNil : Z := 0.
Definition TForward : Z := 1.
Definition TFree : Z := 2.
Definition TNum : Z := 3.
Definition TTup : Z := 4.
Definition TVec : Z := 5.
Definition TStr : Z := 6.

(** The build-time selector: exactly one of the four macros is set. *)
Inductive Mode : Type := REF_COUNT_GC | MARK_SWEEP_GC | COPY_GC | MARK_COMPACT_GC.

Definition is_ref_count (m : Mode) : bool :=
  match m with REF_COUNT_GC => true | _ => false end.

Definition is_copy (m : Mode) : bool :=
  match m with COPY_GC => true | _ => false end.

(** ** The header word

    [struct { UWd ref_count : 8; UWd mark : 1; UWd type : 4; } header]
    occupies one word; the bit-fields are allocated from the least
    significant bit: bits 0-7 the count, bit 8 the mark, bits 9-12 the
    type tag, bits 13-15 unused. *)

Definition hdr_ref_count (w : Z) : Z := w mod 256.
Definition hdr_mark (w : Z) : Z := (w / 256) mod 2.
Definition hdr_type (w : Z) : Z := (w / 512) mod 16.

Definition set_ref_count (w r : Z) : Z := w - hdr_ref_count w + r mod 256.
Definition set_mark (w b : Z) : Z := w - 256 * hdr_mark w + 256 * (b mod 2).
Definition set_type (w t : Z) : Z := w - 512 * hdr_type w + 512 * (t mod 16).

(** ** Results: a value, a failed assertion or an access outside the
    heap array ([Abort]), or exhausted fuel ([Timeout]). *)

Inductive res (A : Type) : Type :=
| Ok (a : A)
| Abort
| Timeout.
Arguments Ok {A} a.
Arguments Abort {A}.
Arguments Timeout {A}.

(** ** Trace events, one per [log_msg] of the source. *)

Inductive Event : Type :=
| EAlloc (loc size : Z)
| EFree (loc size : Z)
| EInit (loc tag : Z)
| ESetChar (loc val : Z)
| ESetInt (loc val : Z)
| ESetRef (loc val : Z)
| ERefCount (loc count : Z)
| ECopy (dst src size : Z).

(** ** Process-wide state *)

Record Mem : Type := mkMem {
  heap : list Z;                (* UWd heap[HeapSize] *)
  top : Z;                      (* Loc top *)
  forwarding : list (Z * Z);    (* std::map<Loc,Loc>, ascending keys *)
  live : list Z;                (* std::set<Loc>, ascending *)
  root : list Z;                (* the handles from ObjRef::root on, their loc *)
  log_ready : bool;
  out : list Event              (* what log_msg / log_init_obj printed *)
}.

Definition with_heap (s : Mem) (h : list Z) : Mem :=
  mkMem h (top s) (forwarding s) (live s) (root s) (log_ready s) (out s).
Definition with_top (s : Mem) (t : Z) : Mem :=
  mkMem (heap s) t (forwarding s) (live s) (root s) (log_ready s) (out s).
Definition with_forwarding (s : Mem) (f : list (Z * Z)) : Mem :=
  mkMem (heap s) (top s) f (live s) (root s) (log_ready s) (out s).
Definition with_live (s : Mem) (l : list Z) : Mem :=
  mkMem (heap s) (top s) (forwarding s) l (root s) (log_ready s) (out s).
Definition with_root (s : Mem) (r : list Z) : Mem :=
  mkMem (heap s) (top s) (forwarding s) (live s) r (log_ready s) (out s).
Definition with_out (s : Mem) (o : list Event) : Mem :=
  mkMem (heap s) (top s) (forwarding s) (live s) (root s) (log_ready s) o.

(** ** The monad *)

Definition M (A : Type) : Type := Mem -> res (A * Mem).

Definition ret {A} (a : A) : M A := fun s => Ok (a, s).
Definition bind {A B} (c : M A) (k : A -> M B) : M B :=
  fun s => match c s with
           | Ok (a, s') => k a s'
           | Abort => Abort
           | Timeout => Timeout
           end.
Definition abort {A} : M A := fun _ => Abort.
Definition timeout {A} : M A := fun _ => Timeout.
Definition assert (b : bool) : M unit := if b then ret tt else abort.
Definition gets {A} (f : Mem -> A) : M A := fun s => Ok (f s, s).
Definition modify (f : Mem -> Mem) : M unit := fun s => Ok (tt, f s).

Declare Scope gc_scope.
Delimit Scope gc_scope with gc.
Notation "x <- c ;; k" := (bind c (fun x => k))
  (at level 61, c at next level, right associativity) : gc_scope.
Notation "c ;; k" := (bind c (fun _ => k))
  (at level 61, right associativity) : gc_scope.
Local Open Scope gc_scope.

(** Loops whose bound is a local variable: [for (int i = 0; i < k; ++i)]. *)
Fixpoint for_n (k : nat) (body : Z -> M unit) (i : Z) : M unit :=
  match k with
  | O => ret tt
  | S k' => body i ;; for_n k' body (i + 1)
  end.

(** Loops whose bound is a field that the source reads again at every
    test, [for (int i = 0; i < len; ++i)]: one unit of fuel per test. *)
Fixpoint for_field {A} (n : nat) (bound : M Z) (body : Z -> A -> M A)
         (i : Z) (a : A) : M A :=
  match n with
  | O => timeout
  | S n' =>
      b <- bound ;;
      if i <? b then a' <- body i a ;; for_field n' bound body (i + 1) a'
      else ret a
  end.

(** ** Heap array access.  An index outside [heap[HeapSize]] is
    undefined behaviour in the source and [Abort] here. *)

Definition in_heap (i : Z) : bool := (0 <=? i) && (i <? HeapSize).

Fixpoint upd (n : nat) (v : Z) (l : list Z) : list Z :=
  match l, n with
  | [], _ => []
  | _ :: l', O => v :: l'
  | x :: l', S n' => x :: upd n' v l'
  end.

Definition peek (h : list Z) (i : Z) : Z := nth (Z.to_nat i) h 0.
Definition poke (h : list Z) (i v : Z) : list Z := upd (Z.to_nat i) v h.

Definition load (i : Z) : M Z :=
  fun s => if in_heap i then Ok (peek (heap s) i, s) else Abort.
Definition store (i v : Z) : M unit :=
  fun s => if in_heap i then Ok (tt, with_heap s (poke (heap s) i v)) else Abort.

(** ** Instrumentation ([log_msg] prints only between [log_start] and
    [log_stop]; the per-cell colouring array [Mem::info] and the image
    files are not part of the model). *)

Definition emit_st (e : Event) (s : Mem) : Mem :=
  if log_ready s then with_out s (out s ++ [e]) else s.

Definition emit (e : Event) : M unit := modify (emit_st e).

Definition log_alloc_mem (loc size : Z) : M unit := emit (EAlloc loc size).
Definition log_free_mem (loc size : Z) : M unit := emit (EFree loc size).
Definition log_init_obj (loc tag : Z) : M unit := emit (EInit loc tag).
Definition log_ref_count (loc count : Z) : M unit := emit (ERefCount loc count).
Definition log_set_char (loc val : Z) : M unit := emit (ESetChar loc val).
Definition log_set_val (loc val : Z) : M unit := emit (ESetInt loc val).
Definition log_set_ref (loc val : Z) : M unit := emit (ESetRef loc val).
Definition log_copy_mem (dst src size : Z) : M unit := emit (ECopy dst src size).

(** ** std::set<Loc> and std::map<Loc,Loc> as ascending lists *)

Fixpoint set_insert (x : Z) (l : list Z) : list Z :=
  match l with
  | [] => [x]
  | y :: l' => if x <? y then x :: l
               else if x =? y then l
               else y :: set_insert x l'
  end.

Definition set_count (x : Z) (l : list Z) : Z :=
  if existsb (Z.eqb x) l then 1 else 0.

Fixpoint map_insert (k v : Z) (m : list (Z * Z)) : list (Z * Z) :=
  match m with
  | [] => [(k, v)]
  | (k', v') :: m' => if k <? k' then (k, v) :: m
                      else if k =? k' then (k, v) :: m'
                      else (k', v') :: map_insert k v m'
  end.

Fixpoint map_find (k : Z) (m : list (Z * Z)) : option Z :=
  match m with
  | [] => None
  | (k', v') :: m' => if k =? k' then Some v' else map_find k m'
  end.

(** * The program *)

Section Program.

Variable mode : Mode.

(** ** class Obj *)

Definition Obj_type (loc : Z) : M Z :=
  w <- load loc ;; ret (hdr_type w).

Definition init_ref_count (loc : Z) : M unit :=
  w <- load loc ;;
  if is_ref_count mode then
    store loc (set_ref_count w 1) ;;
    log_ref_count loc 1
  else
    store loc (set_ref_count w 0).

Definition inc_ref_count (loc : Z) : M unit :=
  if is_ref_count mode then
    w <- load loc ;;
    let w' := set_ref_count w (hdr_ref_count w + 1) in
    store loc w' ;;
    log_ref_count loc (hdr_ref_count w')
  else ret tt.

(** [Obj::init]: log, then the type, the count and the mark bit. *)
Definition Obj_init (loc tag : Z) : M unit :=
  log_init_obj loc tag ;;
  w <- load loc ;;
  store loc (set_type w tag) ;;
  init_ref_count loc ;;
  w' <- load loc ;;
  store loc (set_mark w' 0).

Definition Num_size_needed : Z := 2.
Definition Tup_size_needed (len : Z) : Z := to_UWd (2 + len).
Definition Vec_size_needed (len : Z) : Z := 3.
Definition Str_size_needed (len : Z) : Z := to_UWd (2 + len).

(** [Obj::size]: the handwritten dispatch on the tag. *)
Definition Obj_size (loc : Z) : M Z :=
  ty <- Obj_type loc ;;
  if ty =? TNum then ret Num_size_needed
  else if ty =? TTup then len <- load (loc + 1) ;; ret (Tup_size_needed len)
  else if ty =? TVec then len <- load (loc + 1) ;; ret (Vec_size_needed len)
  else if ty =? TStr then len <- load (loc + 1) ;; ret (Str_size_needed len)
  else if ty =? TFree then load (loc + 1)
  else assert (negb (ty =? TForward)) ;; ret 1.

(** [Obj::traverse] with [Tup::traverse] and [Vec::traverse]; the
    recursion follows references, so it takes fuel. *)
Fixpoint Obj_traverse (n : nat) (f : Z -> M unit) (loc : Z) : M unit :=
  match n with
  | O => timeout
  | S n' =>
      ty <- Obj_type loc ;;
      if ty =? TTup then
        for_field n' (load (loc + 1))
          (fun i _ =>
             v <- load (loc + 2 + i) ;;
             f v ;;
             v' <- load (loc + 2 + i) ;;
             Obj_traverse n' f v')
          0 tt
      else if ty =? TVec then
        t <- load (loc + 2) ;;
        f t ;;
        t' <- load (loc + 2) ;;
        (* Tup::at(tup)->traverse(f): no dispatch, the target is read as a Tup *)
        for_field n' (load (t' + 1))
          (fun i _ =>
             v <- load (t' + 2 + i) ;;
             f v ;;
             v' <- load (t' + 2 + i) ;;
             Obj_traverse n' f v')
          0 tt
      else ret tt
  end.

(** ** class Mem: the allocator *)

Definition reserve (size : Z) : M Z :=
  loc <- gets top ;;
  modify (fun s => with_top s (to_UWd (loc + size))) ;;
  t <- gets top ;;
  assert (t <? HeapSize) ;;
  log_alloc_mem loc size ;;
  ret loc.

Definition reserve_with_possible_overlap (size : Z) : M Z :=
  loc <- gets top ;;
  modify (fun s => with_top s (to_UWd (loc + size))) ;;
  t <- gets top ;;
  assert (t <? HeapSize) ;;
  ret loc.

Definition Mem_alloc (size : Z) : M Z :=
  loc <- reserve size ;;
  for_n (Z.to_nat size) (fun i => store (loc + i) 0) 0 ;;
  ret loc.

Definition copy_words (dst src : Z) (k : Z) : M unit :=
  for_n (Z.to_nat k) (fun i => v <- load (src + i) ;; store (dst + i) v) 0.

Definition Mem_copy (from new_size : Z) : M Z :=
  size <- Obj_size from ;;
  if 0 <? new_size then
    dst <- reserve new_size ;;
    let min := if new_size <? size then new_size else size in
    copy_words dst from min ;;
    for_n (Z.to_nat (new_size - min)) (fun i => store (dst + i) 0) min ;;
    log_copy_mem dst from min ;;
    ret dst
  else
    dst <- reserve size ;;
    copy_words dst from size ;;
    log_copy_mem dst from size ;;
    ret dst.

Definition move_without_forwarding (from size : Z) : M Z :=
  dst <- reserve_with_possible_overlap size ;;
  copy_words dst from size ;;
  log_copy_mem dst from size ;;
  ret dst.

Definition Mem_move (from : Z) : M Z :=
  size <- Obj_size from ;;
  dst <- reserve size ;;
  copy_words dst from size ;;
  Obj_init from TForward ;;
  store (from + 1) dst ;;
  log_copy_mem dst from size ;;
  ret dst.

Definition read_barrier (loc : Z) : M Z := ret loc.

Definition Mem_free (loc size : Z) : M unit :=
  Obj_init loc TFree ;;
  store (loc + 1) (to_UWd size) ;;
  log_free_mem loc size.

(** ** Reference counts: [Obj::dec_ref_count], [Obj::cleanup],
    [Tup::cleanup], [Vec::cleanup] and [ObjRef::unshare] call each
    other; a release may cascade, so they take fuel. *)

Fixpoint unshare (n : nat) (loc : Z) : M unit :=
  match n with
  | O => timeout
  | S n' =>
      if loc =? 0 then ret tt
      else
        freed <- dec_ref_count n' loc ;;
        if freed : bool then size <- Obj_size loc ;; Mem_free loc size
        else ret tt
  end
with dec_ref_count (n : nat) (loc : Z) : M bool :=
  match n with
  | O => timeout
  | S n' =>
      if is_ref_count mode then
        w <- load loc ;;
        let w' := set_ref_count w (hdr_ref_count w - 1) in
        store loc w' ;;
        log_ref_count loc (hdr_ref_count w') ;;
        if hdr_ref_count w' =? 0 then Obj_cleanup n' loc ;; ret true
        else ret false
      else ret false
  end
with Obj_cleanup (n : nat) (loc : Z) : M unit :=
  match n with
  | O => timeout
  | S n' =>
      ty <- Obj_type loc ;;
      if ty =? TTup then
        for_field n' (load (loc + 1))
          (fun i _ =>
             v <- load (loc + 2 + i) ;;
             unshare n' v ;;
             store (loc + 2 + i) 0)
          0 tt
      else if ty =? TVec then
        t <- load (loc + 2) ;;
        unshare n' t ;;
        store (loc + 2) 0
      else ret tt
  end.

(** ** class ObjRef: handles and the root list.  A handle is its
    position in [root]; a new handle is linked in at the head. *)

Definition add_to_root_set (loc : Z) : M unit :=
  modify (fun s => with_root s (loc :: root s)).

Definition ObjRef_alloc (size : Z) : M Z :=
  loc <- Mem_alloc size ;;
  init_ref_count loc ;;
  add_to_root_set loc ;;
  ret loc.

Definition ObjRef_copy (src new_size : Z) : M Z :=
  loc <- Mem_copy src new_size ;;
  init_ref_count loc ;;
  add_to_root_set loc ;;
  ret loc.

(** [ObjRef(SHARE, loc)], [ObjRef::at] and the copy constructor. *)
Definition ObjRef_share (l : Z) : M Z :=
  loc <- read_barrier l ;;
  inc_ref_count loc ;;
  add_to_root_set loc ;;
  ret loc.

Fixpoint remove_nth {A} (k : nat) (l : list A) : list A :=
  match l, k with
  | [], _ => []
  | _ :: l', O => l'
  | x :: l', S k' => x :: remove_nth k' l'
  end.

(** [~ObjRef] of the handle at position [k] of the root list. *)
Definition ObjRef_destroy (n : nat) (k : nat) : M unit :=
  r <- gets root ;;
  match nth_error r k with
  | None => abort
  | Some loc =>
      modify (fun s => with_root s (remove_nth k (root s))) ;;
      freed <- dec_ref_count n loc ;;
      if freed : bool then size <- Obj_size loc ;; Mem_free loc size
      else ret tt
  end.

(** [ObjRef::share] on a handle that holds [l]. *)
Definition share (l : Z) : M Z :=
  loc <- read_barrier l ;;
  inc_ref_count loc ;;
  ret loc.

(** ** Value classes and their handles *)

Definition Num_init (loc val : Z) : M unit :=
  Obj_init loc TNum ;;
  store (loc + 1) (to_UWd val) ;;
  log_set_val (loc + 1) (to_SWd val).

Definition NumRef_new (val : Z) : M Z :=
  loc <- ObjRef_alloc Num_size_needed ;;
  Num_init loc val ;;
  ret loc.

Definition Tup_init (n : nat) (loc len : Z) : M unit :=
  Obj_init loc TTup ;;
  store (loc + 1) (to_UWd len) ;;
  l <- load (loc + 1) ;;
  log_set_val (loc + 1) l ;;
  for_field n (load (loc + 1))
    (fun i _ =>
       v <- load (loc + 2 + i) ;;
       if v =? 0 then ret tt else inc_ref_count v)
    0 tt.

(** [Tup::set]; [obj] is the by-value handle parameter, already a
    member of the root list, and holds [objloc]. *)
Definition Tup_set (n : nat) (loc i objloc : Z) : M unit :=
  len <- load (loc + 1) ;;
  assert (i <? len) ;;
  tmp <- share objloc ;;
  old <- load (loc + 2 + i) ;;
  unshare n old ;;
  store (loc + 2 + i) tmp ;;
  v <- load (loc + 2 + i) ;;
  log_set_ref (loc + 2 + i) v.

(** A call [x->set(i, obj)] from a handle: the argument is
    copy-constructed, the body runs, the copy is destroyed. *)
Definition call_Tup_set (n : nat) (loc i objloc : Z) : M unit :=
  _ <- ObjRef_share objloc ;;
  Tup_set n loc i objloc ;;
  ObjRef_destroy n 0.

Definition TupRef_new (n : nat) (len : Z) : M Z :=
  loc <- ObjRef_alloc (Tup_size_needed len) ;;
  Tup_init n loc len ;;
  ret loc.

Definition TupRef_copy (n : nat) (src len : Z) : M Z :=
  loc <- ObjRef_copy src (Tup_size_needed len) ;;
  Tup_init n loc len ;;
  ret loc.

Definition Vec_init (loc tup : Z) : M unit :=
  Obj_init loc TVec ;;
  store (loc + 1) 0 ;;
  store (loc + 2) tup ;;
  log_set_val (loc + 1) 0 ;;
  log_set_ref (loc + 2) tup.

Definition Vec_set (n : nat) (loc i objloc : Z) : M unit :=
  len <- load (loc + 1) ;;
  assert (i <? len) ;;
  t <- load (loc + 2) ;;
  call_Tup_set n t i objloc.

(** [VecRef(int size)]: the backing Tup is built by a temporary
    handle, shared, and the temporary is destroyed. *)
Definition VecRef_new (n : nat) (size : Z) : M Z :=
  loc <- ObjRef_alloc (Vec_size_needed size) ;;
  t <- TupRef_new n size ;;
  tup <- share t ;;
  ObjRef_destroy n 0 ;;
  Vec_init loc tup ;;
  ret loc.

(** The three steps by which [VecRef::push] swaps the backing Tup. *)
Definition push_share_new (n : nat) (vloc : Z) : M Z :=
  old <- load (vloc + 2) ;;
  len <- load (vloc + 1) ;;
  t <- TupRef_copy n old (2 * len) ;;
  new_tup <- share t ;;
  ObjRef_destroy n 0 ;;
  ret new_tup.

Definition push_unshare_old (n : nat) (vloc : Z) : M unit :=
  old <- load (vloc + 2) ;;
  unshare n old.

Definition push_rebind (vloc new_tup : Z) : M unit :=
  store (vloc + 2) new_tup ;;
  t <- load (vloc + 2) ;;
  log_set_ref (vloc + 2) t.

Definition push_grow (n : nat) (vloc : Z) : M unit :=
  new_tup <- push_share_new n vloc ;;
  push_unshare_old n vloc ;;
  push_rebind vloc new_tup.

(** [VecRef::push(ObjRef obj)] on the handle that holds [vloc]
    (the comment line it prints first is not a trace event). *)
Definition VecRef_push (n : nat) (vloc objloc : Z) : M unit :=
  t <- load (vloc + 2) ;;
  cap <- load (t + 1) ;;
  len <- load (vloc + 1) ;;
  tup <- (if cap =? len then push_grow n vloc ;; load (vloc + 2) else ret t) ;;
  i <- load (vloc + 1) ;;
  call_Tup_set n tup i objloc ;;
  len' <- load (vloc + 1) ;;
  store (vloc + 1) (to_UWd (len' + 1)) ;;
  l <- load (vloc + 1) ;;
  log_set_val (vloc + 1) l.

(** ** class Str *)

Definition Str_init_len (loc len : Z) : M unit :=
  Obj_init loc TStr ;;
  store (loc + 1) (to_UWd len) ;;
  l <- load (loc + 1) ;;
  log_set_val (loc + 1) l.

(** [Str::init(std::string)]; the characters are given as their codes. *)
Definition Str_init (n : nat) (loc : Z) (data : list Z) : M unit :=
  Obj_init loc TStr ;;
  store (loc + 1) (to_UWd (Z.of_nat (length data))) ;;
  l <- load (loc + 1) ;;
  log_set_val (loc + 1) l ;;
  for_field n (load (loc + 1))
    (fun i _ =>
       let c := nth (Z.to_nat i) data 0 in
       store (loc + 2 + i) (to_UWd c) ;;
       log_set_char (loc + 2 + i) c)
    0 tt.

Definition StrRef_new (n : nat) (data : list Z) : M Z :=
  loc <- ObjRef_alloc (Str_size_needed (Z.of_nat (length data))) ;;
  Str_init n loc data ;;
  ret loc.

Definition StrRef_new_len (len : Z) : M Z :=
  loc <- ObjRef_alloc (Str_size_needed len) ;;
  Str_init_len loc len ;;
  ret loc.

(** The index buffers [int begin[5]] and [int end[5]] of
    [StrRef::split]: a write at an index outside the array is
    undefined behaviour in the source and [Abort] here. *)
Definition buf_set (b : list Z) (k v : Z) : res (list Z) :=
  if (0 <=? k) && (k <? Z.of_nat (length b)) then Ok (poke b k v) else Abort.

Record SplitState : Type := mkSplit {
  sp_found : Z;
  sp_last : Z;
  sp_begin : list Z;
  sp_end : list Z
}.

Definition split_mark (i : Z) (st : SplitState) : res SplitState :=
  match buf_set (sp_begin st) (sp_found st) (sp_last st) with
  | Ok b =>
      match buf_set (sp_end st) (sp_found st) i with
      | Ok e => Ok (mkSplit (sp_found st) (sp_last st) b e)
      | Abort => Abort
      | Timeout => Timeout
      end
  | Abort => Abort
  | Timeout => Timeout
  end.

Definition lift {A} (r : res A) : M A :=
  fun s => match r with Ok a => Ok (a, s) | Abort => Abort | Timeout => Timeout end.

(** [Str::split(sep, begin, end)]: the pair count and the two buffers. *)
Definition Str_split (n : nat) (loc sep : Z) (begin end_ : list Z)
  : M (Z * list Z * list Z) :=
  st <- for_field n (load (loc + 1))
          (fun i st =>
             c <- load (loc + 2 + i) ;;
             if c =? sep then
               st' <- lift (split_mark i st) ;;
               ret (mkSplit (sp_found st' + 1) (i + 1) (sp_begin st') (sp_end st'))
             else ret st)
          0 (mkSplit 0 0 begin end_) ;;
  len <- load (loc + 1) ;;
  st' <- lift (split_mark len st) ;;
  ret (sp_found st' + 1, sp_begin st', sp_end st').

Definition Str_copy (loc begin end_ dest : Z) : M unit :=
  copy_words (dest + 2) (loc + 2 + begin) (end_ - begin) ;;
  log_copy_mem (dest + 2) (loc + 2 + begin) (end_ - begin).

(** The two stack arrays [int begin[5]] and [int end[5]]; [init] is
    their indeterminate initial content. *)
Definition stack_array5 (init : list Z) : list Z := firstn 5 (init ++ repeat 0 5).

(** [StrRef::split(sep)] on a handle that holds [loc].  The handles
    [fields], [substr] and the by-value argument of [push] are created
    at the head of the root list and destroyed in reverse order. *)
Definition StrRef_split (n : nat) (loc sep : Z) (b0 e0 : list Z) : M Z :=
  r <- Str_split n loc sep (stack_array5 b0) (stack_array5 e0) ;;
  let '(count, begin, end_) := r in
  fields <- VecRef_new n count ;;
  for_n (Z.to_nat count)
    (fun i =>
       let b := nth (Z.to_nat i) begin 0 in
       let e := nth (Z.to_nat i) end_ 0 in
       substr <- StrRef_new_len (e - b) ;;
       Str_copy loc b e substr ;;
       _ <- ObjRef_share substr ;;
       VecRef_push n fields substr ;;
       ObjRef_destroy n 0 ;;
       ObjRef_destroy n 0)
    0 ;;
  ret fields.

(** ** The collectors *)

Definition mark_live_loc (loc : Z) : M unit :=
  if loc =? 0 then ret tt
  else
    (if is_copy mode then ret tt else log_ref_count loc 1) ;;
    modify (fun s => with_live s (set_insert loc (live s))).

Fixpoint each {A} (f : A -> M unit) (l : list A) : M unit :=
  match l with
  | [] => ret tt
  | x :: l' => f x ;; each f l'
  end.

Definition mark_live (n : nat) : M unit :=
  r <- gets root ;;
  modify (fun s => with_live s []) ;;
  each (fun loc => mark_live_loc loc ;; Obj_traverse n mark_live_loc loc) r.

Fixpoint sweep_loop (n : nat) (loc : Z) : M unit :=
  match n with
  | O => timeout
  | S n' =>
      t <- gets top ;;
      if loc <? t then
        size <- Obj_size loc ;;
        lv <- gets live ;;
        (if set_count loc lv =? 0 then Mem_free loc size else ret tt) ;;
        sweep_loop n' (to_UWd (loc + size))
      else ret tt
  end.

Definition sweep_garbage (n : nat) : M unit := sweep_loop n 1.

Definition move_live (n : nat) : M unit :=
  mark_live n ;;
  t <- gets top ;;
  modify (fun s => with_top s (if HeapSemiSize <=? t then 1 else HeapSemiSize)) ;;
  lv <- gets live ;;
  each (fun from => if from =? 0 then ret tt else _ <- Mem_move from ;; ret tt) lv.

Fixpoint compact_loop (n : nat) (old_top from : Z) : M unit :=
  match n with
  | O => timeout
  | S n' =>
      if from <? old_top then
        size <- Obj_size from ;;
        lv <- gets live ;;
        t <- gets top ;;
        (if 0 <? set_count from lv then
           if negb (old_top =? t) then
             dst <- move_without_forwarding from size ;;
             modify (fun s => with_forwarding s (map_insert from dst (forwarding s)))
           else ret tt
         else if old_top =? t then modify (fun s => with_top s from)
         else ret tt) ;;
        compact_loop n' old_top (to_UWd (from + size))
      else ret tt
  end.

Definition compact_live (n : nat) : M unit :=
  modify (fun s => with_forwarding s []) ;;
  mark_live n ;;
  old_top <- gets top ;;
  compact_loop n old_top 1.

(** The visit function of [Mem::log_roots]. *)
Definition add_live_loc (loc : Z) : M unit :=
  modify (fun s => with_live s (set_insert loc (live s))).

Definition loc_after_move (loc : Z) : M Z :=
  if is_copy mode then
    ty <- Obj_type loc ;;
    if ty =? TForward then load (loc + 1) else ret loc
  else
    fw <- gets forwarding ;;
    match map_find loc fw with
    | Some dst => ret dst
    | None => ret loc
    end.

Definition Obj_fixup_references (n : nat) (loc : Z) : M unit :=
  ty <- Obj_type loc ;;
  if ty =? TTup then
    for_field n (load (loc + 1))
      (fun i _ =>
         v <- load (loc + 2 + i) ;;
         v' <- loc_after_move v ;;
         store (loc + 2 + i) v')
      0 tt
  else if ty =? TVec then
    t <- load (loc + 2) ;;
    t' <- loc_after_move t ;;
    store (loc + 2) t'
  else ret tt.

Fixpoint fixup_handles (r : list Z) : M (list Z) :=
  match r with
  | [] => ret []
  | loc :: r' =>
      loc' <- loc_after_move loc ;;
      r'' <- fixup_handles r' ;;
      ret (loc' :: r'')
  end.

Fixpoint fixup_loop (n : nat) (loc : Z) : M unit :=
  match n with
  | O => timeout
  | S n' =>
      t <- gets top ;;
      if loc <? t then
        size <- Obj_size loc ;;
        Obj_fixup_references n' loc ;;
        fixup_loop n' (to_UWd (loc + size))
      else ret tt
  end.

Definition fixup_references (n : nat) : M unit :=
  r <- gets root ;;
  r' <- fixup_handles r ;;
  modify (fun s => with_root s r') ;;
  t <- gets top ;;
  fixup_loop n (if is_copy mode then (if HeapSemiSize <=? t then HeapSemiSize else 1) else 1).

Definition gc (n : nat) : M unit :=
  match mode with
  | MARK_SWEEP_GC =>
      mark_live n ;;
      sweep_garbage n
  | COPY_GC =>
      move_live n ;;
      fixup_references n ;;
      t <- gets top ;;
      if HeapSemiSize <=? t then log_free_mem 1 (HeapSemiSize - 1)
      else log_free_mem HeapSemiSize HeapSemiSize
  | MARK_COMPACT_GC =>
      old_top <- gets top ;;
      compact_live n ;;
      t <- gets top ;;
      if t <? old_top then
        fixup_references n ;;
        t' <- gets top ;;
        log_free_mem t' (old_top - t')
      else ret tt
  | REF_COUNT_GC => ret tt
  end.

End Program.

(** The state in which [main] starts: static initialisation has
    created the handle [ObjRef::nil] (sharing location 0), and [main]
    has set [top] to 1 and called [log_start]. *)
Definition boot (mode : Mode) : Mem :=
  mkMem (poke (repeat 0 (Z.to_nat HeapSize)) 0 (if is_ref_count mode then 1 else 0))
        1 [] [] [0] true [].

(** * The program: readers, comparison and instrumentation *)

Section Readers.

Variable mode : Mode.

(** ** class Num *)

Definition Num_set (loc val : Z) : M unit :=
  store (loc + 1) (to_UWd val) ;;
  log_set_val (loc + 1) (to_SWd val).

(** [Num::to_i] ([log_get_val] prints nothing). *)
Definition Num_to_i (loc : Z) : M Z :=
  v <- load (loc + 1) ;; ret (to_SWd v).

(** ** [Str::to_i]: the loop over the minus signs, then the loop over
    the digits; [sign] and [i] are [int], the sum [n] is an [SWd] and
    wraps at every assignment, and so does the result. *)

Fixpoint to_i_signs (n : nat) (loc i sign : Z) : M (Z * Z) :=
  match n with
  | O => timeout
  | S n' =>
      len <- load (loc + 1) ;;
      if i <? len then
        c <- load (loc + 2 + i) ;;
        if c =? 45 then to_i_signs n' loc (i + 1) (- sign)
        else ret (i, sign)
      else ret (i, sign)
  end.

Fixpoint to_i_digits (n : nat) (loc i acc : Z) : M Z :=
  match n with
  | O => timeout
  | S n' =>
      len <- load (loc + 1) ;;
      if i <? len then
        c <- load (loc + 2 + i) ;;
        if (48 <=? c) && (c <=? 57)
        then to_i_digits n' loc (i + 1) (to_SWd (acc * 10 + (c - 48)))
        else ret acc
      else ret acc
  end.

Definition Str_to_i (n : nat) (loc : Z) : M Z :=
  p <- to_i_signs n loc 0 1 ;;
  v <- to_i_digits n loc (fst p) 0 ;;
  ret (to_SWd (snd p * v)).

(** [Obj::to_i]: the dispatch on the tag. *)
Definition Obj_to_i (n : nat) (loc : Z) : M Z :=
  ty <- Obj_type loc ;;
  if ty =? TNum then Num_to_i loc
  else if ty =? TStr then Str_to_i n loc
  else ret 0.

(** [Obj::equals]: two Num by their value, two Str by their length and
    their first character. *)
Definition Obj_equals (a b : Z) : M bool :=
  ta <- Obj_type a ;;
  if ta =? TNum then
    tb <- Obj_type b ;;
    if tb =? TNum then
      va <- load (a + 1) ;;
      vb <- load (b + 1) ;;
      ret (to_SWd va =? to_SWd vb)
    else ret false
  else if ta =? TStr then
    tb <- Obj_type b ;;
    if tb =? TStr then
      la <- load (a + 1) ;;
      lb <- load (b + 1) ;;
      if la =? lb then
        if la =? 0 then ret true
        else ca <- load (a + 2) ;; cb <- load (b + 2) ;; ret (ca =? cb)
      else ret false
    else ret false
  else ret false.

(** ** [Tup::get] and [Vec::get]: the result is a new handle on the
    slot's location, linked in at the head of the root list. *)

Definition Tup_get (loc i : Z) : M Z :=
  len <- load (loc + 1) ;;
  assert (i <? len) ;;
  v <- load (loc + 2 + i) ;;
  ObjRef_share mode v.

Definition Vec_get (loc i : Z) : M Z :=
  len <- load (loc + 1) ;;
  assert (i <? len) ;;
  t <- load (loc + 2) ;;
  Tup_get t i.

(** [Vec::get(i, j)]: the handle [inner] is a local, destroyed when the
    result handle has been built above it. *)
Definition Vec_get2 (n : nat) (loc i j : Z) : M Z :=
  inner <- Vec_get loc i ;;
  ty <- Obj_type inner ;;
  assert ((ty =? TTup) || (ty =? TVec)) ;;
  r <- (if ty =? TTup then Tup_get inner j else Vec_get inner j) ;;
  ObjRef_destroy mode n 1 ;;
  ret r.

(** [ObjRef::equals(ObjRef that)]: the argument is passed by value, a
    handle that lives for the call. *)
Definition ObjRef_equals (n : nat) (a b : Z) : M bool :=
  that <- ObjRef_share mode b ;;
  e <- Obj_equals a that ;;
  ObjRef_destroy mode n 0 ;;
  ret e.

(** [VecRef::contains(j, obj)] from row [i] on.  The handle [other]
    ends with its round of the loop, also on the early return. *)
Fixpoint VecRef_contains_from (n : nat) (vloc j obj i : Z) : M bool :=
  match n with
  | O => timeout
  | S n' =>
      len <- load (vloc + 1) ;;
      if i <? len then
        other <- Vec_get2 n' vloc i j ;;
        e <- ObjRef_equals n' obj other ;;
        ObjRef_destroy mode n' 0 ;;
        if e : bool then ret true
        else VecRef_contains_from n' vloc j obj (i + 1)
      else ret false
  end.

Definition VecRef_contains (n : nat) (vloc j obj : Z) : M bool :=
  VecRef_contains_from n vloc j obj 0.

(** ** [Mem::log_roots]: the handles and the live set that it prints
    are the result. *)
Definition log_roots (n : nat) : M (list Z * list Z) :=
  r <- gets root ;;
  modify (fun s => with_live s []) ;;
  each (fun loc => add_live_loc loc ;; Obj_traverse n add_live_loc loc) r ;;
  lv <- gets live ;;
  ret (r, lv).

End Readers.

(** ** struct MemInfo and the colour of a heap word in a frame.
    [time], [last_read] and [last_write] are [uint]; [age] is [int]. *)

Definition to_UInt (x : Z) : Z := x mod 4294967296.
Definition to_Int (x : Z) : Z :=
  let u := x mod 4294967296 in if u <? 2147483648 then u else u - 4294967296.

Record MemInfo : Type := mkInfo {
  is_allocated : bool;
  is_overhead : bool;
  last_write : Z;
  last_read : Z
}.

(** [MemInfo()] *)
Definition MemInfo_new : MemInfo := mkInfo false false 0 0.

(** The methods take and return the static counter [MemInfo::time]. *)
Definition was_allocated (t : Z) (i : MemInfo) : Z * MemInfo :=
  (t, mkInfo true false 0 0).
Definition was_freed (t : Z) (i : MemInfo) : Z * MemInfo :=
  (t, mkInfo false (is_overhead i) (last_write i) (last_read i)).
Definition was_read (t : Z) (i : MemInfo) : Z * MemInfo :=
  let t' := to_UInt (t + 1) in
  (t', mkInfo (is_allocated i) (is_overhead i) (last_write i) t').
Definition was_written (t : Z) (i : MemInfo) : Z * MemInfo :=
  let t' := to_UInt (t + 1) in
  (t', mkInfo (is_allocated i) false t' (last_read i)).
Definition was_overhead (t : Z) (i : MemInfo) : Z * MemInfo :=
  let t' := to_UInt (t + 1) in
  (t', mkInfo (is_allocated i) true t' (last_read i)).

(** The two colour ramps, ["0123456789"] and ["abcdefghij"], as
    character codes. *)
Definition ramp_read : list Z := [48; 49; 50; 51; 52; 53; 54; 55; 56; 57].
Definition ramp_write : list Z := [97; 98; 99; 100; 101; 102; 103; 104; 105; 106].

(** [Mem::color_of_mem_loc] on the entry [info] of the word. *)
Definition color_of_mem_loc (time : Z) (info : MemInfo) : Z :=
  if is_allocated info then
    let color := if last_write info <? last_read info then ramp_read
                 else ramp_write in
    let age := if last_write info <? last_read info
               then to_Int (time - last_read info)
               else to_Int (time - last_write info) in
    if to_UInt age =? time then 43
    else if age <? 5 then (if is_overhead info then 35 else nth 0 color 0)
    else if age <? 25 then nth 1 color 0
    else if age <? 125 then nth 2 color 0
    else nth 3 color 0
  else 32.

(** The colour table that [Mem::snap] writes in the header of every
    frame: [' '], ['+'], ['#'], ['0'] to ['3'], ['a'] to ['d']. *)
Definition xpm_colors : list Z := [32; 43; 35; 48; 49; 50; 51; 97; 98; 99; 100].

(** * Notions used to state the properties *)

(** The final state of a computation. *)
Definition exec {A} (c : M A) (s : Mem) : res Mem :=
  match c s with
  | Ok (_, s') => Ok s'
  | Abort => Abort
  | Timeout => Timeout
  end.

(** A sequence of [reserve] calls, one per requested size. *)
Fixpoint reserve_seq (sizes : list Z) : M (list Z) :=
  match sizes with
  | [] => ret []
  | n :: rest => loc <- reserve n ;; locs <- reserve_seq rest ;; ret (loc :: locs)
  end.

Definition sumZ (l : list Z) : Z := fold_right Z.add 0 l.

(** A relation that holds between the state before and the state
    after every successful run of a computation. *)
Definition preserves {A} (R : Mem -> Mem -> Prop) (c : M A) : Prop :=
  forall s a s', c s = Ok (a, s') -> R s s'.

Definition preorder (R : Mem -> Mem -> Prop) : Prop :=
  (forall s, R s s) /\ (forall s1 s2 s3, R s1 s2 -> R s2 s3 -> R s1 s3).

(** The [free] events of a trace. *)
Definition is_free_event (e : Event) : bool :=
  match e with EFree _ _ => true | _ => false end.

Definition frees (o : list Event) : list Event := filter is_free_event o.

Definition same_frees (s s' : Mem) : Prop :=
  log_ready s' = log_ready s /\ frees (out s') = frees (out s).

(** ** Strings *)

(** [m] consecutive heap words from address [a]. *)
Fixpoint peeks (h : list Z) (a : Z) (m : nat) : list Z :=
  match m with
  | O => []
  | S m' => peek h a :: peeks h (a + 1) m'
  end.

(** The characters of the Str object at [loc]. *)
Definition str_chars (h : list Z) (loc : Z) : list Z :=
  peeks h (loc + 2) (Z.to_nat (peek h (loc + 1))).

(** The fields of a string: the maximal runs without the separator. *)
Fixpoint split_on (sep : Z) (cs : list Z) : list (list Z) :=
  match cs with
  | [] => [[]]
  | c :: r =>
      if c =? sep then [] :: split_on sep r
      else match split_on sep r with
           | seg :: segs => (c :: seg) :: segs
           | [] => [[c]]
           end
  end.

Fixpoint join (sep : Z) (segs : list (list Z)) : list Z :=
  match segs with
  | [] => []
  | [seg] => seg
  | seg :: rest => seg ++ sep :: join sep rest
  end.

(** Where the fields lie when the first one starts at [o]. *)
Fixpoint bounds_from (o : Z) (segs : list (list Z)) : list (Z * Z) :=
  match segs with
  | [] => []
  | seg :: rest =>
      (o, o + Z.of_nat (length seg))
        :: bounds_from (o + Z.of_nat (length seg) + 1) rest
  end.

Definition count_sep (sep : Z) (cs : list Z) : Z :=
  Z.of_nat (length (filter (Z.eqb sep) cs)).

(** The loop of [Str::split] over the characters still to be read. *)
Fixpoint split_chars (sep : Z) (cs : list Z) (i : Z) (st : SplitState)
  : res SplitState :=
  match cs with
  | [] => Ok st
  | c :: r =>
      if c =? sep then
        match split_mark i st with
        | Ok st' =>
            split_chars sep r (i + 1)
              (mkSplit (sp_found st' + 1) (i + 1) (sp_begin st') (sp_end st'))
        | Abort => Abort
        | Timeout => Timeout
        end
      else split_chars sep r (i + 1) st
  end.

Definition res_state {A} (r : res A) (s : Mem) : res (A * Mem) :=
  match r with Ok a => Ok (a, s) | Abort => Abort | Timeout => Timeout end.

(** Where the loop of [Str::split], continued by the final pair, leaves
    the bounds: the field being scanned started at [l] and has reached [i]. *)
Definition bounds_cont (l i : Z) (segs : list (list Z)) : list (Z * Z) :=
  match segs with
  | [] => []
  | seg :: rest =>
      (l, i + Z.of_nat (length seg))
        :: bounds_from (i + Z.of_nat (length seg) + 1) rest
  end.

Definition then_mark (r : res SplitState) (i : Z) : res SplitState :=
  match r with Ok st => split_mark i st | Abort => Abort | Timeout => Timeout end.

(** ** Word runs *)

(** What the copy loop [heap[dst + i] = heap[src + i]] leaves, for
    [k] more words from index [i] on. *)
Fixpoint copy_heap (h : list Z) (dst src : Z) (k : nat) (i : Z) : list Z :=
  match k with
  | O => h
  | S k' => copy_heap (poke h (dst + i) (peek h (src + i))) dst src k' (i + 1)
  end.

(** What the loop [heap[base + i] = 0] leaves. *)
Fixpoint zero_heap (h : list Z) (base : Z) (k : nat) (i : Z) : list Z :=
  match k with
  | O => h
  | S k' => zero_heap (poke h (base + i) 0) base k' (i + 1)
  end.

(** ** The reference structure below an object *)

Definition same_heap (s s' : Mem) : Prop := heap s' = heap s.

(** The slots of the Tup at [loc], in order. *)
Definition slots (h : list Z) (loc : Z) : list Z :=
  peeks h (loc + 2) (Z.to_nat (peek h (loc + 1))).

(** The locations on which a traversal from [loc] calls the visit
    function, in call order, down to depth [d]: each slot of a Tup,
    zero or not, followed by what the slot's target contributes; for a
    Vec its backing Tup and then that Tup's slots likewise. *)
Fixpoint visit_seq (d : nat) (h : list Z) (loc : Z) : list Z :=
  match d with
  | O => []
  | S d' =>
      let ty := hdr_type (peek h loc) in
      if ty =? TTup then
        flat_map (fun v => v :: visit_seq d' h v) (slots h loc)
      else if ty =? TVec then
        let t := peek h (loc + 2) in
        t :: flat_map (fun v => v :: visit_seq d' h v) (slots h t)
      else []
  end.

(** The Tup at [loc] lies inside the heap array. *)
Definition tup_in_heap (h : list Z) (loc : Z) : bool :=
  (0 <=? loc) && (0 <=? peek h (loc + 1)) &&
  (loc + 2 + peek h (loc + 1) <=? HeapSize).

(** The structure below [loc] lies inside the heap array and is at
    most [d] references deep (so it has no cycle). *)
Fixpoint tree_ok (d : nat) (h : list Z) (loc : Z) : bool :=
  match d with
  | O => false
  | S d' =>
      in_heap loc &&
      (let ty := hdr_type (peek h loc) in
       if ty =? TTup then
         tup_in_heap h loc && forallb (tree_ok d' h) (slots h loc)
       else if ty =? TVec then
         in_heap (loc + 2) &&
         (let t := peek h (loc + 2) in
          tup_in_heap h t && forallb (tree_ok d' h) (slots h t))
       else true)
  end.

(** ** Cells and well-formed states *)

Definition ty (h : list Z) (l : Z) : Z := hdr_type (peek h l).

(** What [Obj::size] returns for the object at [l] (when its header
    is not a Forward). *)
Definition size_of (h : list Z) (l : Z) : Z :=
  let t := ty h l in
  if t =? TNum then Num_size_needed
  else if t =? TTup then Tup_size_needed (peek h (l + 1))
  else if t =? TVec then Vec_size_needed (peek h (l + 1))
  else if t =? TStr then Str_size_needed (peek h (l + 1))
  else if t =? TFree then peek h (l + 1)
  else 1.

Definition is_value_type (t : Z) : bool :=
  (t =? TNum) || (t =? TTup) || (t =? TVec) || (t =? TStr).

Definition mem (x : Z) (l : list Z) : bool := existsb (Z.eqb x) l.

(** The cells met when the heap is walked from [a] to [b] by successive
    sizes: each is a value object or a Free block of at least two
    words, and the last one ends exactly at [b]. *)
Fixpoint cells (n : nat) (h : list Z) (a b : Z) : option (list Z) :=
  match n with
  | O => None
  | S n' =>
      if b <=? a then (if a =? b then Some [] else None)
      else
        let z := size_of h a in
        if (is_value_type (ty h a) || (ty h a =? TFree)) && (2 <=? z)
        then option_map (cons a) (cells n' h (a + z) b)
        else None
  end.

(** The length field of the Tup or Str at [l] is a 16-bit word for
    which [2 + len] does not wrap. *)
Definition len_ok (h : list Z) (l : Z) : bool :=
  (0 <=? peek h (l + 1)) && (peek h (l + 1) <? 65534).

(** The structure below [l] is at most [d] references deep and made
    of cells that are value objects: a Tup slot holds nil or such a
    structure, a Vec holds a backing Tup. *)
Fixpoint good (d : nat) (cs : list Z) (h : list Z) (l : Z) : bool :=
  match d with
  | O => false
  | S d' =>
      if l =? 0 then true
      else
        mem l cs &&
        (let t := ty h l in
         if t =? TTup then len_ok h l && forallb (good d' cs h) (slots h l)
         else if t =? TVec then
           let b := peek h (l + 2) in
           negb (b =? 0) && mem b cs && (ty h b =? TTup) && len_ok h b &&
           forallb (good d' cs h) (slots h b)
         else if t =? TStr then len_ok h l
         else t =? TNum)
  end.

(** Where the active region starts: in copying mode the half of the
    heap in which [top] lies. *)
Definition region_base (m : Mode) (t : Z) : Z :=
  if is_copy m && (HeapSemiSize <=? t) then HeapSemiSize else 1.

(** A well-formed state: the active region is a sequence of cells,
    location 0 is nil, every handle holds nil or a value object whose
    structure is [good]; in copying mode the upper half is not full to
    the last word. *)
Definition wfb (d n : nat) (m : Mode) (s : Mem) : bool :=
  (Z.of_nat (length (heap s)) =? HeapSize) &&
  (1 <=? top s) &&
  (top s <? (if is_copy m then HeapSize - 1 else HeapSize)) &&
  (ty (heap s) 0 =? TNil) &&
  match cells n (heap s) (region_base m (top s)) (top s) with
  | Some cs => forallb (good d cs (heap s)) (root s)
  | None => false
  end.

Definition cell_ok (h : list Z) (a : Z) : Prop :=
  (is_value_type (ty h a) || (ty h a =? TFree)) = true /\ 2 <= size_of h a.

(** The walk of [cells] as a relation: [Cells h b a cs] when the cells
    from [a] up to [b] are [cs]. *)
Inductive Cells (h : list Z) (b : Z) : Z -> list Z -> Prop :=
| Cells_nil : Cells h b b []
| Cells_cons a cs :
    a < b -> cell_ok h a -> Cells h b (a + size_of h a) cs ->
    Cells h b a (a :: cs).

(** The state after [mark_live_loc], after [Mem::free], and after the
    sweep of the cells [cs]. *)
Definition mark_loc_st (m : Mode) (loc : Z) (s : Mem) : Mem :=
  if loc =? 0 then s
  else
    let s1 := if is_copy m then s else emit_st (ERefCount loc 1) s in
    with_live s1 (set_insert loc (live s1)).

Definition mark_all_st (m : Mode) (l : list Z) (s : Mem) : Mem :=
  fold_left (fun s x => mark_loc_st m x s) l s.

Definition init_hdr (m : Mode) (w tag : Z) : Z :=
  set_mark (set_ref_count (set_type w tag) (if is_ref_count m then 1 else 0)) 0.

Definition init_st (m : Mode) (loc tag : Z) (s : Mem) : Mem :=
  let s1 := emit_st (EInit loc tag) s in
  let s2 := if is_ref_count m then emit_st (ERefCount loc 1) s1 else s1 in
  with_heap s2 (poke (heap s) loc (init_hdr m (peek (heap s) loc) tag)).

Definition free_st (m : Mode) (loc size : Z) (s : Mem) : Mem :=
  let s1 := init_st m loc TFree s in
  emit_st (EFree loc size)
    (with_heap s1 (poke (heap s1) (loc + 1) (to_UWd size))).

Definition sweep_st (m : Mode) (cs : list Z) (s : Mem) : Mem :=
  fold_left
    (fun s l => if set_count l (live s) =? 0
                then free_st m l (size_of (heap s) l) s else s)
    cs s.

(** ** Relocation *)

(** The object at [phi l] in [h'] is the object at [l] in [h] with its
    references mapped by [phi]. *)
Definition obj_iso (phi : Z -> Z) (h h' : list Z) (l : Z) : Prop :=
  ty h' (phi l) = ty h l /\
  peek h' (phi l + 1) = peek h (l + 1) /\
  (ty h l = TStr -> str_chars h' (phi l) = str_chars h l) /\
  (ty h l = TTup -> slots h' (phi l) = map phi (slots h l)) /\
  (ty h l = TVec -> peek h' (phi l + 2) = phi (peek h (l + 2))).

(** A set of locations that contains what its members refer to. *)
Definition closed (S : Z -> Prop) (h : list Z) : Prop :=
  forall l, S l ->
    (ty h l = TTup -> forall c, In c (slots h l) -> c = 0 \/ S c) /\
    (ty h l = TVec ->
       S (peek h (l + 2)) /\ ty h (peek h (l + 2)) = TTup /\
       forall c, In c (slots h (peek h (l + 2))) -> c = 0 \/ S c).

(** The state after [move_without_forwarding] and the forwarding
    entry of [compact_live], and after the slide over the cells [cs]. *)
Definition slide_st (from z : Z) (s : Mem) : Mem :=
  let dst := top s in
  with_forwarding
    (emit_st (ECopy dst from z)
       (with_heap (with_top s (dst + z))
          (copy_heap (heap s) dst from (Z.to_nat z) 0)))
    (map_insert from dst (forwarding s)).

Definition compact_step (old_top : Z) (s : Mem) (l : Z) : Mem :=
  if 0 <? set_count l (live s) then
    if negb (old_top =? top s) then slide_st l (size_of (heap s) l) s else s
  else if old_top =? top s then with_top s l
  else s.

Definition compact_st (old_top : Z) (cs : list Z) (s : Mem) : Mem :=
  fold_left (compact_step old_top) cs s.

(** Where the forwarding table sends a location. *)
Definition fwd (f : list (Z * Z)) (l : Z) : Z :=
  match map_find l f with Some v => v | None => l end.

(** The state after [Mem::move], and after the moves of [move_live]. *)
Definition move_st (m : Mode) (from : Z) (s : Mem) : Mem :=
  let z := size_of (heap s) from in
  let dst := top s in
  let s1 := emit_st (EAlloc dst z) (with_top s (dst + z)) in
  let s2 := with_heap s1 (copy_heap (heap s) dst from (Z.to_nat z) 0) in
  let s3 := init_st m from TForward s2 in
  emit_st (ECopy dst from z) (with_heap s3 (poke (heap s3) (from + 1) dst)).

Definition moves_st (m : Mode) (l : list Z) (s : Mem) : Mem :=
  fold_left (fun s from => move_st m from s) l s.

(** What [fixup_references] leaves in an object, and in the cells [cs]. *)
Fixpoint fix_slots (psi : Z -> Z) (h : list Z) (loc : Z) (k : nat) (i : Z) : list Z :=
  match k with
  | O => h
  | S k' =>
      fix_slots psi (poke h (loc + 2 + i) (psi (peek h (loc + 2 + i)))) loc k' (i + 1)
  end.

Definition fix_obj (psi : Z -> Z) (h : list Z) (l : Z) : list Z :=
  if ty h l =? TTup then fix_slots psi h l (Z.to_nat (peek h (l + 1))) 0
  else if ty h l =? TVec then poke h (l + 2) (psi (peek h (l + 2)))
  else h.

Definition fix_heap (psi : Z -> Z) (cs : list Z) (h : list Z) : list Z :=
  fold_left (fix_obj psi) cs h.

(** What [loc_after_move] returns. *)
Definition resolve (m : Mode) (f : list (Z * Z)) (h : list Z) (c : Z) : Z :=
  if is_copy m then (if ty h c =? TForward then peek h (c + 1) else c)
  else fwd f c.

(** A reference [v] met by the fix-up of the region from [a0] to [T]
    resolves to [psi v], and what the resolution reads is not in the
    words that the fix-up rewrites. *)
Definition fix_ok (m : Mode) (psi : Z -> Z) (a0 T : Z) (f : list (Z * Z))
           (h : list Z) (v : Z) : Prop :=
  0 <= v /\ v + 1 < HeapSize /\
  (is_copy m = true -> v <= a0 \/ T <= v) /\
  resolve m f h v = psi v.

Definition refs_ok (m : Mode) (psi : Z -> Z) (a0 T : Z) (f : list (Z * Z))
           (h : list Z) (l : Z) : Prop :=
  is_value_type (ty h l) = true /\
  (ty h l = TTup ->
     len_ok h l = true /\
     forall j, 0 <= j < peek h (l + 1) ->
               fix_ok m psi a0 T f h (peek h (l + 2 + j))) /\
  (ty h l = TVec -> fix_ok m psi a0 T f h (peek h (l + 2))).

(** ** Values *)

Inductive Val : Type :=
| VNil
| VNum (n : Z)
| VStr (chars : list Z)
| VTup (elems : list Val)
| VVec (elems : list Val)
| VOther (tag : Z).

(** The value that the handle API shows at [l], down to depth [d]:
    a Num by its signed value, a Str by its characters, a Tup by its
    slots, a Vec by the first [len] slots of its backing Tup. *)
Fixpoint value (d : nat) (h : list Z) (l : Z) : Val :=
  match d with
  | O => VOther (ty h l)
  | S d' =>
      let t := ty h l in
      if t =? TNil then VNil
      else if t =? TNum then VNum (to_SWd (peek h (l + 1)))
      else if t =? TStr then VStr (str_chars h l)
      else if t =? TTup then VTup (map (value d' h) (slots h l))
      else if t =? TVec then
        VVec (map (value d' h)
                (firstn (Z.to_nat (peek h (l + 1))) (slots h (peek h (l + 2)))))
      else VOther t
  end.

(** Every location on which marking from the handles calls the visit
    function, and the live set that results. *)
Definition marked (d : nat) (h : list Z) (roots : list Z) : list Z :=
  flat_map (fun r => r :: visit_seq d h r) roots.

Definition live_of (l : list Z) : list Z :=
  fold_left (fun acc x => if x =? 0 then acc else set_insert x acc) l [].

(** The state after [fixup_references] when the handles are [rs] and
    the region holds the images of the live cells [L]. *)
Definition fixed_st (phi : Z -> Z) (L rs : list Z) (s1 : Mem) : Mem :=
  with_heap (with_root s1 (map phi rs))
            (fix_heap phi (map phi L) (heap s1)).

(** The state after a mark-compact collection of the cells [cs]. *)
Definition compacted_st (d : nat) (cs : list Z) (s : Mem) : Mem :=
  compact_st (top s) cs
    (mark_all_st MARK_COMPACT_GC (marked d (heap s) (root s))
       (with_live (with_forwarding s []) [])).

Definition gc_mc_st (d : nat) (cs : list Z) (s : Mem) : Mem :=
  let s1 := compacted_st d cs s in
  if top s1 <? top s then
    emit_st (EFree (top s1) (top s - top s1))
      (fixed_st (fwd (forwarding s1)) (live_of (marked d (heap s) (root s)))
         (root s) s1)
  else s1.

(** What the moves of the copying collector need: the cells [Lr] still
    to move lie in ascending order below [F1], apart from each other,
    and the room up to [B] that their copies will take is in the heap
    and away from them. *)
Definition movable (F1 B : Z) (Lr : list Z) (s : Mem) : Prop :=
  StronglySorted Z.lt Lr /\
  (forall l, In l Lr ->
     1 <= l /\ l + size_of (heap s) l <= F1 /\ cell_ok (heap s) l) /\
  (forall l l', In l Lr -> In l' Lr -> l < l' ->
     l + size_of (heap s) l <= l') /\
  1 <= top s /\
  top s + sumZ (map (size_of (heap s)) Lr) <= B /\
  ((forall l, In l Lr -> B <= l) \/ F1 <= top s) /\
  Z.of_nat (length (heap s)) = HeapSize /\ F1 <= HeapSize /\ B < HeapSize.

(** The state after a copying collection. *)
Definition moved_st (d : nat) (s : Mem) : Mem :=
  moves_st COPY_GC (live_of (marked d (heap s) (root s)))
    (with_top
       (mark_all_st COPY_GC (marked d (heap s) (root s)) (with_live s []))
       (if HeapSemiSize <=? top s then 1 else HeapSemiSize)).

Definition gc_copy_st (d : nat) (s : Mem) : Mem :=
  let s1 := moved_st d s in
  emit_st (if HeapSemiSize <=? top s1 then EFree 1 (HeapSemiSize - 1)
           else EFree HeapSemiSize HeapSemiSize)
    (fixed_st (resolve COPY_GC (forwarding s1) (heap s1))
       (live_of (marked d (heap s) (root s))) (root s) s1).

(** The state that a collection leaves, where it has moved each
    location, and the cells of the region afterwards. *)
Definition gc_st (m : Mode) (d : nat) (cs : list Z) (s : Mem) : Mem :=
  match m with
  | REF_COUNT_GC => s
  | MARK_SWEEP_GC =>
      sweep_st MARK_SWEEP_GC cs
        (mark_all_st MARK_SWEEP_GC (marked d (heap s) (root s)) (with_live s []))
  | COPY_GC => gc_copy_st d s
  | MARK_COMPACT_GC => gc_mc_st d cs s
  end.

Definition gc_phi (m : Mode) (d : nat) (cs : list Z) (s : Mem) : Z -> Z :=
  match m with
  | COPY_GC => resolve COPY_GC (forwarding (moved_st d s)) (heap (moved_st d s))
  | MARK_COMPACT_GC => fwd (forwarding (compacted_st d cs s))
  | _ => fun x => x
  end.

Definition gc_cells (m : Mode) (d : nat) (cs : list Z) (s : Mem) : list Z :=
  match m with
  | COPY_GC | MARK_COMPACT_GC =>
      map (gc_phi m d cs s) (live_of (marked d (heap s) (root s)))
  | _ => cs
  end.

(** The fuel that a collection of a structure of depth [d] needs. *)
Definition gc_fuel (d : nat) : nat := d + 2 * Z.to_nat HeapSize + 2.

(** [wfb] as a proposition, with the cells named. *)
Definition WF (d : nat) (m : Mode) (s : Mem) (cs : list Z) : Prop :=
  Z.of_nat (length (heap s)) = HeapSize /\
  1 <= top s /\
  top s < (if is_copy m then HeapSize - 1 else HeapSize) /\
  ty (heap s) 0 = TNil /\
  Cells (heap s) (top s) (region_base m (top s)) cs /\
  forall r, In r (root s) -> good d cs (heap s) r = true.

(** What a collection does to the live structure: every handle and
    every live object is moved by [phi], references included. *)
Definition relocates (phi : Z -> Z) (d : nat) (s s' : Mem) : Prop :=
  root s' = map phi (root s) /\
  phi 0 = 0 /\
  ty (heap s') 0 = TNil /\
  forall l, In l (live_of (marked d (heap s) (root s))) ->
            obj_iso phi (heap s) (heap s') l.

(** ** Concrete states *)

(** The state a computation leaves (the start state if it fails). *)
Definition after {A} (c : M A) (s : Mem) : Mem :=
  match c s with Ok (_, s') => s' | _ => s end.

(** The line ["3,al,x"] and the line ["1,2,3,4,5,6"] as StrRef at 1. *)
Definition line_state (m : Mode) : Mem :=
  after (StrRef_new m 10 [51; 44; 97; 108; 44; 120]) (boot m).
Definition long_line_state (m : Mode) : Mem :=
  after (StrRef_new m 20 [49; 44; 50; 44; 51; 44; 52; 44; 53; 44; 54]) (boot m).

(** A Num at 1, a Tup of one slot at 3 that holds it, and a Tup of three
    slots at 6 whose first two slots hold the Tup at 3; all three
    handles are still in the root list. *)
Definition shared_tree_state (m : Mode) : Mem :=
  after (c <- NumRef_new m 7 ;;
         b <- TupRef_new m 10 1 ;;
         call_Tup_set m 10 b 0 c ;;
         a <- TupRef_new m 10 3 ;;
         call_Tup_set m 10 a 0 b ;;
         call_Tup_set m 10 a 1 b) (boot m).

(** Reference counting: a Num at 1 and a Tup of 253 slots at 3, of
    which the first 252 hold the Num; the Num is also held by its own
    handle and by the two by-value handle copies that a call
    [t.set(0, n)] has made when it enters [Tup::set]. *)
Definition saturated_state : Mem :=
  after (num <- NumRef_new REF_COUNT_GC 7 ;;
         t <- TupRef_new REF_COUNT_GC 300 253 ;;
         for_n 252 (fun i => call_Tup_set REF_COUNT_GC 10 t i num) 0 ;;
         _ <- ObjRef_share REF_COUNT_GC num ;;
         _ <- ObjRef_share REF_COUNT_GC num ;;
         ret tt) (boot REF_COUNT_GC).

(** Copying mode: a Num at 1 and a Str of 997 characters at 3, which
    takes the lower half past [HeapSemiSize]. *)
Definition overflow_state : Mem :=
  after (_ <- NumRef_new COPY_GC 7 ;; StrRef_new_len COPY_GC 997)
        (boot COPY_GC).

(** Mark-compact mode: three Num objects A, B, C at 1, 3 and 5, after
    the handle of B has been destroyed. *)
Definition abc_state : Mem :=
  after (_ <- NumRef_new MARK_COMPACT_GC 1 ;;
         _ <- NumRef_new MARK_COMPACT_GC 2 ;;
         _ <- NumRef_new MARK_COMPACT_GC 3 ;;
         ObjRef_destroy MARK_COMPACT_GC 10 1) (boot MARK_COMPACT_GC).

(** [VecRef v(cap); NumRef x(7);]: the two handles and the state. *)
Definition fresh_vec (m : Mode) (cap : Z) : res ((Z * Z) * Mem) :=
  (v <- VecRef_new m 20 cap ;; x <- NumRef_new m 7 ;; ret (v, x)) (boot m).

(** * Further notions *)

(** A set of locations that holds the non-nil slots of its Tups and the
    backing Tup of its Vecs. *)
Definition refs_closed (S : Z -> Prop) (h : list Z) : Prop :=
  forall l, S l ->
    (ty h l = TTup -> forall c, In c (slots h l) -> c <> 0 -> S c) /\
    (ty h l = TVec -> peek h (l + 2) <> 0 -> S (peek h (l + 2))).

(** The cells of [cs] that are not in the live set [L]. *)
Definition dead_cells (L cs : list Z) : list Z :=
  filter (fun l => set_count l L =? 0) cs.

(** Mark-and-sweep mode: three Num objects at 1, 3 and 5, after the
    handle of the second has been destroyed. *)
Definition abc_state_ms : Mem :=
  after (_ <- NumRef_new MARK_SWEEP_GC 1 ;;
         _ <- NumRef_new MARK_SWEEP_GC 2 ;;
         _ <- NumRef_new MARK_SWEEP_GC 3 ;;
         ObjRef_destroy MARK_SWEEP_GC 10 1) (boot MARK_SWEEP_GC).

(** One Num of value 7 at 1, with its handle. *)
Definition one_num_state (m : Mode) : Mem := after (NumRef_new m 7) (boot m).

(** ** Decimal numerals *)

(** The number that the digit characters [ds] write in base ten. *)
Definition decimal (ds : list Z) : Z :=
  fold_left (fun a c => a * 10 + (c - 48)) ds 0.

(** [v], negated when [k] is odd. *)
Definition signed (k : nat) (v : Z) : Z := if Nat.even k then v else - v.

(** ** Comparison *)

(** What [Obj::equals] answers on the heap [h]. *)
Definition equals_val (h : list Z) (a b : Z) : bool :=
  if ty h a =? TNum then
    (ty h b =? TNum) && (to_SWd (peek h (a + 1)) =? to_SWd (peek h (b + 1)))
  else if ty h a =? TStr then
    (ty h b =? TStr) && (peek h (a + 1) =? peek h (b + 1))
    && ((peek h (a + 1) =? 0) || (peek h (a + 2) =? peek h (b + 2)))
  else false.

(** ** Sequences of calls *)

(** [v.push(x)] for each [x] of [xs], in order. *)
Fixpoint pushes (m : Mode) (n : nat) (v : Z) (xs : list Z) : M unit :=
  match xs with
  | [] => ret tt
  | x :: r => VecRef_push m n v x ;; pushes m n v r
  end.

(** How many times [x] occurs in [xs]. *)
Definition occurrences (x : Z) (xs : list Z) : Z :=
  Z.of_nat (length (filter (Z.eqb x) xs)).


(** ** Reference counting *)

(** Two slot values do not name overlapping two-word headers: one of
    them is nil, or they lie at least two words apart. *)
Definition apart (c c' : Z) : Prop :=
  c = 0 \/ c' = 0 \/ c + 1 < c' \/ c' + 1 < c.

(** The non-nil locations among [cl]. *)
Definition non_nil (cl : list Z) : list Z := filter (fun c => negb (c =? 0)) cl.

(** Reference counting: a Tup of two slots at 1 that holds a Num (at 5)
    and a Str (at 7), after the handles of the Num and the Str have
    been destroyed; only the handle of the Tup is left. *)
Definition owned_pair_state : Mem :=
  after (t <- TupRef_new REF_COUNT_GC 10 2 ;;
         x <- NumRef_new REF_COUNT_GC 7 ;;
         y <- StrRef_new REF_COUNT_GC 10 [104; 105] ;;
         call_Tup_set REF_COUNT_GC 10 t 0 x ;;
         call_Tup_set REF_COUNT_GC 10 t 1 y ;;
         ObjRef_destroy REF_COUNT_GC 10 0 ;;
         ObjRef_destroy REF_COUNT_GC 10 0) (boot REF_COUNT_GC).


(** ** Reading a Vec of rows *)

(** What [get(j)] answers on the Tup or Vec at [r]: the word of slot
    [j], or nothing when an assertion of [Tup::get] or [Vec::get] fails
    (for a Vec, [j] is checked against its length and then against the
    length of its backing Tup). *)
Definition elem_at (h : list Z) (r j : Z) : option Z :=
  if ty h r =? TTup then
    if j <? peek h (r + 1) then Some (peek h (r + 2 + j)) else None
  else if ty h r =? TVec then
    if (j <? peek h (r + 1)) && (j <? peek h (peek h (r + 2) + 1))
    then Some (peek h (peek h (r + 2) + 2 + j)) else None
  else None.

(** The Tup or Vec at [r] lies inside the heap, and a Vec does not
    overlap its backing Tup. *)
Definition container_ok (h : list Z) (r : Z) : bool :=
  (0 <=? r) && (r + 1 <? HeapSize) &&
  (if ty h r =? TTup then r + 2 + peek h (r + 1) <=? HeapSize
   else if ty h r =? TVec then
     let t := peek h (r + 2) in
     (r + 2 <? HeapSize) && (0 <=? t) && (0 <=? peek h (t + 1)) &&
     (t + 2 + peek h (t + 1) <=? HeapSize) &&
     ((r + 2 <? t) || (t + 2 + peek h (t + 1) <=? r))
   else true).

(** A Vec at 1 (backing Tup at 4) whose only row is the Tup at 8, which
    holds the Num at 12 in its slot 1; and the same with a Vec at 8
    (backing Tup at 11) as the row, the Num at 15 being its element 0. *)
Definition tup_row_state (m : Mode) : Mem :=
  after (_ <- VecRef_new m 20 2 ;; _ <- TupRef_new m 20 2 ;;
         _ <- NumRef_new m 7 ;;
         call_Tup_set m 20 8 1 12 ;; VecRef_push m 20 1 8) (boot m).
Definition vec_row_state (m : Mode) : Mem :=
  after (_ <- VecRef_new m 20 2 ;; _ <- VecRef_new m 20 2 ;;
         _ <- NumRef_new m 7 ;;
         VecRef_push m 20 8 15 ;; VecRef_push m 20 1 8) (boot m).

(** Element [j] of row [i] of the Vec at [v], as [get(i, j)] answers. *)
Definition cell (h : list Z) (v i j : Z) : option Z :=
  match elem_at h v i with
  | Some r => elem_at h r j
  | None => None
  end.

(** The indices [0, 1, ..., len - 1]. *)
Definition indices (len : Z) : list Z := map Z.of_nat (seq 0 (Z.to_nat len)).

(** Whether some row of the Vec at [v] has an element [j] that
    [Obj::equals] finds equal to [obj]. *)
Definition some_row_equals (h : list Z) (v j obj : Z) : bool :=
  existsb (fun i => match cell h v i j with
                    | Some x => equals_val h obj x
                    | None => false
                    end)
          (indices (peek h (v + 1))).

(** Two rows pushed on a Vec: the Vec at 1 (backing Tup at 4) holds the
    Tup at 8, whose slot 0 is the Num 7 at 16, and the Tup at 12, whose
    slot 0 is the Num 9 at 18; the Num 9 at 20 is in no row. *)
Definition two_rows_state (m : Mode) : Mem :=
  after (_ <- VecRef_new m 20 2 ;; _ <- TupRef_new m 20 2 ;;
         _ <- TupRef_new m 20 2 ;;
         _ <- NumRef_new m 7 ;; _ <- NumRef_new m 9 ;; _ <- NumRef_new m 9 ;;
         call_Tup_set m 20 8 0 16 ;; call_Tup_set m 20 12 0 18 ;;
         VecRef_push m 20 1 8 ;; VecRef_push m 20 1 12) (boot m).

(** Under reference counting: the Num at 1, and the Vec at 3 (backing
    Tup at 6, two slots) on which it was pushed twice; the handle of
    the Vec is the newest. *)
Definition num_vec_state : Mem :=
  after (_ <- NumRef_new REF_COUNT_GC 7 ;; _ <- VecRef_new REF_COUNT_GC 20 2 ;;
         pushes REF_COUNT_GC 20 3 [1; 1]) (boot REF_COUNT_GC).

(** ** Mark-compact mode: three objects behind garbage, and a Vec *)

(** [VecRef v(1); NumRef x(7); v.push(x); v.push(x);] then the Num
    objects A, B, C at 13, 15 and 17, after the handle of B has been
    destroyed.  The second push has grown the Vec: its first backing
    Tup, at 4, is garbage below A. *)
Definition grown_abc_state : Mem :=
  after (_ <- VecRef_new MARK_COMPACT_GC 20 1 ;;
         _ <- NumRef_new MARK_COMPACT_GC 7 ;;
         pushes MARK_COMPACT_GC 20 1 [7; 7] ;;
         _ <- NumRef_new MARK_COMPACT_GC 1 ;;
         _ <- NumRef_new MARK_COMPACT_GC 2 ;;
         _ <- NumRef_new MARK_COMPACT_GC 3 ;;
         ObjRef_destroy MARK_COMPACT_GC 10 1) (boot MARK_COMPACT_GC).

(** [NumRef a(1); NumRef b(2); VecRef c(2);], after the handle of [b]
    has been destroyed: A at 1, B at 3 and, for C, the Vec at 5 with
    its backing Tup at 8. *)
Definition abc_vec_state : Mem :=
  after (_ <- NumRef_new MARK_COMPACT_GC 1 ;;
         _ <- NumRef_new MARK_COMPACT_GC 2 ;;
         _ <- VecRef_new MARK_COMPACT_GC 20 2 ;;
         ObjRef_destroy MARK_COMPACT_GC 10 1) (boot MARK_COMPACT_GC).

(** ** A heap without room *)

(** The line ["3,al,x"] as a Str at 1, followed by a Str of 1980
    characters: [top] is 1991. *)
Definition full_line_state (m : Mode) : Mem :=
  after (_ <- StrRef_new m 10 [51; 44; 97; 108; 44; 120] ;;
         StrRef_new_len m 1980) (boot m).

(** * Basic facts about the monad and the heap array *)

Lemma bind_eq {A B} (c : M A) (k : A -> M B) s a s1 :
  c s = Ok (a, s1) -> bind c k s = k a s1.
Proof. intros H. unfold bind. now rewrite H. Qed.

Lemma bind_abort {A B} (c : M A) (k : A -> M B) s :
  c s = Abort -> bind c k s = Abort.
Proof. intros H. unfold bind. now rewrite H. Qed.

Lemma bind_inv {A B} (c : M A) (k : A -> M B) s b s' :
  bind c k s = Ok (b, s') ->
  exists a s1, c s = Ok (a, s1) /\ k a s1 = Ok (b, s').
Proof.
  unfold bind. destruct (c s) as [[a s1]| |]; try discriminate.
  intros H. now exists a, s1.
Qed.

Lemma length_upd n v l : length (upd n v l) = length l.
Proof.
  revert n. induction l as [|x l IH]; intros [|n]; simpl; auto.
Qed.

Lemma nth_upd_eq n v l d : (n < length l)%nat -> nth n (upd n v l) d = v.
Proof.
  revert n. induction l as [|x l IH]; intros [|n]; simpl; intros H;
    try lia; auto. apply IH. lia.
Qed.

Lemma nth_upd_neq n m v l d : n <> m -> nth n (upd m v l) d = nth n l d.
Proof.
  revert n m. induction l as [|x l IH]; intros [|n] [|m]; simpl; intros H;
    auto; try congruence.
Qed.

Lemma length_poke h i v : length (poke h i v) = length h.
Proof. apply length_upd. Qed.

Lemma peek_poke_eq h i v :
  0 <= i < Z.of_nat (length h) -> peek (poke h i v) i = v.
Proof. intros H. unfold peek, poke. apply nth_upd_eq. lia. Qed.

Lemma peek_poke_neq h i j v :
  0 <= i -> 0 <= j -> i <> j -> peek (poke h j v) i = peek h i.
Proof. intros Hi Hj H. unfold peek, poke. apply nth_upd_neq. lia. Qed.

Lemma in_heap_true i : 0 <= i < HeapSize -> in_heap i = true.
Proof. unfold in_heap. intros H. apply andb_true_intro. split; lia. Qed.

Lemma in_heap_iff i : in_heap i = true <-> 0 <= i < HeapSize.
Proof.
  unfold in_heap. rewrite andb_true_iff, Z.leb_le, Z.ltb_lt. tauto.
Qed.

Lemma load_ok i s : 0 <= i < HeapSize -> load i s = Ok (peek (heap s) i, s).
Proof. intros H. unfold load. now rewrite in_heap_true. Qed.

Lemma store_ok i v s :
  0 <= i < HeapSize -> store i v s = Ok (tt, with_heap s (poke (heap s) i v)).
Proof. intros H. unfold store. now rewrite in_heap_true. Qed.

Lemma to_UWd_small x : 0 <= x < 65536 -> to_UWd x = x.
Proof. intros H. unfold to_UWd. now apply Z.mod_small. Qed.

Lemma emit_ok e s : emit e s = Ok (tt, emit_st e s).
Proof. reflexivity. Qed.

Lemma heap_emit_st e s : heap (emit_st e s) = heap s.
Proof. unfold emit_st. now destruct (log_ready s). Qed.
Lemma top_emit_st e s : top (emit_st e s) = top s.
Proof. unfold emit_st. now destruct (log_ready s). Qed.
Lemma root_emit_st e s : root (emit_st e s) = root s.
Proof. unfold emit_st. now destruct (log_ready s). Qed.
Lemma live_emit_st e s : live (emit_st e s) = live s.
Proof. unfold emit_st. now destruct (log_ready s). Qed.
Lemma forwarding_emit_st e s : forwarding (emit_st e s) = forwarding s.
Proof. unfold emit_st. now destruct (log_ready s). Qed.
Lemma log_ready_emit_st e s : log_ready (emit_st e s) = log_ready s.
Proof. unfold emit_st. destruct (log_ready s) eqn:E; simpl; auto. Qed.

(** ** The allocation frontier *)

Lemma reserve_eq size s :
  reserve size s =
  if to_UWd (top s + size) <? HeapSize
  then Ok (top s, emit_st (EAlloc (top s) size) (with_top s (to_UWd (top s + size))))
  else Abort.
Proof.
  unfold reserve, bind, gets, modify, assert, log_alloc_mem. simpl.
  destruct (to_UWd (top s + size) <? HeapSize); reflexivity.
Qed.

Lemma for_n_store_zero k : forall base i s,
  0 <= base + i -> base + i + Z.of_nat k <= HeapSize ->
  exists s', for_n k (fun j => store (base + j) 0) i s = Ok (tt, s') /\
             top s' = top s /\ root s' = root s /\ out s' = out s /\
             length (heap s') = length (heap s).
Proof.
  induction k as [|k IH]; intros base i s H0 H1.
  - exists s. simpl. unfold ret. auto.
  - simpl for_n. rewrite (bind_eq _ _ _ _ _ (store_ok (base + i) 0 s ltac:(lia))).
    destruct (IH base (i + 1) (with_heap s (poke (heap s) (base + i) 0))
                ltac:(lia) ltac:(lia)) as (s' & E & Ht & Hr & Ho & Hl).
    exists s'. rewrite E. simpl in *. rewrite length_poke in Hl. auto.
Qed.

Lemma bind_assoc {A B C} (c : M A) (k1 : A -> M B) (k2 : B -> M C) s :
  bind (bind c k1) k2 s = bind c (fun a => bind (k1 a) k2) s.
Proof. unfold bind. destruct (c s) as [[a s1]| |]; reflexivity. Qed.

Lemma bind_ret {A B} (a : A) (k : A -> M B) s : bind (ret a) k s = k a s.
Proof. reflexivity. Qed.

Lemma bind_timeout {A B} (c : M A) (k : A -> M B) s :
  c s = Timeout -> bind c k s = Timeout.
Proof. intros H. unfold bind. now rewrite H. Qed.

Lemma bind_cong {A B} (c : M A) (k1 k2 : A -> M B) s :
  (forall a s1, c s = Ok (a, s1) -> k1 a s1 = k2 a s1) ->
  bind c k1 s = bind c k2 s.
Proof.
  intros H. unfold bind. destruct (c s) as [[a s1]| |]; auto.
Qed.

(** * Relations between the state before and after a computation *)

Section Preserves.

Variable R : Mem -> Mem -> Prop.
Hypothesis R_pre : preorder R.

Let R_refl : forall s, R s s := proj1 R_pre.
Let R_trans : forall s1 s2 s3, R s1 s2 -> R s2 s3 -> R s1 s3 := proj2 R_pre.

Lemma preserves_ret {A} (a : A) : preserves R (ret a).
Proof. intros s b s' H. inversion H; subst. apply R_refl. Qed.

Lemma preserves_abort {A} : preserves R (@abort A).
Proof. intros s b s' H. discriminate. Qed.

Lemma preserves_timeout {A} : preserves R (@timeout A).
Proof. intros s b s' H. discriminate. Qed.

Lemma preserves_bind {A B} (c : M A) (k : A -> M B) :
  preserves R c -> (forall a, preserves R (k a)) -> preserves R (bind c k).
Proof.
  intros Hc Hk s b s' H. apply bind_inv in H. destruct H as (a & s1 & H1 & H2).
  eapply R_trans; [eapply Hc | eapply Hk]; eauto.
Qed.

Lemma preserves_gets {A} (f : Mem -> A) : preserves R (gets f).
Proof. intros s b s' H. inversion H; subst. apply R_refl. Qed.

Lemma preserves_assert b : preserves R (assert b).
Proof. destruct b; [apply preserves_ret | apply preserves_abort]. Qed.

Lemma preserves_lift {A} (r : res A) : preserves R (lift r).
Proof.
  intros s b s' H. unfold lift in H. destruct r; inversion H; subst. apply R_refl.
Qed.

Lemma preserves_load i : preserves R (load i).
Proof.
  intros s b s' H. unfold load in H. destruct (in_heap i); inversion H; subst.
  apply R_refl.
Qed.

Lemma preserves_modify f : (forall s, R s (f s)) -> preserves R (modify f).
Proof. intros Hf s b s' H. inversion H; subst. apply Hf. Qed.

Lemma preserves_store i v :
  (forall s h, R s (with_heap s h)) -> preserves R (store i v).
Proof.
  intros Hh s b s' H. unfold store in H. destruct (in_heap i); inversion H; subst.
  apply Hh.
Qed.

Lemma preserves_for_n k body :
  (forall i, preserves R (body i)) -> forall i, preserves R (for_n k body i).
Proof.
  intros Hb. induction k as [|k IH]; intros i; simpl.
  - apply preserves_ret.
  - apply preserves_bind; auto.
Qed.

Lemma preserves_for_field {A} n bound (body : Z -> A -> M A) :
  preserves R bound -> (forall i a, preserves R (body i a)) ->
  forall i a, preserves R (for_field n bound body i a).
Proof.
  intros Hbd Hb. induction n as [|n IH]; intros i a; simpl.
  - apply preserves_timeout.
  - apply preserves_bind; auto. intros b. destruct (i <? b).
    + apply preserves_bind; auto.
    + apply preserves_ret.
Qed.

Lemma preserves_each {A} (f : A -> M unit) l :
  (forall x, preserves R (f x)) -> preserves R (each f l).
Proof.
  intros Hf. induction l as [|x l IH]; simpl.
  - apply preserves_ret.
  - apply preserves_bind; auto.
Qed.

End Preserves.

Ltac pre_asm := try match goal with |- preorder _ => assumption end.

(** Structural decomposition of a [preserves] goal. *)
Ltac pres_step :=
  match goal with
  | |- preserves _ (ret _) => apply preserves_ret; pre_asm
  | |- preserves _ abort => apply preserves_abort
  | |- preserves _ timeout => apply preserves_timeout
  | |- preserves _ (gets _) => apply preserves_gets; pre_asm
  | |- preserves _ (assert _) => apply preserves_assert; pre_asm
  | |- preserves _ (lift _) => apply preserves_lift; pre_asm
  | |- preserves _ (load _) => apply preserves_load; pre_asm
  | |- preserves _ (read_barrier _) => apply preserves_ret; pre_asm
  | |- preserves _ (bind _ _) =>
      apply preserves_bind; pre_asm; [ | intros ?]
  | |- preserves _ (for_n _ _ _) =>
      apply preserves_for_n; pre_asm; intros ?
  | |- preserves _ (for_field _ _ _ _ _) =>
      apply preserves_for_field; pre_asm; [ | intros ? ?]
  | |- preserves _ (each _ _) =>
      apply preserves_each; pre_asm; intros ?
  | |- preserves _ (if ?b then _ else _) => destruct b
  | |- preserves _ (match ?x with _ => _ end) => destruct x
  | |- preserves _ (let _ := _ in _) => cbv zeta
  end.

Ltac pres := repeat pres_step; auto.

(** * The header word and the heap array, continued *)

Lemma hdr_ref_count_range w : 0 <= hdr_ref_count w < 256.
Proof. unfold hdr_ref_count. apply Z.mod_pos_bound. lia. Qed.

Lemma hdr_type_range w : 0 <= hdr_type w < 16.
Proof. unfold hdr_type. apply Z.mod_pos_bound. lia. Qed.

Lemma hdr_ref_count_set w r : hdr_ref_count (set_ref_count w r) = r mod 256.
Proof.
  unfold set_ref_count, hdr_ref_count.
  pose proof (Z.mod_pos_bound r 256 ltac:(lia)).
  pose proof (Z.div_mod w 256 ltac:(lia)).
  replace (w - w mod 256 + r mod 256) with (r mod 256 + (w / 256) * 256) by lia.
  rewrite Z.mod_add by lia. apply Z.mod_small. lia.
Qed.

Lemma set_ref_count_set w a b : set_ref_count (set_ref_count w a) b = set_ref_count w b.
Proof.
  unfold set_ref_count at 1. rewrite hdr_ref_count_set.
  unfold set_ref_count. lia.
Qed.

Lemma set_ref_count_same w : set_ref_count w (hdr_ref_count w) = w.
Proof.
  unfold set_ref_count. pose proof (hdr_ref_count_range w).
  rewrite (Z.mod_small (hdr_ref_count w)) by lia. lia.
Qed.

Lemma hdr_type_set_ref_count w r : hdr_type (set_ref_count w r) = hdr_type w.
Proof.
  unfold set_ref_count, hdr_ref_count, hdr_type.
  pose proof (Z.mod_pos_bound r 256 ltac:(lia)).
  pose proof (Z.div_mod w 256 ltac:(lia)).
  replace (w - w mod 256 + r mod 256) with (r mod 256 + (w / 256) * 256) by lia.
  replace 512 with (256 * 2) by lia.
  rewrite <- !Z.div_div by lia.
  rewrite Z.div_add by lia. rewrite (Z.div_small (r mod 256)) by lia.
  reflexivity.
Qed.

Lemma upd_same n l d : upd n (nth n l d) l = l.
Proof.
  revert n. induction l as [|x l IH]; intros [|n]; simpl; auto.
  now rewrite IH.
Qed.

Lemma upd_upd n a b l : upd n b (upd n a l) = upd n b l.
Proof.
  revert n. induction l as [|x l IH]; intros [|n]; simpl; auto.
  now rewrite IH.
Qed.

Lemma upd_comm n m a b l : n <> m -> upd n a (upd m b l) = upd m b (upd n a l).
Proof.
  revert n m. induction l as [|x l IH]; intros [|n] [|m] H; simpl; auto;
    try congruence. rewrite IH; auto.
Qed.

Lemma poke_same h i : poke h i (peek h i) = h.
Proof. apply upd_same. Qed.

Lemma poke_poke h i a b : poke (poke h i a) i b = poke h i b.
Proof. apply upd_upd. Qed.

Lemma poke_comm h i j a b :
  0 <= i -> 0 <= j -> i <> j -> poke (poke h j b) i a = poke (poke h i a) j b.
Proof. intros Hi Hj H. apply upd_comm. lia. Qed.

Lemma peek_poke h i j v :
  0 <= i -> 0 <= j -> j < Z.of_nat (length h) ->
  peek (poke h j v) i = if i =? j then v else peek h i.
Proof.
  intros Hi Hj Hl. destruct (Z.eqb_spec i j).
  - subst. apply peek_poke_eq. lia.
  - apply peek_poke_neq; auto.
Qed.

(** ** Reference counts in reference-counting mode *)

Lemma inc_ref_count_eq loc s :
  0 <= loc < HeapSize ->
  inc_ref_count REF_COUNT_GC loc s =
  Ok (tt, emit_st (ERefCount loc ((hdr_ref_count (peek (heap s) loc) + 1) mod 256))
            (with_heap s (poke (heap s) loc
               (set_ref_count (peek (heap s) loc)
                  (hdr_ref_count (peek (heap s) loc) + 1))))).
Proof.
  intros H. unfold inc_ref_count.
  change (is_ref_count REF_COUNT_GC) with true. cbv iota.
  rewrite (bind_eq _ _ _ _ _ (load_ok loc s H)).
  cbv zeta. rewrite (bind_eq _ _ _ _ _ (store_ok loc _ s H)).
  unfold log_ref_count. rewrite emit_ok, hdr_ref_count_set. reflexivity.
Qed.

Lemma inc_ref_count_other m loc s :
  is_ref_count m = false -> inc_ref_count m loc s = Ok (tt, s).
Proof. intros H. unfold inc_ref_count. now rewrite H. Qed.

Lemma dec_ref_count_other m n loc s :
  is_ref_count m = false -> dec_ref_count m (S n) loc s = Ok (false, s).
Proof. intros H. cbn [dec_ref_count]. now rewrite H. Qed.

(** A decrement that does not reach zero. *)
Lemma dec_ref_count_eq n loc s :
  0 <= loc < HeapSize ->
  (hdr_ref_count (peek (heap s) loc) - 1) mod 256 <> 0 ->
  dec_ref_count REF_COUNT_GC (S n) loc s =
  Ok (false,
      emit_st (ERefCount loc ((hdr_ref_count (peek (heap s) loc) - 1) mod 256))
        (with_heap s (poke (heap s) loc
           (set_ref_count (peek (heap s) loc)
              (hdr_ref_count (peek (heap s) loc) - 1))))).
Proof.
  intros H Hnz. cbn [dec_ref_count].
  change (is_ref_count REF_COUNT_GC) with true. cbv iota.
  rewrite (bind_eq _ _ _ _ _ (load_ok loc s H)).
  cbv zeta. rewrite (bind_eq _ _ _ _ _ (store_ok loc _ s H)).
  unfold log_ref_count. rewrite (bind_eq _ _ _ _ _ (emit_ok _ _)).
  rewrite hdr_ref_count_set.
  destruct (Z.eqb_spec ((hdr_ref_count (peek (heap s) loc) - 1) mod 256) 0);
    [contradiction|]. reflexivity.
Qed.

Lemma unshare_other m n loc s :
  is_ref_count m = false -> unshare m (S (S n)) loc s = Ok (tt, s).
Proof.
  intros H. cbn [unshare]. destruct (loc =? 0); [reflexivity|].
  rewrite (bind_eq _ _ _ _ _ (dec_ref_count_other m n loc s H)). reflexivity.
Qed.

Lemma unshare_eq n loc s :
  0 < loc < HeapSize ->
  (hdr_ref_count (peek (heap s) loc) - 1) mod 256 <> 0 ->
  unshare REF_COUNT_GC (S (S n)) loc s =
  Ok (tt,
      emit_st (ERefCount loc ((hdr_ref_count (peek (heap s) loc) - 1) mod 256))
        (with_heap s (poke (heap s) loc
           (set_ref_count (peek (heap s) loc)
              (hdr_ref_count (peek (heap s) loc) - 1))))).
Proof.
  intros H Hnz. cbn [unshare].
  destruct (Z.eqb_spec loc 0); [lia|].
  rewrite (bind_eq _ _ _ _ _ (dec_ref_count_eq n loc s ltac:(lia) Hnz)).
  reflexivity.
Qed.

(** * Running the primitives *)

Lemma bind_load {B} i (k : Z -> M B) s :
  0 <= i < HeapSize -> bind (load i) k s = k (peek (heap s) i) s.
Proof. intros H. now rewrite (bind_eq _ _ _ _ _ (load_ok i s H)). Qed.

Lemma bind_store {B} i v (k : unit -> M B) s :
  0 <= i < HeapSize ->
  bind (store i v) k s = k tt (with_heap s (poke (heap s) i v)).
Proof. intros H. now rewrite (bind_eq _ _ _ _ _ (store_ok i v s H)). Qed.

Lemma bind_emit {B} e (k : unit -> M B) s : bind (emit e) k s = k tt (emit_st e s).
Proof. reflexivity. Qed.

Lemma bind_gets {A B} (f : Mem -> A) (k : A -> M B) s : bind (gets f) k s = k (f s) s.
Proof. reflexivity. Qed.

Lemma bind_modify {B} f (k : unit -> M B) s : bind (modify f) k s = k tt (f s).
Proof. reflexivity. Qed.

Lemma bind_assert_true {B} b (k : unit -> M B) s :
  b = true -> bind (assert b) k s = k tt s.
Proof. intros ->. reflexivity. Qed.

Ltac norm :=
  cbn [heap top forwarding live root log_ready out with_heap with_top
       with_forwarding with_live with_root with_out] in *.

(** ** Word runs *)

Lemma copy_heap_length dst src k : forall h i,
  length (copy_heap h dst src k i) = length h.
Proof.
  induction k as [|k IH]; intros h i; simpl; auto.
  now rewrite IH, length_poke.
Qed.

Lemma copy_heap_out dst src k : forall h i j,
  0 <= dst + i -> 0 <= j -> (j < dst + i \/ dst + i + Z.of_nat k <= j) ->
  peek (copy_heap h dst src k i) j = peek h j.
Proof.
  induction k as [|k IH]; intros h i j Hd Hj Ho; simpl; auto.
  rewrite IH by lia. apply peek_poke_neq; lia.
Qed.

(** The copy loop is ascending: it is correct when the destination is
    not above the source, or when the runs do not overlap. *)
Lemma copy_heap_in dst src k : forall h i j,
  0 <= dst + i -> 0 <= src + i ->
  dst + i + Z.of_nat k <= Z.of_nat (length h) ->
  (dst <= src \/ src + i + Z.of_nat k <= dst + i) ->
  i <= j < i + Z.of_nat k ->
  peek (copy_heap h dst src k i) (dst + j) = peek h (src + j).
Proof.
  induction k as [|k IH]; intros h i j Hd Hs Hl Ho Hj; [lia|]. simpl.
  destruct (Z.eq_dec j i) as [->|Hne].
  - rewrite copy_heap_out by lia. apply peek_poke_eq. lia.
  - rewrite IH; rewrite ?length_poke; try lia.
    apply peek_poke_neq; lia.
Qed.

Lemma copy_words_from k : forall dst src i s,
  0 <= dst + i -> 0 <= src + i ->
  dst + i + Z.of_nat k <= HeapSize -> src + i + Z.of_nat k <= HeapSize ->
  for_n k (fun i => v <- load (src + i) ;; store (dst + i) v) i s
  = Ok (tt, with_heap s (copy_heap (heap s) dst src k i)).
Proof.
  induction k as [|k IH]; intros dst src i s Hd Hs Hdb Hsb; simpl.
  - unfold ret. now destruct s.
  - rewrite bind_assoc, bind_load, bind_store by lia.
    rewrite IH by (norm; lia). reflexivity.
Qed.

Lemma copy_words_eq dst src k s :
  0 <= dst -> 0 <= src -> 0 <= k ->
  dst + k <= HeapSize -> src + k <= HeapSize ->
  copy_words dst src k s
  = Ok (tt, with_heap s (copy_heap (heap s) dst src (Z.to_nat k) 0)).
Proof.
  intros. unfold copy_words. apply copy_words_from; lia.
Qed.

Lemma zero_heap_length base k : forall h i,
  length (zero_heap h base k i) = length h.
Proof.
  induction k as [|k IH]; intros h i; simpl; auto.
  now rewrite IH, length_poke.
Qed.

Lemma zero_heap_out base k : forall h i j,
  0 <= base + i -> 0 <= j -> (j < base + i \/ base + i + Z.of_nat k <= j) ->
  peek (zero_heap h base k i) j = peek h j.
Proof.
  induction k as [|k IH]; intros h i j Hd Hj Ho; simpl; auto.
  rewrite IH by lia. apply peek_poke_neq; lia.
Qed.

Lemma zero_heap_in base k : forall h i j,
  0 <= base + i -> base + i + Z.of_nat k <= Z.of_nat (length h) ->
  base + i <= j < base + i + Z.of_nat k ->
  peek (zero_heap h base k i) j = 0.
Proof.
  induction k as [|k IH]; intros h i j Hd Hl Hj; [lia|]. simpl.
  destruct (Z.eq_dec j (base + i)) as [->|Hne].
  - rewrite zero_heap_out by lia. apply peek_poke_eq. lia.
  - replace (base + i + 1) with (base + (i + 1)) in * by lia.
    apply IH; rewrite ?length_poke; lia.
Qed.

Lemma zero_words_from k : forall base i s,
  0 <= base + i -> base + i + Z.of_nat k <= HeapSize ->
  for_n k (fun i => store (base + i) 0) i s
  = Ok (tt, with_heap s (zero_heap (heap s) base k i)).
Proof.
  induction k as [|k IH]; intros base i s Hd Hb; simpl.
  - unfold ret. now destruct s.
  - rewrite bind_store by lia. rewrite IH by (norm; lia). reflexivity.
Qed.

(** * The allocation bound (C2) *)

Lemma reserve_seq_ok sizes : forall s,
  0 <= top s -> Forall (fun n => 0 <= n) sizes ->
  top s + sumZ sizes < HeapSize ->
  exists locs s', reserve_seq sizes s = Ok (locs, s') /\
                  top s' = top s + sumZ sizes /\ heap s' = heap s.
Proof.
  induction sizes as [|n rest IH]; intros s Ht Hs Hsum; simpl in *.
  - exists [], s. unfold ret. repeat split; auto; lia.
  - inversion Hs as [|? ? Hn Hrest]; subst.
    assert (Hrs : 0 <= sumZ rest).
    { clear - Hrest. induction Hrest; simpl; unfold sumZ in *; simpl; lia. }
    assert (E : reserve n s =
                Ok (top s, emit_st (EAlloc (top s) n) (with_top s (top s + n)))).
    { rewrite reserve_eq, to_UWd_small by (unfold HeapSize in *; lia).
      destruct (Z.ltb_spec (top s + n) HeapSize); [reflexivity | lia]. }
    rewrite (bind_eq _ _ _ _ _ E).
    destruct (IH (emit_st (EAlloc (top s) n) (with_top s (top s + n))))
      as (locs & s' & E' & Ht' & Hh'); auto.
    { rewrite top_emit_st. simpl. lia. }
    { rewrite top_emit_st. simpl. lia. }
    rewrite (bind_eq _ _ _ _ _ E'). unfold ret.
    exists (top s :: locs), s'. rewrite Ht', Hh', top_emit_st, heap_emit_st.
    simpl. repeat split; auto; lia.
Qed.

Lemma Mem_alloc_abort size s :
  reserve size s = Abort -> Mem_alloc size s = Abort.
Proof. intros H. unfold Mem_alloc. now apply bind_abort. Qed.

(** C2, as the code has it: [reserve] asserts [top < HeapSize] after
    the addition, in every mode.  Provided the 16-bit sum does not wrap,
    [reserve n] (and [alloc n]) fails exactly when [top + n >= HeapSize]
    and otherwise returns the old [top] and advances it by [n]; a
    sequence of calls that brings [top] to [HeapSize - 1] succeeds and
    one more word then fails. *)
Theorem reserve_bound :
  forall s n, 0 <= top s < HeapSize -> 0 <= n -> top s + n < 65536 ->
    (reserve n s = Abort <-> HeapSize <= top s + n) /\
    (Mem_alloc n s = Abort <-> HeapSize <= top s + n) /\
    (top s + n < HeapSize ->
       reserve n s =
         Ok (top s, emit_st (EAlloc (top s) n) (with_top s (top s + n))) /\
       exists s', Mem_alloc n s = Ok (top s, s') /\ top s' = top s + n) /\
    (forall sizes, Forall (fun k => 0 <= k) sizes ->
       top s + sumZ sizes = HeapSize - 1 ->
       exists locs s', reserve_seq sizes s = Ok (locs, s') /\
                       top s' = HeapSize - 1 /\
                       reserve 1 s' = Abort /\ Mem_alloc 1 s' = Abort).
Proof.
  intros s n Ht Hn Hw.
  assert (R : reserve n s =
              if top s + n <? HeapSize
              then Ok (top s, emit_st (EAlloc (top s) n) (with_top s (top s + n)))
              else Abort).
  { rewrite reserve_eq, to_UWd_small by lia. reflexivity. }
  assert (A : top s + n < HeapSize ->
              exists s', Mem_alloc n s = Ok (top s, s') /\ top s' = top s + n).
  { intros Hlt. unfold Mem_alloc.
    destruct (Z.ltb_spec (top s + n) HeapSize) as [_|]; [|lia].
    rewrite (bind_eq _ _ _ _ _ R).
    destruct (for_n_store_zero (Z.to_nat n) (top s) 0
                (emit_st (EAlloc (top s) n) (with_top s (top s + n))))
      as (s' & E & Ht' & _); try lia.
    rewrite (bind_eq _ _ _ _ _ E). exists s'. split; [reflexivity|].
    rewrite Ht', top_emit_st. reflexivity. }
  split; [|split; [|split]].
  - rewrite R. destruct (Z.ltb_spec (top s + n) HeapSize); split;
      intros; try discriminate; try lia; auto.
  - split.
    + intros E. destruct (Z_lt_le_dec (top s + n) HeapSize) as [Hlt|]; auto.
      destruct (A Hlt) as (s' & E' & _). congruence.
    + intros Hge. apply Mem_alloc_abort. rewrite R.
      destruct (Z.ltb_spec (top s + n) HeapSize); auto; lia.
  - intros Hlt. split; auto. rewrite R.
    destruct (Z.ltb_spec (top s + n) HeapSize); auto; lia.
  - intros sizes Hs Hsum.
    destruct (reserve_seq_ok sizes s) as (locs & s' & E & Ht' & _); auto; try lia.
    exists locs, s'. split; auto. split; [lia|].
    assert (reserve 1 s' = Abort).
    { rewrite reserve_eq, to_UWd_small by (unfold HeapSize in *; lia).
      destruct (Z.ltb_spec (top s' + 1) HeapSize); auto; lia. }
    split; auto. now apply Mem_alloc_abort.
Qed.

(** The bound is met at [boot]: 1998 words bring [top] to 1999. *)
Lemma reserve_bound_witness :
  (reserve 1999 (boot COPY_GC) = Abort <-> HeapSize <= top (boot COPY_GC) + 1999) /\
  (exists locs s', reserve_seq [998; 1000] (boot COPY_GC) = Ok (locs, s') /\
                   top s' = HeapSize - 1 /\
                   reserve 1 s' = Abort /\ Mem_alloc 1 s' = Abort).
Proof.
  destruct (reserve_bound (boot COPY_GC) 1999) as (H1 & _ & _ & H4);
    [simpl; unfold HeapSize; lia | lia | simpl; lia |].
  split; [exact H1|].
  apply H4; [repeat constructor; lia | reflexivity].
Defined.

(** C2 as stated fails: calls that bring [top] exactly to [HeapSize]
    abort at the last one, and in copying mode a request that crosses
    the active semi-space is granted. *)
Lemma reserve_exact_fill_aborts :
  top (boot COPY_GC) + sumZ [999; 1000] = HeapSize /\
  reserve_seq [999; 1000] (boot COPY_GC) = Abort /\
  exists s', reserve 1500 (boot COPY_GC) = Ok (1, s') /\ top s' = 1501.
Proof.
  split; [reflexivity|]. split; [reflexivity|].
  eexists. split; reflexivity.
Qed.

(** * The free event of a copying collection (C3) *)

Lemma same_frees_pre : preorder same_frees.
Proof.
  split.
  - intros s. split; reflexivity.
  - intros s1 s2 s3 [A1 B1] [A2 B2]. split; congruence.
Qed.

Lemma same_frees_heap s h : same_frees s (with_heap s h).
Proof. split; reflexivity. Qed.

Lemma same_frees_emit e :
  is_free_event e = false -> preserves same_frees (emit e).
Proof.
  intros He. apply preserves_modify. intros s. unfold emit_st, same_frees, frees.
  destruct (log_ready s) eqn:E; simpl; rewrite ?E; auto.
  rewrite filter_app. simpl. rewrite He, app_nil_r. auto.
Qed.

#[local] Hint Resolve same_frees_pre same_frees_heap : core.

Ltac frees_prim :=
  match goal with
  | |- preserves same_frees (store _ _) => apply preserves_store; auto
  | |- preserves same_frees (modify _) =>
      apply preserves_modify; intros ?; split; reflexivity
  | |- preserves same_frees (emit _) => apply same_frees_emit; reflexivity
  end.

Ltac frees_tac :=
  pose proof same_frees_pre;
  repeat first [ pres_step | frees_prim ]; auto.

Lemma same_frees_Obj_type loc : preserves same_frees (Obj_type loc).
Proof. unfold Obj_type. frees_tac. Qed.

Lemma same_frees_Obj_size loc : preserves same_frees (Obj_size loc).
Proof.
  unfold Obj_size. pose proof same_frees_pre.
  apply preserves_bind; auto using same_frees_Obj_type. intros ty.
  frees_tac.
Qed.

Lemma same_frees_mark_live_loc m loc : preserves same_frees (mark_live_loc m loc).
Proof. unfold mark_live_loc, log_ref_count. frees_tac. Qed.

Lemma same_frees_Obj_traverse m n : forall loc,
  preserves same_frees (Obj_traverse n (mark_live_loc m) loc).
Proof.
  pose proof same_frees_pre.
  induction n as [|n IH]; intros loc; simpl.
  - apply preserves_timeout.
  - apply preserves_bind; auto using same_frees_Obj_type. intros ty.
    repeat first [ apply IH | apply same_frees_mark_live_loc
                 | pres_step | frees_prim ].
Qed.

Lemma same_frees_mark_live m n : preserves same_frees (mark_live m n).
Proof.
  unfold mark_live. pose proof same_frees_pre.
  repeat first [ apply same_frees_Obj_traverse | apply same_frees_mark_live_loc
               | pres_step | frees_prim ].
Qed.

Lemma same_frees_Obj_init m loc tag : preserves same_frees (Obj_init m loc tag).
Proof.
  unfold Obj_init, init_ref_count, log_init_obj, log_ref_count. frees_tac.
Qed.

Lemma same_frees_reserve size : preserves same_frees (reserve size).
Proof. unfold reserve, log_alloc_mem. frees_tac. Qed.

Lemma same_frees_Mem_move m from : preserves same_frees (Mem_move m from).
Proof.
  unfold Mem_move, copy_words, log_copy_mem. pose proof same_frees_pre.
  repeat first [ apply same_frees_Obj_size | apply same_frees_reserve
               | apply same_frees_Obj_init | pres_step | frees_prim ].
Qed.

Lemma same_frees_move_live m n : preserves same_frees (move_live m n).
Proof.
  unfold move_live. pose proof same_frees_pre.
  repeat first [ apply same_frees_mark_live | apply same_frees_Mem_move
               | pres_step | frees_prim ].
Qed.

Lemma same_frees_loc_after_move m loc : preserves same_frees (loc_after_move m loc).
Proof.
  unfold loc_after_move. pose proof same_frees_pre.
  repeat first [ apply same_frees_Obj_type | pres_step | frees_prim ].
Qed.

Lemma same_frees_fixup_handles m r : preserves same_frees (fixup_handles m r).
Proof.
  pose proof same_frees_pre. induction r as [|loc r IH]; simpl.
  - apply preserves_ret; auto.
  - repeat first [ apply same_frees_loc_after_move | apply IH
                 | pres_step | frees_prim ].
Qed.

Lemma same_frees_Obj_fixup m n loc :
  preserves same_frees (Obj_fixup_references m n loc).
Proof.
  unfold Obj_fixup_references. pose proof same_frees_pre.
  repeat first [ apply same_frees_Obj_type | apply same_frees_loc_after_move
               | pres_step | frees_prim ].
Qed.

Lemma same_frees_fixup_loop m n : forall loc,
  preserves same_frees (fixup_loop m n loc).
Proof.
  pose proof same_frees_pre. induction n as [|n IH]; intros loc; simpl.
  - apply preserves_timeout.
  - repeat first [ apply same_frees_Obj_size | apply same_frees_Obj_fixup
                 | apply IH | pres_step | frees_prim ].
Qed.

Lemma same_frees_fixup_references m n :
  preserves same_frees (fixup_references m n).
Proof.
  unfold fixup_references. pose proof same_frees_pre.
  repeat first [ apply same_frees_fixup_handles | apply same_frees_fixup_loop
               | pres_step | frees_prim ].
Qed.

(** The tail of a copying collection: whatever the fuel and the state,
    a collection that returns has appended exactly one [free] event, and
    which one is decided by the side of [HeapSemiSize] on which the new
    [top] lies. *)
Lemma gc_copy_frees n s s' :
  gc COPY_GC n s = Ok (tt, s') -> log_ready s = true ->
  frees (out s') =
  frees (out s) ++
    [if HeapSemiSize <=? top s' then EFree 1 (HeapSemiSize - 1)
     else EFree HeapSemiSize HeapSemiSize].
Proof.
  intros H Hl. simpl in H.
  apply bind_inv in H. destruct H as ([] & s1 & H1 & H).
  apply bind_inv in H. destruct H as ([] & s2 & H2 & H).
  apply bind_inv in H. destruct H as (t & s3 & H3 & H).
  inversion H3; subst t s3; clear H3.
  apply same_frees_move_live in H1. apply same_frees_fixup_references in H2.
  destruct H1 as [L1 F1], H2 as [L2 F2].
  assert (Hl2 : log_ready s2 = true) by congruence.
  assert (Hf2 : frees (out s2) = frees (out s)) by congruence.
  unfold log_free_mem in H.
  destruct (HeapSemiSize <=? top s2) eqn:E; rewrite emit_ok in H;
    inversion H; subst s'; clear H; rewrite top_emit_st, E;
    unfold emit_st; rewrite Hl2; simpl; unfold frees in *;
    rewrite filter_app; simpl; now rewrite Hf2.
Qed.

(** * The index buffers of [split] (C10) *)

Lemma split_loop_eq sep loc : forall m n i st s,
  0 <= loc -> 0 <= i ->
  i + Z.of_nat m = peek (heap s) (loc + 1) ->
  loc + 2 + peek (heap s) (loc + 1) <= HeapSize ->
  (m < n)%nat ->
  for_field n (load (loc + 1))
    (fun i st =>
       c <- load (loc + 2 + i) ;;
       if c =? sep then
         st' <- lift (split_mark i st) ;;
         ret (mkSplit (sp_found st' + 1) (i + 1) (sp_begin st') (sp_end st'))
       else ret st) i st s
  = res_state (split_chars sep (peeks (heap s) (loc + 2 + i) m) i st) s.
Proof.
  induction m as [|m IH]; intros n i st s Hloc Hi Hlen Hb Hn;
    (destruct n as [|n]; [lia|]); simpl for_field;
    rewrite (bind_eq _ _ _ _ _ (load_ok (loc + 1) s ltac:(lia))).
  - destruct (Z.ltb_spec i (peek (heap s) (loc + 1))); [lia|]. reflexivity.
  - destruct (Z.ltb_spec i (peek (heap s) (loc + 1))); [|lia].
    cbv beta. rewrite bind_assoc.
    rewrite (bind_eq _ _ _ _ _ (load_ok (loc + 2 + i) s ltac:(lia))).
    simpl peeks. simpl split_chars.
    destruct (peek (heap s) (loc + 2 + i) =? sep).
    + rewrite bind_assoc. unfold bind at 1. unfold lift.
      destruct (split_mark i st) as [st'| |]; simpl; auto.
      rewrite bind_ret, IH by lia.
      now replace (loc + 2 + (i + 1)) with (loc + 2 + i + 1) by lia.
    + rewrite bind_ret, IH by lia.
      now replace (loc + 2 + (i + 1)) with (loc + 2 + i + 1) by lia.
Qed.

(** The fields of a string *)

Lemma split_on_nonempty sep cs : split_on sep cs <> [].
Proof.
  destruct cs as [|c r]; simpl; [discriminate|].
  destruct (c =? sep); [discriminate|].
  destruct (split_on sep r); discriminate.
Qed.

Lemma split_on_length sep cs :
  Z.of_nat (length (split_on sep cs)) = count_sep sep cs + 1.
Proof.
  unfold count_sep. induction cs as [|c r IH]; simpl; auto.
  rewrite (Z.eqb_sym sep c). destruct (c =? sep); simpl.
  - lia.
  - destruct (split_on sep r) eqn:E; [now apply split_on_nonempty in E|].
    simpl in *. lia.
Qed.

Lemma split_on_join sep cs : join sep (split_on sep cs) = cs.
Proof.
  induction cs as [|c r IH]; simpl; auto.
  destruct (Z.eqb_spec c sep).
  - subst. destruct (split_on sep r) eqn:E; [now apply split_on_nonempty in E|].
    simpl in *. now rewrite IH.
  - destruct (split_on sep r) as [|seg segs] eqn:E;
      [now apply split_on_nonempty in E|].
    simpl in *. destruct segs; simpl in *; now rewrite <- IH.
Qed.

Lemma split_on_no_sep sep cs :
  Forall (fun seg => ~ In sep seg) (split_on sep cs).
Proof.
  induction cs as [|c r IH]; simpl.
  - constructor; auto.
  - destruct (Z.eqb_spec c sep).
    + constructor; auto.
    + destruct (split_on sep r) as [|seg segs]; inversion IH; subst;
        constructor; auto; simpl; intros [?|?]; auto; congruence.
Qed.

Lemma buf_set_ok b k v :
  0 <= k < Z.of_nat (length b) -> buf_set b k v = Ok (poke b k v).
Proof.
  intros H. unfold buf_set.
  destruct (Z.leb_spec 0 k); [|lia].
  destruct (Z.ltb_spec k (Z.of_nat (length b))); [|lia]. reflexivity.
Qed.

Lemma buf_set_abort b k v :
  Z.of_nat (length b) <= k -> buf_set b k v = Abort.
Proof.
  intros H. unfold buf_set.
  destruct (Z.ltb_spec k (Z.of_nat (length b))); [lia|].
  now rewrite andb_false_r.
Qed.

Lemma split_mark_ok i st :
  0 <= sp_found st < Z.of_nat (length (sp_begin st)) ->
  length (sp_end st) = length (sp_begin st) ->
  split_mark i st =
  Ok (mkSplit (sp_found st) (sp_last st)
        (poke (sp_begin st) (sp_found st) (sp_last st))
        (poke (sp_end st) (sp_found st) i)).
Proof.
  intros H He. unfold split_mark.
  rewrite buf_set_ok by lia. rewrite buf_set_ok by lia. reflexivity.
Qed.

Lemma split_mark_abort i st :
  Z.of_nat (length (sp_begin st)) <= sp_found st -> split_mark i st = Abort.
Proof. intros H. unfold split_mark. now rewrite buf_set_abort. Qed.

Lemma split_chars_spec sep cap : forall rest i st,
  Z.of_nat (length (sp_begin st)) = cap ->
  Z.of_nat (length (sp_end st)) = cap ->
  0 <= sp_found st ->
  let segs := split_on sep rest in
  let final := then_mark (split_chars sep rest i st) (i + Z.of_nat (length rest)) in
  (sp_found st + Z.of_nat (length segs) <= cap ->
   exists st',
     final = Ok st' /\
     sp_found st' = sp_found st + Z.of_nat (length segs) - 1 /\
     Z.of_nat (length (sp_begin st')) = cap /\
     Z.of_nat (length (sp_end st')) = cap /\
     (forall j, 0 <= j < sp_found st ->
        peek (sp_begin st') j = peek (sp_begin st) j /\
        peek (sp_end st') j = peek (sp_end st) j) /\
     (forall j, 0 <= j < Z.of_nat (length segs) ->
        (peek (sp_begin st') (sp_found st + j), peek (sp_end st') (sp_found st + j))
        = nth (Z.to_nat j) (bounds_cont (sp_last st) i segs) (0, 0))) /\
  (cap < sp_found st + Z.of_nat (length segs) -> final = Abort).
Proof.
  induction rest as [|c r IH]; intros i st Hb He Hf; cbv zeta.
  - simpl. split.
    + intros Hc. rewrite split_mark_ok by lia. eexists. split; [reflexivity|].
      simpl. rewrite !length_poke. repeat split; auto; try lia.
      * rewrite peek_poke_neq; auto; lia.
      * rewrite peek_poke_neq; auto; lia.
      * intros j Hj. assert (j = 0) by lia. subst j. simpl.
        rewrite !Z.add_0_r. rewrite !peek_poke_eq by lia. reflexivity.
    + intros Hc. apply split_mark_abort. lia.
  - simpl split_on. simpl split_chars. simpl length.
    replace (i + Z.of_nat (S (length r))) with (i + 1 + Z.of_nat (length r)) by lia.
    destruct (Z.eqb_spec c sep) as [Hsep|Hsep].
    + simpl length.
      destruct (Z_lt_le_dec (sp_found st) cap) as [Hlt|Hge].
      * rewrite split_mark_ok by lia. simpl.
        specialize (IH (i + 1)
                      (mkSplit (sp_found st + 1) (i + 1)
                         (poke (sp_begin st) (sp_found st) (sp_last st))
                         (poke (sp_end st) (sp_found st) i))).
        simpl in IH. rewrite !length_poke in IH.
        destruct (IH Hb He ltac:(lia)) as [IH1 IH2]. split.
        -- intros Hc. destruct IH1 as (st' & E & Hfd & Hb' & He' & Hold & Hnew);
             [lia|].
           exists st'. split; [exact E|]. repeat split; auto; try lia.
           ++ destruct (Hold j ltac:(lia)) as [A _]. rewrite A.
              rewrite peek_poke_neq; auto; lia.
           ++ destruct (Hold j ltac:(lia)) as [_ A]. rewrite A.
              rewrite peek_poke_neq; auto; lia.
           ++ intros j Hj. destruct (Z.eq_dec j 0) as [->|Hj0].
              ** simpl. rewrite !Z.add_0_r.
                 destruct (Hold (sp_found st) ltac:(lia)) as [A B].
                 rewrite A, B, !peek_poke_eq by lia. reflexivity.
              ** replace (sp_found st + j) with (sp_found st + 1 + (j - 1)) by lia.
                 rewrite (Hnew (j - 1)) by lia.
                 replace (Z.to_nat j) with (S (Z.to_nat (j - 1))) by lia.
                 simpl. rewrite Z.add_0_r.
                 destruct (split_on sep r) eqn:Es;
                   [now apply split_on_nonempty in Es|]. reflexivity.
        -- intros Hc. apply IH2. lia.
      * rewrite split_mark_abort by lia. simpl. split; [|reflexivity].
        intros Hc. pose proof (split_on_length sep r). unfold count_sep in *. lia.
    + specialize (IH (i + 1) st Hb He Hf). cbv zeta in IH.
      destruct (split_on sep r) as [|seg segs] eqn:Es;
        [now apply split_on_nonempty in Es|].
      simpl length in *. destruct IH as [IH1 IH2]. split.
      * intros Hc. destruct (IH1 Hc) as (st' & E & Hfd & Hb' & He' & Hold & Hnew).
        exists st'. split; [exact E|]. repeat split; auto; try (apply Hold; lia).
        intros j Hj. rewrite (Hnew j Hj). unfold bounds_cont.
        cbn [length]. rewrite (Nat2Z.inj_succ (length seg)).
        replace (i + Z.succ (Z.of_nat (length seg)))
          with (i + 1 + Z.of_nat (length seg)) by lia.
        reflexivity.
      * exact IH2.
Qed.

Lemma length_stack_array5 init : length (stack_array5 init) = 5%nat.
Proof.
  unfold stack_array5. rewrite length_firstn, length_app, repeat_length. lia.
Qed.

Lemma Str_split_eq n loc sep b e s :
  0 <= loc -> 0 <= peek (heap s) (loc + 1) ->
  loc + 2 + peek (heap s) (loc + 1) <= HeapSize ->
  (Z.to_nat (peek (heap s) (loc + 1)) < n)%nat ->
  Str_split n loc sep b e s =
  res_state
    (match then_mark (split_chars sep (str_chars (heap s) loc) 0 (mkSplit 0 0 b e))
             (peek (heap s) (loc + 1)) with
     | Ok st => Ok (sp_found st + 1, sp_begin st, sp_end st)
     | Abort => Abort
     | Timeout => Timeout
     end) s.
Proof.
  intros Hloc Hlen Hb Hn. unfold Str_split, str_chars.
  unfold bind at 1.
  rewrite (split_loop_eq sep loc (Z.to_nat (peek (heap s) (loc + 1)))) by lia.
  rewrite Z.add_0_r.
  destruct (split_chars sep _ 0 _) as [st| |]; simpl; auto.
  rewrite (bind_eq _ _ _ _ _ (load_ok (loc + 1) s ltac:(lia))).
  unfold bind, lift. destruct (split_mark _ st); reflexivity.
Qed.

Lemma length_peeks h a m : length (peeks h a m) = m.
Proof. revert a. induction m; intros a; simpl; auto. Qed.

(** * Traversal (C6) *)

Lemma same_heap_pre : preorder same_heap.
Proof.
  split.
  - intros s. reflexivity.
  - intros s1 s2 s3 H1 H2. unfold same_heap in *. congruence.
Qed.

Lemma each_app {A} (f : A -> M unit) l1 l2 s :
  each f (l1 ++ l2) s = bind (each f l1) (fun _ => each f l2) s.
Proof.
  revert s. induction l1 as [|x l1 IH]; intros s; simpl.
  - reflexivity.
  - rewrite bind_assoc. apply bind_cong. intros [] s1 _. apply IH.
Qed.

Section Traverse.

Variable f : Z -> M unit.
Hypothesis f_heap : forall l, preserves same_heap (f l).

Lemma Obj_traverse_heap n : forall loc, preserves same_heap (Obj_traverse n f loc).
Proof.
  pose proof same_heap_pre.
  induction n as [|n IH]; intros loc; simpl.
  - apply preserves_timeout.
  - unfold Obj_type.
    repeat first [ apply IH | apply f_heap | pres_step ].
Qed.

Lemma each_heap l : preserves same_heap (each f l).
Proof. pose proof same_heap_pre. pres. Qed.

(** The slot loop of [Tup::traverse], [m] slots before its end. *)
Lemma traverse_loop n0 h loc : forall m k i s,
  heap s = h -> 0 <= loc -> 0 <= i ->
  i + Z.of_nat m = peek h (loc + 1) ->
  loc + 2 + peek h (loc + 1) <= HeapSize ->
  (m < k)%nat ->
  for_field k (load (loc + 1))
    (fun i _ =>
       v <- load (loc + 2 + i) ;;
       f v ;;
       v' <- load (loc + 2 + i) ;;
       Obj_traverse n0 f v') i tt s
  = each (fun v => f v ;; Obj_traverse n0 f v) (peeks h (loc + 2 + i) m) s.
Proof.
  induction m as [|m IH]; intros k i s Hh Hloc Hi Hlen Hb Hk;
    (destruct k as [|k]; [lia|]); simpl for_field;
    rewrite (bind_eq _ _ _ _ _ (load_ok (loc + 1) s ltac:(lia))); rewrite Hh.
  - destruct (Z.ltb_spec i (peek h (loc + 1))); [lia|]. reflexivity.
  - destruct (Z.ltb_spec i (peek h (loc + 1))); [|lia].
    cbv beta. simpl peeks. simpl each.
    rewrite !bind_assoc.
    rewrite (bind_eq _ _ _ _ _ (load_ok (loc + 2 + i) s ltac:(lia))).
    rewrite Hh. rewrite !bind_assoc. apply bind_cong. intros [] s1 Ef.
    assert (Hh1 : heap s1 = h) by (apply f_heap in Ef; congruence).
    rewrite bind_assoc.
    rewrite (bind_eq _ _ _ _ _ (load_ok (loc + 2 + i) s1 ltac:(lia))).
    rewrite Hh1. apply bind_cong. intros [] s2 Et.
    assert (Hh2 : heap s2 = h) by (apply Obj_traverse_heap in Et; congruence).
    rewrite IH by (auto; lia).
    now replace (loc + 2 + (i + 1)) with (loc + 2 + i + 1) by lia.
Qed.

Lemma each_visit n0 d h vs :
  (forall v, In v vs -> forall s, heap s = h ->
     Obj_traverse n0 f v s = each f (visit_seq d h v) s) ->
  forall s, heap s = h ->
  each (fun v => f v ;; Obj_traverse n0 f v) vs s
  = each f (flat_map (fun v => v :: visit_seq d h v) vs) s.
Proof.
  induction vs as [|v vs IH]; intros Hv s Hh; simpl; auto.
  rewrite bind_assoc. apply bind_cong. intros [] s1 Ef.
  assert (Hh1 : heap s1 = h) by (apply f_heap in Ef; congruence).
  rewrite each_app. unfold bind at 1.
  rewrite (Hv v (or_introl eq_refl) s1 Hh1). apply bind_cong. intros [] s2 Et.
  assert (Hh2 : heap s2 = h) by (apply each_heap in Et; congruence).
  apply IH; auto. intros w Hw. apply Hv. now right.
Qed.

Lemma tup_in_heap_iff h loc :
  tup_in_heap h loc = true <->
  0 <= loc /\ 0 <= peek h (loc + 1) /\ loc + 2 + peek h (loc + 1) <= HeapSize.
Proof.
  unfold tup_in_heap. rewrite !andb_true_iff, !Z.leb_le. tauto.
Qed.

(** With enough fuel a traversal makes exactly the calls of
    [visit_seq], in that order. *)
Lemma Obj_traverse_eq d h : forall loc n s,
  tree_ok d h loc = true -> heap s = h ->
  (d + Z.to_nat HeapSize < n)%nat ->
  Obj_traverse n f loc s = each f (visit_seq d h loc) s.
Proof.
  induction d as [|d IH]; intros loc n s Hok Hh Hn; [discriminate|].
  destruct n as [|n]; [lia|].
  simpl in Hok. apply andb_true_iff in Hok. destruct Hok as [Hin Hok].
  apply in_heap_iff in Hin.
  simpl Obj_traverse. simpl visit_seq. unfold Obj_type.
  rewrite bind_assoc, (bind_eq _ _ _ _ _ (load_ok loc s Hin)), bind_ret, Hh.
  destruct (hdr_type (peek h loc) =? TTup).
  - apply andb_true_iff in Hok. destruct Hok as [Ht Hsl].
    apply tup_in_heap_iff in Ht. destruct Ht as (H0 & H1 & H2).
    rewrite forallb_forall in Hsl.
    rewrite (traverse_loop n h loc (Z.to_nat (peek h (loc + 1))))
      by (auto; unfold HeapSize in *; lia).
    rewrite Z.add_0_r. apply each_visit; auto.
    intros v Hv s' Hs'. apply IH; auto. lia.
  - destruct (hdr_type (peek h loc) =? TVec); [|reflexivity].
    apply andb_true_iff in Hok. destruct Hok as [Hin2 Hok].
    apply in_heap_iff in Hin2.
    apply andb_true_iff in Hok. destruct Hok as [Ht Hsl].
    apply tup_in_heap_iff in Ht. destruct Ht as (H0 & H1 & H2).
    rewrite forallb_forall in Hsl.
    rewrite (bind_eq _ _ _ _ _ (load_ok (loc + 2) s Hin2)), Hh.
    simpl each. apply bind_cong. intros [] s1 Ef.
    assert (Hh1 : heap s1 = h) by (apply f_heap in Ef; congruence).
    rewrite (bind_eq _ _ _ _ _ (load_ok (loc + 2) s1 Hin2)), Hh1.
    rewrite (traverse_loop n h (peek h (loc + 2))
               (Z.to_nat (peek h (peek h (loc + 2) + 1))))
      by (auto; unfold HeapSize in *; lia).
    rewrite Z.add_0_r. apply each_visit; auto.
    intros v Hv s' Hs'. apply IH; auto. lia.
Qed.

End Traverse.

Lemma mark_live_loc_heap m l : preserves same_heap (mark_live_loc m l).
Proof.
  pose proof same_heap_pre. unfold mark_live_loc, log_ref_count, emit.
  repeat first [ pres_step
               | apply preserves_modify; intros ?; unfold same_heap;
                 rewrite ?heap_emit_st; reflexivity ].
Qed.

Lemma add_live_loc_heap l : preserves same_heap (add_live_loc l).
Proof. apply preserves_modify. intros s. reflexivity. Qed.

(** C6, as the code has it: for a visit function that leaves the heap
    alone (as both visit functions of the program do), and a structure
    below [loc] that lies inside the heap and has no cycle, a traversal
    with enough fuel makes exactly the calls listed by [visit_seq], in
    that order: one call per slot of a Tup, zero or not, each followed
    by the traversal of the slot's target; for a Vec the backing Tup and
    then its slots likewise; for every other type no call. *)
Theorem traverse_calls :
  forall (f : Z -> M unit) d n loc s,
    (forall l, preserves same_heap (f l)) ->
    tree_ok d (heap s) loc = true ->
    (d + Z.to_nat HeapSize < n)%nat ->
    Obj_traverse n f loc s = each f (visit_seq d (heap s) loc) s /\
    (hdr_type (peek (heap s) loc) <> TTup ->
     hdr_type (peek (heap s) loc) <> TVec ->
     Obj_traverse n f loc s = Ok (tt, s)).
Proof.
  intros f d n loc s Hf Hok Hn.
  assert (E : Obj_traverse n f loc s = each f (visit_seq d (heap s) loc) s)
    by (apply Obj_traverse_eq; auto).
  split; [exact E|].
  intros H1 H2. rewrite E. destruct d as [|d]; [discriminate|].
  simpl. apply Z.eqb_neq in H1, H2. now rewrite H1, H2.
Qed.

Lemma traverse_calls_witness :
  tree_ok 3 (heap (shared_tree_state MARK_SWEEP_GC)) 6 = true /\
  visit_seq 3 (heap (shared_tree_state MARK_SWEEP_GC)) 6 = [3; 1; 3; 1; 0] /\
  Obj_traverse 2010 (mark_live_loc MARK_SWEEP_GC) 6 (shared_tree_state MARK_SWEEP_GC)
  = each (mark_live_loc MARK_SWEEP_GC)
      (visit_seq 3 (heap (shared_tree_state MARK_SWEEP_GC)) 6)
      (shared_tree_state MARK_SWEEP_GC).
Proof.
  split; [vm_compute; reflexivity|]. split; [vm_compute; reflexivity|].
  apply (traverse_calls (mark_live_loc MARK_SWEEP_GC) 3 2010 6
           (shared_tree_state MARK_SWEEP_GC)).
  - apply mark_live_loc_heap.
  - vm_compute; reflexivity.
  - vm_compute; lia.
Defined.

(** C6 as stated fails on the Tup at 6 with slots [3; 3; 0]: its only
    non-zero outgoing location, 3, is visited twice; location 1, which
    is not in any of its slots, is visited too; and the visit function
    is also called on the zero slot (the visit function of [log_roots]
    records it in the live set). *)
Lemma traverse_visits_more_than_slots :
  slots (heap (shared_tree_state MARK_SWEEP_GC)) 6 = [3; 3; 0] /\
  (exists s', Obj_traverse 10 (mark_live_loc MARK_SWEEP_GC) 6
                (shared_tree_state MARK_SWEEP_GC) = Ok (tt, s') /\
              skipn (length (out (shared_tree_state MARK_SWEEP_GC))) (out s')
              = [ERefCount 3 1; ERefCount 1 1; ERefCount 3 1; ERefCount 1 1]) /\
  (exists s', Obj_traverse 10 add_live_loc 6
                (shared_tree_state MARK_SWEEP_GC) = Ok (tt, s') /\
              live (shared_tree_state MARK_SWEEP_GC) = [] /\
              live s' = [0; 1; 3]).
Proof.
  split; [vm_compute; reflexivity|]. split.
  - eexists. split; [vm_compute; reflexivity|]. vm_compute. reflexivity.
  - eexists. split; [vm_compute; reflexivity|]. split; vm_compute; reflexivity.
Qed.

(** * Self-assignment of a slot under reference counting (C7) *)

Lemma with_heap_same s : with_heap s (heap s) = s.
Proof. now destruct s. Qed.

Lemma with_root_same s : with_root s (root s) = s.
Proof. now destruct s. Qed.

Lemma emit_st_with_heap e s h :
  emit_st e (with_heap s h) = with_heap (emit_st e s) h.
Proof. unfold emit_st. simpl. now destruct (log_ready s). Qed.

Lemma emit_st_with_root e s r :
  emit_st e (with_root s r) = with_root (emit_st e s) r.
Proof. unfold emit_st. simpl. now destruct (log_ready s). Qed.

Lemma with_heap_with_heap s h1 h2 : with_heap (with_heap s h1) h2 = with_heap s h2.
Proof. reflexivity. Qed.

Lemma with_root_with_root s r1 r2 : with_root (with_root s r1) r2 = with_root s r2.
Proof. reflexivity. Qed.

Lemma with_heap_with_root s h r :
  with_heap (with_root s r) h = with_root (with_heap s h) r.
Proof. reflexivity. Qed.

Lemma heap_with_heap s h : heap (with_heap s h) = h.
Proof. reflexivity. Qed.

Lemma heap_with_root s r : heap (with_root s r) = heap s.
Proof. reflexivity. Qed.

Lemma root_with_heap s h : root (with_heap s h) = root s.
Proof. reflexivity. Qed.

Lemma root_with_root s r : root (with_root s r) = r.
Proof. reflexivity. Qed.

(** The count of [L] goes up by one and down again. *)
Lemma rc_up_down w r :
  hdr_ref_count w = r -> 0 <= r < 255 ->
  hdr_ref_count (set_ref_count w (r + 1)) = r + 1 /\
  set_ref_count (set_ref_count w (r + 1))
    (hdr_ref_count (set_ref_count w (r + 1)) - 1) = w.
Proof.
  intros Hr Hb. rewrite hdr_ref_count_set, Z.mod_small by lia.
  split; auto. rewrite set_ref_count_set.
  replace (r + 1 - 1) with r by lia. subst r. apply set_ref_count_same.
Qed.

(** [Tup::set] with the location the slot already holds. *)
Lemma Tup_set_self n s loc i L r :
  0 <= loc -> 0 <= i < peek (heap s) (loc + 1) ->
  loc + 2 + peek (heap s) (loc + 1) <= HeapSize ->
  peek (heap s) (loc + 2 + i) = L ->
  0 < L < HeapSize -> L <> loc + 2 + i ->
  hdr_ref_count (peek (heap s) L) = r -> 1 <= r <= 254 ->
  length (heap s) = Z.to_nat HeapSize ->
  Tup_set REF_COUNT_GC (S (S n)) loc i L s =
  Ok (tt, emit_st (ESetRef (loc + 2 + i) L)
            (emit_st (ERefCount L r) (emit_st (ERefCount L (r + 1)) s))).
Proof.
  intros Hloc Hi Hb Hslot HL Hne Hr Hrb Hlen.
  destruct (rc_up_down (peek (heap s) L) r Hr ltac:(lia)) as [Hup Hdown].
  unfold Tup_set.
  rewrite (bind_eq _ _ _ _ _ (load_ok (loc + 1) s ltac:(lia))).
  destruct (Z.ltb_spec i (peek (heap s) (loc + 1))); [|lia].
  simpl assert. rewrite bind_ret.
  unfold share, read_barrier. rewrite bind_assoc, bind_ret, bind_assoc.
  rewrite (bind_eq _ _ _ _ _ (inc_ref_count_eq L s ltac:(lia))), bind_ret.
  rewrite Hr, (Z.mod_small (r + 1)) by lia.
  set (w1 := set_ref_count (peek (heap s) L) (r + 1)) in *.
  set (s1 := emit_st (ERefCount L (r + 1)) _).
  assert (Hh1 : heap s1 = poke (heap s) L w1)
    by (unfold s1; now rewrite heap_emit_st).
  assert (Hp1 : peek (heap s1) (loc + 2 + i) = L)
    by (rewrite Hh1, peek_poke_neq; auto; lia).
  assert (Hw1 : peek (heap s1) L = w1)
    by (rewrite Hh1, peek_poke_eq; auto; unfold HeapSize in *; lia).
  rewrite (bind_eq _ _ _ _ _ (load_ok (loc + 2 + i) s1 ltac:(lia))), Hp1.
  rewrite (bind_eq _ _ _ _ _ (unshare_eq n L s1 ltac:(lia)
             ltac:(rewrite Hw1, Hup; replace (r + 1 - 1) with r by lia;
                   rewrite Z.mod_small; lia))).
  rewrite Hw1, Hdown, Hup.
  replace ((r + 1 - 1) mod 256) with r by (rewrite Z.mod_small; lia).
  set (s2 := emit_st (ERefCount L r) _).
  assert (Hh2 : heap s2 = heap s).
  { unfold s2. rewrite heap_emit_st, heap_with_heap, Hh1, poke_poke.
    apply poke_same. }
  rewrite (bind_eq _ _ _ _ _ (store_ok (loc + 2 + i) L s2 ltac:(lia))).
  set (s3 := with_heap s2 _).
  assert (Hh3 : heap s3 = heap s).
  { unfold s3. rewrite heap_with_heap, Hh2, <- Hslot. apply poke_same. }
  rewrite (bind_eq _ _ _ _ _ (load_ok (loc + 2 + i) s3 ltac:(lia))).
  rewrite Hh3, Hslot. unfold log_set_ref. rewrite emit_ok.
  do 3 f_equal. unfold s3. rewrite Hh2, <- Hslot, poke_same, Hslot.
  unfold s2, s1.
  generalize (poke (heap s) L w1).
  generalize (peek (heap s) L). clear.
  intros w h'. destruct s as [h t fw lv rt [] o]; reflexivity.
Qed.

Lemma share_eq L s :
  0 <= L < HeapSize ->
  share REF_COUNT_GC L s =
  Ok (L, emit_st (ERefCount L ((hdr_ref_count (peek (heap s) L) + 1) mod 256))
           (with_heap s (poke (heap s) L
              (set_ref_count (peek (heap s) L)
                 (hdr_ref_count (peek (heap s) L) + 1))))).
Proof.
  intros H. unfold share, read_barrier. rewrite bind_ret.
  now rewrite (bind_eq _ _ _ _ _ (inc_ref_count_eq L s H)).
Qed.

Lemma ObjRef_share_eq L s :
  0 <= L < HeapSize ->
  ObjRef_share REF_COUNT_GC L s =
  Ok (L, with_root
           (emit_st (ERefCount L ((hdr_ref_count (peek (heap s) L) + 1) mod 256))
              (with_heap s (poke (heap s) L
                 (set_ref_count (peek (heap s) L)
                    (hdr_ref_count (peek (heap s) L) + 1)))))
           (L :: root s)).
Proof.
  intros H. unfold ObjRef_share, read_barrier. rewrite bind_ret.
  rewrite (bind_eq _ _ _ _ _ (inc_ref_count_eq L s H)).
  unfold add_to_root_set, modify, bind, ret.
  now rewrite root_emit_st.
Qed.

(** Destroying the handle at the head of the root list when the count
    of its object stays above zero. *)
Lemma ObjRef_destroy_head n L rest s :
  root s = L :: rest -> 0 <= L < HeapSize ->
  (hdr_ref_count (peek (heap s) L) - 1) mod 256 <> 0 ->
  ObjRef_destroy REF_COUNT_GC (S n) 0 s =
  Ok (tt,
      emit_st (ERefCount L ((hdr_ref_count (peek (heap s) L) - 1) mod 256))
        (with_heap (with_root s rest)
           (poke (heap s) L
              (set_ref_count (peek (heap s) L)
                 (hdr_ref_count (peek (heap s) L) - 1))))).
Proof.
  intros Hr HL Hnz. unfold ObjRef_destroy.
  rewrite (bind_eq (gets root) _ s (root s) s eq_refl).
  rewrite Hr. cbn [nth_error].
  rewrite (bind_eq (modify _) _ s tt (with_root s (remove_nth 0 (root s))) eq_refl).
  rewrite Hr. cbn [remove_nth].
  rewrite (bind_eq _ _ _ _ _ (dec_ref_count_eq n L (with_root s rest) HL Hnz)).
  reflexivity.
Qed.

(** [Vec::set] with the location the slot already holds: the argument
    of [Tup::set] is one more handle on the object while the body runs. *)
Lemma Vec_set_self n s v loc i L r :
  0 <= v -> v + 2 < HeapSize ->
  peek (heap s) (v + 2) = loc -> i < peek (heap s) (v + 1) ->
  0 <= loc -> 0 <= i < peek (heap s) (loc + 1) ->
  loc + 2 + peek (heap s) (loc + 1) <= HeapSize ->
  peek (heap s) (loc + 2 + i) = L ->
  0 < L < HeapSize -> L <> loc + 2 + i -> L <> loc + 1 ->
  hdr_ref_count (peek (heap s) L) = r -> 1 <= r <= 253 ->
  length (heap s) = Z.to_nat HeapSize ->
  Vec_set REF_COUNT_GC (S (S n)) v i L s =
  Ok (tt, emit_st (ERefCount L r)
            (emit_st (ESetRef (loc + 2 + i) L)
               (emit_st (ERefCount L (r + 1))
                  (emit_st (ERefCount L (r + 2))
                     (emit_st (ERefCount L (r + 1)) s))))).
Proof.
  intros Hv Hv2 Htup Hiv Hloc Hi Hb Hslot HL Hne Hne1 Hr Hrb Hlen.
  unfold Vec_set.
  rewrite (bind_eq _ _ _ _ _ (load_ok (v + 1) s ltac:(lia))).
  destruct (Z.ltb_spec i (peek (heap s) (v + 1))); [|lia].
  simpl assert. rewrite bind_ret.
  rewrite (bind_eq _ _ _ _ _ (load_ok (v + 2) s ltac:(lia))), Htup.
  unfold call_Tup_set.
  rewrite (bind_eq _ _ _ _ _ (ObjRef_share_eq L s ltac:(lia))).
  rewrite Hr, (Z.mod_small (r + 1)) by lia.
  set (w1 := set_ref_count (peek (heap s) L) (r + 1)).
  set (sA := with_root _ _).
  assert (HhA : heap sA = poke (heap s) L w1)
    by (unfold sA; now rewrite heap_with_root, heap_emit_st).
  assert (Hw1 : hdr_ref_count w1 = r + 1)
    by (unfold w1; rewrite hdr_ref_count_set, Z.mod_small; lia).
  assert (HLl : L < Z.of_nat (length (heap s))) by (unfold HeapSize in *; lia).
  rewrite (bind_eq _ _ _ _ _
             (Tup_set_self n sA loc i L (r + 1) Hloc
                ltac:(rewrite HhA, peek_poke_neq; auto; lia)
                ltac:(rewrite HhA, peek_poke_neq; auto; lia)
                ltac:(rewrite HhA, peek_poke_neq; auto; lia)
                HL Hne
                ltac:(rewrite HhA, peek_poke_eq; auto; lia)
                ltac:(lia)
                ltac:(rewrite HhA, length_poke; auto))).
  replace (r + 1 + 1) with (r + 2) by lia.
  set (sB := emit_st (ESetRef _ _) _).
  assert (HhB : heap sB = poke (heap s) L w1)
    by (unfold sB; now rewrite !heap_emit_st).
  assert (HrB : root sB = L :: root s)
    by (unfold sB, sA; now rewrite !root_emit_st, root_with_root).
  assert (HpB : peek (heap sB) L = w1)
    by (rewrite HhB, peek_poke_eq; auto; lia).
  rewrite (ObjRef_destroy_head (S n) L (root s) sB HrB ltac:(lia)
             ltac:(rewrite HpB, Hw1; replace (r + 1 - 1) with r by lia;
                   rewrite Z.mod_small; lia)).
  rewrite HpB, Hw1. replace (r + 1 - 1) with r by lia.
  rewrite (Z.mod_small r) by lia.
  assert (Hback : set_ref_count w1 r = peek (heap s) L)
    by (unfold w1; rewrite set_ref_count_set, <- Hr; apply set_ref_count_same).
  rewrite Hback, HhB, poke_poke, poke_same.
  do 3 f_equal. unfold sB, sA.
  generalize (poke (heap s) L w1). clear.
  intros h'. destruct s as [h t fw lv rt [] o]; reflexivity.
Qed.

(** C7, as the code has it: in reference-counting mode, when a Tup slot
    already holds the non-nil location [L] and the 8-bit count [r] of
    [L] is between 1 and 254, [Tup::set] with [L] raises the count to
    [r + 1], lowers it back to [r], and rewrites the slot: nothing in
    the heap changes and the two logged counts are not zero.  The same
    holds for [Vec::set] on a Vec whose backing Tup this is, when [r]
    is at most 253 (its call of [Tup::set] holds one more handle). *)
Theorem self_assignment_count :
  forall n s loc i L r,
    0 <= loc -> 0 <= i < peek (heap s) (loc + 1) ->
    loc + 2 + peek (heap s) (loc + 1) <= HeapSize ->
    peek (heap s) (loc + 2 + i) = L ->
    0 < L < HeapSize -> L <> loc + 2 + i ->
    hdr_ref_count (peek (heap s) L) = r -> 1 <= r <= 254 ->
    length (heap s) = Z.to_nat HeapSize ->
    (exists s1 s2,
        share REF_COUNT_GC L s = Ok (L, s1) /\
        hdr_ref_count (peek (heap s1) L) = r + 1 /\
        unshare REF_COUNT_GC (S (S n)) L s1 = Ok (tt, s2) /\
        hdr_ref_count (peek (heap s2) L) = r /\
        heap s2 = heap s) /\
    Tup_set REF_COUNT_GC (S (S n)) loc i L s =
    Ok (tt, emit_st (ESetRef (loc + 2 + i) L)
              (emit_st (ERefCount L r) (emit_st (ERefCount L (r + 1)) s))) /\
    (forall v,
        0 <= v -> v + 2 < HeapSize ->
        peek (heap s) (v + 2) = loc -> i < peek (heap s) (v + 1) ->
        L <> loc + 1 -> r <= 253 ->
        Vec_set REF_COUNT_GC (S (S n)) v i L s =
        Ok (tt, emit_st (ERefCount L r)
                  (emit_st (ESetRef (loc + 2 + i) L)
                     (emit_st (ERefCount L (r + 1))
                        (emit_st (ERefCount L (r + 2))
                           (emit_st (ERefCount L (r + 1)) s)))))).
Proof.
  intros n s loc i L r Hloc Hi Hb Hslot HL Hne Hr Hrb Hlen.
  split; [|split].
  - destruct (rc_up_down (peek (heap s) L) r Hr ltac:(lia)) as [Hup Hdown].
    assert (HLl : L < Z.of_nat (length (heap s))) by (unfold HeapSize in *; lia).
    pose proof (share_eq L s ltac:(lia)) as E1.
    rewrite Hr, (Z.mod_small (r + 1)) in E1 by lia.
    set (w1 := set_ref_count (peek (heap s) L) (r + 1)) in *.
    set (s1 := emit_st (ERefCount L (r + 1)) _) in E1.
    assert (Hh1 : heap s1 = poke (heap s) L w1)
      by (unfold s1; now rewrite heap_emit_st).
    assert (Hw1 : peek (heap s1) L = w1)
      by (rewrite Hh1, peek_poke_eq; auto; lia).
    pose proof (unshare_eq n L s1 ltac:(lia)
                  ltac:(rewrite Hw1, Hup; replace (r + 1 - 1) with r by lia;
                        rewrite Z.mod_small; lia)) as E2.
    rewrite Hw1, Hdown in E2.
    set (s2 := emit_st _ _) in E2.
    assert (Hh2 : heap s2 = heap s).
    { unfold s2. rewrite heap_emit_st, heap_with_heap, Hh1, poke_poke.
      apply poke_same. }
    exists s1, s2. repeat split; auto.
    + now rewrite Hw1.
    + now rewrite Hh2.
  - apply Tup_set_self; auto.
  - intros v Hv Hv2 Htup Hiv Hne1 Hr3. apply Vec_set_self; auto. lia.
Qed.

(** In [shared_tree_state] the slot of the Tup at 3 holds the Num at 1,
    whose count is 2. *)
Lemma self_assignment_count_witness :
  Tup_set REF_COUNT_GC 2 3 0 1 (shared_tree_state REF_COUNT_GC) =
  Ok (tt, emit_st (ESetRef (3 + 2 + 0) 1)
            (emit_st (ERefCount 1 2)
               (emit_st (ERefCount 1 (2 + 1)) (shared_tree_state REF_COUNT_GC)))).
Proof.
  pose proof (self_assignment_count 0 (shared_tree_state REF_COUNT_GC) 3 0 1 2
                ltac:(clear; lia)
                ltac:(clear; now vm_compute)
                ltac:(clear; now vm_compute)
                ltac:(clear; vm_compute; reflexivity)
                ltac:(clear; now vm_compute)
                ltac:(clear; now vm_compute)
                ltac:(clear; vm_compute; reflexivity)
                ltac:(clear; lia)
                ltac:(clear; vm_compute; reflexivity)) as H.
  destruct H as (_ & H & _). exact H.
Defined.

(** C7 as stated fails when the count is at its maximum: in
    [saturated_state] the Num at 1 has count 255 and slot 0 of the Tup
    at 3 holds it; the share of [Tup::set] wraps the count to zero
    before the unshare brings it back. *)
Lemma self_assignment_touches_zero :
  hdr_ref_count (peek (heap saturated_state) 1) = 255 /\
  peek (heap saturated_state) (3 + 2 + 0) = 1 /\
  (exists s1, share REF_COUNT_GC 1 saturated_state = Ok (1, s1) /\
              hdr_ref_count (peek (heap s1) 1) = 0) /\
  (exists s', Tup_set REF_COUNT_GC 2 3 0 1 saturated_state = Ok (tt, s') /\
              skipn (length (out saturated_state)) (out s')
              = [ERefCount 1 0; ERefCount 1 255; ESetRef 5 1]).
Proof.
  split; [vm_compute; reflexivity|]. split; [vm_compute; reflexivity|].
  split; eexists; (split; [vm_compute; reflexivity|]); vm_compute; reflexivity.
Qed.

(** * Cells, sizes and marking *)

Ltac hdr :=
  unfold init_hdr, set_ref_count, set_mark, set_type,
         hdr_ref_count, hdr_mark, hdr_type;
  Z.div_mod_to_equations; lia.

Ltac tags := unfold TNil, TForward, TFree, TNum, TTup, TVec, TStr in *.

Lemma hdr_type_set_type w t : 0 <= t < 16 -> hdr_type (set_type w t) = t.
Proof. hdr. Qed.

Lemma hdr_type_set_mark w b : hdr_type (set_mark w b) = hdr_type w.
Proof. hdr. Qed.

Lemma hdr_type_init_hdr m w t : 0 <= t < 16 -> hdr_type (init_hdr m w t) = t.
Proof.
  intros H. unfold init_hdr.
  now rewrite hdr_type_set_mark, hdr_type_set_ref_count, hdr_type_set_type.
Qed.

Lemma init_hdr_idem m w t : init_hdr m (init_hdr m w t) t = init_hdr m w t.
Proof. destruct m; hdr. Qed.

(** ** [Obj::size] *)

Lemma tag_cases t :
  t = TNum \/ t = TTup \/ t = TVec \/ t = TStr \/ t = TFree \/ t = TForward \/
  (t <> TNum /\ t <> TTup /\ t <> TVec /\ t <> TStr /\ t <> TFree /\ t <> TForward).
Proof.
  unfold TNum, TTup, TVec, TStr, TFree, TForward. lia.
Qed.

Lemma Obj_size_eq l s :
  0 <= l -> l + 1 < HeapSize -> ty (heap s) l <> TForward ->
  Obj_size l s = Ok (size_of (heap s) l, s).
Proof.
  intros Hl Hb Hf. unfold Obj_size, Obj_type, size_of.
  rewrite bind_assoc, bind_load, bind_ret by lia. fold (ty (heap s) l).
  destruct (ty (heap s) l =? TNum); [reflexivity|].
  destruct (ty (heap s) l =? TTup); [now rewrite bind_load by lia|].
  destruct (ty (heap s) l =? TVec); [now rewrite bind_load by lia|].
  destruct (ty (heap s) l =? TStr); [now rewrite bind_load by lia|].
  destruct (ty (heap s) l =? TFree); [now rewrite load_ok by lia|].
  destruct (Z.eqb_spec (ty (heap s) l) TForward); [contradiction|].
  reflexivity.
Qed.

Lemma Obj_size_forward l s :
  0 <= l < HeapSize -> ty (heap s) l = TForward -> Obj_size l s = Abort.
Proof.
  intros Hl Hf. unfold Obj_size, Obj_type.
  rewrite bind_assoc, bind_load, bind_ret by lia. fold (ty (heap s) l).
  rewrite Hf. reflexivity.
Qed.

(** [size_of] and [ty] look at the header word and the word after it. *)
Lemma ty_ext h h' l : peek h' l = peek h l -> ty h' l = ty h l.
Proof. unfold ty. now intros ->. Qed.

Lemma size_of_ext h h' l :
  peek h' l = peek h l -> peek h' (l + 1) = peek h (l + 1) ->
  size_of h' l = size_of h l.
Proof. intros H0 H1. unfold size_of, ty. now rewrite H0, H1. Qed.

Lemma cell_ok_ext h h' l :
  peek h' l = peek h l -> peek h' (l + 1) = peek h (l + 1) ->
  cell_ok h l -> cell_ok h' l.
Proof.
  intros H0 H1 [A B]. unfold cell_ok.
  now rewrite (ty_ext h h' l H0), (size_of_ext h h' l H0 H1).
Qed.

Lemma ty_copy h h' l l' : peek h' l' = peek h l -> ty h' l' = ty h l.
Proof. unfold ty. now intros ->. Qed.

Lemma size_of_copy h h' l l' :
  peek h' l' = peek h l -> peek h' (l' + 1) = peek h (l + 1) ->
  size_of h' l' = size_of h l.
Proof. intros H0 H1. unfold size_of, ty. now rewrite H0, H1. Qed.

Lemma cell_ok_copy h h' l l' :
  peek h' l' = peek h l -> peek h' (l' + 1) = peek h (l + 1) ->
  cell_ok h l -> cell_ok h' l'.
Proof.
  intros H0 H1 [A B]. unfold cell_ok.
  now rewrite (ty_copy h h' l l' H0), (size_of_copy h h' l l' H0 H1).
Qed.

(** ** The walk *)

Lemma cells_Cells n : forall h a b cs,
  cells n h a b = Some cs -> Cells h b a cs.
Proof.
  induction n as [|n IH]; intros h a b cs H; [discriminate|]. simpl in H.
  destruct (Z.leb_spec b a).
  - destruct (Z.eqb_spec a b); [|discriminate]. inversion H; subst. constructor.
  - destruct (_ && _) eqn:E; [|discriminate].
    destruct (cells n h (a + size_of h a) b) as [cs'|] eqn:E'; [|discriminate].
    inversion H; subst. apply andb_true_iff in E. destruct E as [E1 E2].
    constructor; auto. split; auto. lia.
Qed.

Lemma Cells_cells h b a cs :
  Cells h b a cs -> forall n, (length cs < n)%nat -> cells n h a b = Some cs.
Proof.
  induction 1 as [|a cs Hlt [Hty Hsz] Hc IH]; intros n Hn;
    (destruct n as [|n]; [simpl in Hn; lia|]); simpl.
  - destruct (Z.leb_spec b b); [|lia]. now rewrite Z.eqb_refl.
  - destruct (Z.leb_spec b a); [lia|].
    rewrite Hty. destruct (Z.leb_spec 2 (size_of h a)); [|lia]. simpl.
    rewrite IH by (simpl in Hn; lia). reflexivity.
Qed.

Lemma Cells_le h b a cs : Cells h b a cs -> a <= b.
Proof. induction 1 as [|a cs Hlt [Hty Hsz] Hc IH]; lia. Qed.

Lemma Cells_In h b a cs l :
  Cells h b a cs -> In l cs ->
  a <= l /\ l + size_of h l <= b /\ cell_ok h l.
Proof.
  induction 1 as [|a cs Hlt Hok Hc IH]; intros Hin; [destruct Hin|].
  pose proof Hok as [Hty Hsz]. destruct Hin as [->|Hin].
  - apply Cells_le in Hc. split; [lia|]. split; [lia|exact Hok].
  - destruct (IH Hin) as (A & B & C). split; [lia|]. split; [lia|exact C].
Qed.

(** Two cells of one walk do not overlap. *)
Lemma Cells_disjoint h b a cs l l' :
  Cells h b a cs -> In l cs -> In l' cs -> l < l' -> l + size_of h l <= l'.
Proof.
  induction 1 as [|a cs Hlt Hok Hc IH]; intros Hl Hl' Hlt'; [destruct Hl|].
  destruct Hl as [->|Hl], Hl' as [->|Hl'].
  - lia.
  - destruct (Cells_In _ _ _ _ _ Hc Hl'). lia.
  - destruct (Cells_In _ _ _ _ _ Hc Hl). destruct Hok. lia.
  - auto.
Qed.

Lemma Cells_ext h h' b a cs :
  Cells h b a cs ->
  (forall l, In l cs -> peek h' l = peek h l /\ peek h' (l + 1) = peek h (l + 1)) ->
  Cells h' b a cs.
Proof.
  induction 1 as [|a cs Hlt Hok Hc IH]; intros He; [constructor|].
  destruct (He a (or_introl eq_refl)) as [E0 E1].
  constructor; auto.
  - eapply cell_ok_ext; eauto.
  - rewrite (size_of_ext h h' a E0 E1). apply IH.
    intros l Hl. apply He. now right.
Qed.

Lemma Cells_sorted h b a cs l :
  Cells h b a cs -> In l cs -> a <= l < b.
Proof.
  intros Hc Hl. destruct (Cells_In _ _ _ _ _ Hc Hl) as (A & B & [C D]). lia.
Qed.

Lemma Cells_inj h b a cs cs' : Cells h b a cs -> Cells h b a cs' -> cs = cs'.
Proof.
  intros H. revert cs'. induction H as [|a cs Hlt Hok Hc IH]; intros cs' H'.
  - inversion H'; subst; auto. lia.
  - inversion H'; subst; [lia|]. f_equal. auto.
Qed.

Lemma Cells_length h b a cs : Cells h b a cs -> Z.of_nat (length cs) <= b - a.
Proof.
  induction 1 as [|a cs Hlt [Hty Hsz] Hc IH]; cbn [length]; lia.
Qed.

Lemma mem_In x l : mem x l = true <-> In x l.
Proof.
  unfold mem. rewrite existsb_exists. split.
  - intros (y & Hy & E). apply Z.eqb_eq in E. now subst.
  - intros H. exists x. split; auto. apply Z.eqb_refl.
Qed.

(** * Relocated structures have the same values *)

Lemma In_firstn_In {A} (x : A) n l : In x (firstn n l) -> In x l.
Proof.
  revert l. induction n as [|n IH]; intros [|y l]; simpl; auto; try tauto.
  intros [->|H]; auto.
Qed.

Section Relocation.

Variables (phi : Z -> Z) (h h' : list Z) (S : Z -> Prop).
Hypothesis phi_nil : phi 0 = 0.
Hypothesis nil_h : ty h 0 = TNil.
Hypothesis nil_h' : ty h' 0 = TNil.
Hypothesis S_closed : closed S h.
Hypothesis S_iso : forall l, S l -> obj_iso phi h h' l.

Lemma iso_ty l : l = 0 \/ S l -> ty h' (phi l) = ty h l.
Proof.
  intros [->|Hl].
  - now rewrite phi_nil, nil_h, nil_h'.
  - apply (S_iso l Hl).
Qed.

Lemma iso_value d : forall l, l = 0 \/ S l -> value d h' (phi l) = value d h l.
Proof.
  induction d as [|d IH]; intros l Hl; simpl.
  - now rewrite iso_ty.
  - rewrite iso_ty by auto.
    destruct Hl as [->|Hl]; [now rewrite nil_h|].
    destruct (S_iso l Hl) as (Ht & H1 & Hstr & Htup & Hvec).
    destruct (S_closed l Hl) as [Ctup Cvec].
    destruct (ty h l =? TNil); [reflexivity|].
    destruct (ty h l =? TNum); [now rewrite H1|].
    destruct (Z.eqb_spec (ty h l) TStr); [now rewrite Hstr|].
    destruct (Z.eqb_spec (ty h l) TTup) as [Et|_].
    + rewrite (Htup Et), map_map. f_equal. apply map_ext_in.
      intros c Hc. apply IH. auto.
    + destruct (Z.eqb_spec (ty h l) TVec) as [Ev|_]; [|reflexivity].
      destruct (Cvec Ev) as (Sb & Tb & Cb).
      rewrite (Hvec Ev), H1.
      destruct (S_iso _ Sb) as (_ & _ & _ & Hbt & _).
      rewrite (Hbt Tb), firstn_map, map_map. f_equal. apply map_ext_in.
      intros c Hc. apply IH. apply Cb. eapply In_firstn_In; eauto.
Qed.

Lemma flat_map_map_phi d (IH : forall l, l = 0 \/ S l ->
                              visit_seq d h' (phi l) = map phi (visit_seq d h l)) cs :
  (forall c, In c cs -> c = 0 \/ S c) ->
  flat_map (fun v => v :: visit_seq d h' v) (map phi cs)
  = map phi (flat_map (fun v => v :: visit_seq d h v) cs).
Proof.
  induction cs as [|c cs IHc]; intros Hc; simpl; auto.
  rewrite map_app, IH by (apply Hc; now left). simpl. f_equal. f_equal.
  apply IHc. intros x Hx. apply Hc. now right.
Qed.

Lemma iso_visit d : forall l,
  l = 0 \/ S l -> visit_seq d h' (phi l) = map phi (visit_seq d h l).
Proof.
  induction d as [|d IH]; intros l Hl; simpl; auto.
  fold (ty h' (phi l)). fold (ty h l). rewrite iso_ty by auto.
  destruct Hl as [->|Hl]; [now rewrite nil_h|].
  destruct (S_iso l Hl) as (Ht & H1 & Hstr & Htup & Hvec).
  destruct (S_closed l Hl) as [Ctup Cvec].
  destruct (Z.eqb_spec (ty h l) TTup) as [Et|_].
  - rewrite (Htup Et). apply flat_map_map_phi; auto.
  - destruct (Z.eqb_spec (ty h l) TVec) as [Ev|_]; [|reflexivity].
    destruct (Cvec Ev) as (Sb & Tb & Cb).
    rewrite (Hvec Ev). simpl. f_equal.
    destruct (S_iso _ Sb) as (_ & _ & _ & Hbt & _).
    rewrite (Hbt Tb). apply flat_map_map_phi; auto.
Qed.

Lemma iso_marked d roots :
  (forall r, In r roots -> r = 0 \/ S r) ->
  marked d h' (map phi roots) = map phi (marked d h roots).
Proof.
  unfold marked. apply flat_map_map_phi. apply iso_visit.
Qed.

End Relocation.

(** * Marking *)

Lemma mark_live_loc_eq m loc s :
  mark_live_loc m loc s = Ok (tt, mark_loc_st m loc s).
Proof.
  unfold mark_live_loc, mark_loc_st. destruct (loc =? 0); [reflexivity|].
  destruct (is_copy m); reflexivity.
Qed.

Lemma each_mark_eq m l : forall s,
  each (mark_live_loc m) l s = Ok (tt, mark_all_st m l s).
Proof.
  induction l as [|x l IH]; intros s; simpl; [reflexivity|].
  rewrite (bind_eq _ _ _ _ _ (mark_live_loc_eq m x s)). apply IH.
Qed.

Lemma mark_loc_st_frame m x s :
  heap (mark_loc_st m x s) = heap s /\ top (mark_loc_st m x s) = top s /\
  root (mark_loc_st m x s) = root s /\
  forwarding (mark_loc_st m x s) = forwarding s /\
  log_ready (mark_loc_st m x s) = log_ready s /\
  live (mark_loc_st m x s) = if x =? 0 then live s else set_insert x (live s).
Proof.
  unfold mark_loc_st. destruct (x =? 0); [tauto|].
  destruct (is_copy m); simpl;
    rewrite ?heap_emit_st, ?top_emit_st, ?root_emit_st, ?forwarding_emit_st,
      ?log_ready_emit_st, ?live_emit_st; tauto.
Qed.

Lemma mark_all_st_frame m l : forall s,
  heap (mark_all_st m l s) = heap s /\ top (mark_all_st m l s) = top s /\
  root (mark_all_st m l s) = root s /\
  forwarding (mark_all_st m l s) = forwarding s /\
  log_ready (mark_all_st m l s) = log_ready s /\
  live (mark_all_st m l s)
  = fold_left (fun acc x => if x =? 0 then acc else set_insert x acc) l (live s).
Proof.
  induction l as [|x l IH]; intros s; simpl; [tauto|].
  destruct (IH (mark_loc_st m x s)) as (A & B & C & D & E & F).
  destruct (mark_loc_st_frame m x s) as (A' & B' & C' & D' & E' & F').
  unfold mark_all_st in *. rewrite A, B, C, D, E, F, A', B', C', D', E', F'.
  tauto.
Qed.

(** ** The live set *)

Lemma set_insert_In x y l : In y (set_insert x l) <-> y = x \/ In y l.
Proof.
  induction l as [|z l IH]; simpl; [intuition|].
  destruct (Z.ltb_spec x z); simpl; [intuition|].
  destruct (Z.eqb_spec x z); simpl; [subst; intuition|].
  rewrite IH. intuition.
Qed.

Lemma set_insert_sorted x l :
  StronglySorted Z.lt l -> StronglySorted Z.lt (set_insert x l).
Proof.
  induction 1 as [|z l Hs IH Hz]; simpl.
  - repeat constructor.
  - destruct (Z.ltb_spec x z).
    + constructor; [constructor; auto|]. constructor; auto.
      rewrite Forall_forall in *. intros y Hy. specialize (Hz y Hy). lia.
    + destruct (Z.eqb_spec x z); [constructor; auto|].
      constructor; auto. rewrite Forall_forall in *.
      intros y Hy. apply set_insert_In in Hy. destruct Hy as [->|Hy]; auto. lia.
Qed.

Lemma fold_insert_In l : forall acc y,
  In y (fold_left (fun acc x => if x =? 0 then acc else set_insert x acc) l acc)
  <-> In y acc \/ (y <> 0 /\ In y l).
Proof.
  induction l as [|x l IH]; intros acc y; simpl; [intuition|].
  rewrite IH. destruct (Z.eqb_spec x 0).
  - subst. split.
    + intros [H|[H1 H2]]; auto.
    + intros [H|[H1 [H2|H2]]]; auto. congruence.
  - rewrite set_insert_In. split.
    + intros [[->|H]|[H1 H2]]; auto.
    + intros [H|[H1 [->|H2]]]; auto.
Qed.

Lemma fold_insert_sorted l : forall acc,
  StronglySorted Z.lt acc ->
  StronglySorted Z.lt
    (fold_left (fun acc x => if x =? 0 then acc else set_insert x acc) l acc).
Proof.
  induction l as [|x l IH]; intros acc Hs; simpl; auto.
  apply IH. destruct (x =? 0); auto using set_insert_sorted.
Qed.

Lemma live_of_In l y : In y (live_of l) <-> y <> 0 /\ In y l.
Proof. unfold live_of. rewrite fold_insert_In. simpl. intuition. Qed.

Lemma live_of_sorted l : StronglySorted Z.lt (live_of l).
Proof. apply fold_insert_sorted. constructor. Qed.

Lemma set_count_In x l : set_count x l = 0 <-> ~ In x l.
Proof.
  unfold set_count. fold (mem x l).
  destruct (mem x l) eqn:E.
  - apply mem_In in E. split; [discriminate|tauto].
  - split; auto. intros _ H. apply mem_In in H. congruence.
Qed.

Lemma set_count_pos x l : 0 < set_count x l <-> In x l.
Proof.
  unfold set_count. fold (mem x l).
  destruct (mem x l) eqn:E.
  - apply mem_In in E. split; auto; lia.
  - split; [lia|]. intros H. apply mem_In in H. congruence.
Qed.

(** ** Good structures *)

Lemma good_inv d cs h l :
  good (S d) cs h l = true ->
  l = 0 \/
  (l <> 0 /\ In l cs /\
   ((ty h l = TTup /\ len_ok h l = true /\
     forall c, In c (slots h l) -> good d cs h c = true) \/
    (ty h l = TVec /\ peek h (l + 2) <> 0 /\ In (peek h (l + 2)) cs /\
     ty h (peek h (l + 2)) = TTup /\ len_ok h (peek h (l + 2)) = true /\
     forall c, In c (slots h (peek h (l + 2))) -> good d cs h c = true) \/
    (ty h l = TStr /\ len_ok h l = true) \/
    ty h l = TNum)).
Proof.
  simpl. destruct (Z.eqb_spec l 0); [auto|]. intros H. right.
  apply andb_true_iff in H. destruct H as [Hm H]. apply mem_In in Hm.
  split; auto. split; auto.
  destruct (Z.eqb_spec (ty h l) TTup) as [Et|Nt].
  - left. apply andb_true_iff in H. destruct H as [H1 H2].
    rewrite forallb_forall in H2. auto.
  - destruct (Z.eqb_spec (ty h l) TVec) as [Ev|Nv].
    + right; left. rewrite !andb_true_iff in H.
      destruct H as ((((H1 & H2) & H3) & H4) & H5).
      rewrite forallb_forall in H5. apply mem_In in H2.
      apply Z.eqb_eq in H3. apply negb_true_iff, Z.eqb_neq in H1. auto 10.
    + destruct (Z.eqb_spec (ty h l) TStr) as [Es|Ns].
      * right; right; left. auto.
      * right; right; right. now apply Z.eqb_eq.
Qed.

Lemma good_tup d cs h b :
  b <> 0 -> In b cs -> ty h b = TTup -> len_ok h b = true ->
  (forall c, In c (slots h b) -> good d cs h c = true) ->
  good (S d) cs h b = true.
Proof.
  intros Hb Hin Ht Hl Hs. simpl.
  destruct (Z.eqb_spec b 0); [contradiction|].
  apply andb_true_iff. split; [now apply mem_In|].
  rewrite Ht. simpl. rewrite Hl. simpl. now apply forallb_forall.
Qed.

Lemma good_value_type d cs h l :
  good d cs h l = true -> l <> 0 -> In l cs /\ is_value_type (ty h l) = true.
Proof.
  destruct d as [|d]; [discriminate|]. intros H Hl.
  apply good_inv in H.
  destruct H as [->|(_ & Hin & [(E & _)|[(E & _)|[(E & _)|E]]])];
    [contradiction| | | |]; split; auto; rewrite E; reflexivity.
Qed.

Section WithCells.

Variables (h cs : list Z) (base T : Z).
Hypothesis HC : Cells h T base cs.
Hypothesis Hbase : 1 <= base.
Hypothesis HT : T <= HeapSize.
Hypothesis Hnil : ty h 0 = TNil.

Lemma cell_bounds l : In l cs -> 1 <= l /\ l + size_of h l <= HeapSize /\ 2 <= size_of h l.
Proof.
  intros Hl. destruct (Cells_In _ _ _ _ _ HC Hl) as (A & B & [C D]). lia.
Qed.

Lemma len_ok_size l :
  len_ok h l = true -> to_UWd (2 + peek h (l + 1)) = 2 + peek h (l + 1).
Proof.
  unfold len_ok. rewrite andb_true_iff, Z.leb_le, Z.ltb_lt. intros [A B].
  apply to_UWd_small. lia.
Qed.

Lemma tup_cell_in_heap l :
  In l cs -> ty h l = TTup -> len_ok h l = true -> tup_in_heap h l = true.
Proof.
  intros Hl Ht Hk. destruct (cell_bounds l Hl) as (A & B & C).
  unfold size_of in B. rewrite Ht in B. simpl in B.
  unfold Tup_size_needed in B. rewrite (len_ok_size l Hk) in B.
  unfold len_ok in Hk. rewrite andb_true_iff, Z.leb_le, Z.ltb_lt in Hk.
  apply tup_in_heap_iff. lia.
Qed.

Lemma good_tree_ok d : forall l, good d cs h l = true -> tree_ok d h l = true.
Proof.
  induction d as [|d IH]; intros l H; [discriminate|].
  apply good_inv in H. cbn [tree_ok]. fold (ty h l).
  destruct H as [->|(Hl & Hin & H)].
  - rewrite Hnil. reflexivity.
  - destruct (cell_bounds l Hin) as (A & B & C).
    rewrite in_heap_true by lia. simpl.
    destruct H as [(E & Hk & Hs)|[(E & Hb & Hbin & Eb & Hk & Hs)|[(E & _)|E]]];
      rewrite E; simpl.
    + rewrite tup_cell_in_heap by auto. simpl.
      apply forallb_forall. auto.
    + unfold size_of in B. rewrite E in B. simpl in B.
      unfold Vec_size_needed in B.
      rewrite in_heap_true by lia. rewrite tup_cell_in_heap by auto. simpl.
      apply forallb_forall. auto.
    + reflexivity.
    + reflexivity.
Qed.

(** Everything a traversal visits is nil or a good structure. *)
Lemma visit_good d : forall l x,
  good d cs h l = true -> In x (visit_seq d h l) ->
  exists d', good d' cs h x = true.
Proof.
  induction d as [|d IH]; intros l x H Hx; [discriminate|].
  apply good_inv in H. cbn [visit_seq] in Hx. fold (ty h l) in Hx.
  destruct H as [->|(Hl & Hin & H)].
  - rewrite Hnil in Hx. destruct Hx.
  - destruct H as [(E & Hk & Hs)|[(E & Hb & Hbin & Eb & Hk & Hs)|[(E & _)|E]]];
      rewrite E in Hx; simpl in Hx; try contradiction.
    + apply in_flat_map in Hx. destruct Hx as (c & Hc & [->|Hx]).
      * exists d. auto.
      * eapply IH; eauto.
    + destruct Hx as [<-|Hx].
      * exists (S d). apply good_tup; auto.
      * apply in_flat_map in Hx. destruct Hx as (c & Hc & [->|Hx]).
        -- exists d. auto.
        -- eapply IH; eauto.
Qed.

Lemma in_own_chunk d c l :
  In c l -> In c (flat_map (fun v => v :: visit_seq d h v) l).
Proof.
  intros Hc. apply in_flat_map. exists c. split; auto. now left.
Qed.

(** What a traversal visits contains the slots of every Tup it visits,
    and the backing Tup of every Vec. *)
Lemma visit_closed d : forall l0 l,
  good d cs h l0 = true -> l <> 0 -> l = l0 \/ In l (visit_seq d h l0) ->
  (ty h l = TTup -> incl (slots h l) (visit_seq d h l0)) /\
  (ty h l = TVec ->
     In (peek h (l + 2)) (visit_seq d h l0) /\
     ty h (peek h (l + 2)) = TTup /\
     incl (slots h (peek h (l + 2))) (visit_seq d h l0)).
Proof.
  induction d as [|d IH]; intros l0 l H Hl Hin; [discriminate|].
  pose proof H as H0. apply good_inv in H.
  destruct H as [->|(Hl0 & Hin0 & H)].
  - destruct Hin as [->|Hin]; [contradiction|].
    cbn [visit_seq] in Hin. fold (ty h 0) in Hin. rewrite Hnil in Hin.
    destruct Hin.
  - cbn [visit_seq]. fold (ty h l0).
    cbn [visit_seq] in Hin. fold (ty h l0) in Hin.
    destruct H as [(E & Hk & Hs)|[(E & Hb & Hbin & Eb & Hk & Hs)|[(E & _)|E]]];
      rewrite E in *; simpl in *.
    + (* l0 is a Tup *)
      destruct Hin as [->|Hin].
      * split; [|rewrite E; discriminate].
        intros _ c Hc. now apply in_own_chunk.
      * apply in_flat_map in Hin. destruct Hin as (c & Hc & Hin).
        assert (Hin' : l = c \/ In l (visit_seq d h c))
          by (destruct Hin; auto).
        destruct (IH c l (Hs c Hc) Hl Hin') as [A B]. split.
        -- intros Et x Hx. apply in_flat_map. exists c. split; auto.
           right. now apply A.
        -- intros Ev. destruct (B Ev) as (B1 & B2 & B3). split; [|split]; auto.
           ++ apply in_flat_map. exists c. split; auto. now right.
           ++ intros x Hx. apply in_flat_map. exists c. split; auto.
              right. now apply B3.
    + (* l0 is a Vec *)
      destruct Hin as [->|[<-|Hin]].
      * split; [rewrite E; discriminate|]. intros _.
        split; [now left|]. split; auto.
        intros c Hc. right. now apply in_own_chunk.
      * split; [|rewrite Eb; discriminate].
        intros _ c Hc. right. now apply in_own_chunk.
      * apply in_flat_map in Hin. destruct Hin as (c & Hc & Hin).
        assert (Hin' : l = c \/ In l (visit_seq d h c))
          by (destruct Hin; auto).
        destruct (IH c l (Hs c Hc) Hl Hin') as [A B]. split.
        -- intros Et x Hx. right. apply in_flat_map. exists c. split; auto.
           right. now apply A.
        -- intros Ev. destruct (B Ev) as (B1 & B2 & B3). split; [|split]; auto.
           ++ right. apply in_flat_map. exists c. split; auto. now right.
           ++ intros x Hx. right. apply in_flat_map. exists c. split; auto.
              right. now apply B3.
    + destruct Hin as [->|[]]. split; rewrite E; discriminate.
    + destruct Hin as [->|[]]. split; rewrite E; discriminate.
Qed.

Section WithRoots.

Variables (d : nat) (roots : list Z).
Hypothesis Hroots : forall r, In r roots -> good d cs h r = true.

Lemma marked_good x :
  In x (marked d h roots) -> exists d', good d' cs h x = true.
Proof.
  unfold marked. intros Hx. apply in_flat_map in Hx.
  destruct Hx as (r & Hr & [->|Hx]).
  - exists d. auto.
  - eapply visit_good; eauto.
Qed.

Lemma live_is_cell x :
  In x (live_of (marked d h roots)) ->
  x <> 0 /\ In x cs /\ is_value_type (ty h x) = true.
Proof.
  intros Hx. apply live_of_In in Hx. destruct Hx as [Hx0 Hx].
  destruct (marked_good x Hx) as (d' & Hg).
  destruct (good_value_type _ _ _ _ Hg Hx0). auto.
Qed.

Lemma live_len_ok x :
  In x (live_of (marked d h roots)) ->
  ty h x = TTup \/ ty h x = TStr -> len_ok h x = true.
Proof.
  intros Hx Ht. apply live_of_In in Hx. destruct Hx as [Hx0 Hx].
  destruct (marked_good x Hx) as ([|d'] & Hg); [discriminate|].
  apply good_inv in Hg.
  destruct Hg as [->|(_ & _ & [(E & Hk & _)|[(E & _)|[(E & Hk)|E]]])];
    auto; try contradiction; destruct Ht as [Ht|Ht]; rewrite Ht in E;
    discriminate.
Qed.

Lemma live_closed : closed (fun x => In x (live_of (marked d h roots))) h.
Proof.
  intros l Hl. apply live_of_In in Hl. destruct Hl as [Hl0 Hl].
  unfold marked in Hl. apply in_flat_map in Hl. destruct Hl as (r & Hr & Hl).
  assert (Hl' : l = r \/ In l (visit_seq d h r)) by (destruct Hl; auto).
  destruct (visit_closed d r l (Hroots r Hr) Hl0 Hl') as [A B].
  assert (Hsub : forall x, In x (visit_seq d h r) -> x = 0 \/
                   In x (live_of (marked d h roots))).
  { intros x Hx. destruct (Z.eq_dec x 0); auto. right.
    apply live_of_In. split; auto. unfold marked. apply in_flat_map.
    exists r. split; auto. now right. }
  split.
  - intros Et c Hc. apply Hsub. now apply A.
  - intros Ev. destruct (B Ev) as (B1 & B2 & B3).
    split; [|split; [exact B2|]].
    + destruct (Hsub _ B1) as [E0|]; auto.
      exfalso.
      assert (Hlm : In l (marked d h roots))
        by (unfold marked; apply in_flat_map; exists r; split; auto).
      destruct (marked_good l Hlm) as ([|d'] & Hg); [discriminate|].
      apply good_inv in Hg.
      destruct Hg as [->|(_ & _ & [(E & _)|[(E & Hb & _)|[(E & _)|E]]])];
        try contradiction; try (rewrite Ev in E; discriminate).
    + intros c Hc. apply Hsub. now apply B3.
Qed.

End WithRoots.

End WithCells.

(** ** [mark_live] *)

Lemma each_roots_eq m d n h cs base T :
  Cells h T base cs -> 1 <= base -> T <= HeapSize -> ty h 0 = TNil ->
  (d + Z.to_nat HeapSize < n)%nat ->
  forall roots s,
    heap s = h ->
    (forall r, In r roots -> good d cs h r = true) ->
    each (fun loc => mark_live_loc m loc ;; Obj_traverse n (mark_live_loc m) loc)
      roots s
    = Ok (tt, mark_all_st m (marked d h roots) s).
Proof.
  intros HC Hb HT Hnil Hn. induction roots as [|r roots IH]; intros s Hh Hg.
  - reflexivity.
  - cbn [each]. rewrite bind_assoc.
    rewrite (bind_eq _ _ _ _ _ (mark_live_loc_eq m r s)).
    destruct (mark_loc_st_frame m r s) as (Hh1 & _).
    rewrite (bind_cong _ _ (fun _ => each _ roots)) by reflexivity.
    unfold bind at 1.
    rewrite (Obj_traverse_eq (mark_live_loc m) (mark_live_loc_heap m) d h);
      [| eapply good_tree_ok; eauto; apply Hg; now left | congruence | exact Hn].
    rewrite each_mark_eq.
    rewrite IH.
    + unfold marked, mark_all_st. cbn [flat_map].
      rewrite fold_left_app. reflexivity.
    + destruct (mark_all_st_frame m (visit_seq d h r) (mark_loc_st m r s))
        as (A & _). congruence.
    + intros r' Hr'. apply Hg. now right.
Qed.

Lemma mark_live_eq m d n s cs base :
  Cells (heap s) (top s) base cs -> 1 <= base -> top s <= HeapSize ->
  ty (heap s) 0 = TNil ->
  (forall r, In r (root s) -> good d cs (heap s) r = true) ->
  (d + Z.to_nat HeapSize < n)%nat ->
  mark_live m n s
  = Ok (tt, mark_all_st m (marked d (heap s) (root s)) (with_live s [])).
Proof.
  intros HC Hb HT Hnil Hg Hn. unfold mark_live.
  rewrite bind_gets, bind_modify.
  apply (each_roots_eq m d n (heap s) cs base (top s)); auto.
Qed.

Lemma mark_live_post m d s :
  let s1 := mark_all_st m (marked d (heap s) (root s)) (with_live s []) in
  heap s1 = heap s /\ top s1 = top s /\ root s1 = root s /\
  forwarding s1 = forwarding s /\ log_ready s1 = log_ready s /\
  live s1 = live_of (marked d (heap s) (root s)).
Proof.
  cbv zeta.
  destruct (mark_all_st_frame m (marked d (heap s) (root s)) (with_live s []))
    as (A & B & C & D & E & F).
  rewrite A, B, C, D, E, F. simpl. unfold live_of. tauto.
Qed.

(** * Mark and sweep *)

Lemma Obj_init_eq m l tag s :
  0 <= l < HeapSize -> l < Z.of_nat (length (heap s)) ->
  Obj_init m l tag s = Ok (tt, init_st m l tag s).
Proof.
  intros Hl Hlen. unfold Obj_init, log_init_obj, init_ref_count, log_ref_count.
  rewrite bind_emit, bind_load, bind_store by lia.
  rewrite bind_assoc, bind_load by lia. norm.
  rewrite !heap_emit_st. rewrite peek_poke_eq by lia.
  unfold init_st, init_hdr. cbv zeta.
  destruct (is_ref_count m).
  - rewrite bind_assoc, bind_store, bind_emit, bind_load by lia.
    rewrite store_ok by lia.
    rewrite ?heap_emit_st. norm. rewrite ?heap_emit_st.
    rewrite !peek_poke_eq by (rewrite ?length_poke; lia).
    rewrite !poke_poke. do 2 f_equal.
    generalize (poke (heap s) l
                  (set_mark (set_ref_count (set_type (peek (heap s) l) tag) 1) 0)).
    generalize (poke (heap s) l (set_ref_count (set_type (peek (heap s) l) tag) 1)).
    generalize (poke (heap s) l (set_type (peek (heap s) l) tag)).
    clear. intros h1 h2 h3. destruct s as [h t fw lv rt [] o]; reflexivity.
  - rewrite bind_store, bind_load by lia. rewrite store_ok by lia.
    norm. rewrite ?heap_emit_st.
    rewrite !peek_poke_eq by (rewrite ?length_poke; lia).
    rewrite !poke_poke. reflexivity.
Qed.

Lemma init_st_frame m l tag s :
  heap (init_st m l tag s) = poke (heap s) l (init_hdr m (peek (heap s) l) tag) /\
  top (init_st m l tag s) = top s /\ root (init_st m l tag s) = root s /\
  live (init_st m l tag s) = live s /\
  forwarding (init_st m l tag s) = forwarding s /\
  log_ready (init_st m l tag s) = log_ready s.
Proof.
  unfold init_st. cbv zeta. norm.
  destruct (is_ref_count m);
    rewrite ?top_emit_st, ?root_emit_st, ?live_emit_st, ?forwarding_emit_st,
      ?log_ready_emit_st; tauto.
Qed.

Lemma Mem_free_eq m l z s :
  0 <= l -> l + 1 < HeapSize -> l < Z.of_nat (length (heap s)) ->
  Mem_free m l z s = Ok (tt, free_st m l z s).
Proof.
  intros Hl Hb Hlen. unfold Mem_free, log_free_mem.
  rewrite (bind_eq _ _ _ _ _ (Obj_init_eq m l TFree s ltac:(lia) Hlen)).
  rewrite bind_store by lia. reflexivity.
Qed.

Lemma free_st_frame m l z s :
  heap (free_st m l z s)
  = poke (poke (heap s) l (init_hdr m (peek (heap s) l) TFree)) (l + 1) (to_UWd z) /\
  top (free_st m l z s) = top s /\ root (free_st m l z s) = root s /\
  live (free_st m l z s) = live s /\
  forwarding (free_st m l z s) = forwarding s /\
  log_ready (free_st m l z s) = log_ready s.
Proof.
  unfold free_st. cbv zeta.
  destruct (init_st_frame m l TFree s) as (A & B & C & D & E & F).
  rewrite heap_emit_st, top_emit_st, root_emit_st, live_emit_st,
    forwarding_emit_st, log_ready_emit_st. norm.
  rewrite A, B, C, D, E, F. tauto.
Qed.

Lemma cell_not_forward h a : cell_ok h a -> ty h a <> TForward.
Proof.
  intros [H _]. unfold is_value_type in H. intros E. rewrite E in H.
  discriminate.
Qed.

Lemma sweep_step_cells m h T a z s :
  heap s = h -> 2 <= z -> 0 <= a ->
  forall cs, Cells h T (a + z) cs ->
  Cells (heap (if set_count a (live s) =? 0 then free_st m a (size_of h a) s else s))
        T (a + z) cs.
Proof.
  intros Hh Hz Ha cs HC.
  destruct (set_count a (live s) =? 0); [|now rewrite Hh].
  destruct (free_st_frame m a (size_of h a) s) as (E & _). rewrite E, Hh.
  eapply Cells_ext; eauto. intros l Hl.
  destruct (Cells_In _ _ _ _ _ HC Hl) as (A & _).
  rewrite !peek_poke_neq by lia. auto.
Qed.

Lemma sweep_st_cons m c cs s :
  sweep_st m (c :: cs) s
  = sweep_st m cs (if set_count c (live s) =? 0
                   then free_st m c (size_of (heap s) c) s else s).
Proof. reflexivity. Qed.

Lemma sweep_loop_eq m T : forall cs a s n,
  Cells (heap s) T a cs -> top s = T -> 1 <= a -> T < HeapSize ->
  Z.of_nat (length (heap s)) = HeapSize -> (length cs < n)%nat ->
  sweep_loop m n a s = Ok (tt, sweep_st m cs s).
Proof.
  induction cs as [|c cs IH]; intros a s n HC Ht Ha HT Hlen Hn;
    (destruct n as [|n]; [simpl in Hn; lia|]); inversion HC; subst;
    cbn [sweep_loop]; rewrite bind_gets.
  - destruct (Z.ltb_spec (top s) (top s)); [lia|]. reflexivity.
  - match goal with H : cell_ok _ _ |- _ => pose proof H as [Hty Hsz] end.
    match goal with H : Cells _ _ (_ + _) _ |- _ => pose proof (Cells_le _ _ _ _ H) end.
    destruct (Z.ltb_spec c (top s)); [|lia].
    rewrite (bind_eq _ _ _ _ _
               (Obj_size_eq c s ltac:(lia) ltac:(lia)
                  ltac:(apply cell_not_forward; auto))).
    rewrite bind_gets.
    rewrite to_UWd_small by (unfold HeapSize in *; lia).
    rewrite sweep_st_cons.
    destruct (set_count c (live s) =? 0) eqn:Ed.
    + rewrite (bind_eq _ _ _ _ _
                 (Mem_free_eq m c (size_of (heap s) c) s ltac:(lia) ltac:(lia)
                    ltac:(lia))).
      pose proof (sweep_step_cells m (heap s) (top s) c (size_of (heap s) c) s
                    eq_refl Hsz ltac:(lia) cs ltac:(assumption)) as HC'.
      rewrite Ed in HC'.
      destruct (free_st_frame m c (size_of (heap s) c) s) as (E & Et & _).
      apply IH; try lia.
      * exact HC'.
      * rewrite E, !length_poke. auto.
      * simpl in Hn. lia.
    + rewrite bind_ret. apply IH; auto; try lia. simpl in Hn. lia.
Qed.

(** What the sweep leaves: the live cells and everything outside the
    first two words of the dead cells as they were, the dead cells as
    Free blocks of their size. *)
Lemma sweep_st_spec m T : forall cs a s,
  Cells (heap s) T a cs -> 0 <= a -> T < HeapSize ->
  Z.of_nat (length (heap s)) = HeapSize ->
  let s' := sweep_st m cs s in
  top s' = top s /\ root s' = root s /\ live s' = live s /\
  forwarding s' = forwarding s /\
  length (heap s') = length (heap s) /\
  (forall j, 0 <= j ->
     (forall l, In l cs -> ~ In l (live s) -> j <> l /\ j <> l + 1) ->
     peek (heap s') j = peek (heap s) j) /\
  (forall l, In l cs -> ~ In l (live s) ->
     peek (heap s') l = init_hdr m (peek (heap s) l) TFree /\
     peek (heap s') (l + 1) = size_of (heap s) l).
Proof.
  induction cs as [|c cs IH]; intros a s HC Ha HT Hlen; cbv zeta.
  - simpl. do 5 (split; [reflexivity|]).
    split; [intros; reflexivity | intros ? []].
  - inversion HC; subst.
    match goal with H : cell_ok _ _ |- _ => pose proof H as [Hty Hsz] end.
    match goal with H : Cells _ _ (_ + _) _ |- _ =>
      pose proof (Cells_le _ _ _ _ H) as Hle; rename H into HC1 end.
    pose proof (sweep_step_cells m (heap s) T c (size_of (heap s) c) s
                  eq_refl Hsz ltac:(lia) cs HC1) as HC'.
    rewrite sweep_st_cons.
    destruct (set_count c (live s) =? 0) eqn:Ed; cbv iota in HC' |- *.
    + apply Z.eqb_eq, set_count_In in Ed.
      destruct (free_st_frame m c (size_of (heap s) c) s)
        as (E & Et & Er & El & Ef & _).
      specialize (IH (c + size_of (heap s) c) (free_st m c (size_of (heap s) c) s)
                    HC' ltac:(lia) HT
                    ltac:(rewrite E, !length_poke; auto)).
      cbv zeta in IH. destruct IH as (A & B & C & F & D & G & H).
      rewrite A, B, C, F, D, Et, Er, El, Ef, E, !length_poke.
      do 5 (split; [auto|]). split.
      * intros j Hj Hout. rewrite G; auto.
        -- rewrite E.
           destruct (Hout c (or_introl eq_refl) Ed).
           rewrite !peek_poke_neq by lia. reflexivity.
        -- intros l Hl Hd. apply Hout; auto. now right. now rewrite <- El.
      * intros l [<-|Hl] Hd.
        -- rewrite !G; try lia.
           ++ rewrite E. rewrite peek_poke_eq by (rewrite length_poke; lia).
              rewrite peek_poke_neq, peek_poke_eq by lia.
              split; auto. apply to_UWd_small. unfold HeapSize in *. lia.
           ++ intros l' Hl' _.
              destruct (Cells_In _ _ _ _ _ HC1 Hl') as (A1 & _). lia.
           ++ intros l' Hl' _.
              destruct (Cells_In _ _ _ _ _ HC1 Hl') as (A1 & _). lia.
        -- destruct (H l Hl ltac:(now rewrite El)) as [Q1 Q2].
           destruct (Cells_In _ _ _ _ _ HC1 Hl) as (A1 & _).
           rewrite Q1, Q2, E.
           rewrite !peek_poke_neq by lia. split; auto.
           apply size_of_ext; rewrite !peek_poke_neq by lia; auto.
    + specialize (IH (c + size_of (heap s) c) s HC' ltac:(lia) HT Hlen).
      cbv zeta in IH. destruct IH as (A & B & C & F & D & G & H).
      do 5 (split; [auto|]). split.
      * intros j Hj Hout. apply G; auto. intros l Hl. apply Hout. now right.
      * intros l [<-|Hl] Hd.
        -- exfalso. apply Z.eqb_neq in Ed. apply Ed. now apply set_count_In.
        -- apply H; auto.
Qed.

(** * Well-formed states and relocation *)

Lemma wfb_WF d n m s :
  wfb d n m s = true -> exists cs, WF d m s cs.
Proof.
  unfold wfb. rewrite !andb_true_iff.
  intros ((((H1 & H2) & H3) & H4) & H5).
  destruct (cells n (heap s) (region_base m (top s)) (top s)) as [cs|] eqn:E;
    [|discriminate].
  exists cs. apply cells_Cells in E. rewrite forallb_forall in H5.
  apply Z.eqb_eq in H1, H4. apply Z.leb_le in H2. apply Z.ltb_lt in H3.
  repeat split; auto.
Qed.

Lemma region_base_pos m t : 1 <= region_base m t.
Proof.
  unfold region_base, HeapSemiSize.
  destruct (is_copy m && (1000 <=? t)); lia.
Qed.

Lemma WF_top_le d m s cs : WF d m s cs -> top s <= HeapSize.
Proof.
  intros (_ & _ & H & _). unfold HeapSize in *. destruct (is_copy m); lia.
Qed.

Lemma peeks_ext h h' : forall m a,
  (forall j, a <= j < a + Z.of_nat m -> peek h' j = peek h j) ->
  peeks h' a m = peeks h a m.
Proof.
  induction m as [|m IH]; intros a H; simpl; auto.
  rewrite H by lia. f_equal. apply IH. intros j Hj. apply H. lia.
Qed.

Lemma peeks_map h h' (phi : Z -> Z) : forall m a a',
  (forall j, 0 <= j < Z.of_nat m -> peek h' (a' + j) = phi (peek h (a + j))) ->
  peeks h' a' m = map phi (peeks h a m).
Proof.
  induction m as [|m IH]; intros a a' H; simpl; auto.
  rewrite <- (Z.add_0_r a'), <- (Z.add_0_r a) at 1.
  rewrite H by lia. rewrite !Z.add_0_r. f_equal. apply IH.
  intros j Hj. replace (a' + 1 + j) with (a' + (1 + j)) by lia.
  replace (a + 1 + j) with (a + (1 + j)) by lia. apply H. lia.
Qed.

Lemma In_peeks h : forall m a x,
  In x (peeks h a m) -> exists j, 0 <= j < Z.of_nat m /\ x = peek h (a + j).
Proof.
  induction m as [|m IH]; intros a x H; simpl in H; [destruct H|].
  destruct H as [<-|H].
  - exists 0. split; [lia|]. now rewrite Z.add_0_r.
  - destruct (IH _ _ H) as (j & Hj & ->). exists (1 + j). split; [lia|].
    f_equal. lia.
Qed.

Lemma peeks_In h : forall m a j,
  0 <= j < Z.of_nat m -> In (peek h (a + j)) (peeks h a m).
Proof.
  induction m as [|m IH]; intros a j Hj; [lia|]. simpl.
  destruct (Z.eq_dec j 0) as [->|Hne].
  - left. now rewrite Z.add_0_r.
  - right. replace (a + j) with (a + 1 + (j - 1)) by lia. apply IH. lia.
Qed.

Lemma value_type_size h l :
  is_value_type (ty h l) = true ->
  (ty h l = TTup \/ ty h l = TStr -> len_ok h l = true) ->
  2 <= size_of h l /\
  (ty h l = TTup \/ ty h l = TStr -> size_of h l = 2 + peek h (l + 1)) /\
  (ty h l = TVec -> size_of h l = 3).
Proof.
  intros Hv Hk. unfold size_of, is_value_type in *.
  assert (Hk' : ty h l = TTup \/ ty h l = TStr ->
                to_UWd (2 + peek h (l + 1)) = 2 + peek h (l + 1)).
  { intros Ht. specialize (Hk Ht). unfold len_ok in Hk.
    rewrite andb_true_iff, Z.leb_le, Z.ltb_lt in Hk.
    apply to_UWd_small. lia. }
  unfold Num_size_needed, Tup_size_needed, Vec_size_needed, Str_size_needed.
  destruct (Z.eqb_spec (ty h l) TNum) as [E|N1].
  { split; [lia|]. split; intros; tags; lia. }
  destruct (Z.eqb_spec (ty h l) TTup) as [E|N2].
  { rewrite Hk' by auto. unfold len_ok in Hk.
    specialize (Hk (or_introl E)).
    rewrite andb_true_iff, Z.leb_le, Z.ltb_lt in Hk.
    split; [lia|]. split; intros; tags; lia. }
  destruct (Z.eqb_spec (ty h l) TVec) as [E|N3].
  { split; [lia|]. split; intros; tags; lia. }
  destruct (Z.eqb_spec (ty h l) TStr) as [E|N4]; [|discriminate].
  rewrite Hk' by auto. unfold len_ok in Hk.
  specialize (Hk (or_intror E)).
  rewrite andb_true_iff, Z.leb_le, Z.ltb_lt in Hk.
  split; [lia|]. split; intros; tags; lia.
Qed.

(** An object whose words are untouched is its own image. *)
Lemma obj_iso_same h h' l :
  is_value_type (ty h l) = true ->
  (ty h l = TTup \/ ty h l = TStr -> len_ok h l = true) ->
  (forall j, l <= j < l + size_of h l -> peek h' j = peek h j) ->
  obj_iso (fun x => x) h h' l.
Proof.
  intros Hv Hk Hw. destruct (value_type_size h l Hv Hk) as (S2 & Sts & Sv).
  assert (E0 : peek h' l = peek h l) by (apply Hw; lia).
  assert (E1 : peek h' (l + 1) = peek h (l + 1)) by (apply Hw; lia).
  unfold obj_iso. split; [now apply ty_ext|]. split; [exact E1|].
  assert (Hp : ty h l = TTup \/ ty h l = TStr ->
               peeks h' (l + 2) (Z.to_nat (peek h (l + 1)))
               = peeks h (l + 2) (Z.to_nat (peek h (l + 1)))).
  { intros Ht. apply peeks_ext. intros j Hj. apply Hw.
    rewrite (Sts Ht). lia. }
  split; [|split].
  - intros Et. unfold str_chars. rewrite E1. apply Hp. auto.
  - intros Et. unfold slots. rewrite E1, map_id. apply Hp. auto.
  - intros Ev. apply Hw. rewrite (Sv Ev). lia.
Qed.

(** ** Consequences of a relocation *)

Section Relocated.

Variables (phi : Z -> Z) (d : nat) (m : Mode) (s s' : Mem) (cs : list Z).
Hypothesis Hwf : WF d m s cs.
Hypothesis Hrel : relocates phi d s s'.

Let S := fun x => In x (live_of (marked d (heap s) (root s))).

Lemma S_closed : closed S (heap s).
Proof.
  destruct Hwf as (Hlen & Ht1 & Ht2 & Hnil & HC & Hg).
  pose proof (WF_top_le _ _ _ _ Hwf).
  eapply live_closed; eauto using region_base_pos.
Qed.

Lemma root_in_S r : In r (root s) -> r = 0 \/ S r.
Proof.
  intros Hr. destruct (Z.eq_dec r 0); auto. right.
  apply live_of_In. split; auto. unfold marked. apply in_flat_map.
  exists r. split; auto. now left.
Qed.

Lemma marked_in_S x : In x (marked d (heap s) (root s)) -> x = 0 \/ S x.
Proof.
  intros Hx. destruct (Z.eq_dec x 0); auto. right.
  apply live_of_In. split; auto.
Qed.

(** C1 in substance: every handle shows the same value. *)
Lemma relocated_values :
  map (value d (heap s')) (root s') = map (value d (heap s)) (root s).
Proof.
  destruct Hwf as (Hlen & Ht1 & Ht2 & Hnil & HC & Hg).
  destruct Hrel as (Hr & Hp0 & Hnil' & Hiso).
  rewrite Hr, map_map. apply map_ext_in. intros r Hin.
  apply (iso_value phi (heap s) (heap s') S); auto using S_closed, root_in_S.
Qed.

Lemma relocated_marked :
  marked d (heap s') (root s') = map phi (marked d (heap s) (root s)).
Proof.
  destruct Hwf as (Hlen & Ht1 & Ht2 & Hnil & HC & Hg).
  destruct Hrel as (Hr & Hp0 & Hnil' & Hiso).
  rewrite Hr.
  apply (iso_marked phi (heap s) (heap s') S); auto using S_closed, root_in_S.
Qed.

(** C9 in substance: nothing that a handle or a live slot holds is a
    Forward record. *)
Lemma relocated_no_forward x :
  In x (marked d (heap s') (root s')) -> ty (heap s') x <> TForward.
Proof.
  rewrite relocated_marked. intros Hx. apply in_map_iff in Hx.
  destruct Hx as (y & <- & Hy).
  destruct Hwf as (Hlen & Ht1 & Ht2 & Hnil & HC & Hg).
  destruct Hrel as (Hr & Hp0 & Hnil' & Hiso).
  destruct (marked_in_S y Hy) as [->|Sy].
  - rewrite Hp0, Hnil'. discriminate.
  - destruct (Hiso y Sy) as (Et & _). rewrite Et.
    assert (Hcell : y <> 0 /\ In y cs /\ is_value_type (ty (heap s) y) = true)
      by (eapply live_is_cell; eauto).
    destruct Hcell as (_ & _ & Hv).
    unfold is_value_type in Hv. intros E. rewrite E in Hv. discriminate.
Qed.

End Relocated.

Lemma Cells_same_sizes h h' b a cs :
  Cells h b a cs ->
  (forall l, In l cs -> cell_ok h' l /\ size_of h' l = size_of h l) ->
  Cells h' b a cs.
Proof.
  induction 1 as [|a cs Hlt Hok Hc IH]; intros He; [constructor|].
  destruct (He a (or_introl eq_refl)) as [E0 E1].
  constructor; auto. rewrite E1. apply IH.
  intros l Hl. apply He. now right.
Qed.

Lemma heap_ext (h h' : list Z) :
  length h' = length h ->
  (forall j, 0 <= j < Z.of_nat (length h) -> peek h' j = peek h j) ->
  h' = h.
Proof.
  intros Hl Hp. apply (nth_ext h' h 0 0 Hl). intros n Hn.
  specialize (Hp (Z.of_nat n) ltac:(lia)). unfold peek in Hp.
  now rewrite Nat2Z.id in Hp.
Qed.

Lemma len_ok_ext h h' l l' :
  peek h' (l' + 1) = peek h (l + 1) -> len_ok h' l' = len_ok h l.
Proof. intros E. unfold len_ok. now rewrite E. Qed.

Section RelocatedGood.

Variables (phi : Z -> Z) (d : nat) (m : Mode) (s s' : Mem) (cs cs' : list Z).
Hypothesis Hwf : WF d m s cs.
Hypothesis Hrel : relocates phi d s s'.
Hypothesis Hcs' :
  forall x, In x (live_of (marked d (heap s) (root s))) ->
            phi x <> 0 /\ In (phi x) cs'.

Let S := fun x => In x (live_of (marked d (heap s) (root s))).

Lemma relocated_good d' : forall l,
  good d' cs (heap s) l = true -> l = 0 \/ S l ->
  good d' cs' (heap s') (phi l) = true.
Proof.
  pose proof (S_closed d m s cs Hwf) as Hcl.
  destruct Hrel as (Hr & Hp0 & Hnil' & Hiso).
  induction d' as [|d' IH]; intros l Hg Hl; [discriminate|].
  apply good_inv in Hg. cbn [good].
  destruct Hl as [->|Sl]; [now rewrite Hp0|].
  destruct (Hcs' l Sl) as [Hne Hin].
  destruct (Z.eqb_spec (phi l) 0); [contradiction|].
  destruct Hg as [->|(Hl0 & Hlin & Hg)]; [now rewrite Hp0 in Hne|].
  destruct (Hiso l Sl) as (Et & E1 & Estr & Etup & Evec).
  destruct (Hcl l Sl) as [Ctup Cvec].
  apply andb_true_iff. split; [now apply mem_In|].
  rewrite Et.
  destruct Hg as [(E & Hk & Hs)|[(E & Hb & Hbin & Eb & Hk & Hs)|[(E & Hk)|E]]];
    rewrite E; simpl.
  - rewrite (len_ok_ext _ _ _ _ E1), Hk. simpl.
    rewrite (Etup E). apply forallb_forall. intros c' Hc'.
    apply in_map_iff in Hc'. destruct Hc' as (c & <- & Hc). apply IH; auto.
  - destruct (Cvec E) as (Sb & _ & Cb).
    destruct (Hcs' _ Sb) as [Hbne Hbin'].
    destruct (Hiso _ Sb) as (Etb & E1b & _ & Etupb & _).
    rewrite (Evec E).
    destruct (Z.eqb_spec (phi (peek (heap s) (l + 2))) 0); [contradiction|].
    simpl. rewrite (proj2 (mem_In _ _) Hbin'). simpl.
    rewrite Etb, Eb. simpl.
    rewrite (len_ok_ext _ _ _ _ E1b), Hk. simpl.
    rewrite (Etupb Eb). apply forallb_forall. intros c' Hc'.
    apply in_map_iff in Hc'. destruct Hc' as (c & <- & Hc). apply IH; auto.
  - now rewrite (len_ok_ext _ _ _ _ E1).
  - reflexivity.
Qed.

Lemma relocated_roots_good r' :
  In r' (root s') -> good d cs' (heap s') r' = true.
Proof.
  destruct Hwf as (Hlen & Ht1 & Ht2 & Hnil & HC & Hg).
  pose proof Hrel as (Hr & _).
  rewrite Hr. intros Hin. apply in_map_iff in Hin.
  destruct Hin as (r & <- & Hin).
  apply relocated_good; auto. eapply root_in_S; eauto.
Qed.

End RelocatedGood.

(** * The mark-and-sweep collection *)

Section MarkSweep.

Variables (d : nat) (s : Mem) (cs : list Z).
Hypothesis Hwf : WF d MARK_SWEEP_GC s cs.

Let s1 := mark_all_st MARK_SWEEP_GC (marked d (heap s) (root s)) (with_live s []).
Let s2 := sweep_st MARK_SWEEP_GC cs s1.

Lemma ms_s1 :
  heap s1 = heap s /\ top s1 = top s /\ root s1 = root s /\
  forwarding s1 = forwarding s /\
  live s1 = live_of (marked d (heap s) (root s)).
Proof.
  destruct (mark_live_post MARK_SWEEP_GC d s) as (A & B & C & D & _ & F).
  unfold s1. auto.
Qed.

Lemma gc_ms_eq n :
  (d + Z.to_nat HeapSize < n)%nat -> (length cs < n)%nat ->
  gc MARK_SWEEP_GC n s = Ok (tt, s2).
Proof.
  intros Hn1 Hn2. destruct Hwf as (Hlen & Ht1 & Ht2 & Hnil & HC & Hg).
  simpl in Ht2, HC. unfold region_base in HC. simpl in HC.
  cbn [gc].
  rewrite (bind_eq _ _ _ _ _
             (mark_live_eq MARK_SWEEP_GC d n s cs 1 HC ltac:(lia) ltac:(lia)
                Hnil Hg Hn1)).
  fold s1. destruct ms_s1 as (A & B & _).
  unfold sweep_garbage. apply (sweep_loop_eq MARK_SWEEP_GC (top s)); auto.
  - now rewrite A.
  - lia.
  - now rewrite A.
Qed.

Lemma ms_spec :
  top s2 = top s /\ root s2 = root s /\
  live s2 = live_of (marked d (heap s) (root s)) /\
  length (heap s2) = length (heap s) /\
  (forall j, 0 <= j ->
     (forall l, In l cs -> ~ In l (live_of (marked d (heap s) (root s))) ->
                j <> l /\ j <> l + 1) ->
     peek (heap s2) j = peek (heap s) j) /\
  (forall l, In l cs -> ~ In l (live_of (marked d (heap s) (root s))) ->
     peek (heap s2) l = init_hdr MARK_SWEEP_GC (peek (heap s) l) TFree /\
     peek (heap s2) (l + 1) = size_of (heap s) l).
Proof.
  destruct Hwf as (Hlen & Ht1 & Ht2 & Hnil & HC & Hg).
  simpl in Ht2, HC. unfold region_base in HC. simpl in HC.
  destruct ms_s1 as (A & B & C & D & E).
  destruct (sweep_st_spec MARK_SWEEP_GC (top s) cs 1 s1) as (P1 & P2 & P3 & P4 & P5 & P6 & P7);
    try lia; try (now rewrite A).
  fold s2 in P1, P2, P3, P4, P5, P6, P7.
  rewrite P1, P2, P3, P5, B, C, E, A. rewrite A, E in P6, P7.
  repeat split; auto; apply P7; auto.
Qed.

(** A live object does not share a word with a dead cell. *)
Lemma live_words_untouched l j :
  In l (live_of (marked d (heap s) (root s))) ->
  l <= j < l + size_of (heap s) l ->
  peek (heap s2) j = peek (heap s) j.
Proof.
  intros Hl Hj. destruct Hwf as (Hlen & Ht1 & Ht2 & Hnil & HC & Hg).
  simpl in Ht2, HC. unfold region_base in HC. simpl in HC.
  assert (Hcell : l <> 0 /\ In l cs /\ is_value_type (ty (heap s) l) = true).
  { eapply live_is_cell; eauto; lia. }
  destruct Hcell as (Hl0 & Hlin & Hv).
  destruct (Cells_In _ _ _ _ _ HC Hlin) as (A1 & A2 & [A3 A4]).
  destruct ms_spec as (_ & _ & _ & _ & G & _).
  apply G; [lia|]. intros l' Hl' Hd.
  assert (Hne : l' <> l) by (intros ->; contradiction).
  destruct (Cells_In _ _ _ _ _ HC Hl') as (B1 & B2 & [B3 B4]).
  destruct (Z_lt_le_dec l l').
  - pose proof (Cells_disjoint _ _ _ _ _ _ HC Hlin Hl' ltac:(lia)). lia.
  - pose proof (Cells_disjoint _ _ _ _ _ _ HC Hl' Hlin ltac:(lia)). lia.
Qed.

Lemma gc_ms_relocates : relocates (fun x => x) d s s2.
Proof.
  pose proof Hwf as (Hlen & Ht1 & Ht2 & Hnil & HC & Hg).
  simpl in Ht2, HC. unfold region_base in HC. simpl in HC.
  destruct ms_spec as (P1 & P2 & P3 & P4 & G & F).
  split; [now rewrite P2, map_id|]. split; [reflexivity|]. split.
  - unfold ty. rewrite G; [exact Hnil | lia |].
    intros l Hl _. destruct (Cells_In _ _ _ _ _ HC Hl). lia.
  - intros l Hl. apply obj_iso_same.
    + eapply live_is_cell; eauto; lia.
    + eapply live_len_ok; eauto; lia.
    + intros j Hj. now apply live_words_untouched with (l := l).
Qed.

Lemma gc_ms_WF : WF d MARK_SWEEP_GC s2 cs.
Proof.
  pose proof Hwf as (Hlen & Ht1 & Ht2 & Hnil & HC & Hg).
  pose proof gc_ms_relocates as Hrel.
  destruct ms_spec as (P1 & P2 & P3 & P4 & G & F).
  split; [now rewrite P4|]. split; [now rewrite P1|]. split; [now rewrite P1|].
  split; [apply Hrel|]. split.
  - rewrite P1. eapply Cells_same_sizes; eauto. intros l Hl.
    destruct (Cells_In _ _ _ _ _ HC Hl) as (A1 & A2 & [A3 A4]).
    pose proof (region_base_pos MARK_SWEEP_GC (top s)).
    destruct (in_dec Z.eq_dec l (live_of (marked d (heap s) (root s)))) as [Hlv|Hd].
    + assert (E0 : peek (heap s2) l = peek (heap s) l)
        by (apply live_words_untouched with (l := l); auto; lia).
      assert (E1 : peek (heap s2) (l + 1) = peek (heap s) (l + 1))
        by (apply live_words_untouched with (l := l); auto; lia).
      split; [eapply cell_ok_ext; eauto; split; auto|].
      now apply size_of_ext.
    + destruct (F l Hl Hd) as [F1 F2].
      assert (Et : ty (heap s2) l = TFree)
        by (unfold ty; rewrite F1; apply hdr_type_init_hdr; tags; lia).
      assert (Es : size_of (heap s2) l = size_of (heap s) l)
        by (unfold size_of at 1; rewrite Et; simpl; exact F2).
      split; auto. split; [rewrite Et; reflexivity | lia].
  - intros r Hr.
    eapply (relocated_roots_good (fun x => x) d MARK_SWEEP_GC s s2 cs cs);
      eauto.
    intros x Hx.
    assert (Hcell : x <> 0 /\ In x cs /\ is_value_type (ty (heap s) x) = true).
    { simpl in HC. unfold region_base in HC. simpl in HC.
      eapply live_is_cell; eauto; lia. }
    tauto.
Qed.

End MarkSweep.

(** A second collection rewrites the Free blocks with what they hold. *)
Lemma gc_ms_twice d s cs :
  WF d MARK_SWEEP_GC s cs ->
  let s2 := sweep_st MARK_SWEEP_GC cs
              (mark_all_st MARK_SWEEP_GC (marked d (heap s) (root s))
                 (with_live s [])) in
  let s4 := sweep_st MARK_SWEEP_GC cs
              (mark_all_st MARK_SWEEP_GC (marked d (heap s2) (root s2))
                 (with_live s2 [])) in
  heap s4 = heap s2 /\ top s4 = top s2 /\ root s4 = root s2 /\
  live s4 = live s2.
Proof.
  intros Hwf s2 s4.
  pose proof (gc_ms_WF d s cs Hwf) as Hwf2. fold s2 in Hwf2.
  pose proof (gc_ms_relocates d s cs Hwf) as Hrel. fold s2 in Hrel.
  destruct (ms_spec d s cs Hwf) as (P1 & P2 & P3 & P4 & G & F).
  fold s2 in P1, P2, P3, P4, G, F.
  destruct (ms_spec d s2 cs Hwf2) as (Q1 & Q2 & Q3 & Q4 & G' & F').
  fold s4 in Q1, Q2, Q3, Q4, G', F'.
  assert (Em : marked d (heap s2) (root s2) = marked d (heap s) (root s)).
  { rewrite (relocated_marked (fun x => x) d MARK_SWEEP_GC s s2 cs Hwf Hrel).
    apply map_id. }
  rewrite Em in *.
  split; [|rewrite Q1, Q2, Q3, P3; auto].
  apply heap_ext; [congruence|]. intros j Hj.
  destruct Hwf as (Hlen & Ht1 & Ht2 & Hnil & HC & Hg).
  simpl in Ht2, HC. unfold region_base in HC. simpl in HC.
  set (L := live_of (marked d (heap s) (root s))) in *.
  destruct (existsb (fun l => negb (mem l L) && ((j =? l) || (j =? l + 1))) cs)
    eqn:Ex.
  - apply existsb_exists in Ex. destruct Ex as (l & Hl & Hc).
    apply andb_true_iff in Hc. destruct Hc as [Hd Hc].
    assert (Hd' : ~ In l L).
    { intros Hin. apply mem_In in Hin. rewrite Hin in Hd. discriminate. }
    destruct (F l Hl Hd') as [F1 F2]. destruct (F' l Hl Hd') as [F1' F2'].
    destruct (Cells_In _ _ _ _ _ HC Hl) as (A1 & A2 & [A3 A4]).
    apply orb_true_iff in Hc. destruct Hc as [Hc|Hc]; apply Z.eqb_eq in Hc;
      subst j.
    + rewrite F1', F1. apply init_hdr_idem.
    + rewrite F2', F2. unfold size_of.
      assert (Et : ty (heap s2) l = TFree)
        by (unfold ty; rewrite F1; apply hdr_type_init_hdr; tags; lia).
      rewrite Et. simpl. exact F2.
  - apply G'; [lia|]. intros l Hl Hd.
    destruct (Z.eq_dec j l) as [->|N1]; [exfalso|].
    { rewrite <- not_true_iff_false in Ex. apply Ex. apply existsb_exists.
      exists l. split; auto. rewrite Z.eqb_refl.
      destruct (mem l L) eqn:Em'; [apply mem_In in Em'; contradiction|].
      reflexivity. }
    destruct (Z.eq_dec j (l + 1)) as [->|N2]; [exfalso|auto].
    rewrite <- not_true_iff_false in Ex. apply Ex. apply existsb_exists.
    exists l. split; auto. rewrite Z.eqb_refl, orb_true_r.
    destruct (mem l L) eqn:Em'; [apply mem_In in Em'; contradiction|].
    reflexivity.
Qed.

(** * The fix-up of references after a move *)

Lemma loc_after_move_eq m c s :
  0 <= c -> c + 1 < HeapSize ->
  loc_after_move m c s = Ok (resolve m (forwarding s) (heap s) c, s).
Proof.
  intros H0 H1. unfold loc_after_move, resolve, fwd, ty.
  destruct (is_copy m).
  - unfold Obj_type. rewrite bind_assoc, bind_load by lia. rewrite bind_ret.
    destruct (hdr_type (peek (heap s) c) =? TForward).
    + apply load_ok. lia.
    + reflexivity.
  - rewrite bind_gets. destruct (map_find c (forwarding s)); reflexivity.
Qed.

Lemma resolve_stable m f h h' c :
  (is_copy m = true ->
   peek h' c = peek h c /\ peek h' (c + 1) = peek h (c + 1)) ->
  resolve m f h' c = resolve m f h c.
Proof.
  unfold resolve, ty. destruct (is_copy m); auto.
  intros H. destruct (H eq_refl) as [-> ->]. reflexivity.
Qed.

Lemma fix_ok_stable m psi a0 T f h h' v :
  (forall j, 0 <= j -> j <= a0 + 1 \/ T <= j -> peek h' j = peek h j) ->
  fix_ok m psi a0 T f h v -> fix_ok m psi a0 T f h' v.
Proof.
  intros He (A & B & C & D). unfold fix_ok. do 3 (split; auto).
  rewrite <- D. apply resolve_stable. intros Hc.
  destruct (C Hc); split; apply He; lia.
Qed.

(** ** One object *)

Lemma length_fix_slots psi l : forall k h i,
  length (fix_slots psi h l k i) = length h.
Proof.
  induction k as [|k IH]; intros h i; simpl; auto.
  now rewrite IH, length_poke.
Qed.

Lemma fix_slots_out psi l : forall k h i j,
  0 <= l + 2 + i -> 0 <= j ->
  j < l + 2 + i \/ l + 2 + i + Z.of_nat k <= j ->
  peek (fix_slots psi h l k i) j = peek h j.
Proof.
  induction k as [|k IH]; intros h i j H0 Hj Ho; simpl; auto.
  rewrite IH by lia. apply peek_poke_neq; lia.
Qed.

Lemma fix_slots_in psi l : forall k h i j,
  0 <= l + 2 + i -> l + 2 + i + Z.of_nat k <= Z.of_nat (length h) ->
  i <= j < i + Z.of_nat k ->
  peek (fix_slots psi h l k i) (l + 2 + j) = psi (peek h (l + 2 + j)).
Proof.
  induction k as [|k IH]; intros h i j H0 Hl Hj; [lia|]. simpl.
  destruct (Z.eq_dec j i) as [->|Hne].
  - rewrite fix_slots_out by lia. apply peek_poke_eq. lia.
  - rewrite IH by (rewrite ?length_poke; lia).
    rewrite peek_poke_neq by lia. reflexivity.
Qed.

Lemma fix_slots_loop m psi a0 T l : forall k i s n,
  peek (heap s) (l + 1) = i + Z.of_nat k -> 0 <= i -> 0 <= a0 <= l ->
  l + 2 + i + Z.of_nat k <= T -> T <= HeapSize ->
  (forall j, i <= j < i + Z.of_nat k ->
     fix_ok m psi a0 T (forwarding s) (heap s) (peek (heap s) (l + 2 + j))) ->
  (k < n)%nat ->
  for_field n (load (l + 1))
    (fun i _ =>
       v <- load (l + 2 + i) ;;
       v' <- loc_after_move m v ;;
       store (l + 2 + i) v') i tt s
  = Ok (tt, with_heap s (fix_slots psi (heap s) l k i)).
Proof.
  induction k as [|k IH]; intros i s n Hlen Hi Ha HT HH Hok Hn;
    (destruct n as [|n]; [lia|]); cbn [for_field fix_slots];
    rewrite bind_load by lia; rewrite Hlen.
  - destruct (Z.ltb_spec i (i + Z.of_nat 0)); [lia|].
    destruct s; reflexivity.
  - destruct (Z.ltb_spec i (i + Z.of_nat (S k))); [|lia].
    rewrite !bind_assoc, bind_load by lia.
    destruct (Hok i ltac:(lia)) as (V0 & V1 & V2 & V3).
    rewrite bind_assoc,
      (bind_eq _ _ _ _ _ (loc_after_move_eq m _ s V0 V1)), V3.
    rewrite bind_store by lia.
    set (s1 := with_heap s _).
    assert (He : forall j, 0 <= j -> j <> l + 2 + i ->
                 peek (heap s1) j = peek (heap s) j).
    { intros j Hj Hne. subst s1. norm. apply peek_poke_neq; lia. }
    rewrite (IH (i + 1) s1 n); try lia.
    + subst s1. norm. reflexivity.
    + rewrite He by lia. lia.
    + intros j Hj. rewrite He by lia.
      eapply fix_ok_stable; [|apply Hok; lia].
      intros j' Hj' Ho. apply He; lia.
Qed.

Lemma Obj_fixup_references_eq m psi a0 T l s n :
  refs_ok m psi a0 T (forwarding s) (heap s) l ->
  0 <= a0 <= l -> 2 <= size_of (heap s) l ->
  l + size_of (heap s) l <= T -> T <= HeapSize ->
  (Z.to_nat HeapSize < n)%nat ->
  Obj_fixup_references m n l s = Ok (tt, with_heap s (fix_obj psi (heap s) l)).
Proof.
  intros (Hv & Htup & Hvec) Ha H2 Hsz HT Hn.
  unfold Obj_fixup_references, Obj_type, fix_obj.
  rewrite bind_assoc, bind_load by lia. rewrite bind_ret.
  fold (ty (heap s) l).
  destruct (Z.eqb_spec (ty (heap s) l) TTup) as [Et|Nt].
  - destruct (Htup Et) as [Hk Hs].
    assert (Sts : size_of (heap s) l = 2 + peek (heap s) (l + 1)).
    { unfold size_of. rewrite Et.
      change (TTup =? TNum) with false. change (TTup =? TTup) with true.
      cbv iota. unfold Tup_size_needed, len_ok in *.
      rewrite andb_true_iff, Z.leb_le, Z.ltb_lt in Hk.
      apply to_UWd_small. lia. }
    pose proof Hk as Hk'. unfold len_ok in Hk'.
    rewrite andb_true_iff, Z.leb_le, Z.ltb_lt in Hk'.
    apply (fix_slots_loop m psi a0 T l); try lia.
    intros j Hj. apply Hs. lia.
  - destruct (Z.eqb_spec (ty (heap s) l) TVec) as [Ev|Nv].
    + destruct (Hvec Ev) as (V0 & V1 & V2 & V3).
      assert (Sv : size_of (heap s) l = 3).
      { unfold size_of. rewrite Ev. reflexivity. }
      rewrite bind_load by lia.
      rewrite (bind_eq _ _ _ _ _ (loc_after_move_eq m _ s V0 V1)), V3.
      apply store_ok. lia.
    + destruct s; reflexivity.
Qed.

Lemma tup_size h l :
  ty h l = TTup -> len_ok h l = true ->
  size_of h l = 2 + peek h (l + 1) /\ 0 <= peek h (l + 1).
Proof.
  intros Et Hk. unfold size_of. rewrite Et.
  change (TTup =? TNum) with false. change (TTup =? TTup) with true.
  cbv iota. unfold Tup_size_needed, len_ok in *.
  rewrite andb_true_iff, Z.leb_le, Z.ltb_lt in Hk.
  split; [apply to_UWd_small|]; lia.
Qed.

Lemma vec_size h l : ty h l = TVec -> size_of h l = 3.
Proof. intros Ev. unfold size_of. rewrite Ev. reflexivity. Qed.

Lemma fix_obj_frame psi h l :
  (ty h l = TTup -> len_ok h l = true) -> 0 <= l ->
  length (fix_obj psi h l) = length h /\
  forall j, 0 <= j -> j < l + 2 \/ l + size_of h l <= j ->
            peek (fix_obj psi h l) j = peek h j.
Proof.
  intros Hk Hl. unfold fix_obj.
  destruct (Z.eqb_spec (ty h l) TTup) as [Et|Nt].
  - destruct (tup_size h l Et (Hk Et)) as [Sz Hp].
    split; [apply length_fix_slots|]. intros j Hj Ho.
    apply fix_slots_out; lia.
  - destruct (Z.eqb_spec (ty h l) TVec) as [Ev|Nv].
    + rewrite (vec_size h l Ev). split; [apply length_poke|].
      intros j Hj Ho. apply peek_poke_neq; lia.
    + auto.
Qed.

Lemma fix_obj_in psi h l :
  (ty h l = TTup -> len_ok h l = true) -> 0 <= l ->
  l + size_of h l <= Z.of_nat (length h) ->
  (ty h l = TTup -> forall j, 0 <= j < peek h (l + 1) ->
     peek (fix_obj psi h l) (l + 2 + j) = psi (peek h (l + 2 + j))) /\
  (ty h l = TVec -> peek (fix_obj psi h l) (l + 2) = psi (peek h (l + 2))) /\
  (ty h l <> TTup -> ty h l <> TVec -> fix_obj psi h l = h).
Proof.
  intros Hk Hl Hlen. unfold fix_obj.
  destruct (Z.eqb_spec (ty h l) TTup) as [Et|Nt].
  - destruct (tup_size h l Et (Hk Et)) as [Sz Hp].
    split; [|split]; [|intros E; rewrite E in Et; discriminate|tauto].
    intros _ j Hj. apply fix_slots_in; lia.
  - destruct (Z.eqb_spec (ty h l) TVec) as [Ev|Nv].
    + rewrite (vec_size h l Ev) in Hlen.
      split; [tauto|]. split; [|tauto]. intros _. apply peek_poke_eq. lia.
    + tauto.
Qed.

Lemma refs_ok_stable m psi a0 T f h h' l :
  (forall j, 0 <= j -> j <= a0 + 1 \/ T <= j -> peek h' j = peek h j) ->
  (forall j, l <= j < l + size_of h l -> peek h' j = peek h j) ->
  2 <= size_of h l ->
  refs_ok m psi a0 T f h l -> refs_ok m psi a0 T f h' l.
Proof.
  intros Hp Hc H2 (Hv & Htup & Hvec).
  assert (E0 : peek h' l = peek h l) by (apply Hc; lia).
  assert (E1 : peek h' (l + 1) = peek h (l + 1)) by (apply Hc; lia).
  unfold refs_ok. rewrite (ty_ext h h' l E0). split; [auto|]. split.
  - intros Et. destruct (Htup Et) as [Hk Hs].
    destruct (tup_size h l Et Hk) as [Sz Hpos].
    split; [unfold len_ok in *; now rewrite E1|].
    rewrite E1. intros j Hj. rewrite Hc by lia.
    eapply fix_ok_stable; eauto.
  - intros Ev. rewrite Hc by (rewrite (vec_size h l Ev); lia).
    eapply fix_ok_stable; eauto.
Qed.

Lemma fix_heap_cons psi c cs h :
  fix_heap psi (c :: cs) h = fix_heap psi cs (fix_obj psi h c).
Proof. reflexivity. Qed.

Lemma fixup_loop_eq m psi a0 T : forall cs a s n,
  Cells (heap s) T a cs -> top s = T -> 0 <= a0 <= a -> T <= HeapSize ->
  Z.of_nat (length (heap s)) = HeapSize ->
  (forall l, In l cs -> refs_ok m psi a0 T (forwarding s) (heap s) l) ->
  (length cs + Z.to_nat HeapSize + 1 < n)%nat ->
  fixup_loop m n a s = Ok (tt, with_heap s (fix_heap psi cs (heap s))).
Proof.
  induction cs as [|c cs IH]; intros a s n HC Ht Ha HT Hlen Hok Hn;
    (destruct n as [|n]; [cbn [length] in Hn; lia|]);
    cbn [fixup_loop]; rewrite bind_gets.
  - inversion HC; subst. rewrite Z.ltb_irrefl. destruct s; reflexivity.
  - inversion HC; subst.
    match goal with H : cell_ok _ _ |- _ => pose proof H as [Hty Hsz] end.
    match goal with H : Cells _ _ (_ + _) _ |- _ =>
      pose proof (Cells_le _ _ _ _ H) as Hle; rename H into HC1 end.
    destruct (Z.ltb_spec c (top s)); [|lia].
    rewrite (bind_eq _ _ _ _ _
               (Obj_size_eq c s ltac:(lia) ltac:(lia)
                  ltac:(apply cell_not_forward; auto))).
    pose proof (Hok c (or_introl eq_refl)) as Hc.
    rewrite (bind_eq _ _ _ _ _
               (Obj_fixup_references_eq m psi a0 (top s) c s n Hc
                  ltac:(lia) Hsz Hle HT ltac:(cbn [length] in Hn; lia))).
    rewrite to_UWd_small by (unfold HeapSize in *; lia).
    rewrite fix_heap_cons.
    destruct Hc as (Hv & Htup & _).
    destruct (fix_obj_frame psi (heap s) c ltac:(intros E; apply Htup; auto)
                ltac:(lia)) as [Fl Fo].
    rewrite (IH (c + size_of (heap s) c)
               (with_heap s (fix_obj psi (heap s) c)) n); norm; auto; try lia.
    + eapply Cells_ext; eauto. intros l Hl.
      destruct (Cells_In _ _ _ _ _ HC1 Hl) as (A1 & _).
      split; apply Fo; lia.
    + intros l Hl.
      destruct (Cells_In _ _ _ _ _ HC1 Hl) as (A1 & A2 & A3 & A4).
      eapply refs_ok_stable; [| | |apply Hok; now right]; auto.
      * intros j Hj Ho. apply Fo; lia.
      * intros j Hj. apply Fo; lia.
    + cbn [length] in Hn; lia.
Qed.

(** What the fix-up leaves: headers and length fields as they were,
    every slot of a Tup and the field of a Vec resolved, Num and Str
    objects and everything outside the region untouched. *)
Lemma fix_heap_spec psi T : forall cs a h,
  Cells h T a cs -> 0 <= a -> T <= Z.of_nat (length h) ->
  (forall l, In l cs -> ty h l = TTup -> len_ok h l = true) ->
  let h' := fix_heap psi cs h in
  length h' = length h /\
  (forall j, 0 <= j -> j < a \/ T <= j -> peek h' j = peek h j) /\
  (forall l, In l cs ->
     peek h' l = peek h l /\ peek h' (l + 1) = peek h (l + 1) /\
     (ty h l = TTup -> forall j, 0 <= j < peek h (l + 1) ->
        peek h' (l + 2 + j) = psi (peek h (l + 2 + j))) /\
     (ty h l = TVec -> peek h' (l + 2) = psi (peek h (l + 2))) /\
     (ty h l <> TTup -> ty h l <> TVec ->
        forall j, l <= j < l + size_of h l -> peek h' j = peek h j)).
Proof.
  induction cs as [|c cs IH]; intros a h HC Ha HT Hk; cbv zeta.
  - simpl. split; [auto|]. split; [auto|]. intros l [].
  - inversion HC; subst.
    match goal with H : cell_ok _ _ |- _ => pose proof H as [Hty Hsz] end.
    match goal with H : Cells _ _ (_ + _) _ |- _ =>
      pose proof (Cells_le _ _ _ _ H) as Hle; rename H into HC1 end.
    rewrite fix_heap_cons.
    destruct (fix_obj_frame psi h c (Hk c (or_introl eq_refl)) ltac:(lia))
      as [Fl Fo].
    destruct (fix_obj_in psi h c (Hk c (or_introl eq_refl)) ltac:(lia)
                ltac:(lia)) as (Ft & Fv & Fn).
    assert (HC' : Cells (fix_obj psi h c) T (c + size_of h c) cs).
    { eapply Cells_ext; eauto. intros l Hl.
      destruct (Cells_In _ _ _ _ _ HC1 Hl) as (A1 & _).
      split; apply Fo; lia. }
    specialize (IH (c + size_of h c) (fix_obj psi h c) HC' ltac:(lia)
                  ltac:(rewrite Fl; lia)).
    assert (Hk' : forall l, In l cs -> ty (fix_obj psi h c) l = TTup ->
                            len_ok (fix_obj psi h c) l = true).
    { intros l Hl. destruct (Cells_In _ _ _ _ _ HC1 Hl) as (A1 & _).
      rewrite (ty_ext h) by (apply Fo; lia).
      rewrite (len_ok_ext h _ l l) by (apply Fo; lia).
      apply Hk. now right. }
    specialize (IH Hk'). cbv zeta in IH. destruct IH as (A & B & C).
    split; [congruence|]. split.
    + intros j Hj Ho. rewrite B by lia. apply Fo; lia.
    + intros l [<-|Hl].
      * rewrite !B by lia. rewrite !Fo by lia.
        split; [auto|]. split; [auto|]. split; [|split].
        -- intros Et j Hj.
           destruct (tup_size h c Et (Hk c (or_introl eq_refl) Et)) as [Sz _].
           rewrite B by lia. apply Ft; auto.
        -- intros Ev. rewrite B by (rewrite (vec_size h c Ev) in *; lia).
           apply Fv; auto.
        -- intros Nt Nv j Hj. rewrite B by lia. now rewrite Fn.
      * destruct (Cells_In _ _ _ _ _ HC1 Hl) as (A1 & A2 & A3 & A4).
        destruct (C l Hl) as (C0 & C1 & Ct & Cv & Cn).
        assert (E0 : peek (fix_obj psi h c) l = peek h l) by (apply Fo; lia).
        assert (E1 : peek (fix_obj psi h c) (l + 1) = peek h (l + 1))
          by (apply Fo; lia).
        rewrite (ty_ext h _ l E0) in *. rewrite E1 in *.
        rewrite (size_of_ext h _ l E0 E1) in *.
        split; [congruence|]. split; [congruence|]. split; [|split].
        -- intros Et j Hj.
           destruct (tup_size h l Et (Hk l (or_intror Hl) Et)) as [Sz _].
           rewrite Ct by auto. f_equal. apply Fo; lia.
        -- intros Ev. rewrite Cv by auto. f_equal. apply Fo.
           ++ lia.
           ++ rewrite (vec_size h l Ev) in *. lia.
        -- intros Nt Nv j Hj. rewrite Cn by auto. apply Fo; lia.
Qed.

(** * Moving the live cells and fixing the references *)

Section MovedCells.

Variables (phi : Z -> Z) (d : nat) (m : Mode) (s s1 : Mem) (cs : list Z) (a0 : Z).
Hypothesis Hwf : WF d m s cs.
Hypothesis Hroot : root s1 = root s.
Hypothesis Hlen1 : Z.of_nat (length (heap s1)) = HeapSize.
Hypothesis Hnil1 : peek (heap s1) 0 = peek (heap s) 0.
Hypothesis Ha0 : 1 <= a0.
Hypothesis Htop1 : top s1 <= HeapSize.
Hypothesis Hcells :
  Cells (heap s1) (top s1) a0 (map phi (live_of (marked d (heap s) (root s)))).
Hypothesis Hcopy :
  forall l, In l (live_of (marked d (heap s) (root s))) ->
  forall i, 0 <= i < size_of (heap s) l ->
            peek (heap s1) (phi l + i) = peek (heap s) (l + i).
Hypothesis Hres :
  forall l, l = 0 \/ In l (live_of (marked d (heap s) (root s))) ->
            resolve m (forwarding s1) (heap s1) l = phi l.
Hypothesis Hphi0 : phi 0 = 0.
Hypothesis Hprot :
  is_copy m = true ->
  forall l, In l (live_of (marked d (heap s) (root s))) ->
            l <= a0 \/ top s1 <= l.

Lemma live_facts l :
  In l (live_of (marked d (heap s) (root s))) ->
  1 <= l /\ l + size_of (heap s) l <= HeapSize /\ 2 <= size_of (heap s) l /\
  is_value_type (ty (heap s) l) = true /\
  (ty (heap s) l = TTup \/ ty (heap s) l = TStr -> len_ok (heap s) l = true) /\
  phi l + size_of (heap s) l <= top s1 /\ a0 <= phi l /\
  peek (heap s1) (phi l) = peek (heap s) l /\
  peek (heap s1) (phi l + 1) = peek (heap s) (l + 1).
Proof.
  intros Hl.
  pose proof (WF_top_le _ _ _ _ Hwf) as HT.
  destruct Hwf as (Hlen & Ht1 & Ht2 & Hnil & HC & Hg).
  pose proof (region_base_pos m (top s)) as Hb.
  assert (Hcell : l <> 0 /\ In l cs /\ is_value_type (ty (heap s) l) = true)
    by (eapply live_is_cell; eauto).
  destruct Hcell as (Hl0 & Hin & Hv).
  assert (Hbd : 1 <= l /\ l + size_of (heap s) l <= HeapSize /\
                2 <= size_of (heap s) l)
    by (eapply cell_bounds; eauto).
  destruct Hbd as (B1 & B2 & B3).
  assert (Hk : ty (heap s) l = TTup \/ ty (heap s) l = TStr ->
               len_ok (heap s) l = true)
    by (eapply live_len_ok; eauto).
  assert (E0 : peek (heap s1) (phi l) = peek (heap s) l).
  { pose proof (Hcopy l Hl 0 ltac:(lia)) as E. now rewrite !Z.add_0_r in E. }
  assert (E1 : peek (heap s1) (phi l + 1) = peek (heap s) (l + 1))
    by (apply Hcopy; auto; lia).
  destruct (Cells_In _ _ _ _ _ Hcells (in_map phi _ _ Hl)) as (A1 & A2 & A3).
  rewrite (size_of_copy (heap s) (heap s1) l (phi l) E0 E1) in A2.
  repeat split; auto.
Qed.

Lemma live_fix_ok v :
  v = 0 \/ In v (live_of (marked d (heap s) (root s))) ->
  fix_ok m phi a0 (top s1) (forwarding s1) (heap s1) v.
Proof.
  intros Hv. unfold fix_ok. destruct Hv as [->|Hv].
  - unfold HeapSize. repeat split; try lia; auto.
  - destruct (live_facts v Hv) as (A & B & C & _).
    repeat split; try lia; auto.
Qed.

Lemma fixup_handles_eq : forall r,
  (forall x, In x r -> x = 0 \/ In x (live_of (marked d (heap s) (root s)))) ->
  fixup_handles m r s1 = Ok (map phi r, s1).
Proof.
  induction r as [|x r IH]; intros Hr; [reflexivity|]. cbn [fixup_handles map].
  destruct (live_fix_ok x (Hr x (or_introl eq_refl))) as (A & B & _ & D).
  rewrite (bind_eq _ _ _ _ _ (loc_after_move_eq m x s1 A B)), D.
  rewrite (bind_eq _ _ _ _ _ (IH (fun y Hy => Hr y (or_intror Hy)))).
  reflexivity.
Qed.

Lemma live_refs_ok l :
  In l (live_of (marked d (heap s) (root s))) ->
  refs_ok m phi a0 (top s1) (forwarding s1) (heap s1) (phi l).
Proof.
  intros Hl.
  destruct (live_facts l Hl) as (A & B & C & Hv & Hk & F & G & E0 & E1).
  destruct (S_closed d m s cs Hwf l Hl) as [Ctup Cvec].
  unfold refs_ok. rewrite (ty_copy (heap s) (heap s1) l (phi l) E0).
  split; [exact Hv|]. split.
  - intros Et. split.
    + rewrite (len_ok_ext (heap s) (heap s1) l (phi l) E1). auto.
    + intros j Hj. rewrite E1 in Hj.
      destruct (tup_size (heap s) l Et (Hk (or_introl Et))) as [Sz _].
      replace (phi l + 2 + j) with (phi l + (2 + j)) by lia.
      rewrite Hcopy by (auto; lia).
      apply live_fix_ok. apply Ctup; auto.
      unfold slots. replace (l + (2 + j)) with (l + 2 + j) by lia.
      apply peeks_In. lia.
  - intros Ev. rewrite Hcopy by (auto; rewrite (vec_size _ _ Ev); lia).
    apply live_fix_ok. right. apply (Cvec Ev).
Qed.

Lemma fixup_references_eq n :
  (if is_copy m then if HeapSemiSize <=? top s1 then HeapSemiSize else 1 else 1)
  = a0 ->
  (2 * Z.to_nat HeapSize + 1 < n)%nat ->
  fixup_references m n s1
  = Ok (tt, fixed_st phi (live_of (marked d (heap s) (root s))) (root s) s1).
Proof.
  intros Hstart Hn. unfold fixup_references.
  rewrite bind_gets, Hroot.
  rewrite (bind_eq _ _ _ _ _
             (fixup_handles_eq (root s) (root_in_S d s))).
  rewrite bind_modify, bind_gets. norm. rewrite Hstart.
  pose proof (Cells_length _ _ _ _ Hcells) as Hcl.
  rewrite (fixup_loop_eq m phi a0 (top s1)
             (map phi (live_of (marked d (heap s) (root s)))));
    norm; auto; try lia.
  intros l' Hl'. apply in_map_iff in Hl'. destruct Hl' as (l & <- & Hl).
  apply live_refs_ok; auto.
Qed.

Lemma fixed_frame :
  let s2 := fixed_st phi (live_of (marked d (heap s) (root s))) (root s) s1 in
  top s2 = top s1 /\ root s2 = map phi (root s) /\
  length (heap s2) = length (heap s1) /\
  live s2 = live s1 /\ forwarding s2 = forwarding s1 /\
  out s2 = out s1 /\ log_ready s2 = log_ready s1 /\
  (forall j, 0 <= j -> j < a0 \/ top s1 <= j ->
             peek (heap s2) j = peek (heap s1) j) /\
  Cells (heap s2) (top s1) a0 (map phi (live_of (marked d (heap s) (root s)))).
Proof.
  cbv zeta. unfold fixed_st. norm.
  destruct (fix_heap_spec phi (top s1) _ a0 (heap s1) Hcells ltac:(lia)
              ltac:(lia)) as (A & B & C).
  { intros l' Hl' Et. apply in_map_iff in Hl'. destruct Hl' as (l & <- & Hl).
    destruct (live_refs_ok l Hl) as (_ & Htup & _). apply Htup; auto. }
  do 7 (split; [auto|]). split; [exact B|].
  eapply Cells_ext; eauto. intros l Hl. destruct (C l Hl) as (C0 & C1 & _).
  auto.
Qed.

Lemma moved_iso l :
  In l (live_of (marked d (heap s) (root s))) ->
  obj_iso phi (heap s)
    (heap (fixed_st phi (live_of (marked d (heap s) (root s))) (root s) s1)) l.
Proof.
  intros Hl. unfold fixed_st. norm.
  destruct (fix_heap_spec phi (top s1) _ a0 (heap s1) Hcells ltac:(lia)
              ltac:(lia)) as (A & B & C).
  { intros l' Hl' Et. apply in_map_iff in Hl'. destruct Hl' as (l0 & <- & Hl0).
    destruct (live_refs_ok l0 Hl0) as (_ & Htup & _). apply Htup; auto. }
  destruct (C (phi l) (in_map phi _ _ Hl)) as (C0 & C1 & Ct & Cv & Cn).
  destruct (live_facts l Hl) as (A1 & B1 & C2 & Hv & Hk & F & G & E0 & E1).
  rewrite (ty_copy (heap s) (heap s1) l (phi l) E0) in *.
  rewrite (size_of_copy (heap s) (heap s1) l (phi l) E0 E1) in *.
  rewrite E1 in *.
  unfold obj_iso.
  split; [unfold ty; now rewrite C0, E0|]. split; [congruence|].
  split; [|split].
  - intros Es. unfold str_chars. rewrite C1.
    destruct (value_type_size (heap s) l Hv Hk) as (_ & Sz & _).
    specialize (Sz (or_intror Es)).
    assert (Nt : TStr <> TTup) by discriminate.
    assert (Nv : TStr <> TVec) by discriminate.
    rewrite Es in Cn.
    rewrite <- (map_id (peeks (heap s) (l + 2) _)).
    apply peeks_map. intros j Hj.
    replace (phi l + 2 + j) with (phi l + (2 + j)) by lia.
    rewrite Cn by (auto; lia). rewrite Hcopy by (auto; lia).
    f_equal. lia.
  - intros Et. unfold slots. rewrite C1.
    destruct (value_type_size (heap s) l Hv Hk) as (_ & Sz & _).
    specialize (Sz (or_introl Et)).
    apply peeks_map. intros j Hj. rewrite Ct by (auto; lia).
    f_equal. replace (phi l + 2 + j) with (phi l + (2 + j)) by lia.
    rewrite Hcopy by (auto; lia). f_equal. lia.
  - intros Ev. rewrite Cv by auto. f_equal.
    apply Hcopy; auto. rewrite (vec_size _ _ Ev). lia.
Qed.

Lemma moved_relocates :
  relocates phi d s
    (fixed_st phi (live_of (marked d (heap s) (root s))) (root s) s1).
Proof.
  destruct fixed_frame as (A & B & C & _ & _ & _ & _ & F & G).
  unfold relocates. split; [exact B|]. split; [exact Hphi0|]. split.
  - unfold ty. rewrite F by lia. rewrite Hnil1.
    destruct Hwf as (_ & _ & _ & Hnil & _). exact Hnil.
  - apply moved_iso.
Qed.

Lemma moved_WF :
  region_base m (top s1) = a0 ->
  top s1 < (if is_copy m then HeapSize - 1 else HeapSize) ->
  WF d m (fixed_st phi (live_of (marked d (heap s) (root s))) (root s) s1)
     (map phi (live_of (marked d (heap s) (root s)))).
Proof.
  intros Hrb Hlt.
  pose proof moved_relocates as Hrel.
  destruct fixed_frame as (A & B & C & _ & _ & _ & _ & F & G).
  pose proof (Cells_le _ _ _ _ Hcells).
  unfold WF. rewrite A, C, Hrb.
  split; [exact Hlen1|]. split; [lia|]. split; [exact Hlt|].
  split; [apply Hrel|]. split; [exact G|].
  apply (relocated_roots_good phi d m s _ cs _ Hwf Hrel).
  intros x Hx. destruct (live_facts x Hx) as (_ & _ & _ & _ & _ & _ & Hge & _).
  split; [lia|]. now apply in_map.
Qed.

End MovedCells.

(** * The slide of mark-compact *)

Lemma map_find_insert k k' v f :
  map_find k (map_insert k' v f) = if k =? k' then Some v else map_find k f.
Proof.
  induction f as [|[a b] f IH]; simpl.
  - destruct (k =? k'); reflexivity.
  - destruct (Z.ltb_spec k' a); simpl.
    + destruct (Z.eqb_spec k k'); reflexivity.
    + destruct (Z.eqb_spec k' a); simpl.
      * subst. destruct (Z.eqb_spec k a); reflexivity.
      * rewrite IH. destruct (Z.eqb_spec k a); auto.
        destruct (Z.eqb_spec k k'); auto. lia.
Qed.

Lemma move_without_forwarding_eq from z s :
  0 <= top s -> 0 <= from -> 0 <= z -> top s + z < HeapSize ->
  from + z <= HeapSize ->
  move_without_forwarding from z s
  = Ok (top s,
        emit_st (ECopy (top s) from z)
          (with_heap (with_top s (top s + z))
             (copy_heap (heap s) (top s) from (Z.to_nat z) 0))).
Proof.
  intros Ht Hf Hz Hb Hfb.
  unfold move_without_forwarding, reserve_with_possible_overlap.
  rewrite !bind_assoc, bind_gets, bind_assoc, bind_modify, bind_assoc, bind_gets.
  norm. rewrite to_UWd_small by (unfold HeapSize in *; lia).
  rewrite bind_assoc, bind_assert_true, bind_ret
    by (apply Z.ltb_lt; lia).
  rewrite (bind_eq _ _ _ _ _ (copy_words_eq (top s) from z _ Ht Hf Hz
                                ltac:(lia) Hfb)).
  unfold log_copy_mem. rewrite bind_emit. reflexivity.
Qed.

Lemma slide_st_frame from z s :
  heap (slide_st from z s) = copy_heap (heap s) (top s) from (Z.to_nat z) 0 /\
  top (slide_st from z s) = top s + z /\
  root (slide_st from z s) = root s /\ live (slide_st from z s) = live s /\
  forwarding (slide_st from z s) = map_insert from (top s) (forwarding s).
Proof.
  unfold slide_st. cbv zeta. norm.
  rewrite heap_emit_st, top_emit_st, root_emit_st, live_emit_st. norm. tauto.
Qed.

Lemma compact_st_cons old_top c cs s :
  compact_st old_top (c :: cs) s = compact_st old_top cs (compact_step old_top s c).
Proof. reflexivity. Qed.

(** One step of the loop keeps the cells still to be visited. *)
Lemma compact_step_inv old_top a s cs :
  Cells (heap s) old_top a (a :: cs) ->
  top s = old_top \/ 1 <= top s < a ->
  1 <= a -> old_top <= HeapSize ->
  Z.of_nat (length (heap s)) = HeapSize ->
  let s1 := compact_step old_top s a in
  let z := size_of (heap s) a in
  Cells (heap s1) old_top (a + z) cs /\
  (top s1 = old_top \/ 1 <= top s1 < a + z) /\
  length (heap s1) = length (heap s) /\
  root s1 = root s /\ live s1 = live s /\
  (forall j, a + z <= j -> peek (heap s1) j = peek (heap s) j).
Proof.
  intros HC Hinv Ha HT Hlen. cbv zeta. inversion HC; subst.
  match goal with H : cell_ok _ _ |- _ => pose proof H as [Hty Hsz] end.
  match goal with H : Cells _ _ (_ + _) _ |- _ =>
    pose proof (Cells_le _ _ _ _ H) as Hle; rename H into HC1 end.
  unfold compact_step.
  destruct (0 <? set_count a (live s)).
  - destruct (Z.eqb_spec old_top (top s)) as [E|N]; cbn [negb]; cbv iota.
    + repeat split; auto.
    + destruct Hinv as [E|Hinv]; [congruence|].
      destruct (slide_st_frame a (size_of (heap s) a) s) as (A & B & C & D & _).
      rewrite A, B, C, D, copy_heap_length.
      assert (Hout : forall j, a + size_of (heap s) a <= j ->
                peek (copy_heap (heap s) (top s) a
                        (Z.to_nat (size_of (heap s) a)) 0) j = peek (heap s) j).
      { intros j Hj. apply copy_heap_out; lia. }
      repeat split; auto; try lia.
      eapply Cells_ext; eauto. intros l Hl.
      destruct (Cells_In _ _ _ _ _ HC1 Hl) as (A1 & _).
      split; apply Hout; lia.
  - destruct (Z.eqb_spec old_top (top s)) as [E|N]; cbn [negb]; cbv iota.
    + norm. repeat split; auto; try (right; lia).
    + destruct Hinv as [E|Hinv]; [congruence|].
      repeat split; auto; try (right; lia).
Qed.

Lemma compact_loop_eq old_top : forall cs a s n,
  Cells (heap s) old_top a cs ->
  top s = old_top \/ 1 <= top s < a ->
  1 <= a -> old_top < HeapSize ->
  Z.of_nat (length (heap s)) = HeapSize -> (length cs < n)%nat ->
  compact_loop n old_top a s = Ok (tt, compact_st old_top cs s).
Proof.
  induction cs as [|c cs IH]; intros a s n HC Hinv Ha HT Hlen Hn;
    (destruct n as [|n]; [simpl in Hn; lia|]); inversion HC; subst;
    cbn [compact_loop].
  - rewrite Z.ltb_irrefl. reflexivity.
  - match goal with H : cell_ok _ _ |- _ => pose proof H as [Hty Hsz] end.
    match goal with H : Cells _ _ (_ + _) _ |- _ =>
      pose proof (Cells_le _ _ _ _ H) as Hle end.
    destruct (Z.ltb_spec c old_top); [|lia].
    rewrite (bind_eq _ _ _ _ _
               (Obj_size_eq c s ltac:(lia) ltac:(lia)
                  ltac:(apply cell_not_forward; auto))).
    rewrite !bind_gets.
    rewrite to_UWd_small by (unfold HeapSize in *; lia).
    rewrite compact_st_cons.
    destruct (compact_step_inv old_top c s cs HC Hinv Ha ltac:(lia) Hlen)
      as (I1 & I2 & I3 & _).
    assert (Hstep :
      (if 0 <? set_count c (live s)
       then if negb (old_top =? top s)
            then dst <- move_without_forwarding c (size_of (heap s) c) ;;
                 modify (fun s => with_forwarding s
                                    (map_insert c dst (forwarding s)))
            else ret tt
       else if old_top =? top s then modify (fun s => with_top s c)
            else ret tt) s
      = Ok (tt, compact_step old_top s c)).
    { unfold compact_step. destruct (0 <? set_count c (live s)).
      - destruct (Z.eqb_spec old_top (top s)) as [E|N]; cbn [negb]; cbv iota; [reflexivity|].
        destruct Hinv as [E|Hinv]; [congruence|].
        rewrite (bind_eq _ _ _ _ _
                   (move_without_forwarding_eq c (size_of (heap s) c) s
                      ltac:(lia) ltac:(lia) ltac:(lia) ltac:(lia) ltac:(lia))).
        unfold modify, slide_st. cbv zeta.
        rewrite forwarding_emit_st. reflexivity.
      - destruct (old_top =? top s); reflexivity. }
    rewrite (bind_eq _ _ _ _ _ Hstep).
    apply IH; auto; try lia. simpl in Hn. lia.
Qed.

(** What the slide leaves: every live cell word for word at the place
    the forwarding table gives, these places one after the other from
    the start of the first hole, and [top] just after the last. *)
Lemma compact_st_spec old_top : forall cs a s,
  Cells (heap s) old_top a cs ->
  top s = old_top \/ 1 <= top s < a ->
  1 <= a -> old_top <= HeapSize ->
  Z.of_nat (length (heap s)) = HeapSize ->
  (forall k, a <= k -> map_find k (forwarding s) = None) ->
  let s' := compact_st old_top cs s in
  let st := if top s =? old_top then a else top s in
  root s' = root s /\ live s' = live s /\
  length (heap s') = length (heap s) /\
  st <= top s' <= old_top /\
  (forall j, 0 <= j < st -> peek (heap s') j = peek (heap s) j) /\
  (forall k, k < a -> map_find k (forwarding s') = map_find k (forwarding s)) /\
  (forall l, In l cs -> 0 < set_count l (live s) ->
     st <= fwd (forwarding s') l <= l /\
     forall i, 0 <= i < size_of (heap s) l ->
       peek (heap s') (fwd (forwarding s') l + i) = peek (heap s) (l + i)) /\
  Cells (heap s') (top s') st
    (map (fwd (forwarding s'))
       (filter (fun l => 0 <? set_count l (live s)) cs)).
Proof.
  induction cs as [|c cs IH]; intros a s HC Hinv Ha HT Hlen Hfw; cbv zeta.
  - inversion HC; subst. simpl.
    assert (E : (if top s =? a then a else top s) = top s).
    { destruct (Z.eqb_spec (top s) a); lia. }
    rewrite E. repeat split; auto; try lia. constructor.
  - assert (a = c) by (inversion HC; auto). subst a.
    pose proof (compact_step_inv old_top c s cs HC Hinv Ha HT Hlen) as Hs.
    cbv zeta in Hs. destruct Hs as (HC1 & Hinv1 & Hlen1 & Hr1 & Hl1 & Hfr1).
    inversion HC; subst.
    match goal with H : cell_ok _ _ |- _ => pose proof H as [Hty Hsz] end.
    match goal with H : Cells (heap s) _ (_ + _) _ |- _ =>
      pose proof (Cells_le _ _ _ _ H) as Hle; rename H into HC0 end.
    rewrite compact_st_cons. unfold compact_step in *.
    set (z := size_of (heap s) c) in *.
    assert (Hrest : forall l, In l cs -> c + z <= l).
    { intros l Hl. destruct (Cells_In _ _ _ _ _ HC0 Hl). lia. }
    cbn [filter map].
    destruct (Z.ltb_spec 0 (set_count c (live s))) as [Hlive|Hdead].
    + cbv iota; cbn [map].
      destruct (Z.eqb_spec old_top (top s)) as [E|N]; cbn [negb] in *;
        cbv iota in *.
      * (* live, nothing freed yet: the cell stays *)
        specialize (IH (c + z) s HC1 Hinv1 ltac:(lia) HT Hlen
                      ltac:(intros; apply Hfw; lia)).
        cbv zeta in IH.
        destruct (Z.eqb_spec (top s) old_top); [|congruence].
        destruct IH as (A & B & C & D & F & G & H & I).
        assert (Ec : fwd (forwarding (compact_st old_top cs s)) c = c).
        { unfold fwd. rewrite G by lia. rewrite Hfw by lia. reflexivity. }
        do 3 (split; [auto|]). split; [lia|].
        split; [intros; apply F; lia|].
        split; [intros; apply G; lia|]. split.
        -- intros l [<-|Hl] Hlv.
           ++ rewrite Ec. split; [lia|]. intros i Hi. apply F. lia.
           ++ destruct (H l Hl Hlv). split; [lia|auto].
        -- rewrite Ec. constructor; [lia| |].
           ++ eapply cell_ok_ext; [| |exact (conj Hty Hsz)]; apply F; lia.
           ++ rewrite (size_of_ext (heap s)) by (apply F; lia). exact I.
      * (* live, after a hole: the cell slides down to [top] *)
        destruct Hinv as [E|Hinv]; [congruence|].
        destruct (slide_st_frame c z s) as (Sh & St & Sr & Sl & Sf).
        assert (Hin : forall j, 0 <= j < z ->
                  peek (heap (slide_st c z s)) (top s + j) = peek (heap s) (c + j)).
        { intros j Hj. rewrite Sh. apply copy_heap_in; try lia. }
        assert (Hout : forall j, 0 <= j -> j < top s \/ top s + z <= j ->
                  peek (heap (slide_st c z s)) j = peek (heap s) j).
        { intros j Hj Ho. rewrite Sh. apply copy_heap_out; lia. }
        specialize (IH (c + z) (slide_st c z s) HC1 Hinv1 ltac:(lia) HT
                      ltac:(lia)).
        rewrite St, Sl, Sf in IH.
        specialize (IH ltac:(intros k Hk; rewrite map_find_insert;
                             destruct (Z.eqb_spec k c); [lia|apply Hfw; lia])).
        cbv zeta in IH.
        destruct (Z.eqb_spec (top s + z) old_top); [lia|].
        destruct (Z.eqb_spec (top s) old_top); [congruence|].
        destruct IH as (A & B & C & D & F & G & H & I).
        set (s' := compact_st old_top cs (slide_st c z s)) in *.
        assert (Ec : fwd (forwarding s') c = top s).
        { unfold fwd. rewrite G by lia. rewrite map_find_insert, Z.eqb_refl.
          reflexivity. }
        split; [congruence|]. split; [congruence|]. split; [congruence|].
        split; [lia|].
        split; [intros j Hj; rewrite F by lia; apply Hout; lia|].
        split.
        { intros k Hk. rewrite G by lia. rewrite map_find_insert.
          destruct (Z.eqb_spec k c); [lia|reflexivity]. }
        split.
        -- intros l [<-|Hl] Hlv.
           ++ rewrite Ec. split; [lia|]. intros i Hi.
              rewrite F by lia. apply Hin. lia.
           ++ pose proof (Hrest l Hl).
              assert (Ez : size_of (heap (slide_st c z s)) l = size_of (heap s) l).
              { apply size_of_ext; apply Hout; lia. }
              destruct (H l Hl Hlv) as [Q1 Q2]. split; [lia|].
              intros i Hi. rewrite Q2 by (rewrite Ez; lia). apply Hout; lia.
        -- rewrite Ec.
           assert (E0 : peek (heap s') (top s) = peek (heap s) c).
           { rewrite F by lia. replace (top s) with (top s + 0) at 1 by lia.
             rewrite Hin by lia. f_equal. lia. }
           assert (E1 : peek (heap s') (top s + 1) = peek (heap s) (c + 1)).
           { rewrite F by lia. apply Hin. lia. }
           constructor; [lia| |].
           ++ eapply cell_ok_copy; [exact E0|exact E1|exact (conj Hty Hsz)].
           ++ rewrite (size_of_copy (heap s) (heap s') c (top s) E0 E1).
              exact I.
    + destruct (Z.eqb_spec old_top (top s)) as [E|N]; cbv iota in *.
      * (* dead, the first hole: [top] is rewound *)
        specialize (IH (c + z) (with_top s c) HC1 Hinv1 ltac:(lia) HT Hlen
                      ltac:(intros; apply Hfw; lia)).
        cbv zeta in IH. revert IH. norm. intros IH.
        destruct (Z.eqb_spec c old_top); [lia|].
        destruct (Z.eqb_spec (top s) old_top); [|congruence].
        destruct IH as (A & B & C & D & F & G & H & I).
        do 3 (split; [auto|]). split; [lia|].
        split; [intros; apply F; lia|].
        split; [intros; apply G; lia|]. split; [|exact I].
        intros l [<-|Hl] Hlv; [lia|]. apply H; auto.
      * (* dead, after a hole *)
        destruct Hinv as [E|Hinv]; [congruence|].
        specialize (IH (c + z) s HC1 Hinv1 ltac:(lia) HT Hlen
                      ltac:(intros; apply Hfw; lia)).
        cbv zeta in IH.
        destruct (Z.eqb_spec (top s) old_top); [congruence|].
        destruct IH as (A & B & C & D & F & G & H & I).
        do 3 (split; [auto|]). split; [lia|].
        split; [intros; apply F; lia|].
        split; [intros; apply G; lia|]. split; [|exact I].
        intros l [<-|Hl] Hlv; [lia|]. apply H; auto.
Qed.

(** Once [top] is rewound it stays below the old top; if no cell is
    dead the slide changes nothing. *)
Lemma compact_st_rewound old_top : forall cs a s,
  Cells (heap s) old_top a cs -> 1 <= top s < a -> 1 <= a ->
  old_top <= HeapSize -> Z.of_nat (length (heap s)) = HeapSize ->
  top (compact_st old_top cs s) < old_top.
Proof.
  induction cs as [|c cs IH]; intros a s HC Hinv Ha HT Hlen.
  - inversion HC; subst. simpl. lia.
  - assert (a = c) by (inversion HC; auto). subst a.
    pose proof (compact_step_inv old_top c s cs HC (or_intror Hinv) Ha HT Hlen)
      as Hs.
    cbv zeta in Hs. destruct Hs as (HC1 & Hinv1 & Hlen1 & _).
    inversion HC; subst.
    match goal with H : cell_ok _ _ |- _ => pose proof H as [Hty Hsz] end.
    match goal with H : Cells (heap s) _ (_ + _) _ |- _ =>
      pose proof (Cells_le _ _ _ _ H) as Hle end.
    rewrite compact_st_cons.
    apply (IH (c + size_of (heap s) c)); auto; try lia.
    unfold compact_step in *.
    destruct (0 <? set_count c (live s)).
    + destruct (Z.eqb_spec old_top (top s)) as [E|N]; cbn [negb]; cbv iota;
        [lia|].
      destruct (slide_st_frame c (size_of (heap s) c) s) as (_ & St & _).
      rewrite St. lia.
    + destruct (Z.eqb_spec old_top (top s)) as [E|N]; [lia|]. lia.
Qed.

Lemma compact_st_same old_top : forall cs a s,
  Cells (heap s) old_top a cs -> top s = old_top -> 1 <= a ->
  old_top <= HeapSize -> Z.of_nat (length (heap s)) = HeapSize ->
  top (compact_st old_top cs s) = old_top ->
  compact_st old_top cs s = s.
Proof.
  induction cs as [|c cs IH]; intros a s HC Ht Ha HT Hlen He; [reflexivity|].
  assert (a = c) by (inversion HC; auto). subst a.
  pose proof (compact_step_inv old_top c s cs HC (or_introl Ht) Ha HT Hlen)
    as Hs.
  cbv zeta in Hs. destruct Hs as (HC1 & Hinv1 & Hlen1 & _).
  inversion HC; subst.
  match goal with H : cell_ok _ _ |- _ => pose proof H as [Hty Hsz] end.
  match goal with H : Cells (heap s) _ (_ + _) _ |- _ =>
    pose proof (Cells_le _ _ _ _ H) as Hle end.
  rewrite compact_st_cons in *. unfold compact_step in *.
  rewrite Z.eqb_refl in *. cbn [negb] in *.
  destruct (0 <? set_count c (live s)); cbv iota in *.
  - apply (IH (c + size_of (heap s) c)); auto; lia.
  - exfalso.
    pose proof (compact_st_rewound (top s) cs (c + size_of (heap s) c)
                  (with_top s c) HC1 ltac:(norm; lia) ltac:(lia) HT Hlen).
    lia.
Qed.

(** ** Sorted lists *)

Lemma Cells_strongly_sorted h b a cs : Cells h b a cs -> StronglySorted Z.lt cs.
Proof.
  induction 1 as [|a cs Hlt [Hty Hsz] Hc IH]; constructor; auto.
  apply Forall_forall. intros l Hl.
  destruct (Cells_In _ _ _ _ _ Hc Hl). lia.
Qed.

Lemma sorted_ext : forall l1 l2 : list Z,
  StronglySorted Z.lt l1 -> StronglySorted Z.lt l2 ->
  (forall x, In x l1 <-> In x l2) -> l1 = l2.
Proof.
  induction l1 as [|a l1 IH]; intros l2 S1 S2 He.
  - destruct l2 as [|b l2]; auto. destruct (proj2 (He b)). now left.
  - destruct l2 as [|b l2]; [destruct (proj1 (He a)); now left|].
    inversion S1 as [|? ? S1' F1]; inversion S2 as [|? ? S2' F2]; subst.
    rewrite Forall_forall in F1, F2.
    assert (a = b).
    { destruct (proj1 (He a) (or_introl eq_refl)) as [->|Ha]; auto.
      destruct (proj2 (He b) (or_introl eq_refl)) as [->|Hb]; auto.
      specialize (F1 _ Hb). specialize (F2 _ Ha). lia. }
    subst b. f_equal. apply IH; auto. intros x. split; intros Hx.
    + destruct (proj1 (He x) (or_intror Hx)) as [<-|]; auto.
      specialize (F1 _ Hx). lia.
    + destruct (proj2 (He x) (or_intror Hx)) as [<-|]; auto.
      specialize (F2 _ Hx). lia.
Qed.

Lemma filter_sorted (f : Z -> bool) l :
  StronglySorted Z.lt l -> StronglySorted Z.lt (filter f l).
Proof.
  induction 1 as [|a l S IH F]; simpl; [constructor|].
  destruct (f a); auto. constructor; auto.
  rewrite Forall_forall in *. intros x Hx. apply filter_In in Hx.
  apply F. tauto.
Qed.

Lemma filter_live_eq cs L :
  StronglySorted Z.lt cs -> StronglySorted Z.lt L ->
  (forall x, In x L -> In x cs) ->
  filter (fun l => 0 <? set_count l L) cs = L.
Proof.
  intros Sc SL Hsub. apply sorted_ext; auto using filter_sorted.
  intros x. rewrite filter_In, Z.ltb_lt, set_count_pos. split; [tauto|].
  intros Hx. split; auto.
Qed.

(** ** The mark-compact collection *)

Section MarkCompact.

Variables (d : nat) (s : Mem) (cs : list Z).
Hypothesis Hwf : WF d MARK_COMPACT_GC s cs.

Lemma mc_marked :
  let s0 := mark_all_st MARK_COMPACT_GC (marked d (heap s) (root s))
              (with_live (with_forwarding s []) []) in
  heap s0 = heap s /\ top s0 = top s /\ root s0 = root s /\
  forwarding s0 = [] /\ live s0 = live_of (marked d (heap s) (root s)).
Proof.
  cbv zeta.
  destruct (mark_all_st_frame MARK_COMPACT_GC (marked d (heap s) (root s))
              (with_live (with_forwarding s []) [])) as (A & B & C & D & E & F).
  rewrite A, B, C, D, F. simpl. unfold live_of. tauto.
Qed.

Lemma compact_live_eq n :
  (d + Z.to_nat HeapSize < n)%nat ->
  compact_live MARK_COMPACT_GC n s
  = Ok (tt, compacted_st d cs s).
Proof.
  intros Hn. unfold compacted_st.
  pose proof (WF_top_le _ _ _ _ Hwf) as HT.
  destruct Hwf as (Hlen & Ht1 & Ht2 & Hnil & HC & Hg).
  change (region_base MARK_COMPACT_GC (top s)) with 1 in HC.
  change (is_copy MARK_COMPACT_GC) with false in Ht2. cbv iota in Ht2.
  destruct mc_marked as (A & B & C & D & E).
  unfold compact_live. rewrite bind_modify.
  rewrite (bind_eq _ _ _ _ _
             (mark_live_eq MARK_COMPACT_GC d n (with_forwarding s []) cs 1
                HC ltac:(lia) HT Hnil Hg Hn)).
  norm. rewrite bind_gets, B.
  pose proof (Cells_length _ _ _ _ HC) as Hcl.
  apply compact_loop_eq;
    [now rewrite A | left; exact B | lia | lia | now rewrite A
    | unfold HeapSize in *; lia].
Qed.

Lemma mc_compacted :
  let L := live_of (marked d (heap s) (root s)) in
  let s1 := compacted_st d cs s in
  root s1 = root s /\ live s1 = L /\
  Z.of_nat (length (heap s1)) = HeapSize /\
  1 <= top s1 <= top s /\
  peek (heap s1) 0 = peek (heap s) 0 /\
  fwd (forwarding s1) 0 = 0 /\
  (forall l, In l L ->
     1 <= fwd (forwarding s1) l <= l /\
     forall i, 0 <= i < size_of (heap s) l ->
       peek (heap s1) (fwd (forwarding s1) l + i) = peek (heap s) (l + i)) /\
  Cells (heap s1) (top s1) 1 (map (fwd (forwarding s1)) L) /\
  (top s1 = top s -> heap s1 = heap s) /\
  (top s1 = top s -> forwarding s1 = []).
Proof.
  cbv zeta. unfold compacted_st.
  pose proof (WF_top_le _ _ _ _ Hwf) as HT.
  pose proof Hwf as (Hlen & Ht1 & Ht2 & Hnil & HC & Hg).
  change (region_base MARK_COMPACT_GC (top s)) with 1 in HC.
  destruct mc_marked as (A & B & C & D & E).
  set (s0 := mark_all_st MARK_COMPACT_GC (marked d (heap s) (root s))
               (with_live (with_forwarding s []) [])) in *.
  assert (HC0 : Cells (heap s0) (top s) 1 cs) by now rewrite A.
  pose proof (compact_st_spec (top s) cs 1 s0 HC0 (or_introl B) ltac:(lia) HT
                ltac:(now rewrite A)
                ltac:(intros; rewrite D; reflexivity)) as Hsp.
  cbv zeta in Hsp. rewrite B, Z.eqb_refl, A, C, E in Hsp.
  destruct Hsp as (P1 & P2 & P3 & P4 & P5 & P6 & P7 & P8).
  assert (Hsub : forall x, In x (live_of (marked d (heap s) (root s))) ->
                           In x cs).
  { intros x Hx.
    assert (Hcell : x <> 0 /\ In x cs /\ is_value_type (ty (heap s) x) = true)
      by (eapply live_is_cell; eauto; lia).
    tauto. }
  rewrite (filter_live_eq cs _ (Cells_strongly_sorted _ _ _ _ HC)
             (live_of_sorted _) Hsub) in P8.
  split; [auto|]. split; [auto|]. split; [lia|]. split; [lia|].
  split; [apply P5; lia|]. split.
  { unfold fwd. rewrite P6 by lia. rewrite D. reflexivity. }
  split.
  { intros l Hl. apply P7; auto. now apply set_count_pos. }
  split; [exact P8|].
  split.
  { intros Et. rewrite (compact_st_same (top s) cs 1 s0 HC0 B ltac:(lia) HT
                          ltac:(now rewrite A) Et). exact A. }
  intros Et. rewrite (compact_st_same (top s) cs 1 s0 HC0 B ltac:(lia) HT
                        ltac:(now rewrite A) Et). exact D.
Qed.

Lemma fwd_nil l : fwd [] l = l.
Proof. reflexivity. Qed.

Lemma gc_mc_eq n :
  (d + 2 * Z.to_nat HeapSize + 1 < n)%nat ->
  gc MARK_COMPACT_GC n s = Ok (tt, gc_mc_st d cs s).
Proof.
  intros Hn. unfold gc, gc_mc_st. cbv zeta.
  rewrite bind_gets.
  rewrite (bind_eq _ _ _ _ _ (compact_live_eq n ltac:(lia))).
  rewrite bind_gets.
  destruct mc_compacted as (A & B & C & D & E & F & G & H & I & J).
  destruct (Z.ltb_spec (top (compacted_st d cs s)) (top s)); [|reflexivity].
  pose proof (WF_top_le _ _ _ _ Hwf) as HT.
  assert (Hfix : fixup_references MARK_COMPACT_GC n (compacted_st d cs s)
                 = Ok (tt, fixed_st (fwd (forwarding (compacted_st d cs s)))
                             (live_of (marked d (heap s) (root s))) (root s)
                             (compacted_st d cs s))).
  { apply (fixup_references_eq _ d MARK_COMPACT_GC s _ cs 1);
      first [ exact Hwf | exact A | exact C | exact H | lia | discriminate
            | reflexivity | (intros l Hl; apply (G l Hl))
            | (intros; reflexivity) ]. }
  rewrite (bind_eq _ _ _ _ _ Hfix).
  rewrite bind_gets. reflexivity.
Qed.

(** The collection moves the live structure by the forwarding table,
    and leaves a well-formed state in which every cell is live. *)
Lemma gc_mc_spec :
  let L := live_of (marked d (heap s) (root s)) in
  let phi := fwd (forwarding (compacted_st d cs s)) in
  let s2 := gc_mc_st d cs s in
  relocates phi d s s2 /\ WF d MARK_COMPACT_GC s2 (map phi L) /\
  top s2 = top (compacted_st d cs s) /\
  forwarding s2 = forwarding (compacted_st d cs s).
Proof.
  cbv zeta. unfold gc_mc_st. cbv zeta.
  destruct mc_compacted as (A & B & C & D & E & F & G & H & I & J).
  pose proof (WF_top_le _ _ _ _ Hwf) as HT.
  pose proof Hwf as (Hlen & Ht1 & Ht2 & Hnil & HC & Hg).
  change (is_copy MARK_COMPACT_GC) with false in Ht2. cbv iota in Ht2.
  set (s1 := compacted_st d cs s) in *.
  set (phi := fwd (forwarding s1)) in *.
  destruct (Z.ltb_spec (top s1) (top s)) as [Hlt|Hge].
  - assert (Hrel : relocates phi d s
                     (fixed_st phi (live_of (marked d (heap s) (root s)))
                        (root s) s1)).
    { apply (moved_relocates phi d MARK_COMPACT_GC s s1 cs 1);
        first [ exact Hwf | exact A | exact C | exact E | exact H | exact F
              | lia | discriminate
              | (intros l Hl; apply (G l Hl)) | (intros; reflexivity) ]. }
    assert (Hwf2 : WF d MARK_COMPACT_GC
                     (fixed_st phi (live_of (marked d (heap s) (root s)))
                        (root s) s1)
                     (map phi (live_of (marked d (heap s) (root s))))).
    { apply (moved_WF phi d MARK_COMPACT_GC s s1 cs 1);
        first [ exact Hwf | exact A | exact C | exact E | exact H | exact F
              | lia | discriminate | reflexivity
              | (change (is_copy MARK_COMPACT_GC) with false; cbv iota; lia)
              | (intros l Hl; apply (G l Hl)) | (intros; reflexivity) ]. }
    set (s2 := fixed_st phi _ (root s) s1) in *.
    unfold relocates, WF in *.
    rewrite heap_emit_st, top_emit_st, root_emit_st, forwarding_emit_st.
    split; [exact Hrel|]. split; [exact Hwf2|]. split; reflexivity.
  - assert (Et : top s1 = top s) by lia.
    assert (Hrel : relocates phi d s s1).
    { unfold relocates. rewrite A, (I Et).
      assert (Eid : forall x, phi x = x)
        by (intros x; unfold phi; rewrite (J Et); apply fwd_nil).
      split; [now rewrite (map_ext _ _ Eid), map_id|]. split; [exact F|].
      split; [exact Hnil|]. intros l Hl.
      assert (Hcell : l <> 0 /\ In l cs /\
                      is_value_type (ty (heap s) l) = true)
        by (eapply live_is_cell; eauto using region_base_pos).
      assert (Hk : ty (heap s) l = TTup \/ ty (heap s) l = TStr ->
                   len_ok (heap s) l = true)
        by (eapply live_len_ok; eauto using region_base_pos).
      destruct Hcell as (_ & _ & Hv).
      pose proof (obj_iso_same (heap s) (heap s) l Hv Hk (fun _ _ => eq_refl))
        as Hiso.
      unfold obj_iso in *. rewrite !Eid.
      destruct Hiso as (I1 & I2 & I3 & I4 & I5).
      split; [exact I1|]. split; [exact I2|]. split; [exact I3|].
      split; [|intros Ev; rewrite ?Eid; apply I5; auto].
      intros Ett. rewrite (map_ext _ _ Eid). apply I4; auto. }
    split; [exact Hrel|]. split; [|split; reflexivity].
    unfold WF. split; [exact C|]. split; [lia|].
    split; [change (is_copy MARK_COMPACT_GC) with false; cbv iota; lia|].
    split; [apply Hrel|]. split; [exact H|].
    apply (relocated_roots_good phi d MARK_COMPACT_GC s s1 cs _ Hwf Hrel).
    intros x Hx. destruct (G x Hx) as [Gx _].
    split; [lia|]. now apply in_map.
Qed.

End MarkCompact.

(** * The copying collector *)

Lemma Mem_move_eq m from s :
  0 <= from -> 2 <= size_of (heap s) from ->
  from + size_of (heap s) from <= HeapSize ->
  ty (heap s) from <> TForward ->
  0 <= top s -> top s + size_of (heap s) from < HeapSize ->
  Z.of_nat (length (heap s)) = HeapSize ->
  Mem_move m from s = Ok (top s, move_st m from s).
Proof.
  intros Hf Hz Hb Hty Ht Hr Hlen. unfold Mem_move, move_st. cbv zeta.
  rewrite (bind_eq _ _ _ _ _ (Obj_size_eq from s Hf ltac:(lia) Hty)).
  set (z := size_of (heap s) from) in *.
  assert (Ez : to_UWd (top s + z) = top s + z)
    by (apply to_UWd_small; unfold HeapSize in *; lia).
  set (s1 := emit_st (EAlloc (top s) z) (with_top s (top s + z))).
  assert (Hres : reserve z s = Ok (top s, s1)).
  { rewrite reserve_eq, Ez.
    destruct (Z.ltb_spec (top s + z) HeapSize); [reflexivity|lia]. }
  rewrite (bind_eq _ _ _ _ _ Hres).
  assert (Hh1 : heap s1 = heap s) by (unfold s1; now rewrite heap_emit_st).
  rewrite (bind_eq _ _ _ _ _
             (copy_words_eq (top s) from z s1 Ht Hf ltac:(lia) ltac:(lia) Hb)).
  rewrite Hh1.
  set (s2 := with_heap s1 _).
  rewrite (bind_eq _ _ _ _ _
             (Obj_init_eq m from TForward s2 ltac:(lia)
                ltac:(unfold s2; norm; rewrite copy_heap_length; lia))).
  rewrite bind_store by lia. unfold log_copy_mem. rewrite bind_emit.
  reflexivity.
Qed.

Lemma move_st_frame m from s :
  let z := size_of (heap s) from in
  let H := copy_heap (heap s) (top s) from (Z.to_nat z) 0 in
  heap (move_st m from s)
  = poke (poke H from (init_hdr m (peek H from) TForward)) (from + 1) (top s) /\
  top (move_st m from s) = top s + z /\
  root (move_st m from s) = root s /\ live (move_st m from s) = live s /\
  forwarding (move_st m from s) = forwarding s.
Proof.
  cbv zeta. unfold move_st. cbv zeta.
  rewrite heap_emit_st, top_emit_st, root_emit_st, live_emit_st,
    forwarding_emit_st. norm.
  match goal with |- context [init_st m from TForward ?x] =>
    destruct (init_st_frame m from TForward x) as (A & B & C & D & E & _)
  end.
  rewrite A, B, C, D, E. norm.
  rewrite ?top_emit_st, ?root_emit_st, ?live_emit_st, ?forwarding_emit_st.
  norm. tauto.
Qed.

Lemma sumZ_cons x l : sumZ (x :: l) = x + sumZ l.
Proof. reflexivity. Qed.

Lemma sumZ_nonneg (f : Z -> Z) : forall r,
  (forall l, In l r -> 0 <= f l) -> 0 <= sumZ (map f r).
Proof.
  induction r as [|x r IH]; intros H; cbn [map]; [unfold sumZ; simpl; lia|].
  rewrite sumZ_cons. specialize (H x (or_introl eq_refl)) as Hx.
  assert (0 <= sumZ (map f r)) by (apply IH; intros l Hl; apply H; now right).
  lia.
Qed.

(** One move: the cells still to move are as they were, and the copy
    holds the words of the cell that the Forward record replaces. *)
Lemma move_step m F1 B c rest s :
  movable F1 B (c :: rest) s ->
  let s1 := move_st m c s in
  let z := size_of (heap s) c in
  movable F1 B rest s1 /\
  top s1 = top s + z /\ root s1 = root s /\ live s1 = live s /\
  forwarding s1 = forwarding s /\
  ty (heap s1) c = TForward /\ peek (heap s1) (c + 1) = top s /\
  (forall i, 0 <= i < z -> peek (heap s1) (top s + i) = peek (heap s) (c + i)) /\
  (forall j, 0 <= j -> j < top s \/ top s + z <= j -> j <> c -> j <> c + 1 ->
             peek (heap s1) j = peek (heap s) j) /\
  (forall l, In l rest ->
     c + z <= l /\ forall i, 0 <= i < size_of (heap s) l ->
                   peek (heap s1) (l + i) = peek (heap s) (l + i)).
Proof.
  intros (Hs & Hc & Hd & Ht & Hroom & Hdis & Hlen & HF & HB). cbv zeta.
  destruct (move_st_frame m c s) as (Eh & Et & Er & El & Ef). cbv zeta in Eh, Et.
  set (z := size_of (heap s) c) in *.
  destruct (Hc c (or_introl eq_refl)) as (C1 & C2 & C3).
  pose proof C3 as [Cty Csz]. fold z in Csz, C2.
  cbn [map] in Hroom. rewrite sumZ_cons in Hroom.
  assert (Hsum : 0 <= sumZ (map (size_of (heap s)) rest)).
  { apply sumZ_nonneg. intros l Hl.
    destruct (Hc l (or_intror Hl)) as (_ & _ & [_ ?]). lia. }
  fold z in Hroom.
  assert (Hsep : top s + z <= c \/ c + z <= top s).
  { destruct Hdis as [Hdis|Hdis]; [left|right]; try lia.
    specialize (Hdis c (or_introl eq_refl)). lia. }
  set (H := copy_heap (heap s) (top s) c (Z.to_nat z) 0) in *.
  assert (HHout : forall j, 0 <= j -> j < top s \/ top s + z <= j ->
                            peek H j = peek (heap s) j).
  { intros j Hj Ho. apply copy_heap_out; lia. }
  assert (HHin : forall i, 0 <= i < z ->
                           peek H (top s + i) = peek (heap s) (c + i)).
  { intros i Hi. apply copy_heap_in; lia. }
  assert (HlenH : length H = length (heap s)) by apply copy_heap_length.
  assert (Hrest : forall l, In l rest -> c + z <= l).
  { intros l Hl. apply (Hd c l); [now left|now right|].
    inversion Hs as [|? ? ? Hall]; subst. rewrite Forall_forall in Hall. auto. }
  assert (Hkeep : forall l, In l rest ->
            forall i, 0 <= i < size_of (heap s) l ->
                      peek (heap (move_st m c s)) (l + i) = peek (heap s) (l + i)).
  { intros l Hl i Hi. pose proof (Hrest l Hl).
    destruct (Hc l (or_intror Hl)) as (L1 & L2 & L3).
    rewrite Eh. rewrite !peek_poke_neq by lia. apply HHout; [lia|].
    destruct Hdis as [Hdis|Hdis]; [right|left]; try lia.
    specialize (Hdis l (or_intror Hl)). lia. }
  assert (Hsz : forall l, In l rest ->
            size_of (heap (move_st m c s)) l = size_of (heap s) l /\
            cell_ok (heap (move_st m c s)) l).
  { intros l Hl. destruct (Hc l (or_intror Hl)) as (L1 & L2 & L3).
    pose proof L3 as [_ L4].
    pose proof (Hkeep l Hl 0 ltac:(lia)) as E0.
    pose proof (Hkeep l Hl 1 ltac:(lia)) as E1. rewrite Z.add_0_r in E0.
    split; [now apply size_of_ext|]. eapply cell_ok_ext; eauto. }
  split.
  { unfold movable. split; [now inversion Hs|]. split.
    { intros l Hl. destruct (Hc l (or_intror Hl)) as (L1 & L2 & L3).
      destruct (Hsz l Hl) as [E1 E2]. rewrite E1. auto. }
    split.
    { intros l l' Hl Hl' Hlt. destruct (Hsz l Hl) as [E1 _]. rewrite E1.
      apply Hd; auto; now right. }
    split; [lia|]. split.
    { rewrite Et.
      rewrite (map_ext_in _ (size_of (heap s)) rest
                 (fun l Hl => proj1 (Hsz l Hl))). lia. }
    split.
    { destruct Hdis as [Hdis|Hdis]; [left|right]; try lia.
      intros l Hl. apply Hdis. now right. }
    split; [|auto]. rewrite Eh, !length_poke, HlenH. exact Hlen. }
  split; [exact Et|]. split; [exact Er|]. split; [exact El|].
  split; [exact Ef|]. split.
  { unfold ty. rewrite Eh. rewrite peek_poke_neq by lia.
    rewrite peek_poke_eq by lia. apply hdr_type_init_hdr. unfold TForward. lia. }
  split.
  { rewrite Eh. apply peek_poke_eq. rewrite length_poke. lia. }
  split.
  { intros i Hi. rewrite Eh. rewrite !peek_poke_neq by lia. apply HHin. lia. }
  split.
  { intros j Hj Ho N1 N2. rewrite Eh. rewrite !peek_poke_neq by lia.
    apply HHout; auto. }
  intros l Hl. split; [apply Hrest; auto|]. apply Hkeep; auto.
Qed.

Lemma moves_st_cons m c rest s :
  moves_st m (c :: rest) s = moves_st m rest (move_st m c s).
Proof. reflexivity. Qed.

Lemma moves_eq m F1 B : forall Lr s,
  movable F1 B Lr s ->
  each (fun from => if from =? 0 then ret tt
                    else _ <- Mem_move m from ;; ret tt) Lr s
  = Ok (tt, moves_st m Lr s).
Proof.
  induction Lr as [|c rest IH]; intros s Hm; [reflexivity|].
  destruct (move_step m F1 B c rest s Hm) as (Hm1 & _).
  destruct Hm as (Hs & Hc & Hd & Ht & Hroom & Hdis & Hlen & HF & HB).
  destruct (Hc c (or_introl eq_refl)) as (C1 & C2 & [Cty Csz]).
  cbn [map] in Hroom. rewrite sumZ_cons in Hroom.
  assert (Hsum : 0 <= sumZ (map (size_of (heap s)) rest)).
  { apply sumZ_nonneg. intros l Hl.
    destruct (Hc l (or_intror Hl)) as (_ & _ & [_ ?]). lia. }
  cbn [each]. destruct (Z.eqb_spec c 0); [lia|].
  rewrite bind_assoc.
  rewrite (bind_eq _ _ _ _ _
             (Mem_move_eq m c s ltac:(lia) Csz ltac:(lia)
                ltac:(apply cell_not_forward; split; auto) ltac:(lia)
                ltac:(lia) Hlen)).
  rewrite bind_ret. rewrite moves_st_cons. apply IH. exact Hm1.
Qed.

(** What the moves leave: the cells moved are Forward records to their
    copies, the copies lie one after the other from the old [top], and
    nothing else has changed. *)
Lemma moves_st_spec m F1 B : forall Lr s,
  movable F1 B Lr s ->
  let s' := moves_st m Lr s in
  root s' = root s /\ live s' = live s /\ forwarding s' = forwarding s /\
  Z.of_nat (length (heap s')) = HeapSize /\
  top s' = top s + sumZ (map (size_of (heap s)) Lr) /\
  (forall j, 0 <= j -> j < top s \/ top s' <= j ->
     (forall l, In l Lr -> j <> l /\ j <> l + 1) ->
     peek (heap s') j = peek (heap s) j) /\
  (forall l, In l Lr ->
     ty (heap s') l = TForward /\ top s <= peek (heap s') (l + 1) /\
     forall i, 0 <= i < size_of (heap s) l ->
       peek (heap s') (peek (heap s') (l + 1) + i) = peek (heap s) (l + i)) /\
  Cells (heap s') (top s') (top s) (map (fun l => peek (heap s') (l + 1)) Lr).
Proof.
  induction Lr as [|c rest IH]; intros s Hm; cbv zeta.
  - destruct Hm as (_ & _ & _ & _ & _ & _ & Hlen & _).
    simpl. unfold sumZ. simpl. rewrite Z.add_0_r.
    repeat split; auto; try tauto. constructor.
  - destruct (move_step m F1 B c rest s Hm)
      as (Hm1 & Et & Er & El & Ef & Efw & Eptr & Ein & Eout & Ekeep).
    cbv zeta in *.
    specialize (IH _ Hm1). cbv zeta in IH.
    destruct IH as (A & A' & A'' & Bl & Ct & D & E & F).
    destruct Hm as (Hs & Hc & Hd & Ht & Hroom & Hdis & Hlen & HF & HB).
    destruct Hm1 as (_ & Hc1 & _ & _ & Hroom1 & Hdis1 & _).
    destruct (Hc c (or_introl eq_refl)) as (C1 & C2 & C3).
    pose proof C3 as [Cty Csz].
    rewrite moves_st_cons.
    set (s1 := move_st m c s) in *. set (s' := moves_st m rest s1) in *.
    set (z := size_of (heap s) c) in *.
    assert (Esz : forall l, In l rest ->
                    size_of (heap s1) l = size_of (heap s) l).
    { intros l Hl. destruct (Ekeep l Hl) as [K1 K2].
      destruct (Hc l (or_intror Hl)) as (_ & _ & [_ L4]).
      apply size_of_ext.
      - pose proof (K2 0 ltac:(lia)) as E0. now rewrite Z.add_0_r in E0.
      - apply K2. lia. }
    assert (Esum : sumZ (map (size_of (heap s1)) rest)
                   = sumZ (map (size_of (heap s)) rest)).
    { f_equal. apply map_ext_in. exact Esz. }
    cbn [map] in Hroom |- *. rewrite sumZ_cons in Hroom |- *. fold z in Hroom |- *.
    assert (Hsum : 0 <= sumZ (map (size_of (heap s)) rest)).
    { apply sumZ_nonneg. intros l Hl.
      destruct (Hc l (or_intror Hl)) as (_ & _ & [_ ?]). lia. }
    assert (Htop' : top s' = top s + z + sumZ (map (size_of (heap s)) rest))
      by (rewrite Ct, Et, Esum; lia).
    assert (Hnc : forall l, In l rest -> c <> l /\ c <> l + 1 /\
                                         c + 1 <> l /\ c + 1 <> l + 1).
    { intros l Hl. destruct (Ekeep l Hl). lia. }
    assert (Hcsafe : c + 1 < top s1 \/ top s' <= c).
    { destruct Hdis as [Hdis|Hdis].
      - right. specialize (Hdis c (or_introl eq_refl)). lia.
      - left. lia. }
    assert (Eh0 : peek (heap s') c = peek (heap s1) c).
    { apply D; [lia|lia|]. intros l Hl. destruct (Hnc l Hl). lia. }
    assert (Eh1 : peek (heap s') (c + 1) = top s).
    { rewrite D; [exact Eptr|lia|lia|].
      intros l Hl. destruct (Hnc l Hl). lia. }
    assert (Hto : forall i, 0 <= i < z ->
                    peek (heap s') (top s + i) = peek (heap s) (c + i)).
    { intros i Hi. rewrite D; [apply Ein; lia|lia|lia|].
      intros l Hl. destruct (Hc l (or_intror Hl)) as (L1 & L2 & L3).
      destruct (Ekeep l Hl) as [K1 _].
      destruct Hdis as [Hdis|Hdis].
      - specialize (Hdis l (or_intror Hl)). lia.
      - destruct L3 as [_ L4]. lia. }
    split; [congruence|]. split; [congruence|]. split; [congruence|].
    split; [exact Bl|]. split; [lia|]. split.
    { intros j Hj Ho Hh. rewrite D; try lia.
      - apply Eout; try lia.
        + destruct (Hh c (or_introl eq_refl)). lia.
        + destruct (Hh c (or_introl eq_refl)). lia.
      - intros l Hl. apply Hh. now right. }
    split.
    { intros l [<-|Hl].
      - split; [unfold ty in *; now rewrite Eh0|]. rewrite Eh1.
        split; [lia|]. exact Hto.
      - destruct (E l Hl) as (E1 & E2 & E3). split; [exact E1|].
        split; [lia|]. intros i Hi. rewrite E3 by (rewrite Esz; auto).
        apply (proj2 (Ekeep l Hl)). exact Hi. }
    rewrite Eh1.
    assert (E0 : peek (heap s') (top s) = peek (heap s) c).
    { pose proof (Hto 0 ltac:(lia)) as Q. now rewrite !Z.add_0_r in Q. }
    assert (E1 : peek (heap s') (top s + 1) = peek (heap s) (c + 1))
      by (apply Hto; lia).
    constructor; [lia| |].
    + eapply cell_ok_copy; [exact E0|exact E1|exact C3].
    + rewrite (size_of_copy (heap s) (heap s') c (top s) E0 E1). fold z.
      rewrite <- Et. exact F.
Qed.

Lemma Cells_sum_filter h T (f : Z -> bool) : forall a cs,
  Cells h T a cs -> sumZ (map (size_of h) (filter f cs)) <= T - a.
Proof.
  induction 1 as [|a cs Hlt [Hty Hsz] Hc IH]; [unfold sumZ; simpl; lia|].
  cbn [filter]. destruct (f a); cbn [map]; rewrite ?sumZ_cons; lia.
Qed.

Lemma Cells_sum h T : forall a cs,
  Cells h T a cs -> sumZ (map (size_of h) cs) = T - a.
Proof.
  induction 1 as [|a cs Hlt [Hty Hsz] Hc IH]; [unfold sumZ; simpl; lia|].
  cbn [map]. rewrite sumZ_cons. lia.
Qed.

(** ** The copying collection *)

Section Copying.

Variables (d : nat) (s : Mem) (cs : list Z).
Hypothesis Hwf : WF d COPY_GC s cs.

Lemma copy_live_cells l :
  In l (live_of (marked d (heap s) (root s))) ->
  In l cs /\ region_base COPY_GC (top s) <= l /\
  l + size_of (heap s) l <= top s /\ cell_ok (heap s) l.
Proof.
  intros Hl.
  pose proof (WF_top_le _ _ _ _ Hwf) as HT.
  destruct Hwf as (Hlen & Ht1 & Ht2 & Hnil & HC & Hg).
  assert (Hcell : l <> 0 /\ In l cs /\ is_value_type (ty (heap s) l) = true)
    by (eapply live_is_cell; eauto using region_base_pos).
  destruct Hcell as (_ & Hin & _).
  destruct (Cells_In _ _ _ _ _ HC Hin) as (A & B & C). auto.
Qed.

Lemma copy_sum_le :
  sumZ (map (size_of (heap s)) (live_of (marked d (heap s) (root s))))
  <= top s - region_base COPY_GC (top s).
Proof.
  destruct Hwf as (Hlen & Ht1 & Ht2 & Hnil & HC & Hg).
  rewrite <- (filter_live_eq cs (live_of (marked d (heap s) (root s))))
    at 1.
  - apply Cells_sum_filter. exact HC.
  - eapply Cells_strongly_sorted; eauto.
  - apply live_of_sorted.
  - intros x Hx. apply (copy_live_cells x Hx).
Qed.

Lemma copy_marked :
  let s0 := with_top
              (mark_all_st COPY_GC (marked d (heap s) (root s)) (with_live s []))
              (if HeapSemiSize <=? top s then 1 else HeapSemiSize) in
  heap s0 = heap s /\ root s0 = root s /\
  top s0 = (if HeapSemiSize <=? top s then 1 else HeapSemiSize) /\
  live s0 = live_of (marked d (heap s) (root s)) /\
  forwarding s0 = forwarding s.
Proof.
  cbv zeta. destruct (mark_live_post COPY_GC d s) as (A & B & C & D & E & F).
  cbv zeta in *. norm. tauto.
Qed.

Lemma copy_movable :
  movable (top s)
    ((if HeapSemiSize <=? top s then 1 else HeapSemiSize)
     + (top s - region_base COPY_GC (top s)))
    (live_of (marked d (heap s) (root s)))
    (with_top
       (mark_all_st COPY_GC (marked d (heap s) (root s)) (with_live s []))
       (if HeapSemiSize <=? top s then 1 else HeapSemiSize)).
Proof.
  pose proof (WF_top_le _ _ _ _ Hwf) as HT.
  pose proof copy_sum_le as Hsum.
  destruct copy_marked as (A & B & C & D & E).
  pose proof Hwf as (Hlen & Ht1 & Ht2 & Hnil & HC & Hg).
  change (is_copy COPY_GC) with true in Ht2. cbv iota in Ht2.
  unfold movable. rewrite A, C.
  pose proof (region_base_pos COPY_GC (top s)) as Hb.
  split; [apply live_of_sorted|]. split.
  { intros l Hl. destruct (copy_live_cells l Hl) as (I1 & I2 & I3 & I4).
    split; [lia|]. split; auto. }
  split.
  { intros l l' Hl Hl' Hlt.
    apply (Cells_disjoint _ _ _ _ l l' HC); auto;
      [apply (copy_live_cells l Hl)|apply (copy_live_cells l' Hl')]. }
  unfold region_base in *. change (is_copy COPY_GC) with true in *.
  cbn [andb] in *. unfold HeapSemiSize, HeapSize in *.
  destruct (Z.leb_spec 1000 (top s)).
  - split; [lia|]. split; [lia|]. split.
    { left. intros l Hl. destruct (copy_live_cells l Hl) as (_ & I2 & _).
      unfold region_base in I2. change (is_copy COPY_GC) with true in I2.
      cbn [andb] in I2. unfold HeapSemiSize in I2.
      destruct (Z.leb_spec 1000 (top s)); lia. }
    split; [exact Hlen|]. lia.
  - split; [lia|]. split; [lia|]. split; [right; lia|].
    split; [exact Hlen|]. lia.
Qed.

Lemma move_live_eq n :
  (d + Z.to_nat HeapSize < n)%nat ->
  move_live COPY_GC n s = Ok (tt, moved_st d s).
Proof.
  intros Hn.
  pose proof (WF_top_le _ _ _ _ Hwf) as HT.
  pose proof Hwf as (Hlen & Ht1 & Ht2 & Hnil & HC & Hg).
  unfold move_live.
  rewrite (bind_eq _ _ _ _ _
             (mark_live_eq COPY_GC d n s cs _ HC (region_base_pos _ _) HT
                Hnil Hg Hn)).
  destruct (mark_live_post COPY_GC d s) as (A & B & C & D & E & F).
  cbv zeta in *.
  rewrite bind_gets, bind_modify, bind_gets. norm. rewrite B, F.
  eapply moves_eq. apply copy_movable.
Qed.

Lemma copy_moved :
  let L := live_of (marked d (heap s) (root s)) in
  let a0 := if HeapSemiSize <=? top s then 1 else HeapSemiSize in
  let s1 := moved_st d s in
  let phi := resolve COPY_GC (forwarding s1) (heap s1) in
  root s1 = root s /\
  Z.of_nat (length (heap s1)) = HeapSize /\
  peek (heap s1) 0 = peek (heap s) 0 /\
  top s1 = a0 + sumZ (map (size_of (heap s)) L) /\
  a0 <= top s1 /\ top s1 < HeapSize - 1 /\
  region_base COPY_GC (top s1) = a0 /\
  Cells (heap s1) (top s1) a0 (map phi L) /\
  (forall l, In l L ->
     forall i, 0 <= i < size_of (heap s) l ->
               peek (heap s1) (phi l + i) = peek (heap s) (l + i)) /\
  phi 0 = 0 /\
  (forall l, In l L -> l <= a0 \/ top s1 <= l).
Proof.
  cbv zeta. unfold moved_st.
  pose proof copy_movable as Hm. pose proof copy_sum_le as Hsum.
  destruct copy_marked as (A & B & C & D & E).
  destruct (moves_st_spec COPY_GC _ _ _ _ Hm)
    as (P1 & P2 & P3 & P4 & P5 & P6 & P7 & P8).
  set (s0 := with_top _ _) in *.
  set (s1 := moves_st COPY_GC _ s0) in *.
  set (L := live_of (marked d (heap s) (root s))) in *.
  rewrite A, C in *.
  pose proof Hwf as (Hlen & Ht1 & Ht2 & Hnil & HC & Hg).
  change (is_copy COPY_GC) with true in Ht2. cbv iota in Ht2.
  assert (Hsum0 : 0 <= sumZ (map (size_of (heap s)) L)).
  { apply sumZ_nonneg. intros l Hl.
    destruct (copy_live_cells l Hl) as (_ & _ & _ & [_ ?]). lia. }
  assert (Hphi : forall l, In l L ->
            resolve COPY_GC (forwarding s1) (heap s1) l = peek (heap s1) (l + 1)).
  { intros l Hl. destruct (P7 l Hl) as (Q1 & _).
    unfold resolve. change (is_copy COPY_GC) with true. cbv iota.
    rewrite Q1. reflexivity. }
  assert (H0 : peek (heap s1) 0 = peek (heap s) 0).
  { apply P6; [lia| |].
    - left. unfold HeapSemiSize. destruct (1000 <=? top s); lia.
    - intros l Hl. destruct (copy_live_cells l Hl) as (_ & I2 & _).
      pose proof (region_base_pos COPY_GC (top s)). lia. }
  split; [congruence|]. split; [exact P4|]. split; [exact H0|].
  split; [exact P5|]. split; [lia|].
  assert (Hbase : region_base COPY_GC (top s)
                  = if HeapSemiSize <=? top s then HeapSemiSize else 1).
  { unfold region_base. change (is_copy COPY_GC) with true. reflexivity. }
  rewrite Hbase in Hsum.
  split.
  { unfold HeapSemiSize, HeapSize in *. destruct (1000 <=? top s) eqn:Et;
      [apply Z.leb_le in Et|apply Z.leb_gt in Et]; lia. }
  split.
  { unfold region_base. change (is_copy COPY_GC) with true. cbn [andb].
    unfold HeapSemiSize, HeapSize in *.
    destruct (Z.leb_spec 1000 (top s)); destruct (Z.leb_spec 1000 (top s1));
      lia. }
  split.
  { rewrite (map_ext_in _ _ L Hphi). exact P8. }
  split.
  { intros l Hl i Hi. rewrite (Hphi l Hl). apply (P7 l Hl). exact Hi. }
  split.
  { unfold resolve. change (is_copy COPY_GC) with true. cbv iota.
    unfold ty. rewrite H0. fold (ty (heap s) 0). rewrite Hnil. reflexivity. }
  intros l Hl. destruct (copy_live_cells l Hl) as (_ & I2 & I3 & [_ I4]).
  rewrite Hbase in I2. unfold HeapSemiSize, HeapSize in *.
  destruct (Z.leb_spec 1000 (top s)); lia.
Qed.

Lemma gc_copy_eq n :
  (d + 2 * Z.to_nat HeapSize + 1 < n)%nat ->
  gc COPY_GC n s = Ok (tt, gc_copy_st d s).
Proof.
  intros Hn. unfold gc, gc_copy_st. cbv zeta.
  rewrite (bind_eq _ _ _ _ _ (move_live_eq n ltac:(lia))).
  destruct copy_moved as (A & B & C & D & E & F & G & H & I & J & K).
  assert (Ha0 : 1 <= (if HeapSemiSize <=? top s then 1 else HeapSemiSize))
    by (unfold HeapSemiSize; destruct (1000 <=? top s); lia).
  assert (Hfix : fixup_references COPY_GC n (moved_st d s)
                 = Ok (tt, fixed_st
                             (resolve COPY_GC (forwarding (moved_st d s))
                                (heap (moved_st d s)))
                             (live_of (marked d (heap s) (root s))) (root s)
                             (moved_st d s))).
  { apply (fixup_references_eq _ d COPY_GC s _ cs
             (if HeapSemiSize <=? top s then 1 else HeapSemiSize));
      first [ exact Hwf | exact A | exact B | exact H | exact I | exact Ha0
            | (intros; reflexivity) | (intros _; exact K)
            | (unfold HeapSize in *; lia)
            | idtac ].
    change (is_copy COPY_GC) with true. cbv iota.
    unfold region_base in G. change (is_copy COPY_GC) with true in G.
    cbn [andb] in G. exact G. }
  rewrite (bind_eq _ _ _ _ _ Hfix).
  rewrite bind_gets.
  destruct (HeapSemiSize <=? top (fixed_st _ _ _ _)) eqn:Et;
    unfold fixed_st in Et; norm; rewrite Et; reflexivity.
Qed.

Lemma gc_copy_spec :
  let L := live_of (marked d (heap s) (root s)) in
  let phi := resolve COPY_GC (forwarding (moved_st d s)) (heap (moved_st d s)) in
  let s2 := gc_copy_st d s in
  relocates phi d s s2 /\ WF d COPY_GC s2 (map phi L) /\
  top s2 = (if HeapSemiSize <=? top s then 1 else HeapSemiSize)
           + sumZ (map (size_of (heap s)) L).
Proof.
  cbv zeta. unfold gc_copy_st. cbv zeta.
  destruct copy_moved as (A & B & C & D & E & F & G & H & I & J & K).
  assert (Ha0 : 1 <= (if HeapSemiSize <=? top s then 1 else HeapSemiSize))
    by (unfold HeapSemiSize; destruct (1000 <=? top s); lia).
  set (s1 := moved_st d s) in *.
  set (phi := resolve COPY_GC (forwarding s1) (heap s1)) in *.
  assert (Hrel : relocates phi d s
                   (fixed_st phi (live_of (marked d (heap s) (root s)))
                      (root s) s1)).
  { apply (moved_relocates phi d COPY_GC s s1 cs
             (if HeapSemiSize <=? top s then 1 else HeapSemiSize));
      first [ exact Hwf | exact A | exact B | exact C | exact H | exact I
            | exact J | exact Ha0
            | (intros; reflexivity) | (intros _; exact K)
            | (unfold HeapSize in *; lia) ]. }
  assert (Hwf2 : WF d COPY_GC
                   (fixed_st phi (live_of (marked d (heap s) (root s)))
                      (root s) s1)
                   (map phi (live_of (marked d (heap s) (root s))))).
  { apply (moved_WF phi d COPY_GC s s1 cs
             (if HeapSemiSize <=? top s then 1 else HeapSemiSize));
      first [ exact Hwf | exact A | exact B | exact C | exact H | exact I
            | exact J | exact Ha0 | exact G
            | (intros; reflexivity) | (intros _; exact K)
            | (change (is_copy COPY_GC) with true; cbv iota; exact F)
            | (unfold HeapSize in *; lia) ]. }
  unfold relocates, WF in *.
  rewrite heap_emit_st, top_emit_st, root_emit_st.
  split; [exact Hrel|]. split; [exact Hwf2|]. exact D.
Qed.

End Copying.

(** * A collection in any mode *)

Lemma relocates_refl d m s cs :
  WF d m s cs -> relocates (fun x => x) d s s.
Proof.
  intros Hwf. pose proof (WF_top_le _ _ _ _ Hwf) as HT.
  destruct Hwf as (Hlen & Ht1 & Ht2 & Hnil & HC & Hg).
  pose proof (region_base_pos m (top s)) as Hb.
  split; [now rewrite map_id|]. split; [reflexivity|]. split; [exact Hnil|].
  intros l Hl. apply obj_iso_same.
  - eapply live_is_cell; eauto.
  - eapply live_len_ok; eauto.
  - reflexivity.
Qed.

(** With enough fuel the collection returns, and what it returns is
    the live structure moved, in a state that is well formed again. *)
Lemma gc_sound m d s cs :
  WF d m s cs ->
  (forall n, (gc_fuel d <= n)%nat -> gc m n s = Ok (tt, gc_st m d cs s)) /\
  relocates (gc_phi m d cs s) d s (gc_st m d cs s) /\
  WF d m (gc_st m d cs s) (gc_cells m d cs s).
Proof.
  intros Hwf. unfold gc_fuel. destruct m; cbn [gc_st gc_phi gc_cells].
  - split; [intros; reflexivity|]. split; [|exact Hwf].
    eapply relocates_refl; eauto.
  - split; [|split].
    + intros n Hn. apply gc_ms_eq; auto; [lia|].
      destruct Hwf as (Hlen & Ht1 & Ht2 & Hnil & HC & Hg).
      pose proof (Cells_length _ _ _ _ HC) as Hl.
      pose proof (region_base_pos MARK_SWEEP_GC (top s)).
      change (is_copy MARK_SWEEP_GC) with false in Ht2. cbv iota in Ht2.
      unfold HeapSize in *. lia.
    + apply gc_ms_relocates; auto.
    + apply gc_ms_WF; auto.
  - destruct (gc_copy_spec d s cs Hwf) as (A & B & _).
    split; [|split; auto].
    intros n Hn. apply (gc_copy_eq d s cs Hwf). lia.
  - destruct (gc_mc_spec d s cs Hwf) as (A & B & _).
    split; [|split; auto].
    intros n Hn. apply (gc_mc_eq d s cs Hwf). lia.
Qed.

(** C1, as the code has it: in every mode, from a well-formed state
    (the active region a sequence of objects and free blocks, in
    copying mode inside its half of the heap; every handle nil or an
    acyclic structure of value objects at most [d] deep) one
    collection returns, and every handle then shows the value it
    showed before: Num by number, Str by characters, Tup and Vec slot
    by slot. *)
Theorem gc_preserves_values :
  forall m d k s n,
    wfb d k m s = true -> (gc_fuel d <= n)%nat ->
    exists s',
      gc m n s = Ok (tt, s') /\
      length (root s') = length (root s) /\
      map (value d (heap s')) (root s') = map (value d (heap s)) (root s).
Proof.
  intros m d k s n Hwfb Hn.
  destruct (wfb_WF d k m s Hwfb) as (cs & Hwf).
  destruct (gc_sound m d s cs Hwf) as (Hrun & Hrel & _).
  exists (gc_st m d cs s). split; [apply Hrun; exact Hn|].
  pose proof (relocated_values _ d m s _ cs Hwf Hrel) as Hv.
  split; [|exact Hv].
  destruct Hrel as (Hr & _). rewrite Hr. apply length_map.
Qed.

Lemma gc_preserves_values_witness :
  exists s',
    gc COPY_GC (gc_fuel 5) (shared_tree_state COPY_GC) = Ok (tt, s') /\
    length (root s') = length (root (shared_tree_state COPY_GC)) /\
    map (value 5 (heap s')) (root s')
    = map (value 5 (heap (shared_tree_state COPY_GC)))
          (root (shared_tree_state COPY_GC)).
Proof.
  pose proof (gc_preserves_values COPY_GC 5 100 (shared_tree_state COPY_GC)
                (gc_fuel 5) ltac:(vm_compute; reflexivity) (le_n _)) as H.
  exact H.
Defined.

(** In copying mode the allocator lets the lower half grow past
    [HeapSemiSize]; the collection of such a state completes and
    leaves the handle of the Num on a Forward record. *)
Lemma gc_copy_loses_value :
  exists s',
    gc COPY_GC (gc_fuel 3) overflow_state = Ok (tt, s') /\
    value 3 (heap overflow_state) (nth 1 (root overflow_state) 0) = VNum 7 /\
    value 3 (heap s') (nth 1 (root s') 0) = VOther TForward /\
    map (value 3 (heap s')) (root s')
    <> map (value 3 (heap overflow_state)) (root overflow_state).
Proof.
  eexists. split; [vm_compute; reflexivity|].
  split; [vm_compute; reflexivity|]. split; [vm_compute; reflexivity|].
  intros H. apply (f_equal (fun l => nth 1 l VNil)) in H.
  vm_compute in H. discriminate H.
Qed.

(** C9, as the code has it: in every mode, from a well-formed state a
    collection returns a state in which the handles and the reference
    fields of every live object hold the new locations [phi l] of what
    they held, and no location that a handle holds or that marking
    meets in a slot below a handle has a Forward header. *)
Theorem gc_resolves_forwarding :
  forall m d k s n,
    wfb d k m s = true -> (gc_fuel d <= n)%nat ->
    exists s' phi,
      gc m n s = Ok (tt, s') /\
      root s' = map phi (root s) /\
      (forall l, In l (live_of (marked d (heap s) (root s))) ->
                 obj_iso phi (heap s) (heap s') l) /\
      (forall x, In x (marked d (heap s') (root s')) ->
                 ty (heap s') x <> TForward).
Proof.
  intros m d k s n Hwfb Hn.
  destruct (wfb_WF d k m s Hwfb) as (cs & Hwf).
  destruct (gc_sound m d s cs Hwf) as (Hrun & Hrel & _).
  exists (gc_st m d cs s), (gc_phi m d cs s).
  split; [apply Hrun; exact Hn|].
  pose proof (relocated_no_forward _ d m s _ cs Hwf Hrel) as Hnf.
  destruct Hrel as (Hr & _ & _ & Hiso). auto.
Qed.

Lemma gc_resolves_forwarding_witness :
  exists s' phi,
    gc COPY_GC (gc_fuel 5) (shared_tree_state COPY_GC)
    = Ok (tt, s') /\
    root s' = map phi (root (shared_tree_state COPY_GC)) /\
    (forall l,
       In l (live_of (marked 5 (heap (shared_tree_state COPY_GC))
                        (root (shared_tree_state COPY_GC)))) ->
       obj_iso phi (heap (shared_tree_state COPY_GC)) (heap s') l) /\
    (forall x, In x (marked 5 (heap s') (root s')) ->
               ty (heap s') x <> TForward).
Proof.
  pose proof (gc_resolves_forwarding COPY_GC 5 100
                (shared_tree_state COPY_GC) (gc_fuel 5)
                ltac:(vm_compute; reflexivity) (le_n _)) as H.
  exact H.
Defined.

(** After the collection of the overgrown lower half the handle of the
    Num holds location 1, whose header is a Forward record. *)
Lemma gc_copy_leaves_forward :
  exists s',
    gc COPY_GC (gc_fuel 3) overflow_state = Ok (tt, s') /\
    In 1 (root s') /\ ty (heap s') 1 = TForward.
Proof.
  eexists. split; [vm_compute; reflexivity|].
  split; [vm_compute; tauto|vm_compute; reflexivity].
Qed.

Lemma gc_copy_side d s cs :
  WF d COPY_GC s cs ->
  (HeapSemiSize <=? top (gc_copy_st d s)) = negb (HeapSemiSize <=? top s).
Proof.
  intros Hwf.
  destruct (copy_moved d s cs Hwf) as (_ & _ & _ & _ & E & _ & G & _).
  unfold gc_copy_st. cbv zeta. rewrite top_emit_st. unfold fixed_st. norm.
  unfold region_base in G. change (is_copy COPY_GC) with true in G.
  cbn [andb] in G. unfold HeapSemiSize in *.
  destruct (Z.leb_spec 1000 (top s));
    destruct (Z.leb_spec 1000 (top (moved_st d s))); simpl; auto; lia.
Qed.

(** C3, as the code has it: in copying mode a collection of a
    well-formed state returns and logs one free event; when the upper
    half is vacated the event is [free 1000 1000], when the lower half
    is vacated it is [free 1 999] (location 0 is not part of it). *)
Theorem gc_copy_free_event :
  forall d k s n,
    wfb d k COPY_GC s = true -> log_ready s = true -> (gc_fuel d <= n)%nat ->
    exists s',
      gc COPY_GC n s = Ok (tt, s') /\
      frees (out s') =
      frees (out s) ++
        [if HeapSemiSize <=? top s then EFree HeapSemiSize HeapSemiSize
         else EFree 1 (HeapSemiSize - 1)].
Proof.
  intros d k s n Hwfb Hlog Hn.
  destruct (wfb_WF d k COPY_GC s Hwfb) as (cs & Hwf).
  destruct (gc_sound COPY_GC d s cs Hwf) as (Hrun & _).
  cbn [gc_st] in Hrun. exists (gc_copy_st d s).
  split; [apply Hrun; exact Hn|].
  rewrite (gc_copy_frees n s _ (Hrun n Hn) Hlog).
  rewrite (gc_copy_side d s cs Hwf).
  destruct (HeapSemiSize <=? top s); reflexivity.
Qed.

Lemma gc_copy_free_event_witness :
  exists s',
    gc COPY_GC (gc_fuel 2) (line_state COPY_GC) = Ok (tt, s') /\
    frees (out s') =
    frees (out (line_state COPY_GC)) ++
      [if HeapSemiSize <=? top (line_state COPY_GC)
       then EFree HeapSemiSize HeapSemiSize
       else EFree 1 (HeapSemiSize - 1)].
Proof.
  pose proof (gc_copy_free_event 2 100 (line_state COPY_GC) (gc_fuel 2)
                ltac:(vm_compute; reflexivity) ltac:(vm_compute; reflexivity)
                (le_n _)) as H.
  exact H.
Defined.

(** The collection of the lower half logs a free event of 999 words. *)
Lemma gc_copy_frees_999 :
  exists s',
    gc COPY_GC (gc_fuel 2) (line_state COPY_GC) = Ok (tt, s') /\
    frees (out s') = [EFree 1 999] /\ 999 <> HeapSemiSize.
Proof.
  eexists. split; [vm_compute; reflexivity|].
  split; [vm_compute; reflexivity|discriminate].
Qed.

(** * A second collection *)

Lemma compact_all_live old_top : forall cs s,
  (forall l, In l cs -> 0 < set_count l (live s)) -> top s = old_top ->
  compact_st old_top cs s = s.
Proof.
  induction cs as [|c cs IH]; intros s Hl Ht; [reflexivity|].
  rewrite compact_st_cons.
  assert (E : compact_step old_top s c = s).
  { unfold compact_step.
    destruct (Z.ltb_spec 0 (set_count c (live s))) as [_|H];
      [|specialize (Hl c (or_introl eq_refl)); lia].
    rewrite Ht, Z.eqb_refl. reflexivity. }
  rewrite E. apply IH; auto. intros l Hin. apply Hl. now right.
Qed.

(** After a moving collection the cells of the region are exactly the
    live objects. *)
Lemma moved_all_live phi d m s s1 cs :
  WF d m s cs -> relocates phi d s s1 ->
  WF d m s1 (map phi (live_of (marked d (heap s) (root s)))) ->
  forall y, In y (map phi (live_of (marked d (heap s) (root s)))) <->
            In y (live_of (marked d (heap s1) (root s1))).
Proof.
  intros Hwf Hrel Hwf1 y.
  pose proof (relocated_marked phi d m s s1 cs Hwf Hrel) as Hm.
  pose proof (WF_top_le _ _ _ _ Hwf1) as HT1.
  pose proof Hwf1 as (Hlen & Ht1 & Ht2 & Hnil & HC & Hg).
  pose proof (region_base_pos m (top s1)) as Hb.
  split.
  - intros Hy. destruct (Cells_In _ _ _ _ _ HC Hy) as (A & _).
    apply live_of_In. split; [lia|]. rewrite Hm.
    apply in_map_iff in Hy. destruct Hy as (l & <- & Hl).
    apply in_map. apply live_of_In in Hl. tauto.
  - intros Hy.
    assert (Hcell : y <> 0 /\
              In y (map phi (live_of (marked d (heap s) (root s)))) /\
              is_value_type (ty (heap s1) y) = true)
      by (eapply live_is_cell; eauto).
    tauto.
Qed.

Lemma gc_mc_again d s cs :
  WF d MARK_COMPACT_GC s cs ->
  (forall l, In l cs -> In l (live_of (marked d (heap s) (root s)))) ->
  heap (gc_mc_st d cs s) = heap s /\ top (gc_mc_st d cs s) = top s /\
  root (gc_mc_st d cs s) = root s.
Proof.
  intros Hwf Hall.
  destruct (mc_marked d s) as (A & B & C & D & E). cbv zeta in *.
  assert (Ec : compacted_st d cs s
               = mark_all_st MARK_COMPACT_GC (marked d (heap s) (root s))
                   (with_live (with_forwarding s []) [])).
  { unfold compacted_st. apply compact_all_live; [|exact B].
    intros l Hl. rewrite E. apply set_count_pos. auto. }
  unfold gc_mc_st. cbv zeta. rewrite Ec, B, Z.ltb_irrefl. auto.
Qed.

Lemma gc_copy_again d s cs :
  WF d COPY_GC s cs ->
  (forall l, In l cs <-> In l (live_of (marked d (heap s) (root s)))) ->
  top (gc_copy_st d s)
  = (if HeapSemiSize <=? top s then 1 else HeapSemiSize)
    + (top s - region_base COPY_GC (top s)).
Proof.
  intros Hwf Hall.
  destruct (gc_copy_spec d s cs Hwf) as (_ & _ & Et). rewrite Et.
  pose proof Hwf as (_ & _ & _ & _ & HC & _).
  assert (El : live_of (marked d (heap s) (root s)) = cs).
  { apply sorted_ext; [apply live_of_sorted| |intros x; symmetry; apply Hall].
    eapply Cells_strongly_sorted; eauto. }
  rewrite El, (Cells_sum _ _ _ _ HC). reflexivity.
Qed.

(** C4, as the code has it: from a well-formed state two collections
    in a row both return, the second leaves every handle with the value
    it had and the active region with the extent it had; in the three
    modes that do not copy it leaves the heap, [top] and the handles as
    they were, in copying mode it moves the objects to the other half,
    so that [top] changes by [HeapSemiSize - 1]. *)
Theorem gc_twice :
  forall m d k s n,
    wfb d k m s = true -> (gc_fuel d <= n)%nat ->
    exists s1 s2,
      gc m n s = Ok (tt, s1) /\ gc m n s1 = Ok (tt, s2) /\
      map (value d (heap s2)) (root s2) = map (value d (heap s1)) (root s1) /\
      top s2 - region_base m (top s2) = top s1 - region_base m (top s1) /\
      (m <> COPY_GC ->
         heap s2 = heap s1 /\ top s2 = top s1 /\ root s2 = root s1) /\
      (m = COPY_GC ->
         top s2 = if HeapSemiSize <=? top s1
                  then top s1 - (HeapSemiSize - 1)
                  else top s1 + (HeapSemiSize - 1)).
Proof.
  intros m d k s n Hwfb Hn.
  destruct (wfb_WF d k m s Hwfb) as (cs & Hwf).
  destruct (gc_sound m d s cs Hwf) as (Hrun & Hrel & Hwf1).
  destruct (gc_sound m d _ _ Hwf1) as (Hrun2 & Hrel2 & Hwf2).
  exists (gc_st m d cs s), (gc_st m d (gc_cells m d cs s) (gc_st m d cs s)).
  split; [apply Hrun; exact Hn|]. split; [apply Hrun2; exact Hn|].
  split; [exact (relocated_values _ d m _ _ _ Hwf1 Hrel2)|].
  destruct m; cbn [gc_st gc_cells gc_phi] in *.
  - split; [reflexivity|]. split; [auto|discriminate].
  - destruct (gc_ms_twice d s cs Hwf) as (A & B & C & _). cbv zeta in *.
    rewrite B. split; [reflexivity|]. split; [auto|discriminate].
  - pose proof (moved_all_live _ d COPY_GC s _ cs Hwf Hrel Hwf1) as Hall.
    pose proof (gc_copy_again d _ _ Hwf1 Hall) as Et.
    destruct (copy_moved d _ _ Hwf1) as (_ & _ & _ & _ & _ & _ & G & _).
    assert (Et2 : top (gc_copy_st d (gc_copy_st d s))
                  = top (moved_st d (gc_copy_st d s))).
    { unfold gc_copy_st at 1. cbv zeta. rewrite top_emit_st.
      unfold fixed_st. norm. reflexivity. }
    rewrite <- Et2 in G.
    split; [rewrite G, Et; lia|]. split; [congruence|]. intros _.
    rewrite Et. unfold region_base. change (is_copy COPY_GC) with true.
    cbn [andb]. destruct (HeapSemiSize <=? top (gc_copy_st d s)); lia.
  - pose proof (moved_all_live _ d MARK_COMPACT_GC s _ cs Hwf Hrel Hwf1)
      as Hall.
    destruct (gc_mc_again d _ _ Hwf1 (fun l Hl => proj1 (Hall l) Hl))
      as (A & B & C).
    rewrite B. split; [reflexivity|]. split; [auto|discriminate].
Qed.

Lemma gc_twice_witness :
  exists s1 s2,
    gc COPY_GC (gc_fuel 5) (shared_tree_state COPY_GC)
    = Ok (tt, s1) /\
    gc COPY_GC (gc_fuel 5) s1 = Ok (tt, s2) /\
    map (value 5 (heap s2)) (root s2) = map (value 5 (heap s1)) (root s1) /\
    top s2 - region_base COPY_GC (top s2)
    = top s1 - region_base COPY_GC (top s1) /\
    (COPY_GC <> COPY_GC ->
       heap s2 = heap s1 /\ top s2 = top s1 /\ root s2 = root s1) /\
    (COPY_GC = COPY_GC ->
       top s2 = if HeapSemiSize <=? top s1
                then top s1 - (HeapSemiSize - 1)
                else top s1 + (HeapSemiSize - 1)).
Proof.
  pose proof (gc_twice COPY_GC 5 100
                (shared_tree_state COPY_GC) (gc_fuel 5)
                ltac:(vm_compute; reflexivity) (le_n _)) as H.
  exact H.
Defined.

(** In copying mode the second collection moves the objects back to
    the lower half: [top] is not what the first collection left. *)
Lemma gc_copy_twice_moves_top :
  exists s1 s2,
    gc COPY_GC (gc_fuel 5) (shared_tree_state COPY_GC) = Ok (tt, s1) /\
    gc COPY_GC (gc_fuel 5) s1 = Ok (tt, s2) /\
    top s1 = 1010 /\ top s2 = 11 /\ top s2 <> top s1.
Proof.
  do 2 eexists. split; [vm_compute; reflexivity|].
  split; [vm_compute; reflexivity|].
  split; [vm_compute; reflexivity|].
  split; [vm_compute; reflexivity|]. vm_compute. discriminate.
Qed.

(** * The slide of three objects *)

Lemma Cells_app_inv h T : forall l1 a l2,
  Cells h T a (l1 ++ l2) -> exists b, Cells h T b l2.
Proof.
  induction l1 as [|x l1 IH]; intros a l2 H; [eauto|].
  inversion H; subst. eauto.
Qed.

Lemma map_sorted_mono (f : Z -> Z) : forall l,
  StronglySorted Z.lt l -> StronglySorted Z.lt (map f l) ->
  forall x y, In x l -> In y l -> x < y -> f x < f y.
Proof.
  induction l as [|a l IH]; intros S1 S2 x y Hx Hy Hlt; [destruct Hx|].
  inversion S1 as [|? ? S1' F1]; inversion S2 as [|? ? S2' F2]; subst.
  rewrite Forall_forall in F1, F2.
  destruct Hx as [<-|Hx], Hy as [<-|Hy].
  - lia.
  - apply F2. now apply in_map.
  - specialize (F1 _ Hx). lia.
  - apply IH; auto.
Qed.

Lemma compact_st_app old_top l1 l2 s :
  compact_st old_top (l1 ++ l2) s
  = compact_st old_top l2 (compact_st old_top l1 s).
Proof. unfold compact_st. apply fold_left_app. Qed.

Lemma compacted_abc d s pre pA pB pC :
  WF d MARK_COMPACT_GC s (pre ++ [pA; pB; pC]) ->
  (forall l, In l (pre ++ [pA; pC]) ->
             In l (live_of (marked d (heap s) (root s)))) ->
  ~ In pB (live_of (marked d (heap s) (root s))) ->
  pB = pA + size_of (heap s) pA /\ pB < pC /\
  top s = pC + size_of (heap s) pC /\
  top (compacted_st d (pre ++ [pA; pB; pC]) s) = pB + size_of (heap s) pC /\
  forwarding (compacted_st d (pre ++ [pA; pB; pC]) s) = [(pC, pB)].
Proof.
  intros Hwf Hlive Hdead.
  destruct (mc_marked d s) as (A & B & C & D & E). cbv zeta in *.
  set (s0 := mark_all_st MARK_COMPACT_GC (marked d (heap s) (root s))
               (with_live (with_forwarding s []) [])) in *.
  destruct Hwf as (_ & _ & _ & _ & HC & _).
  destruct (Cells_app_inv _ _ _ _ _ HC) as (b & HC3).
  inversion HC3 as [|? ? Hlt1 Hok1 HC2]; subst.
  inversion HC2 as [|? ? Hlt2 Hok2 HC1]; subst.
  inversion HC1 as [|? ? Hlt3 Hok3 HC0]; subst.
  inversion HC0; subst.
  destruct Hok1 as [_ Hz1]. destruct Hok2 as [_ Hz2].
  split; [reflexivity|]. split; [lia|]. split; [congruence|].
  unfold compacted_st. fold s0.
  replace (pre ++ [pA; pA + size_of (heap s) pA;
                   pA + size_of (heap s) pA
                   + size_of (heap s) (pA + size_of (heap s) pA)])
    with ((pre ++ [pA]) ++ [pA + size_of (heap s) pA;
                            pA + size_of (heap s) pA
                            + size_of (heap s) (pA + size_of (heap s) pA)])
    by (rewrite <- app_assoc; reflexivity).
  rewrite compact_st_app.
  rewrite (compact_all_live (top s) (pre ++ [pA]) s0); [|  |exact B].
  2:{ intros l Hl. rewrite E. apply set_count_pos. apply Hlive.
      apply in_app_iff in Hl. apply in_app_iff.
      destruct Hl as [Hl|[<-|[]]]; [left; auto|right; now left]. }
  set (pB := pA + size_of (heap s) pA) in *.
  set (pC := pB + size_of (heap s) pB) in *.
  assert (HdB : set_count pB (live s0) = 0)
    by (rewrite E; now apply set_count_In).
  assert (HlC : 0 < set_count pC (live s0)).
  { rewrite E. apply set_count_pos. apply Hlive. apply in_app_iff.
    right. right. now left. }
  assert (E1 : compact_step (top s) s0 pB = with_top s0 pB).
  { unfold compact_step. rewrite HdB. change (0 <? 0) with false. cbv iota.
    rewrite B, Z.eqb_refl. reflexivity. }
  assert (E2 : compact_step (top s) (with_top s0 pB) pC
               = slide_st pC (size_of (heap s) pC) (with_top s0 pB)).
  { unfold compact_step. norm. rewrite A.
    destruct (Z.ltb_spec 0 (set_count pC (live s0))); [|lia].
    destruct (Z.eqb_spec (top s) pB); [lia|]. reflexivity. }
  unfold compact_st. cbn [fold_left]. rewrite E1, E2.
  destruct (slide_st_frame pC (size_of (heap s) pC) (with_top s0 pB))
    as (_ & St & _ & _ & Sf).
  revert St Sf. norm. rewrite D. intros St Sf. rewrite St, Sf.
  split; reflexivity.
Qed.

(** C5, as the code has it: in mark-compact mode a collection of a
    well-formed state returns; the forwarding table gives the new
    place of every live object, where the object is found again with
    its references and the handles redirected, and the slide keeps the
    live objects in their order.  When the region ends with three
    cells A, B, C (a Vec and its backing Tup are two cells) of which
    only B is unreachable, and nothing before them is unreachable, A
    stays at [pA], C goes to [pA + size A], [top] becomes that plus
    [size C], and the forwarding table is the one entry from [pC] to
    [pA + size A]. *)
Theorem compact_slide :
  forall d k s n,
    wfb d k MARK_COMPACT_GC s = true -> (gc_fuel d <= n)%nat ->
    exists s',
      gc MARK_COMPACT_GC n s = Ok (tt, s') /\
      root s' = map (fwd (forwarding s')) (root s) /\
      (forall l, In l (live_of (marked d (heap s) (root s))) ->
         obj_iso (fwd (forwarding s')) (heap s) (heap s') l) /\
      (forall l1 l2,
         In l1 (live_of (marked d (heap s) (root s))) ->
         In l2 (live_of (marked d (heap s) (root s))) ->
         l1 < l2 -> fwd (forwarding s') l1 < fwd (forwarding s') l2) /\
      (forall pre pA pB pC,
         cells k (heap s) 1 (top s) = Some (pre ++ [pA; pB; pC]) ->
         (forall l, In l (pre ++ [pA; pC]) ->
                    In l (live_of (marked d (heap s) (root s)))) ->
         ~ In pB (live_of (marked d (heap s) (root s))) ->
         pA < pB < pC /\
         fwd (forwarding s') pA = pA /\
         fwd (forwarding s') pC = pA + size_of (heap s) pA /\
         top s' = pA + size_of (heap s) pA + size_of (heap s) pC /\
         forwarding s' = [(pC, pA + size_of (heap s) pA)]).
Proof.
  intros d k s n Hwfb Hn.
  destruct (wfb_WF d k MARK_COMPACT_GC s Hwfb) as (cs & Hwf).
  destruct (gc_sound MARK_COMPACT_GC d s cs Hwf) as (Hrun & Hrel & Hwf1).
  cbn [gc_st gc_phi gc_cells] in *.
  destruct (gc_mc_spec d s cs Hwf) as (_ & _ & Et & Ef).
  exists (gc_mc_st d cs s). rewrite Ef.
  split; [apply Hrun; exact Hn|].
  split; [apply Hrel|]. split; [apply Hrel|]. split.
  - destruct Hwf1 as (_ & _ & _ & _ & HC1 & _).
    apply map_sorted_mono; [apply live_of_sorted|].
    eapply Cells_strongly_sorted; eauto.
  - intros pre pA pB pC Hcells Hlive Hdead.
    apply cells_Cells in Hcells.
    pose proof Hwf as (_ & _ & _ & _ & HC & _).
    change (region_base MARK_COMPACT_GC (top s)) with 1 in HC.
    pose proof (Cells_inj _ _ _ _ _ HC Hcells) as Ecs. subst cs.
    destruct (compacted_abc d s pre pA pB pC Hwf Hlive Hdead)
      as (EB & Hlt & ET & Etop & Efw).
    assert (2 <= size_of (heap s) pA).
    { destruct (Cells_In _ _ _ _ pA HC) as (_ & _ & [_ ?]); auto.
      apply in_app_iff. right. now left. }
    rewrite Et, Etop, Efw. unfold fwd. cbn [map_find].
    destruct (Z.eqb_spec pA pC); [lia|]. rewrite Z.eqb_refl.
    subst pB. repeat split; auto; lia.
Qed.

Lemma compact_slide_witness :
  exists s',
    gc MARK_COMPACT_GC (gc_fuel 3) abc_state = Ok (tt, s') /\
    top s' = 1 + size_of (heap abc_state) 1 + size_of (heap abc_state) 5 /\
    forwarding s' = [(5, 1 + size_of (heap abc_state) 1)].
Proof.
  pose proof (compact_slide 3 100 abc_state (gc_fuel 3)
                ltac:(vm_compute; reflexivity) (le_n _)) as H.
  destruct H as (s' & Hrun & _ & _ & _ & Habc).
  exists s'. split; [exact Hrun|].
  destruct (Habc [] 1 3 5) as (_ & _ & _ & Ht & Hf).
  - vm_compute. reflexivity.
  - intros l Hl. vm_compute. simpl in Hl. tauto.
  - vm_compute. intros [H|[H|[]]]; discriminate H.
  - split; [exact Ht|exact Hf].
Defined.

(** Without these provisos the clause on A, B and C fails.  After
    [VecRef v(1); NumRef x(7); v.push(x); v.push(x);] the first backing
    Tup of the Vec is garbage at 4, below the three Num objects A, B, C
    at 13, 15 and 17 of which only B has lost its handle: the
    collection moves A from 13 to 10 and leaves four forwarding
    entries.  And when C is a Vec, [NumRef a; NumRef b; VecRef c(2);]
    with the handle of [b] destroyed, its backing Tup at 8 slides with
    the Vec at 5: the forwarding table has two entries and [top] ends
    at 10, not at [pC' + size C] = 3 + 3. *)
Lemma compact_slide_moves_more :
  (exists s',
     gc MARK_COMPACT_GC (gc_fuel 5) grown_abc_state = Ok (tt, s') /\
     wfb 5 100 MARK_COMPACT_GC grown_abc_state = true /\
     cells 100 (heap grown_abc_state) 1 (top grown_abc_state)
     = Some [1; 4; 7; 9; 13; 15; 17] /\
     root grown_abc_state = [17; 13; 7; 1; 0] /\
     live_of (marked 5 (heap grown_abc_state) (root grown_abc_state))
     = [1; 7; 9; 13; 17] /\
     fwd (forwarding s') 13 = 10 /\ fwd (forwarding s') 13 <> 13 /\
     forwarding s' = [(7, 4); (9, 6); (13, 10); (17, 12)]) /\
  (exists s',
     gc MARK_COMPACT_GC (gc_fuel 5) abc_vec_state = Ok (tt, s') /\
     wfb 5 100 MARK_COMPACT_GC abc_vec_state = true /\
     cells 100 (heap abc_vec_state) 1 (top abc_vec_state) = Some [1; 3; 5; 8] /\
     root abc_vec_state = [5; 1; 0] /\
     ty (heap abc_vec_state) 5 = TVec /\ size_of (heap abc_vec_state) 5 = 3 /\
     fwd (forwarding s') 1 = 1 /\ fwd (forwarding s') 5 = 3 /\
     forwarding s' = [(5, 3); (8, 6)] /\
     top s' = 10 /\ top s' <> 3 + size_of (heap abc_vec_state) 5).
Proof.
  split.
  - eexists. split; [vm_compute; reflexivity|].
    split; [vm_compute; reflexivity|]. split; [vm_compute; reflexivity|].
    split; [vm_compute; reflexivity|]. split; [vm_compute; reflexivity|].
    split; [vm_compute; reflexivity|]. split; [vm_compute; discriminate|].
    vm_compute. reflexivity.
  - eexists. split; [vm_compute; reflexivity|].
    split; [vm_compute; reflexivity|]. split; [vm_compute; reflexivity|].
    split; [vm_compute; reflexivity|]. split; [vm_compute; reflexivity|].
    split; [vm_compute; reflexivity|]. split; [vm_compute; reflexivity|].
    split; [vm_compute; reflexivity|]. split; [vm_compute; reflexivity|].
    split; [vm_compute; reflexivity|]. vm_compute. discriminate.
Qed.

(** C8 at a Vec of capacity 0, in every mode: [VecRef v(0)] has length
    0 and a backing Tup of capacity 0, so [push] takes the grow path;
    the new backing Tup has capacity [2 * 0], and the call
    [tup->set(0, obj)] that follows fails the assertion [i < len] of
    [Tup::set]: the value is not stored and the length is not
    incremented. *)
Theorem push_zero_capacity_aborts :
  forall m,
    exists v x s0,
      fresh_vec m 0 = Ok ((v, x), s0) /\
      peek (heap s0) (v + 1) = 0 /\
      peek (heap s0) (peek (heap s0) (v + 2) + 1) = 0 /\
      (exists s1,
          push_grow m 20 v s0 = Ok (tt, s1) /\
          peek (heap s1) (v + 2) <> peek (heap s0) (v + 2) /\
          peek (heap s1) (peek (heap s1) (v + 2) + 1) = 2 * 0) /\
      VecRef_push m 20 v x s0 = Abort.
Proof.
  intros m. destruct m;
    (do 3 eexists; split; [vm_compute; reflexivity|];
     split; [vm_compute; reflexivity|];
     split; [vm_compute; reflexivity|];
     split; [|vm_compute; reflexivity];
     eexists; split; [vm_compute; reflexivity|];
     split; [vm_compute; discriminate|vm_compute; reflexivity]).
Qed.

(** At capacity 1 the same calls succeed: the second push grows the
    backing Tup from 1 slot to 2. *)
Lemma push_capacity_one_grows :
  forall m,
    exists v x s0 s1 s2,
      fresh_vec m 1 = Ok ((v, x), s0) /\
      VecRef_push m 20 v x s0 = Ok (tt, s1) /\
      VecRef_push m 20 v x s1 = Ok (tt, s2) /\
      peek (heap s1) (peek (heap s1) (v + 2) + 1) = 1 /\
      peek (heap s2) (peek (heap s2) (v + 2) + 1) = 2 /\
      peek (heap s2) (v + 1) = 2 /\
      slots (heap s2) (peek (heap s2) (v + 2)) = [x; x].
Proof.
  intros m. destruct m;
    (do 5 eexists; split; [vm_compute; reflexivity|];
     split; [vm_compute; reflexivity|];
     split; [vm_compute; reflexivity|];
     repeat split; vm_compute; reflexivity).
Qed.

(** * What the phases of the collectors leave *)

(** ** Marking *)

Lemma visit_within (S : Z -> Prop) cs h :
  ty h 0 = TNil -> refs_closed S h ->
  forall d l x,
    good d cs h l = true -> l = 0 \/ S l -> In x (visit_seq d h l) ->
    x = 0 \/ S x.
Proof.
  intros Hnil Hcl. induction d as [|d IH]; intros l x H Hl Hx; [discriminate|].
  apply good_inv in H. cbn [visit_seq] in Hx. fold (ty h l) in Hx.
  destruct H as [->|(Hl0 & Hin & H)].
  - rewrite Hnil in Hx. destruct Hx.
  - destruct Hl as [->|Sl]; [contradiction|].
    destruct (Hcl l Sl) as [Ctup Cvec].
    assert (Hslots : forall t, S t -> ty h t = TTup ->
              (forall c, In c (slots h t) -> good d cs h c = true) ->
              In x (flat_map (fun v => v :: visit_seq d h v) (slots h t)) ->
              x = 0 \/ S x).
    { intros t St Et Hg Hin'. apply in_flat_map in Hin'.
      destruct Hin' as (c & Hc & Hxc).
      assert (Hc' : c = 0 \/ S c).
      { destruct (Z.eq_dec c 0); auto. right.
        apply (proj1 (Hcl t St) Et c Hc). auto. }
      destruct Hxc as [<-|Hxc]; auto. eapply IH; eauto. }
    destruct H as [(E & Hk & Hs)|[(E & Hb & Hbin & Eb & Hk & Hs)|[(E & _)|E]]];
      rewrite E in Hx; simpl in Hx; try contradiction.
    + apply (Hslots l); auto.
    + destruct Hx as [<-|Hx]; [right; apply Cvec; auto|].
      apply (Hslots (peek h (l + 2))); auto.
Qed.

(** Marking from a well-formed state returns and touches nothing but
    the live set, which is then the set of reachable objects: it is in
    ascending order without nil, holds every non-nil handle, is closed
    under the references of its Tups and Vecs, holds only objects of
    the region, and lies inside every set that is closed in this way
    and holds the handles. *)
Theorem mark_live_reachable :
  forall m d k s n,
    wfb d k m s = true -> (d + Z.to_nat HeapSize < n)%nat ->
    exists s1,
      mark_live m n s = Ok (tt, s1) /\
      heap s1 = heap s /\ top s1 = top s /\ root s1 = root s /\
      StronglySorted Z.lt (live s1) /\ ~ In 0 (live s1) /\
      (forall r, In r (root s) -> r <> 0 -> In r (live s1)) /\
      refs_closed (fun l => In l (live s1)) (heap s) /\
      (forall l, In l (live s1) ->
         region_base m (top s) <= l < top s /\
         is_value_type (ty (heap s) l) = true) /\
      (forall S : Z -> Prop,
         refs_closed S (heap s) ->
         (forall r, In r (root s) -> r <> 0 -> S r) ->
         forall l, In l (live s1) -> S l).
Proof.
  intros m d k s n Hwfb Hn.
  destruct (wfb_WF d k m s Hwfb) as (cs & Hwf).
  pose proof (WF_top_le _ _ _ _ Hwf) as HT.
  pose proof Hwf as (Hlen & Ht1 & Ht2 & Hnil & HC & Hg).
  pose proof (region_base_pos m (top s)) as Hb.
  destruct (mark_live_post m d s) as (A & B & C & D & E & F). cbv zeta in *.
  eexists. split; [eapply mark_live_eq; eauto|].
  rewrite A, B, C, F.
  split; [reflexivity|]. split; [reflexivity|]. split; [reflexivity|].
  split; [apply live_of_sorted|]. split.
  { intros H0. apply live_of_In in H0. tauto. }
  split.
  { intros r Hr Hr0. eapply root_in_S in Hr. destruct Hr; [contradiction|].
    eauto. }
  split.
  { intros l Hl.
    assert (Hcl : closed (fun x => In x (live_of (marked d (heap s) (root s))))
                    (heap s)) by (eapply live_closed; eauto).
    destruct (Hcl l Hl) as [P Q].
    split.
    - intros Et c Hc Hc0. destruct (P Et c Hc); [contradiction|auto].
    - intros Ev _. apply (Q Ev). }
  split.
  { intros l Hl.
    assert (Hcell : l <> 0 /\ In l cs /\ is_value_type (ty (heap s) l) = true)
      by (eapply live_is_cell; eauto).
    destruct Hcell as (_ & Hin & Hv).
    pose proof (Cells_sorted _ _ _ _ l HC Hin). auto. }
  intros S Hcl Hroots l Hl. apply live_of_In in Hl. destruct Hl as [Hl0 Hl].
  unfold marked in Hl. apply in_flat_map in Hl. destruct Hl as (r & Hr & Hl).
  assert (Hr' : r = 0 \/ S r).
  { destruct (Z.eq_dec r 0); auto. }
  destruct Hl as [<-|Hl]; [destruct Hr'; [contradiction|auto]|].
  destruct (visit_within S cs (heap s) Hnil Hcl d r l (Hg r Hr) Hr' Hl);
    [contradiction|auto].
Qed.

Lemma mark_live_reachable_witness :
  exists s1,
    mark_live MARK_SWEEP_GC (5 + Z.to_nat HeapSize + 1)
      (shared_tree_state MARK_SWEEP_GC) = Ok (tt, s1) /\
    root s1 = root (shared_tree_state MARK_SWEEP_GC) /\ ~ In 0 (live s1).
Proof.
  destruct (mark_live_reachable MARK_SWEEP_GC 5 100
              (shared_tree_state MARK_SWEEP_GC) (5 + Z.to_nat HeapSize + 1)
              ltac:(vm_compute; reflexivity)
              ltac:(apply Nat.ltb_lt; vm_compute; reflexivity))
    as (s1 & H1 & _ & _ & H4 & _ & H6 & _).
  exists s1. split; [exact H1|]. split; [exact H4|exact H6].
Defined.

(** ** Sweeping *)

Lemma frees_app o1 o2 : frees (o1 ++ o2) = frees o1 ++ frees o2.
Proof. apply filter_app. Qed.

Lemma out_emit_st e s :
  log_ready s = true -> out (emit_st e s) = out s ++ [e].
Proof. intros H. unfold emit_st. rewrite H. reflexivity. Qed.

Lemma free_st_frees m c z s :
  log_ready s = true ->
  log_ready (free_st m c z s) = true /\
  frees (out (free_st m c z s)) = frees (out s) ++ [EFree c z].
Proof.
  intros Hlog. destruct (free_st_frame m c z s) as (_ & _ & _ & _ & _ & F).
  split; [congruence|].
  unfold free_st, init_st. cbv zeta.
  destruct (is_ref_count m);
    repeat (rewrite out_emit_st
              by (norm; rewrite ?log_ready_emit_st; norm;
                  rewrite ?log_ready_emit_st; auto); norm);
    rewrite !frees_app; simpl; now rewrite ?app_nil_r.
Qed.

Lemma sweep_st_frees m T : forall cs a s,
  Cells (heap s) T a cs -> 0 <= a -> log_ready s = true ->
  log_ready (sweep_st m cs s) = true /\
  frees (out (sweep_st m cs s))
  = frees (out s)
    ++ map (fun l => EFree l (size_of (heap s) l)) (dead_cells (live s) cs).
Proof.
  induction cs as [|c cs IH]; intros a s HC Ha Hlog.
  - simpl. now rewrite app_nil_r.
  - inversion HC; subst.
    match goal with H : cell_ok _ _ |- _ => pose proof H as [Hty Hsz] end.
    match goal with H : Cells _ _ (_ + _) _ |- _ => rename H into HC1 end.
    pose proof (sweep_step_cells m (heap s) T c (size_of (heap s) c) s
                  eq_refl Hsz ltac:(lia) cs HC1) as HC'.
    rewrite sweep_st_cons. unfold dead_cells. cbn [filter].
    destruct (set_count c (live s) =? 0) eqn:Ed; cbv iota in HC' |- *.
    + destruct (free_st_frame m c (size_of (heap s) c) s)
        as (E & _ & _ & El & _ & _).
      destruct (free_st_frees m c (size_of (heap s) c) s Hlog) as [L1 L2].
      destruct (IH _ _ HC' ltac:(lia) L1) as [I1 I2].
      split; [exact I1|]. rewrite I2, L2, El, <- app_assoc. f_equal.
      cbn [map app]. f_equal. apply map_ext_in. intros l Hl.
      apply filter_In in Hl. destruct Hl as [Hl _].
      destruct (Cells_In _ _ _ _ _ HC1 Hl) as (A1 & _).
      f_equal. apply size_of_ext; rewrite E, !peek_poke_neq by lia; auto.
    + destruct (IH _ _ HC' ltac:(lia) Hlog) as [I1 I2].
      split; [exact I1|]. exact I2.
Qed.

(** A mark-and-sweep collection of a well-formed state returns and
    leaves [top] and the handles alone.  The live set it ends with is
    the set of objects reachable from the handles, which holds every
    non-nil handle; every word of a reachable object is as it was,
    every other cell of the region (garbage, or a block freed before)
    is a Free block of the size the cell had, and the trace lists
    these cells as freed, in address order. *)
Theorem sweep_frees_unreachable :
  forall d k s n cs,
    wfb d k MARK_SWEEP_GC s = true -> log_ready s = true ->
    cells k (heap s) 1 (top s) = Some cs ->
    (gc_fuel d <= n)%nat ->
    exists s',
      gc MARK_SWEEP_GC n s = Ok (tt, s') /\
      top s' = top s /\ root s' = root s /\
      live s' = live_of (marked d (heap s) (root s)) /\
      (forall r, In r (root s) -> r <> 0 ->
         In r cs /\ In r (live_of (marked d (heap s) (root s)))) /\
      (forall l, In l cs -> In l (live_of (marked d (heap s) (root s))) ->
         forall j, l <= j < l + size_of (heap s) l ->
                   peek (heap s') j = peek (heap s) j) /\
      (forall l, In l cs -> ~ In l (live_of (marked d (heap s) (root s))) ->
         ty (heap s') l = TFree /\
         size_of (heap s') l = size_of (heap s) l) /\
      frees (out s')
      = frees (out s)
        ++ map (fun l => EFree l (size_of (heap s) l))
               (dead_cells (live_of (marked d (heap s) (root s))) cs).
Proof.
  intros d k s n cs Hwfb Hlog Hcells Hn.
  destruct (wfb_WF d k MARK_SWEEP_GC s Hwfb) as (cs0 & Hwf).
  apply cells_Cells in Hcells.
  pose proof Hwf as (Hlen & Ht1 & Ht2 & Hnil & HC & Hg).
  change (region_base MARK_SWEEP_GC (top s)) with 1 in HC.
  pose proof (Cells_inj _ _ _ _ _ HC Hcells) as Ecs. subst cs0.
  destruct (gc_sound MARK_SWEEP_GC d s cs Hwf) as (Hrun & _ & Hwf2).
  cbn [gc_st gc_cells] in *.
  destruct (ms_spec d s cs Hwf) as (P1 & P2 & P3 & P4 & G & F).
  destruct (mark_live_post MARK_SWEEP_GC d s) as (A & B & C & D & E & Fl).
  cbv zeta in *.
  set (s1 := mark_all_st MARK_SWEEP_GC (marked d (heap s) (root s))
               (with_live s [])) in *.
  eexists. split; [apply Hrun; exact Hn|].
  split; [exact P1|]. split; [exact P2|]. split; [exact P3|]. split.
  { intros r Hr Hr0.
    assert (Hlv : In r (live_of (marked d (heap s) (root s)))).
    { apply live_of_In. split; [exact Hr0|]. unfold marked.
      apply in_flat_map. exists r. split; [exact Hr|now left]. }
    split; [|exact Hlv].
    assert (Hcell : r <> 0 /\ In r cs /\ is_value_type (ty (heap s) r) = true)
      by (eapply live_is_cell; eauto).
    tauto. }
  split.
  { intros l Hl Hlv j Hj. eapply live_words_untouched; eauto. }
  split.
  { intros l Hl Hd. destruct (F l Hl Hd) as [F1 F2].
    assert (Et : ty (heap (sweep_st MARK_SWEEP_GC cs s1)) l = TFree).
    { unfold ty. rewrite F1. apply hdr_type_init_hdr. unfold TFree. lia. }
    split; [exact Et|]. unfold size_of at 1. rewrite Et. exact F2. }
  assert (Hmark : mark_live MARK_SWEEP_GC n s = Ok (tt, s1)).
  { pose proof (WF_top_le _ _ _ _ Hwf) as HT.
    apply (mark_live_eq MARK_SWEEP_GC d n s cs 1 HC ltac:(lia) HT Hnil Hg).
    unfold gc_fuel in Hn. lia. }
  destruct (same_frees_mark_live _ _ _ _ _ Hmark) as [L1 L2].
  destruct (sweep_st_frees MARK_SWEEP_GC (top s) cs 1 s1) as [_ S2];
    [now rewrite A|lia|congruence|].
  rewrite S2, L2, Fl. f_equal. apply map_ext. intros l. now rewrite A.
Qed.

Lemma sweep_frees_unreachable_witness :
  exists s',
    gc MARK_SWEEP_GC (gc_fuel 3) abc_state_ms = Ok (tt, s') /\
    top s' = top abc_state_ms /\
    live s' = [1; 5] /\
    frees (out s') = frees (out abc_state_ms) ++ [EFree 3 2].
Proof.
  destruct (sweep_frees_unreachable 3 100 abc_state_ms (gc_fuel 3) [1; 3; 5]
              ltac:(vm_compute; reflexivity) ltac:(vm_compute; reflexivity)
              ltac:(vm_compute; reflexivity) (le_n _))
    as (s' & H1 & H2 & _ & H4 & _ & _ & _ & H8).
  exists s'. split; [exact H1|]. split; [exact H2|].
  split; [rewrite H4; vm_compute; reflexivity|].
  rewrite H8. f_equal.
Defined.

(** ** Compacting *)

Lemma frees_emit_other e s :
  is_free_event e = false ->
  log_ready (emit_st e s) = log_ready s /\
  frees (out (emit_st e s)) = frees (out s).
Proof.
  intros He. split; [apply log_ready_emit_st|].
  unfold emit_st. destruct (log_ready s); auto. cbn.
  rewrite frees_app. simpl. rewrite He. apply app_nil_r.
Qed.

Lemma slide_st_frees from z s :
  log_ready (slide_st from z s) = log_ready s /\
  frees (out (slide_st from z s)) = frees (out s).
Proof.
  unfold slide_st. cbv zeta. norm.
  destruct (frees_emit_other (ECopy (top s) from z)
              (with_heap (with_top s (top s + z))
                 (copy_heap (heap s) (top s) from (Z.to_nat z) 0)) eq_refl)
    as [A B].
  rewrite A, B. norm. auto.
Qed.

Lemma compact_st_frees old_top : forall cs s,
  log_ready (compact_st old_top cs s) = log_ready s /\
  frees (out (compact_st old_top cs s)) = frees (out s).
Proof.
  induction cs as [|c cs IH]; intros s; [auto|].
  rewrite compact_st_cons. destruct (IH (compact_step old_top s c)) as [A B].
  rewrite A, B. unfold compact_step.
  destruct (0 <? set_count c (live s)).
  - destruct (negb (old_top =? top s)); auto. apply slide_st_frees.
  - destruct (old_top =? top s); auto.
Qed.

Lemma compacted_frees d cs s n :
  WF d MARK_COMPACT_GC s cs -> (d + Z.to_nat HeapSize < n)%nat ->
  log_ready (compacted_st d cs s) = log_ready s /\
  frees (out (compacted_st d cs s)) = frees (out s).
Proof.
  intros Hwf Hn. pose proof (WF_top_le _ _ _ _ Hwf) as HT.
  destruct Hwf as (Hlen & Ht1 & Ht2 & Hnil & HC & Hg).
  change (region_base MARK_COMPACT_GC (top s)) with 1 in HC.
  pose proof (mark_live_eq MARK_COMPACT_GC d n (with_forwarding s []) cs 1
                HC ltac:(lia) HT Hnil Hg Hn) as Hmark.
  destruct (same_frees_mark_live _ _ _ _ _ Hmark) as [L1 L2].
  unfold compacted_st.
  destruct (compact_st_frees (top s) cs
              (mark_all_st MARK_COMPACT_GC (marked d (heap s) (root s))
                 (with_live (with_forwarding s []) []))) as [A B].
  rewrite A, B. split; [exact L1|exact L2].
Qed.

(** When every cell of the region is reachable, a mark-compact
    collection returns and changes neither the heap nor [top] nor the
    handles; the forwarding table is empty and nothing is logged as
    freed. *)
Theorem compact_without_garbage :
  forall d k s n cs,
    wfb d k MARK_COMPACT_GC s = true ->
    cells k (heap s) 1 (top s) = Some cs ->
    (forall l, In l cs -> In l (live_of (marked d (heap s) (root s)))) ->
    (gc_fuel d <= n)%nat ->
    exists s',
      gc MARK_COMPACT_GC n s = Ok (tt, s') /\
      heap s' = heap s /\ top s' = top s /\ root s' = root s /\
      forwarding s' = [] /\ frees (out s') = frees (out s).
Proof.
  intros d k s n cs Hwfb Hcells Hall Hn.
  destruct (wfb_WF d k MARK_COMPACT_GC s Hwfb) as (cs0 & Hwf).
  apply cells_Cells in Hcells.
  pose proof Hwf as (Hlen & Ht1 & Ht2 & Hnil & HC & Hg).
  change (region_base MARK_COMPACT_GC (top s)) with 1 in HC.
  pose proof (Cells_inj _ _ _ _ _ HC Hcells) as Ecs. subst cs0.
  destruct (gc_sound MARK_COMPACT_GC d s cs Hwf) as (Hrun & _).
  cbn [gc_st] in Hrun.
  destruct (gc_mc_again d s cs Hwf Hall) as (A & B & C).
  destruct (gc_mc_spec d s cs Hwf) as (_ & _ & Et & Ef).
  destruct (mc_compacted d s cs Hwf) as (_ & _ & _ & _ & _ & _ & _ & _ & _ & J).
  destruct (compacted_frees d cs s n Hwf ltac:(unfold gc_fuel in Hn; lia))
    as [L1 L2].
  exists (gc_mc_st d cs s). split; [apply Hrun; exact Hn|].
  split; [exact A|]. split; [exact B|]. split; [exact C|].
  split; [rewrite Ef; apply J; congruence|].
  unfold gc_mc_st. cbv zeta. rewrite <- Et, B, Z.ltb_irrefl. exact L2.
Qed.

Lemma compact_without_garbage_witness :
  exists s',
    gc MARK_COMPACT_GC (gc_fuel 5) (shared_tree_state MARK_COMPACT_GC)
    = Ok (tt, s') /\
    heap s' = heap (shared_tree_state MARK_COMPACT_GC) /\
    top s' = top (shared_tree_state MARK_COMPACT_GC).
Proof.
  destruct (compact_without_garbage 5 100 (shared_tree_state MARK_COMPACT_GC)
              (gc_fuel 5) [1; 3; 6]
              ltac:(vm_compute; reflexivity) ltac:(vm_compute; reflexivity))
    as (s' & H1 & H2 & H3 & _).
  - intros l Hl. vm_compute. simpl in Hl. tauto.
  - apply le_n.
  - exists s'. split; [exact H1|]. split; [exact H2|exact H3].
Defined.

Lemma size_of_ty h h' l l' :
  ty h' l' = ty h l -> peek h' (l' + 1) = peek h (l + 1) ->
  size_of h' l' = size_of h l.
Proof. intros H0 H1. unfold size_of. now rewrite H0, H1. Qed.

Lemma relocated_sizes phi d s s' :
  relocates phi d s s' ->
  map (size_of (heap s')) (map phi (live_of (marked d (heap s) (root s))))
  = map (size_of (heap s)) (live_of (marked d (heap s) (root s))).
Proof.
  intros (_ & _ & _ & Hiso). rewrite map_map. apply map_ext_in.
  intros l Hl. destruct (Hiso l Hl) as (E0 & E1 & _).
  now apply size_of_ty.
Qed.

(** A mark-compact collection of a well-formed state returns a region
    that is the reachable objects and nothing else, one after the other
    from location 1 in their old order, none of them above its old
    place: the cell at the new place of an object holds that object,
    with the same type, length and characters and with its references
    redirected, as the handles are.  [top] is 1 plus their sizes, and
    when that is below the old [top] the words in between are logged
    as one freed block. *)
Theorem compact_leaves_no_holes :
  forall d k s n,
    wfb d k MARK_COMPACT_GC s = true -> log_ready s = true ->
    (gc_fuel d <= n)%nat ->
    exists s',
      gc MARK_COMPACT_GC n s = Ok (tt, s') /\
      cells (S (length (live_of (marked d (heap s) (root s)))))
        (heap s') 1 (top s')
      = Some (map (fwd (forwarding s'))
                (live_of (marked d (heap s) (root s)))) /\
      (forall l, In l (live_of (marked d (heap s) (root s))) ->
                 1 <= fwd (forwarding s') l <= l) /\
      (forall l, In l (live_of (marked d (heap s) (root s))) ->
                 obj_iso (fwd (forwarding s')) (heap s) (heap s') l) /\
      root s' = map (fwd (forwarding s')) (root s) /\
      top s' = 1 + sumZ (map (size_of (heap s))
                           (live_of (marked d (heap s) (root s)))) /\
      top s' <= top s /\
      frees (out s')
      = frees (out s)
        ++ (if top s' <? top s then [EFree (top s') (top s - top s')] else []).
Proof.
  intros d k s n Hwfb Hlog Hn.
  destruct (wfb_WF d k MARK_COMPACT_GC s Hwfb) as (cs & Hwf).
  destruct (gc_sound MARK_COMPACT_GC d s cs Hwf) as (Hrun & Hrel & Hwf1).
  cbn [gc_st gc_phi gc_cells] in *.
  destruct (gc_mc_spec d s cs Hwf) as (_ & _ & Et & Ef).
  destruct (mc_compacted d s cs Hwf) as (_ & _ & _ & D & _ & _ & G & _).
  destruct (compacted_frees d cs s n Hwf ltac:(unfold gc_fuel in Hn; lia))
    as [L1 L2].
  pose proof Hwf1 as (_ & _ & _ & _ & HC1 & _).
  change (region_base MARK_COMPACT_GC (top (gc_mc_st d cs s))) with 1 in HC1.
  exists (gc_mc_st d cs s). rewrite Ef.
  split; [apply Hrun; exact Hn|]. split.
  { apply Cells_cells; [exact HC1|]. rewrite length_map. lia. }
  split; [intros l Hl; apply (G l Hl)|].
  split; [apply Hrel|]. split; [apply Hrel|]. split.
  { pose proof (Cells_sum _ _ _ _ HC1) as Hs.
    rewrite (relocated_sizes _ d s _ Hrel) in Hs. lia. }
  split; [rewrite Et; lia|].
  rewrite Et. unfold gc_mc_st. cbv zeta.
  set (s1 := compacted_st d cs s) in *.
  destruct (Z.ltb_spec (top s1) (top s)).
  - unfold emit_st.
    assert (Hl2 : log_ready (fixed_st (fwd (forwarding s1))
                    (live_of (marked d (heap s) (root s))) (root s) s1) = true).
    { unfold fixed_st. norm. congruence. }
    rewrite Hl2. cbn. rewrite frees_app. unfold fixed_st. norm.
    rewrite L2. reflexivity.
  - rewrite L2. now rewrite app_nil_r.
Qed.

Lemma compact_leaves_no_holes_witness :
  exists s',
    gc MARK_COMPACT_GC (gc_fuel 3) abc_state = Ok (tt, s') /\
    top s' = 1 + sumZ (map (size_of (heap abc_state))
                         (live_of (marked 3 (heap abc_state) (root abc_state)))) /\
    frees (out s')
    = frees (out abc_state)
      ++ (if top s' <? top abc_state
          then [EFree (top s') (top abc_state - top s')] else []).
Proof.
  destruct (compact_leaves_no_holes 3 100 abc_state (gc_fuel 3)
              ltac:(vm_compute; reflexivity) ltac:(vm_compute; reflexivity)
              (le_n _))
    as (s' & H1 & _ & _ & _ & _ & H4 & _ & H6).
  exists s'. split; [exact H1|]. split; [exact H4|exact H6].
Defined.

(** ** Copying *)

Lemma copy_forwarded d s cs :
  WF d COPY_GC s cs ->
  let L := live_of (marked d (heap s) (root s)) in
  let phi := resolve COPY_GC (forwarding (moved_st d s)) (heap (moved_st d s)) in
  let s' := gc_copy_st d s in
  top s' = top (moved_st d s) /\
  (forall l, In l L -> ty (heap s') l = TForward /\ peek (heap s') (l + 1) = phi l) /\
  (forall j, region_base COPY_GC (top s) <= j < top s ->
     (forall l, In l L -> j <> l /\ j <> l + 1) ->
     peek (heap s') j = peek (heap s) j).
Proof.
  intros Hwf. cbv zeta.
  pose proof (copy_movable d s cs Hwf) as Hm.
  destruct (copy_marked d s) as (A & B & C & D & E). cbv zeta in *.
  destruct (moves_st_spec COPY_GC _ _ _ _ Hm)
    as (P1 & P2 & P3 & P4 & P5 & P6 & P7 & P8).
  destruct (copy_moved d s cs Hwf) as (M1 & M2 & M3 & M4 & M5 & M6 & M7 & M8 & M9 & M10 & M11).
  cbv zeta in *. unfold moved_st in *.
  set (s0 := with_top _ _) in *.
  set (s1 := moves_st COPY_GC _ s0) in *.
  set (L := live_of (marked d (heap s) (root s))) in *.
  set (phi := resolve COPY_GC (forwarding s1) (heap s1)) in *.
  assert (Ha0 : 1 <= (if HeapSemiSize <=? top s then 1 else HeapSemiSize))
    by (unfold HeapSemiSize; destruct (1000 <=? top s); lia).
  assert (Hfr : forall j, 0 <= j ->
            j < (if HeapSemiSize <=? top s then 1 else HeapSemiSize)
            \/ top s1 <= j ->
            peek (heap (gc_copy_st d s)) j = peek (heap s1) j).
  { intros j Hj Ho. unfold gc_copy_st. cbv zeta. rewrite heap_emit_st.
    fold s0. fold L. fold s1. fold phi.
    assert (Hff : forall j, 0 <= j ->
              j < (if HeapSemiSize <=? top s then 1 else HeapSemiSize)
              \/ top s1 <= j ->
              peek (heap (fixed_st phi L (root s) s1)) j = peek (heap s1) j).
    { apply (fixed_frame phi d COPY_GC s s1 cs
               (if HeapSemiSize <=? top s then 1 else HeapSemiSize));
        first [ exact Hwf | exact M1 | exact M2 | exact M8 | exact M9
              | exact Ha0 | (intros; reflexivity) | (intros _; exact M11)
              | (unfold HeapSize in *; lia) ]. }
    apply Hff; auto. }
  pose proof Hwf as (Hlen & Ht1 & Ht2 & Hnil & HC & Hg).
  change (is_copy COPY_GC) with true in Ht2. cbv iota in Ht2.
  assert (Hbase : region_base COPY_GC (top s)
                  = if HeapSemiSize <=? top s then HeapSemiSize else 1).
  { unfold region_base. change (is_copy COPY_GC) with true. reflexivity. }
  assert (Hside : forall j, region_base COPY_GC (top s) <= j < top s ->
            j < (if HeapSemiSize <=? top s then 1 else HeapSemiSize)
            \/ top s1 <= j).
  { intros j Hj. rewrite Hbase in Hj.
    pose proof (copy_sum_le d s cs Hwf) as Hsum. rewrite Hbase in Hsum.
    fold L in Hsum. rewrite A, C in P5. fold L in P5.
    unfold HeapSemiSize, HeapSize in *.
    destruct (Z.leb_spec 1000 (top s)); lia. }
  split.
  { unfold gc_copy_st. cbv zeta. rewrite top_emit_st. unfold fixed_st. norm.
    reflexivity. }
  split.
  { intros l Hl. destruct (P7 l Hl) as (Q1 & Q2 & _).
    destruct (copy_live_cells d s cs Hwf l Hl) as (_ & I2 & I3 & [_ I4]).
    pose proof (region_base_pos COPY_GC (top s)).
    unfold ty. rewrite !Hfr by (try lia; apply Hside; lia).
    split; [exact Q1|]. unfold phi, resolve.
    change (is_copy COPY_GC) with true. cbv iota. now rewrite Q1. }
  intros j Hj Hh. pose proof (region_base_pos COPY_GC (top s)).
  rewrite Hfr by (try lia; apply Hside; lia).
  rewrite P6; [now rewrite A|lia| |exact Hh].
  rewrite C. apply Hside. exact Hj.
Qed.

(** A copying collection of a well-formed state returns with the
    reachable objects copied to the other half of the heap, one after
    the other from its start in their old order, [top] just after the
    last.  The cell at the new location of an object holds a copy of
    it: the same type, length and characters, and its references
    redirected to the copies, as every handle is.  Every old copy has
    become a Forward record that holds the new location, and the rest
    of the vacated half, garbage included, is as it was. *)
Theorem copy_fills_other_half :
  forall d k s n,
    wfb d k COPY_GC s = true -> (gc_fuel d <= n)%nat ->
    exists s' phi,
      gc COPY_GC n s = Ok (tt, s') /\
      root s' = map phi (root s) /\
      (forall l, In l (live_of (marked d (heap s) (root s))) ->
                 obj_iso phi (heap s) (heap s') l) /\
      region_base COPY_GC (top s')
      = (if HeapSemiSize <=? top s then 1 else HeapSemiSize) /\
      cells (S (length (live_of (marked d (heap s) (root s)))))
        (heap s') (region_base COPY_GC (top s')) (top s')
      = Some (map phi (live_of (marked d (heap s) (root s)))) /\
      top s' = region_base COPY_GC (top s')
               + sumZ (map (size_of (heap s))
                         (live_of (marked d (heap s) (root s)))) /\
      (forall l, In l (live_of (marked d (heap s) (root s))) ->
         ty (heap s') l = TForward /\ peek (heap s') (l + 1) = phi l) /\
      (forall j, region_base COPY_GC (top s) <= j < top s ->
         (forall l, In l (live_of (marked d (heap s) (root s))) ->
                    j <> l /\ j <> l + 1) ->
         peek (heap s') j = peek (heap s) j).
Proof.
  intros d k s n Hwfb Hn.
  destruct (wfb_WF d k COPY_GC s Hwfb) as (cs & Hwf).
  destruct (gc_sound COPY_GC d s cs Hwf) as (Hrun & Hrel & Hwf1).
  cbn [gc_st gc_phi gc_cells] in *.
  destruct (gc_copy_spec d s cs Hwf) as (_ & _ & Et).
  destruct (copy_forwarded d s cs Hwf) as (T1 & T2 & T3). cbv zeta in *.
  destruct (copy_moved d s cs Hwf) as (_ & _ & _ & _ & _ & _ & M7 & _).
  cbv zeta in M7. rewrite <- T1 in M7.
  pose proof Hwf1 as (_ & _ & _ & _ & HC1 & _).
  exists (gc_copy_st d s),
    (resolve COPY_GC (forwarding (moved_st d s)) (heap (moved_st d s))).
  split; [apply Hrun; exact Hn|]. split; [apply Hrel|].
  split; [apply Hrel|].
  split; [exact M7|]. split.
  { apply Cells_cells; [exact HC1|]. rewrite length_map. lia. }
  split; [rewrite M7; exact Et|]. split; [exact T2|exact T3].
Qed.

Lemma copy_fills_other_half_witness :
  exists s' phi,
    gc COPY_GC (gc_fuel 5) (shared_tree_state COPY_GC) = Ok (tt, s') /\
    root s' = map phi (root (shared_tree_state COPY_GC)) /\
    region_base COPY_GC (top s')
    = (if HeapSemiSize <=? top (shared_tree_state COPY_GC)
       then 1 else HeapSemiSize).
Proof.
  destruct (copy_fills_other_half 5 100 (shared_tree_state COPY_GC)
              (gc_fuel 5) ltac:(vm_compute; reflexivity) (le_n _))
    as (s' & phi & H1 & H2 & _ & H3 & _).
  exists s', phi. split; [exact H1|]. split; [exact H2|exact H3].
Defined.

(** * The allocator *)

Lemma Mem_alloc_eq n s :
  0 <= top s -> 0 <= n -> top s + n < HeapSize ->
  Mem_alloc n s
  = Ok (top s,
        with_heap (emit_st (EAlloc (top s) n) (with_top s (top s + n)))
          (zero_heap (heap s) (top s) (Z.to_nat n) 0)).
Proof.
  intros Ht Hn Hb. unfold Mem_alloc.
  assert (Hres : reserve n s
                 = Ok (top s, emit_st (EAlloc (top s) n) (with_top s (top s + n)))).
  { rewrite reserve_eq, to_UWd_small by (unfold HeapSize in *; lia).
    destruct (Z.ltb_spec (top s + n) HeapSize); [reflexivity|lia]. }
  rewrite (bind_eq _ _ _ _ _ Hres).
  rewrite (bind_eq _ _ _ _ _
             (zero_words_from (Z.to_nat n) (top s) 0 _ ltac:(lia) ltac:(lia))).
  rewrite heap_emit_st. reflexivity.
Qed.

Lemma Mem_alloc_spec n s :
  0 <= top s -> 0 <= n -> top s + n < HeapSize ->
  Z.of_nat (length (heap s)) = HeapSize ->
  exists s',
    Mem_alloc n s = Ok (top s, s') /\
    top s' = top s + n /\ root s' = root s /\ live s' = live s /\
    forwarding s' = forwarding s /\ log_ready s' = log_ready s /\
    length (heap s') = length (heap s) /\
    (forall j, top s <= j < top s + n -> peek (heap s') j = 0) /\
    (forall j, 0 <= j -> j < top s \/ top s + n <= j ->
               peek (heap s') j = peek (heap s) j) /\
    out s' = out (emit_st (EAlloc (top s) n) s).
Proof.
  intros Ht Hn Hb Hlen. eexists. split; [apply Mem_alloc_eq; auto|].
  norm. rewrite top_emit_st, root_emit_st, live_emit_st, forwarding_emit_st,
    log_ready_emit_st.
  norm. split; [reflexivity|]. split; [reflexivity|]. split; [reflexivity|].
  split; [reflexivity|]. split; [reflexivity|]. split; [apply zero_heap_length|].
  split.
  { intros j Hj. apply zero_heap_in; lia. }
  split.
  { intros j Hj Ho. apply zero_heap_out; lia. }
  unfold emit_st. norm. destruct (log_ready s); reflexivity.
Qed.

(** [Mem::alloc] with room below [HeapSize] returns the old [top],
    leaves the new block all zero and every other heap word, the
    handles and the tables as they were, and logs one alloc event. *)
Theorem alloc_zero_fills :
  forall n s,
    0 <= top s -> 0 <= n -> top s + n < HeapSize ->
    Z.of_nat (length (heap s)) = HeapSize ->
    exists s',
      Mem_alloc n s = Ok (top s, s') /\
      top s' = top s + n /\ root s' = root s /\ live s' = live s /\
      forwarding s' = forwarding s /\
      length (heap s') = length (heap s) /\
      (forall j, top s <= j < top s + n -> peek (heap s') j = 0) /\
      (forall j, 0 <= j -> j < top s \/ top s + n <= j ->
                 peek (heap s') j = peek (heap s) j) /\
      out s' = out (emit_st (EAlloc (top s) n) s).
Proof.
  intros n s Ht Hn Hb Hlen. eexists. split; [apply Mem_alloc_eq; auto|].
  norm. rewrite top_emit_st, root_emit_st, live_emit_st, forwarding_emit_st.
  norm. split; [reflexivity|]. split; [reflexivity|]. split; [reflexivity|].
  split; [reflexivity|]. split; [apply zero_heap_length|]. split.
  { intros j Hj. apply zero_heap_in; lia. }
  split.
  { intros j Hj Ho. apply zero_heap_out; lia. }
  unfold emit_st. norm. destruct (log_ready s); reflexivity.
Qed.

Lemma alloc_zero_fills_witness :
  exists s',
    Mem_alloc 5 (shared_tree_state COPY_GC)
    = Ok (top (shared_tree_state COPY_GC), s') /\
    top s' = top (shared_tree_state COPY_GC) + 5 /\
    (forall j, top (shared_tree_state COPY_GC) <= j
               < top (shared_tree_state COPY_GC) + 5 ->
               peek (heap s') j = 0).
Proof.
  destruct (alloc_zero_fills 5 (shared_tree_state COPY_GC)
              ltac:(vm_compute; discriminate) ltac:(lia)
              ltac:(vm_compute; reflexivity) ltac:(vm_compute; reflexivity))
    as (s' & H1 & H2 & _ & _ & _ & _ & H7 & _).
  exists s'. split; [exact H1|]. split; [exact H2|exact H7].
Defined.

(** [Mem::copy]: the block it reserves is [new_size] words, or the
    size of the source when [new_size] is 0; it starts with the words
    of the source, as many as fit, and is zero after them; nothing else
    changes, and the trace gets one alloc and one copy event. *)
Theorem copy_takes_prefix :
  forall from k s,
    0 <= from -> ty (heap s) from <> TForward ->
    from + size_of (heap s) from <= top s -> 1 <= size_of (heap s) from ->
    0 <= k ->
    top s + (if 0 <? k then k else size_of (heap s) from) < HeapSize ->
    Z.of_nat (length (heap s)) = HeapSize ->
    let z := size_of (heap s) from in
    let n := if 0 <? k then k else z in
    let c := if n <? z then n else z in
    exists s',
      Mem_copy from k s = Ok (top s, s') /\
      top s' = top s + n /\ root s' = root s /\
      (forall j, 0 <= j < c -> peek (heap s') (top s + j) = peek (heap s) (from + j)) /\
      (forall j, c <= j < n -> peek (heap s') (top s + j) = 0) /\
      (forall j, 0 <= j -> j < top s \/ top s + n <= j ->
                 peek (heap s') j = peek (heap s) j) /\
      out s' = out (emit_st (ECopy (top s) from c)
                      (emit_st (EAlloc (top s) n) s)).
Proof.
  intros from k s Hf Hty Hbelow Hz Hk Hroom Hlen. cbv zeta.
  set (z := size_of (heap s) from) in *.
  assert (Ht : top s < HeapSize) by (destruct (0 <? k); lia).
  unfold Mem_copy.
  rewrite (bind_eq _ _ _ _ _
             (Obj_size_eq from s Hf ltac:(lia) Hty)).
  fold z.
  assert (Hres : forall n, 0 <= n -> top s + n < HeapSize ->
            reserve n s
            = Ok (top s, emit_st (EAlloc (top s) n) (with_top s (top s + n)))).
  { intros n Hn Hb. rewrite reserve_eq, to_UWd_small by (unfold HeapSize in *; lia).
    destruct (Z.ltb_spec (top s + n) HeapSize); [reflexivity|lia]. }
  assert (Hout : forall e1 e2 h t,
            out (emit_st e2 (with_heap (emit_st e1 (with_top s t)) h))
            = out (emit_st e2 (emit_st e1 s))).
  { intros. destruct s as [h0 t0 f0 l0 r0 lr o0]. unfold emit_st. cbn.
    destruct lr; reflexivity. }
  destruct (Z.ltb_spec 0 k) as [Hpos|Hzero].
  - rewrite (bind_eq _ _ _ _ _ (Hres k Hk Hroom)).
    set (c := if k <? z then k else z).
    assert (Hc : 0 <= c <= k /\ c <= z) by (unfold c; destruct (Z.ltb_spec k z); lia).
    set (s1 := emit_st (EAlloc (top s) k) (with_top s (top s + k))).
    assert (Hh1 : heap s1 = heap s) by (unfold s1; now rewrite heap_emit_st).
    rewrite (bind_eq _ _ _ _ _
               (copy_words_eq (top s) from c s1 ltac:(lia) Hf ltac:(lia)
                  ltac:(lia) ltac:(lia))).
    rewrite Hh1.
    set (H1 := copy_heap (heap s) (top s) from (Z.to_nat c) 0).
    rewrite (bind_eq _ _ _ _ _
               (zero_words_from (Z.to_nat (k - c)) (top s) c (with_heap s1 H1)
                  ltac:(lia) ltac:(lia))).
    norm. unfold log_copy_mem. rewrite bind_emit.
    eexists. split; [reflexivity|].
    rewrite top_emit_st, root_emit_st, heap_emit_st. norm.
    unfold s1. rewrite top_emit_st, root_emit_st. norm.
    assert (HlenH : length H1 = length (heap s)) by apply copy_heap_length.
    split; [reflexivity|]. split; [reflexivity|]. split.
    { intros j Hj. rewrite zero_heap_out by lia.
      unfold H1. apply copy_heap_in; lia. }
    split.
    { intros j Hj. apply zero_heap_in; lia. }
    split.
    { intros j Hj Ho. rewrite zero_heap_out by lia.
      unfold H1. apply copy_heap_out; lia. }
    apply Hout.
  - rewrite (bind_eq _ _ _ _ _ (Hres z ltac:(lia) Hroom)).
    rewrite Z.ltb_irrefl.
    set (s1 := emit_st (EAlloc (top s) z) (with_top s (top s + z))).
    assert (Hh1 : heap s1 = heap s) by (unfold s1; now rewrite heap_emit_st).
    rewrite (bind_eq _ _ _ _ _
               (copy_words_eq (top s) from z s1 ltac:(lia) Hf ltac:(lia)
                  ltac:(lia) ltac:(lia))).
    rewrite Hh1. unfold log_copy_mem. rewrite bind_emit.
    eexists. split; [reflexivity|].
    rewrite top_emit_st, root_emit_st, heap_emit_st. norm.
    unfold s1. rewrite top_emit_st, root_emit_st. norm.
    split; [reflexivity|]. split; [reflexivity|]. split.
    { intros j Hj. apply copy_heap_in; lia. }
    split; [intros j Hj; lia|]. split.
    { intros j Hj Ho. apply copy_heap_out; lia. }
    apply Hout.
Qed.

Lemma copy_takes_prefix_witness :
  exists s',
    Mem_copy 6 8 (shared_tree_state COPY_GC)
    = Ok (top (shared_tree_state COPY_GC), s') /\
    top s' = top (shared_tree_state COPY_GC) + 8.
Proof.
  destruct (copy_takes_prefix 6 8 (shared_tree_state COPY_GC)
              ltac:(lia) ltac:(vm_compute; discriminate)
              ltac:(vm_compute; discriminate) ltac:(vm_compute; discriminate)
              ltac:(lia) ltac:(vm_compute; reflexivity)
              ltac:(vm_compute; reflexivity))
    as (s' & H1 & H2 & _).
  exists s'. split; [exact H1|exact H2].
Defined.

(** * Free records *)

Lemma hdr_ref_count_set_mark w b : hdr_ref_count (set_mark w b) = hdr_ref_count w.
Proof.
  unfold hdr_ref_count, set_mark.
  replace (w - 256 * hdr_mark w + 256 * (b mod 2))
    with (w + (b mod 2 - hdr_mark w) * 256) by ring.
  apply Z_mod_plus_full.
Qed.

Lemma hdr_ref_count_init_hdr m w t :
  hdr_ref_count (init_hdr m w t) = if is_ref_count m then 1 else 0.
Proof.
  unfold init_hdr. rewrite hdr_ref_count_set_mark, hdr_ref_count_set.
  destruct (is_ref_count m); reflexivity.
Qed.

Lemma frees_snoc o e : frees (o ++ [e]) = frees o ++ (if is_free_event e then [e] else []).
Proof. unfold frees. rewrite filter_app. cbn. destruct (is_free_event e); reflexivity. Qed.

Lemma free_st_out m l z s :
  log_ready s = true ->
  frees (out (free_st m l z s)) = frees (out s) ++ [EFree l z].
Proof.
  intros Hl. unfold free_st, init_st. cbv zeta.
  rewrite out_emit_st.
  2:{ norm. destruct (is_ref_count m); norm;
      now rewrite ?log_ready_emit_st. }
  rewrite frees_snoc. cbn [is_free_event]. f_equal. norm.
  destruct (is_ref_count m); norm.
  - rewrite out_emit_st by now rewrite log_ready_emit_st.
    rewrite frees_snoc. cbn [is_free_event]. rewrite app_nil_r.
    rewrite out_emit_st by auto. rewrite frees_snoc. cbn [is_free_event].
    apply app_nil_r.
  - rewrite out_emit_st by auto. rewrite frees_snoc. cbn [is_free_event].
    apply app_nil_r.
Qed.

(** [Mem::free] turns the two words at [loc] into a Free record:
    [Obj::type] reads Free there and [Obj::size] reads back the length
    it was given (as a 16-bit word), which is what the heap walks of the
    collectors step by.  The count of the record is 1 under reference
    counting and 0 otherwise; [top], the handles and every other heap
    word are left alone, and the trace gets one free event. *)
Theorem free_block_reads_back :
  forall m loc z s,
    0 <= loc -> loc + 1 < HeapSize ->
    Z.of_nat (length (heap s)) = HeapSize ->
    exists s',
      Mem_free m loc z s = Ok (tt, s') /\
      Obj_type loc s' = Ok (TFree, s') /\
      Obj_size loc s' = Ok (to_UWd z, s') /\
      hdr_ref_count (peek (heap s') loc) = (if is_ref_count m then 1 else 0) /\
      top s' = top s /\ root s' = root s /\
      (forall j, 0 <= j -> j <> loc -> j <> loc + 1 ->
                 peek (heap s') j = peek (heap s) j) /\
      (log_ready s = true -> frees (out s') = frees (out s) ++ [EFree loc z]).
Proof.
  intros m loc z s Hl Hb Hlen. exists (free_st m loc z s).
  destruct (free_st_frame m loc z s) as (Hh & Ht & Hr & _).
  assert (Hpl : peek (heap (free_st m loc z s)) loc
                = init_hdr m (peek (heap s) loc) TFree).
  { rewrite Hh, peek_poke_neq, peek_poke_eq by lia. reflexivity. }
  assert (Hp1 : peek (heap (free_st m loc z s)) (loc + 1) = to_UWd z).
  { rewrite Hh, peek_poke_eq; [reflexivity|].
    rewrite length_poke. lia. }
  assert (Hty : ty (heap (free_st m loc z s)) loc = TFree).
  { unfold ty. rewrite Hpl. apply hdr_type_init_hdr. unfold TFree. lia. }
  split; [apply Mem_free_eq; lia|]. split.
  { unfold Obj_type. rewrite bind_load by lia. fold (ty (heap (free_st m loc z s)) loc).
    now rewrite Hty. }
  split.
  { rewrite Obj_size_eq by (auto; rewrite Hty; discriminate).
    unfold size_of. rewrite Hty, Hp1. reflexivity. }
  split; [rewrite Hpl; apply hdr_ref_count_init_hdr|].
  split; [exact Ht|]. split; [exact Hr|]. split.
  { intros j Hj H1 H2. rewrite Hh, !peek_poke_neq by lia. reflexivity. }
  apply free_st_out.
Qed.

Lemma free_block_reads_back_witness :
  exists s',
    Mem_free MARK_SWEEP_GC 3 2 abc_state_ms = Ok (tt, s') /\
    Obj_type 3 s' = Ok (TFree, s') /\
    Obj_size 3 s' = Ok (to_UWd 2, s').
Proof.
  destruct (free_block_reads_back MARK_SWEEP_GC 3 2 abc_state_ms
              ltac:(lia) ltac:(vm_compute; reflexivity)
              ltac:(vm_compute; reflexivity))
    as (s' & H1 & H2 & H3 & _).
  exists s'. split; [exact H1|]. split; [exact H2|exact H3].
Defined.

(** * Reference counting: the last handle *)

Lemma to_UWd_idem x : to_UWd (to_UWd x) = to_UWd x.
Proof. unfold to_UWd. apply Z.mod_mod. lia. Qed.

Lemma size_of_leaf_UWd h l :
  ty h l = TNum \/ ty h l = TStr -> to_UWd (size_of h l) = size_of h l.
Proof.
  intros [H|H]; unfold size_of; rewrite H; cbn.
  - reflexivity.
  - unfold Str_size_needed. apply to_UWd_idem.
Qed.

(** A decrement that reaches zero on an object without reference
    slots: [Obj::cleanup] has nothing to release. *)
Lemma dec_ref_count_zero_leaf n loc s :
  0 <= loc < HeapSize ->
  ty (heap s) loc = TNum \/ ty (heap s) loc = TStr ->
  (hdr_ref_count (peek (heap s) loc) - 1) mod 256 = 0 ->
  Z.of_nat (length (heap s)) = HeapSize ->
  dec_ref_count REF_COUNT_GC (S (S n)) loc s =
  Ok (true,
      emit_st (ERefCount loc 0)
        (with_heap s (poke (heap s) loc
           (set_ref_count (peek (heap s) loc)
              (hdr_ref_count (peek (heap s) loc) - 1))))).
Proof.
  intros H Hty Hz Hlen. cbn [dec_ref_count].
  change (is_ref_count REF_COUNT_GC) with true. cbv iota.
  rewrite (bind_eq _ _ _ _ _ (load_ok loc s H)).
  cbv zeta. rewrite (bind_eq _ _ _ _ _ (store_ok loc _ s H)).
  unfold log_ref_count. rewrite (bind_eq _ _ _ _ _ (emit_ok _ _)).
  rewrite hdr_ref_count_set, Hz. cbn [Z.eqb Obj_cleanup].
  unfold Obj_type. rewrite !bind_assoc, bind_load by lia. rewrite bind_ret.
  rewrite heap_emit_st. norm. rewrite peek_poke_eq by lia.
  rewrite hdr_type_set_ref_count. fold (ty (heap s) loc).
  destruct Hty as [E|E]; rewrite E; reflexivity.
Qed.

(** Under reference counting, destroying a handle on a Num or Str
    takes one from the count of its object.  When that was the last
    reference (count 1) the object becomes, in place, a Free record of
    the size the object had, and one free event is logged; otherwise
    the object stays, with its count one lower (modulo 256).  In both
    cases the handle leaves the root list, [top] does not move and no
    word outside the two first words of the object changes. *)
Theorem rc_last_handle_frees :
  forall n L rest s,
    root s = L :: rest -> 0 <= L -> L + 1 < HeapSize ->
    Z.of_nat (length (heap s)) = HeapSize ->
    ty (heap s) L = TNum \/ ty (heap s) L = TStr ->
    exists s',
      ObjRef_destroy REF_COUNT_GC (S (S n)) 0 s = Ok (tt, s') /\
      root s' = rest /\ top s' = top s /\
      (forall j, 0 <= j -> j <> L -> j <> L + 1 ->
                 peek (heap s') j = peek (heap s) j) /\
      (hdr_ref_count (peek (heap s) L) = 1 ->
         ty (heap s') L = TFree /\
         size_of (heap s') L = size_of (heap s) L /\
         (log_ready s = true ->
          frees (out s') = frees (out s) ++ [EFree L (size_of (heap s) L)])) /\
      (hdr_ref_count (peek (heap s) L) <> 1 ->
         ty (heap s') L = ty (heap s) L /\
         hdr_ref_count (peek (heap s') L)
         = (hdr_ref_count (peek (heap s) L) - 1) mod 256 /\
         peek (heap s') (L + 1) = peek (heap s) (L + 1) /\
         frees (out s') = frees (out s)).
Proof.
  intros n L rest s Hr HL Hb Hlen Hty.
  pose proof (hdr_ref_count_range (peek (heap s) L)) as Hc.
  set (c := hdr_ref_count (peek (heap s) L)) in *.
  set (h1 := poke (heap s) L (set_ref_count (peek (heap s) L) (c - 1))).
  destruct (Z.eq_dec c 1) as [E|E].
  - assert (Hz : (c - 1) mod 256 = 0) by (rewrite E; reflexivity).
    set (s1 := emit_st (ERefCount L 0) (with_heap (with_root s rest) h1)).
    assert (Hd : dec_ref_count REF_COUNT_GC (S (S n)) L (with_root s rest)
                 = Ok (true, s1)).
    { apply (dec_ref_count_zero_leaf n L (with_root s rest)); auto. lia. }
    assert (Hh1 : heap s1 = h1) by (unfold s1; rewrite heap_emit_st; reflexivity).
    assert (Hty1 : ty (heap s1) L = ty (heap s) L).
    { rewrite Hh1. unfold ty, h1. rewrite peek_poke_eq by lia.
      apply hdr_type_set_ref_count. }
    assert (Hsz1 : size_of (heap s1) L = size_of (heap s) L).
    { apply size_of_ty; [exact Hty1|]. rewrite Hh1. unfold h1.
      apply peek_poke_neq; lia. }
    assert (HnF : ty (heap s1) L <> TForward).
    { rewrite Hty1. destruct Hty as [T|T]; rewrite T; discriminate. }
    exists (free_st REF_COUNT_GC L (size_of (heap s) L) s1).
    destruct (free_st_frame REF_COUNT_GC L (size_of (heap s) L) s1)
      as (Fh & Ft & Fr & _).
    split.
    { unfold ObjRef_destroy. rewrite bind_gets, Hr. cbn [nth_error].
      rewrite bind_modify, Hr. cbn [remove_nth].
      rewrite (bind_eq _ _ _ _ _ Hd).
      rewrite (bind_eq _ _ _ _ _ (Obj_size_eq L s1 HL Hb HnF)).
      rewrite Hsz1. apply Mem_free_eq; try lia. rewrite Hh1. unfold h1.
      rewrite length_poke. lia. }
    split; [rewrite Fr; unfold s1; now rewrite root_emit_st|].
    split; [rewrite Ft; unfold s1; now rewrite top_emit_st|].
    split.
    { intros j Hj J1 J2. rewrite Fh, Hh1. unfold h1.
      rewrite !peek_poke_neq by lia. reflexivity. }
    split; [|intros; contradiction].
    intros _.
    assert (Hpl : peek (heap (free_st REF_COUNT_GC L (size_of (heap s) L) s1)) L
                  = init_hdr REF_COUNT_GC (peek (heap s1) L) TFree).
    { rewrite Fh, peek_poke_neq, peek_poke_eq by (rewrite ?Hh1; unfold h1;
        rewrite ?length_poke; lia). reflexivity. }
    assert (HtyF : ty (heap (free_st REF_COUNT_GC L (size_of (heap s) L) s1)) L = TFree).
    { unfold ty. rewrite Hpl. apply hdr_type_init_hdr. unfold TFree. lia. }
    split; [exact HtyF|]. split.
    { unfold size_of at 1. rewrite HtyF. cbn.
      rewrite Fh, peek_poke_eq by (rewrite length_poke, Hh1; unfold h1;
        rewrite length_poke; lia).
      apply size_of_leaf_UWd, Hty. }
    intros Hlr.
    rewrite free_st_out by (unfold s1; rewrite log_ready_emit_st; exact Hlr).
    f_equal. unfold s1. rewrite out_emit_st by exact Hlr.
    rewrite frees_snoc. cbn. apply app_nil_r.
  - assert (Hnz : (c - 1) mod 256 <> 0).
    { intros Hm. apply E.
      destruct (Z.eq_dec c 0) as [C0|C0]; [rewrite C0 in Hm; discriminate|].
      rewrite Z.mod_small in Hm by lia. lia. }
    eexists. split.
    { apply (ObjRef_destroy_head (S n) L rest s Hr ltac:(lia) Hnz). }
    rewrite root_emit_st, top_emit_st, heap_emit_st. norm.
    fold c. fold h1.
    split; [reflexivity|]. split; [reflexivity|]. split.
    { intros j Hj J1 J2. unfold h1. apply peek_poke_neq; lia. }
    split; [intros; contradiction|]. intros _.
    split.
    { unfold ty, h1. rewrite peek_poke_eq by lia. apply hdr_type_set_ref_count. }
    split.
    { unfold h1. rewrite peek_poke_eq by lia. apply hdr_ref_count_set. }
    split; [unfold h1; apply peek_poke_neq; lia|].
    unfold emit_st. norm. destruct (log_ready s); norm; [|reflexivity].
    rewrite frees_snoc. cbn. apply app_nil_r.
Qed.

Lemma rc_last_handle_frees_witness :
  exists s',
    ObjRef_destroy REF_COUNT_GC 2 0 (one_num_state REF_COUNT_GC) = Ok (tt, s') /\
    root s' = [0] /\ ty (heap s') 1 = TFree /\ size_of (heap s') 1 = 2.
Proof.
  destruct (rc_last_handle_frees 0 1 [0] (one_num_state REF_COUNT_GC)
              ltac:(vm_compute; reflexivity) ltac:(lia)
              ltac:(vm_compute; reflexivity) ltac:(vm_compute; reflexivity)
              ltac:(left; vm_compute; reflexivity))
    as (s' & H1 & H2 & _ & _ & H5 & _).
  destruct (H5 ltac:(vm_compute; reflexivity)) as (T & Z & _).
  exists s'. split; [exact H1|]. split; [exact H2|]. split; [exact T|].
  rewrite Z. vm_compute. reflexivity.
Defined.

(** * Reading values *)

Lemma nth_peeks h m : forall a j,
  (j < m)%nat -> nth j (peeks h a m) 0 = peek h (a + Z.of_nat j).
Proof.
  induction m as [|m IH]; intros a j Hj; [lia|].
  destruct j as [|j]; cbn [peeks nth].
  - f_equal. lia.
  - rewrite IH by lia. f_equal. lia.
Qed.

Lemma to_SWd_mod x : to_SWd (x mod 65536) = to_SWd x.
Proof. unfold to_SWd. rewrite Z.mod_mod by lia. reflexivity. Qed.

Lemma to_SWd_cong x y : x mod 65536 = y mod 65536 -> to_SWd x = to_SWd y.
Proof. intros H. unfold to_SWd. now rewrite H. Qed.

Lemma to_SWd_eqm x : (to_SWd x) mod 65536 = x mod 65536.
Proof.
  unfold to_SWd. cbv zeta.
  destruct (Z.ltb_spec (x mod 65536) 32768).
  - apply Z.mod_mod. lia.
  - replace (x mod 65536 - 65536) with (x mod 65536 + (-1) * 65536) by ring.
    rewrite Z_mod_plus_full. apply Z.mod_mod. lia.
Qed.

Lemma to_SWd_small x : -32768 <= x < 32768 -> to_SWd x = x.
Proof.
  intros H. unfold to_SWd. cbv zeta.
  destruct (Z_lt_le_dec x 0).
  - replace (x mod 65536) with (x + 65536).
    + destruct (Z.ltb_spec (x + 65536) 32768); lia.
    + apply Z.mod_unique with (q := -1); lia.
  - rewrite Z.mod_small by lia.
    destruct (Z.ltb_spec x 32768); lia.
Qed.

Section StrToI.

Variables (loc : Z) (s : Mem).
Hypothesis Hloc : 0 <= loc.
Hypothesis Hlen : 0 <= peek (heap s) (loc + 1).
Hypothesis Hfit : loc + 2 + peek (heap s) (loc + 1) <= HeapSize.

Let cs := str_chars (heap s) loc.

Lemma str_char_at j :
  (j < length cs)%nat ->
  load (loc + 2 + Z.of_nat j) s = Ok (nth j cs 0, s).
Proof.
  intros Hj. unfold cs, str_chars in *. rewrite length_peeks in Hj.
  rewrite load_ok by lia. rewrite nth_peeks by lia. reflexivity.
Qed.

Lemma str_len_eq : peek (heap s) (loc + 1) = Z.of_nat (length cs).
Proof. unfold cs, str_chars. rewrite length_peeks. lia. Qed.

Lemma to_i_signs_eq k rest :
  cs = repeat 45 k ++ rest -> hd 0 rest <> 45 ->
  forall n j sign,
    (j <= k)%nat -> (k - j < n)%nat ->
    to_i_signs n loc (Z.of_nat j) sign s
    = Ok ((Z.of_nat k, signed (k - j) sign), s).
Proof.
  intros Hcs Hhd. induction n as [|n IH]; intros j sign Hj Hn; [lia|].
  cbn [to_i_signs]. rewrite bind_load by lia. rewrite str_len_eq.
  assert (Hk : (k <= length cs)%nat).
  { rewrite Hcs, length_app, repeat_length. lia. }
  destruct (Z.ltb_spec (Z.of_nat j) (Z.of_nat (length cs))) as [Hlt|Hge].
  - rewrite (bind_eq _ _ _ _ _ (str_char_at j ltac:(lia))).
    destruct (Nat.eq_dec j k) as [E|E].
    + subst j. rewrite Hcs, app_nth2, repeat_length, Nat.sub_diag
        by (rewrite repeat_length; lia).
      destruct rest as [|c r]; cbn [nth hd] in *.
      * change (0 =? 45) with false. cbv iota. reflexivity.
      * destruct (Z.eqb_spec c 45); [contradiction|]. reflexivity.
    + rewrite Hcs, app_nth1 by (rewrite repeat_length; lia).
      rewrite nth_repeat_lt by lia. change (45 =? 45) with true. cbv iota.
      replace (Z.of_nat j + 1) with (Z.of_nat (S j)) by lia.
      rewrite IH by lia. do 2 f_equal. f_equal.
      unfold signed. replace (k - j)%nat with (S (k - S j)) by lia.
      rewrite Nat.even_succ, <- Nat.negb_even.
      destruct (Nat.even (k - S j)); cbn; lia.
  - assert (j = k) by lia. subst j. rewrite Nat.sub_diag. reflexivity.
Qed.

Lemma to_i_digits_eq pre ds tail :
  cs = pre ++ ds ++ tail ->
  Forall (fun c => 48 <= c <= 57) ds -> ~ (48 <= hd 0 tail <= 57) ->
  forall n ds1 ds2 acc,
    ds = ds1 ++ ds2 -> (length ds2 < n)%nat ->
    to_i_digits n loc (Z.of_nat (length pre + length ds1)) acc s
    = Ok (fold_left (fun a c => to_SWd (a * 10 + (c - 48))) ds2 acc, s).
Proof.
  intros Hcs Hds Htl. induction n as [|n IH]; intros ds1 ds2 acc E Hn; [lia|].
  cbn [to_i_digits]. rewrite bind_load by lia. rewrite str_len_eq.
  assert (Hl : length cs = (length pre + length ds1 + length ds2 + length tail)%nat).
  { rewrite Hcs, E, !length_app. lia. }
  assert (Hnth : forall d, nth (length pre + length ds1) cs d
                           = nth 0 (ds2 ++ tail) d).
  { intros d. rewrite Hcs, E, <- app_assoc, app_assoc.
    rewrite app_nth2 by (rewrite length_app; lia).
    rewrite length_app. f_equal. lia. }
  destruct (Z.ltb_spec (Z.of_nat (length pre + length ds1)) (Z.of_nat (length cs)))
    as [Hlt|Hge].
  - rewrite (bind_eq _ _ _ _ _
               (str_char_at (length pre + length ds1) ltac:(lia))). rewrite Hnth.
    destruct ds2 as [|c r].
    + cbn [app]. destruct tail as [|c r]; [cbn [length] in Hl; lia|]. cbn [nth hd fold_left] in *.
      destruct (Z.leb_spec 48 c); destruct (Z.leb_spec c 57); cbn [andb];
        try reflexivity. lia.
    + cbn [app nth fold_left].
      assert (Hc : 48 <= c <= 57).
      { rewrite E in Hds. apply Forall_app in Hds. destruct Hds as [_ Hds].
        now inversion Hds. }
      destruct (Z.leb_spec 48 c); [|lia]. destruct (Z.leb_spec c 57); [|lia].
      cbn [andb].
      replace (Z.of_nat (length pre + length ds1) + 1)
        with (Z.of_nat (length pre + length (ds1 ++ [c]))) by (rewrite length_app; cbn; lia).
      apply IH; [rewrite <- app_assoc; exact E|cbn in Hn; lia].
  - destruct ds2; [reflexivity|cbn [length] in Hl; lia].
Qed.

End StrToI.

Lemma digits_wrap ds : forall a b,
  a mod 65536 = b mod 65536 ->
  (fold_left (fun a c => to_SWd (a * 10 + (c - 48))) ds a) mod 65536
  = (fold_left (fun a c => a * 10 + (c - 48)) ds b) mod 65536.
Proof.
  induction ds as [|c r IH]; intros a b H; cbn [fold_left]; [exact H|].
  apply IH. rewrite to_SWd_eqm.
  rewrite (Z.add_mod (a * 10)), (Z.add_mod (b * 10)) by lia.
  rewrite (Z.mul_mod a), (Z.mul_mod b), H by lia. reflexivity.
Qed.

Lemma signed_wrap k x y :
  x mod 65536 = y mod 65536 -> to_SWd (signed k 1 * x) = to_SWd (signed k y).
Proof.
  intros H. apply to_SWd_cong. unfold signed. destruct (Nat.even k); cbv iota.
  - now rewrite Z.mul_1_l.
  - match goal with
    | |- ?a mod _ = ?b mod _ =>
        replace a with (0 - x) by ring; replace b with (0 - y) by ring
    end.
    rewrite (Zminus_mod 0 x), (Zminus_mod 0 y), H. reflexivity.
Qed.

(** [Str::to_i] reads a run of minus signs and then a run of decimal
    digits, and stops at the first other character or at the end of the
    string: on a Str that holds [k] minus signs, the digits [ds] and
    then [tail], it returns the number that [ds] writes, negated when
    [k] is odd, as a signed 16-bit word, and leaves the state as it
    was.  [Obj::to_i] on a Str is the same call. *)
Theorem Str_to_i_parses :
  forall n loc s k ds tail,
    0 <= loc -> 0 <= peek (heap s) (loc + 1) ->
    loc + 2 + peek (heap s) (loc + 1) <= HeapSize ->
    str_chars (heap s) loc = repeat 45 k ++ ds ++ tail ->
    Forall (fun c => 48 <= c <= 57) ds ->
    ~ (48 <= hd 0 tail <= 57) -> hd 0 (ds ++ tail) <> 45 ->
    (k + length ds < n)%nat ->
    Str_to_i n loc s = Ok (to_SWd (signed k (decimal ds)), s) /\
    (ty (heap s) loc = TStr ->
     Obj_to_i n loc s = Ok (to_SWd (signed k (decimal ds)), s)) /\
    (decimal ds < 32768 ->
     Str_to_i n loc s = Ok (signed k (decimal ds), s)).
Proof.
  intros n loc s k ds tail Hloc Hlen Hfit Hcs Hds Htl Hhd Hn.
  assert (E : Str_to_i n loc s = Ok (to_SWd (signed k (decimal ds)), s)).
  { unfold Str_to_i.
    pose proof (to_i_signs_eq loc s Hloc Hlen Hfit k (ds ++ tail) Hcs Hhd
                  n 0%nat 1 ltac:(lia) ltac:(lia)) as E1.
    change (Z.of_nat 0) with 0 in E1. rewrite (bind_eq _ _ _ _ _ E1).
    cbn [fst snd].
    pose proof (to_i_digits_eq loc s Hloc Hlen Hfit (repeat 45 k) ds tail
                  Hcs Hds Htl n [] ds 0 eq_refl ltac:(lia)) as E2.
    rewrite repeat_length in E2. cbn [length] in E2. rewrite Nat.add_0_r in E2.
    rewrite (bind_eq _ _ _ _ _ E2). unfold ret. rewrite Nat.sub_0_r.
    do 2 f_equal. apply signed_wrap. apply digits_wrap. reflexivity. }
  split; [exact E|]. split.
  - intros Hty. unfold Obj_to_i, Obj_type.
    rewrite bind_assoc, bind_load, bind_ret by lia.
    fold (ty (heap s) loc). rewrite Hty. exact E.
  - intros Hsmall. rewrite E. do 2 f_equal. apply to_SWd_small.
    assert (G : forall l a, 0 <= a -> Forall (fun c => 48 <= c <= 57) l ->
              0 <= fold_left (fun a c => a * 10 + (c - 48)) l a).
    { induction l as [|c r IH]; intros b Hb Hd; cbn [fold_left]; [exact Hb|].
      inversion Hd; subst. apply IH; auto. lia. }
    pose proof (G ds 0 ltac:(lia) Hds) as Hnn. fold (decimal ds) in Hnn.
    unfold signed. destruct (Nat.even k); lia.
Qed.

Lemma Str_to_i_parses_witness :
  Str_to_i 10 1 (after (StrRef_new MARK_SWEEP_GC 10 [45; 45; 45; 52; 50; 120])
                   (boot MARK_SWEEP_GC))
  = Ok (-42, after (StrRef_new MARK_SWEEP_GC 10 [45; 45; 45; 52; 50; 120])
               (boot MARK_SWEEP_GC)).
Proof.
  apply (Str_to_i_parses 10 1 _ 3 [52; 50] [120]);
    try (vm_compute; congruence); try (vm_compute; reflexivity).
  - repeat constructor; lia.
  - cbn. lia.
  - cbn. lia.
Defined.

(** * Reference counting: releasing a Tup *)

(** [ObjRef::unshare] on the last reference to a Num or Str. *)
Lemma unshare_frees_leaf n c s :
  0 < c -> c + 1 < HeapSize -> Z.of_nat (length (heap s)) = HeapSize ->
  ty (heap s) c = TNum \/ ty (heap s) c = TStr ->
  hdr_ref_count (peek (heap s) c) = 1 ->
  exists s',
    unshare REF_COUNT_GC (S (S (S n))) c s = Ok (tt, s') /\
    ty (heap s') c = TFree /\
    peek (heap s') (c + 1) = size_of (heap s) c /\
    (forall j, 0 <= j -> j <> c -> j <> c + 1 ->
               peek (heap s') j = peek (heap s) j) /\
    length (heap s') = length (heap s) /\
    top s' = top s /\ root s' = root s /\ log_ready s' = log_ready s /\
    (log_ready s = true ->
     frees (out s') = frees (out s) ++ [EFree c (size_of (heap s) c)]).
Proof.
  intros Hc Hb Hlen Hty Hcnt.
  set (h1 := poke (heap s) c (set_ref_count (peek (heap s) c)
                               (hdr_ref_count (peek (heap s) c) - 1))).
  set (s1 := emit_st (ERefCount c 0) (with_heap s h1)).
  assert (Hd : dec_ref_count REF_COUNT_GC (S (S n)) c s = Ok (true, s1)).
  { apply dec_ref_count_zero_leaf; auto; [lia|]. rewrite Hcnt. reflexivity. }
  assert (Hh1 : heap s1 = h1) by (unfold s1; rewrite heap_emit_st; reflexivity).
  assert (Hty1 : ty (heap s1) c = ty (heap s) c).
  { rewrite Hh1. unfold ty, h1. rewrite peek_poke_eq by lia.
    apply hdr_type_set_ref_count. }
  assert (Hsz1 : size_of (heap s1) c = size_of (heap s) c).
  { apply size_of_ty; [exact Hty1|]. rewrite Hh1. unfold h1.
    apply peek_poke_neq; lia. }
  assert (HnF : ty (heap s1) c <> TForward).
  { rewrite Hty1. destruct Hty as [T|T]; rewrite T; discriminate. }
  exists (free_st REF_COUNT_GC c (size_of (heap s) c) s1).
  destruct (free_st_frame REF_COUNT_GC c (size_of (heap s) c) s1)
    as (Fh & Ft & Fr & _ & _ & Fg).
  split.
  { cbn [unshare]. destruct (Z.eqb_spec c 0); [lia|].
    rewrite (bind_eq _ _ _ _ _ Hd).
    rewrite (bind_eq _ _ _ _ _ (Obj_size_eq c s1 ltac:(lia) Hb HnF)).
    rewrite Hsz1. apply Mem_free_eq; try lia. rewrite Hh1. unfold h1.
    rewrite length_poke. lia. }
  assert (Hl1 : length h1 = length (heap s)) by (unfold h1; apply length_poke).
  split.
  { unfold ty. rewrite Fh, peek_poke_neq, peek_poke_eq by (rewrite ?Hh1, ?Hl1; lia).
    apply hdr_type_init_hdr. unfold TFree. lia. }
  split.
  { rewrite Fh, peek_poke_eq by (rewrite length_poke, Hh1, Hl1; lia).
    apply size_of_leaf_UWd, Hty. }
  split.
  { intros j Hj J1 J2. rewrite Fh, Hh1. unfold h1.
    rewrite !peek_poke_neq by lia. reflexivity. }
  split; [rewrite Fh, !length_poke, Hh1; exact Hl1|].
  split; [rewrite Ft; unfold s1; now rewrite top_emit_st|].
  split; [rewrite Fr; unfold s1; now rewrite root_emit_st|].
  split; [rewrite Fg; unfold s1; now rewrite log_ready_emit_st|].
  intros Hlr.
  rewrite free_st_out by (unfold s1; rewrite log_ready_emit_st; exact Hlr).
  f_equal. unfold s1. rewrite out_emit_st by exact Hlr.
  rewrite frees_snoc. cbn. apply app_nil_r.
Qed.

Lemma non_nil_cons c cl :
  non_nil (c :: cl) = if c =? 0 then non_nil cl else c :: non_nil cl.
Proof. unfold non_nil. cbn [filter]. destruct (c =? 0); reflexivity. Qed.

Lemma non_nil_In c cl : In c (non_nil cl) <-> In c cl /\ c <> 0.
Proof.
  unfold non_nil. rewrite filter_In, negb_true_iff, Z.eqb_neq. tauto.
Qed.

Lemma for_field_unfold {A} n bound (body : Z -> A -> M A) i a :
  for_field (S n) bound body i a
  = (b <- bound ;;
     if i <? b then a' <- body i a ;; for_field n bound body (i + 1) a'
     else ret a).
Proof. reflexivity. Qed.

Lemma unshare_nil m n s : unshare m (S n) 0 s = Ok (tt, s).
Proof. reflexivity. Qed.

Lemma apart_cons_inv c cl :
  ForallOrdPairs apart (c :: cl) ->
  Forall (apart c) cl /\ ForallOrdPairs apart cl.
Proof. intros H. inversion H; subst. auto. Qed.

(** The loop of [Tup::cleanup] from slot [i] on, when the slots hold
    [cl]: nil, or the only reference to a Num or Str. *)
Lemma cleanup_loop_spec n L k : forall cl F i s,
  (length cl < F)%nat ->
  0 <= L -> L + 2 + k <= HeapSize ->
  Z.of_nat (length (heap s)) = HeapSize ->
  peek (heap s) (L + 1) = k -> 0 <= i -> i + Z.of_nat (length cl) = k ->
  (forall q, (q < length cl)%nat -> peek (heap s) (L + 2 + i + Z.of_nat q) = nth q cl 0) ->
  (forall c, In c (non_nil cl) ->
     0 < c /\ c + 1 < HeapSize /\ (c + 1 < L \/ L + 2 + k <= c) /\
     (ty (heap s) c = TNum \/ ty (heap s) c = TStr) /\
     hdr_ref_count (peek (heap s) c) = 1) ->
  ForallOrdPairs apart cl ->
  exists s',
    for_field F (load (L + 1))
      (fun i _ =>
         v <- load (L + 2 + i) ;;
         unshare REF_COUNT_GC (S (S (S n))) v ;;
         store (L + 2 + i) 0) i tt s = Ok (tt, s') /\
    (forall j, i <= j < k -> peek (heap s') (L + 2 + j) = 0) /\
    (forall c, In c (non_nil cl) ->
       ty (heap s') c = TFree /\ peek (heap s') (c + 1) = size_of (heap s) c) /\
    (forall j, 0 <= j -> j < L + 2 + i \/ L + 2 + k <= j ->
       (forall c, In c (non_nil cl) -> j <> c /\ j <> c + 1) ->
       peek (heap s') j = peek (heap s) j) /\
    length (heap s') = length (heap s) /\
    top s' = top s /\ root s' = root s /\ log_ready s' = log_ready s /\
    (log_ready s = true ->
     frees (out s')
     = frees (out s) ++ map (fun c => EFree c (size_of (heap s) c)) (non_nil cl)).
Proof.
  induction cl as [|c cl IH]; intros F i s HF HL Hfit Hlen Pk Hi Hk Hsl Hch Hap;
    (destruct F as [|F]; [cbn [length] in HF; lia|]).
  - rewrite for_field_unfold, bind_load by lia. rewrite Pk.
    cbn [length] in Hk. destruct (Z.ltb_spec i k); [lia|].
    exists s. split; [reflexivity|]. split; [intros; lia|].
    split; [intros c []|]. split; [reflexivity|].
    repeat split; auto. intros _. cbn. now rewrite app_nil_r.
  - cbn [length] in *. rewrite for_field_unfold, bind_load by lia.
    rewrite Pk.
    destruct (Z.ltb_spec i k); [|lia].
    rewrite bind_assoc, bind_load by lia.
    pose proof (Hsl 0%nat ltac:(lia)) as H0. cbn [nth] in H0.
    rewrite Z.add_0_r in H0. rewrite H0, bind_assoc.
    destruct (apart_cons_inv c cl Hap) as [Hc_ap Hap'].
    assert (Hrest : forall s1,
              (forall j, 0 <= j -> (c <> 0 -> j <> c /\ j <> c + 1) ->
                         j <> L + 2 + i ->
                         peek (heap s1) j = peek (heap s) j) ->
              length (heap s1) = length (heap s) ->
              (c = 0 \/ (c + 1 < L \/ L + 2 + k <= c)) ->
              peek (heap s1) (L + 1) = k /\
              (forall q, (q < length cl)%nat ->
                 peek (heap s1) (L + 2 + (i + 1) + Z.of_nat q) = nth q cl 0) /\
              (forall c', In c' (non_nil cl) ->
                 0 < c' /\ c' + 1 < HeapSize /\ (c' + 1 < L \/ L + 2 + k <= c') /\
                 (ty (heap s1) c' = TNum \/ ty (heap s1) c' = TStr) /\
                 hdr_ref_count (peek (heap s1) c') = 1 /\
                 size_of (heap s1) c' = size_of (heap s) c')).
    { intros s1 Q1 Len1 Hout.
      assert (Hc' : forall c', In c' (non_nil cl) -> c <> 0 ->
                c' <> c /\ c' <> c + 1 /\ c' + 1 <> c /\ c' + 1 <> c + 1).
      { intros c' Hin Hc0. apply non_nil_In in Hin. destruct Hin as [Hin Hne].
        rewrite Forall_forall in Hc_ap. specialize (Hc_ap c' Hin).
        unfold apart in Hc_ap. lia. }
      split; [rewrite Q1 by lia; exact Pk|]. split.
      - intros q Hq. rewrite Q1 by lia.
        replace (L + 2 + (i + 1) + Z.of_nat q)
          with (L + 2 + i + Z.of_nat (S q)) by lia.
        rewrite (Hsl (S q) ltac:(lia)). reflexivity.
      - intros c' Hin.
        assert (Hin' : In c' (non_nil (c :: cl))).
        { apply non_nil_In. apply non_nil_In in Hin. split; [now right|tauto]. }
        destruct (Hch c' Hin') as (A & B & C & D & E).
        assert (P0 : peek (heap s1) c' = peek (heap s) c').
        { apply Q1; try lia. intros Hc0. destruct (Hc' c' Hin Hc0). lia. }
        assert (P1 : peek (heap s1) (c' + 1) = peek (heap s) (c' + 1)).
        { apply Q1; try lia. intros Hc0. destruct (Hc' c' Hin Hc0). lia. }
        unfold ty. rewrite P0. fold (ty (heap s) c').
        split; [exact A|]. split; [exact B|]. split; [exact C|].
        split; [exact D|]. split; [exact E|].
        apply size_of_ext; assumption. }
    destruct (Z.eq_dec c 0) as [Ec|Ec].
    + (* a nil slot *)
      rewrite Ec in *. rewrite (bind_eq _ _ _ _ _ (unshare_nil _ _ s)).
      rewrite bind_store by lia.
      set (s1 := with_heap s (poke (heap s) (L + 2 + i) 0)).
      destruct (Hrest s1) as (R1 & R2 & R3).
      { intros j Hj _ J3. unfold s1. norm. apply peek_poke_neq; lia. }
      { unfold s1. norm. apply length_poke. }
      { now left. }
      assert (LenA : Z.of_nat (length (heap s1)) = HeapSize).
      { unfold s1. norm. rewrite length_poke. exact Hlen. }
      assert (R3' : forall c', In c' (non_nil cl) ->
                0 < c' /\ c' + 1 < HeapSize /\ (c' + 1 < L \/ L + 2 + k <= c') /\
                (ty (heap s1) c' = TNum \/ ty (heap s1) c' = TStr) /\
                hdr_ref_count (peek (heap s1) c') = 1).
      { intros c' Hin. destruct (R3 c' Hin) as (A & B & C & D & E' & _). tauto. }
      destruct (IH F (i + 1) s1 ltac:(lia) HL Hfit LenA R1 ltac:(lia) ltac:(lia) R2 R3' Hap')
        as (s' & E & Zr & Fr & Q & Len & T & R & G & O).
      exists s'. split; [exact E|].
      rewrite non_nil_cons. change (0 =? 0) with true. cbv iota.
      split.
      { intros j Hj. destruct (Z.eq_dec j i) as [->|Hne]; [|apply Zr; lia].
        rewrite Q; try lia.
        - unfold s1. norm. apply peek_poke_eq. lia.
        - intros c' Hin. destruct (R3 c' Hin) as (A & B & C & _). lia. }
      split.
      { intros c' Hin. destruct (Fr c' Hin) as (A & B). split; [exact A|].
        rewrite B. destruct (R3 c' Hin) as (_ & _ & _ & _ & _ & Sz). exact Sz. }
      split.
      { intros j Hj Jo Jc. rewrite Q by (auto; lia).
        unfold s1. norm. apply peek_poke_neq; lia. }
      split; [rewrite Len; unfold s1; norm; apply length_poke|].
      split; [exact T|]. split; [exact R|]. split; [exact G|].
      intros Hlr. rewrite O by exact Hlr. f_equal.
      apply map_ext_in. intros c' Hin.
      destruct (R3 c' Hin) as (_ & _ & _ & _ & _ & Sz). now rewrite Sz.
    + (* the last reference to a leaf *)
      assert (Hin0 : In c (non_nil (c :: cl))).
      { apply non_nil_In. split; [now left|exact Ec]. }
      destruct (Hch c Hin0) as (A & B & C & D & E0).
      destruct (unshare_frees_leaf n c s A B Hlen D E0)
        as (s1 & E1 & Ty1 & Sz1 & Q1 & Len1 & T1 & R1 & G1 & O1).
      rewrite (bind_eq _ _ _ _ _ E1). rewrite bind_store by lia.
      set (s2 := with_heap s1 (poke (heap s1) (L + 2 + i) 0)).
      destruct (Hrest s2) as (R21 & R22 & R23).
      { intros j Hj J1 J3. destruct (J1 Ec). unfold s2. norm.
        rewrite peek_poke_neq by lia. apply Q1; lia. }
      { unfold s2. norm. rewrite length_poke. exact Len1. }
      { now right. }
      assert (LenA : Z.of_nat (length (heap s2)) = HeapSize).
      { unfold s2. norm. rewrite length_poke. congruence. }
      assert (R3' : forall c', In c' (non_nil cl) ->
                0 < c' /\ c' + 1 < HeapSize /\ (c' + 1 < L \/ L + 2 + k <= c') /\
                (ty (heap s2) c' = TNum \/ ty (heap s2) c' = TStr) /\
                hdr_ref_count (peek (heap s2) c') = 1).
      { intros c' Hin. destruct (R23 c' Hin) as (A' & B' & C' & D' & E' & _). tauto. }
      destruct (IH F (i + 1) s2 ltac:(lia) HL Hfit LenA R21 ltac:(lia) ltac:(lia) R22 R3' Hap')
        as (s' & E & Zr & Fr & Q & Len & T & R & G & O).
      assert (Hcc : forall c', In c' (non_nil cl) ->
                c <> c' /\ c <> c' + 1 /\ c + 1 <> c' /\ c + 1 <> c' + 1).
      { intros c' Hin. apply non_nil_In in Hin. destruct Hin as [Hin Hne].
        rewrite Forall_forall in Hc_ap. specialize (Hc_ap c' Hin).
        unfold apart in Hc_ap. lia. }
      exists s'. split; [exact E|].
      rewrite non_nil_cons. destruct (Z.eqb_spec c 0); [contradiction|].
      split.
      { intros j Hj. destruct (Z.eq_dec j i) as [->|Hne]; [|apply Zr; lia].
        rewrite Q; try lia.
        - unfold s2. norm. apply peek_poke_eq. lia.
        - intros c' Hin. destruct (R23 c' Hin) as (A' & B' & C' & _). lia. }
      split.
      { intros c' [<-|Hin].
        - unfold ty. rewrite !Q; try lia;
            try (intros c' Hin; destruct (Hcc c' Hin); lia).
          unfold s2. norm. rewrite !peek_poke_neq by lia.
          split; [exact Ty1|exact Sz1].
        - destruct (Fr c' Hin) as (A' & B'). split; [exact A'|].
          rewrite B'. destruct (R23 c' Hin) as (_ & _ & _ & _ & _ & Sz). exact Sz. }
      split.
      { intros j Hj Jo Jc. destruct (Jc c (or_introl eq_refl)) as (J1 & J2).
        rewrite Q; try lia.
        - unfold s2. norm. rewrite peek_poke_neq by lia. apply Q1; lia.
        - intros c' Hin. apply Jc. now right. }
      split; [rewrite Len; unfold s2; norm; rewrite length_poke; exact Len1|].
      split; [rewrite T; unfold s2; norm; exact T1|].
      split; [rewrite R; unfold s2; norm; exact R1|].
      split; [rewrite G; unfold s2; norm; exact G1|].
      intros Hlr. rewrite O by (unfold s2; norm; congruence).
      replace (frees (out s2)) with (frees (out s1)) by reflexivity.
      rewrite O1 by exact Hlr.
      cbn [map]. rewrite <- app_assoc. cbn [app]. do 2 f_equal.
      apply map_ext_in. intros c' Hin.
      destruct (R23 c' Hin) as (_ & _ & _ & _ & _ & Sz). now rewrite Sz.
Qed.

(** Under reference counting, destroying the last handle on a Tup
    whose slots hold nil or the only reference to a Num or Str (no
    object twice) releases the whole structure at once: every object
    in a slot becomes, in place, a Free record of its size, then the
    Tup itself does, with its slots cleared.  The free events are those
    of the slot objects in slot order, followed by the one of the Tup.
    [top] does not move and no other heap word changes. *)
Theorem rc_releases_tup :
  forall n L rest s,
    root s = L :: rest -> 0 < L -> 0 <= peek (heap s) (L + 1) ->
    L + 2 + peek (heap s) (L + 1) <= HeapSize ->
    Z.of_nat (length (heap s)) = HeapSize ->
    ty (heap s) L = TTup -> hdr_ref_count (peek (heap s) L) = 1 ->
    (forall c, In c (non_nil (slots (heap s) L)) ->
       0 < c /\ c + 1 < HeapSize /\
       (c + 1 < L \/ L + 2 + peek (heap s) (L + 1) <= c) /\
       (ty (heap s) c = TNum \/ ty (heap s) c = TStr) /\
       hdr_ref_count (peek (heap s) c) = 1) ->
    ForallOrdPairs apart (slots (heap s) L) ->
    (Z.to_nat (peek (heap s) (L + 1)) < 3 + n)%nat ->
    exists s',
      ObjRef_destroy REF_COUNT_GC (5 + n) 0 s = Ok (tt, s') /\
      root s' = rest /\ top s' = top s /\
      ty (heap s') L = TFree /\
      peek (heap s') (L + 1) = 2 + peek (heap s) (L + 1) /\
      (forall j, 0 <= j < peek (heap s) (L + 1) -> peek (heap s') (L + 2 + j) = 0) /\
      (forall c, In c (non_nil (slots (heap s) L)) ->
         ty (heap s') c = TFree /\ peek (heap s') (c + 1) = size_of (heap s) c) /\
      (forall j, 0 <= j ->
         j < L \/ L + 2 + peek (heap s) (L + 1) <= j ->
         (forall c, In c (non_nil (slots (heap s) L)) -> j <> c /\ j <> c + 1) ->
         peek (heap s') j = peek (heap s) j) /\
      (log_ready s = true ->
       frees (out s')
       = frees (out s)
         ++ map (fun c => EFree c (size_of (heap s) c)) (non_nil (slots (heap s) L))
         ++ [EFree L (2 + peek (heap s) (L + 1))]).
Proof.
  intros n L rest s Hr HL Hk Hfit Hlen Hty Hcnt Hch Hap Hn.
  set (k := peek (heap s) (L + 1)) in *.
  set (cl := slots (heap s) L) in *.
  assert (Hcl : length cl = Z.to_nat k).
  { unfold cl, slots. fold k. apply length_peeks. }
  set (hA := poke (heap s) L (set_ref_count (peek (heap s) L) 0)).
  set (sA := emit_st (ERefCount L 0) (with_heap (with_root s rest) hA)).
  assert (HhA : heap sA = hA) by (unfold sA; now rewrite heap_emit_st).
  assert (QA : forall j, 0 <= j -> j <> L -> peek (heap sA) j = peek (heap s) j).
  { intros j Hj Hne. rewrite HhA. unfold hA. apply peek_poke_neq; lia. }
  assert (TyA : ty (heap sA) L = TTup).
  { unfold ty. rewrite HhA. unfold hA. rewrite peek_poke_eq by lia.
    rewrite hdr_type_set_ref_count. exact Hty. }
  assert (LenA : Z.of_nat (length (heap sA)) = HeapSize).
  { rewrite HhA. unfold hA. rewrite length_poke. exact Hlen. }
  assert (HchA : forall c, In c (non_nil cl) ->
            0 < c /\ c + 1 < HeapSize /\ (c + 1 < L \/ L + 2 + k <= c) /\
            (ty (heap sA) c = TNum \/ ty (heap sA) c = TStr) /\
            hdr_ref_count (peek (heap sA) c) = 1).
  { intros c Hc. destruct (Hch c Hc) as (A & B & C & D & E).
    unfold ty. rewrite QA by lia. fold (ty (heap s) c). tauto. }
  assert (SzA : forall c, In c (non_nil cl) -> size_of (heap sA) c = size_of (heap s) c).
  { intros c Hc. destruct (Hch c Hc) as (A & B & C & _).
    apply size_of_ext; apply QA; lia. }
  destruct (cleanup_loop_spec n L k cl (S (S (S n))) 0 sA ltac:(lia) ltac:(lia) Hfit
              LenA ltac:(rewrite QA by lia; reflexivity) ltac:(lia) ltac:(lia))
    as (sB & EB & ZB & FB & QB & LenB & TB & RB & GB & OB).
  { intros q Hq. rewrite QA by lia. unfold cl, slots. fold k.
    rewrite nth_peeks by lia. f_equal. lia. }
  { exact HchA. }
  { exact Hap. }
  assert (PLB : peek (heap sB) L = peek (heap sA) L).
  { apply QB; try lia. intros c Hc. destruct (HchA c Hc) as (A & B & C & _). lia. }
  assert (PKB : peek (heap sB) (L + 1) = k).
  { rewrite QB; try lia.
    - apply QA; lia.
    - intros c Hc. destruct (HchA c Hc) as (A & B & C & _). lia. }
  assert (TyB : ty (heap sB) L = TTup) by (unfold ty; rewrite PLB; exact TyA).
  assert (Hu : to_UWd (2 + k) = 2 + k).
  { apply to_UWd_small. unfold HeapSize in *. lia. }
  assert (SzB : size_of (heap sB) L = 2 + k).
  { unfold size_of. rewrite TyB, PKB. cbn. exact Hu. }
  destruct (free_st_frame REF_COUNT_GC L (2 + k) sB) as (Fh & Ft & Fr & _ & _ & Fg).
  exists (free_st REF_COUNT_GC L (2 + k) sB). split.
  { unfold ObjRef_destroy. rewrite bind_gets, Hr. cbn [nth_error].
    rewrite bind_modify, Hr. cbn [remove_nth].
    change (5 + n)%nat with (S (S (S (S (S n))))).
    cbn [dec_ref_count]. change (is_ref_count REF_COUNT_GC) with true. cbv iota.
    rewrite !bind_assoc, bind_load by lia. norm. cbv zeta.
    rewrite !bind_assoc, bind_store by lia. unfold log_ref_count.
    rewrite !bind_assoc, bind_emit. rewrite hdr_ref_count_set, Hcnt.
    change ((1 - 1) mod 256) with 0. change (0 =? 0) with true. cbv iota.
    norm. change (1 - 1) with 0. fold hA. fold sA.
    rewrite !bind_assoc. cbn [Obj_cleanup]. unfold Obj_type.
    rewrite !bind_assoc, bind_load by lia. rewrite bind_ret.
    fold (ty (heap sA) L). rewrite TyA.
    change (TTup =? TTup) with true. cbv iota.
    rewrite (bind_eq _ _ _ _ _ EB). rewrite bind_ret.
    rewrite (bind_eq _ _ _ _ _
               (Obj_size_eq L sB ltac:(lia) ltac:(lia)
                  ltac:(rewrite TyB; discriminate))).
    rewrite SzB. apply Mem_free_eq; try lia. }
  split; [rewrite Fr, RB; unfold sA; rewrite root_emit_st; reflexivity|].
  split; [rewrite Ft, TB; unfold sA; rewrite top_emit_st; reflexivity|].
  split.
  { unfold ty. rewrite Fh, peek_poke_neq, peek_poke_eq by lia.
    apply hdr_type_init_hdr. unfold TFree. lia. }
  split.
  { rewrite Fh, peek_poke_eq by (rewrite length_poke; lia). exact Hu. }
  split.
  { intros j Hj. rewrite Fh, !peek_poke_neq by lia. apply ZB. lia. }
  split.
  { intros c Hc. destruct (HchA c Hc) as (A & B & C & _).
    destruct (FB c Hc) as (F1 & F2).
    unfold ty. rewrite Fh, !peek_poke_neq by lia.
    split; [exact F1|]. rewrite F2. apply SzA, Hc. }
  split.
  { intros j Hj Jo Jc. rewrite Fh, !peek_poke_neq by lia.
    rewrite QB by (auto; lia). apply QA; lia. }
  intros Hlr.
  assert (HlA : log_ready sA = true).
  { unfold sA. rewrite log_ready_emit_st. exact Hlr. }
  rewrite free_st_out by congruence.
  rewrite OB by exact HlA.
  unfold sA. rewrite out_emit_st by exact Hlr. norm.
  rewrite frees_snoc. cbn [is_free_event]. rewrite app_nil_r, <- app_assoc.
  do 2 f_equal. apply map_ext_in. intros c Hc. fold sA. now rewrite SzA.
Qed.

Lemma rc_releases_tup_witness :
  exists s',
    ObjRef_destroy REF_COUNT_GC 5 0 owned_pair_state = Ok (tt, s') /\
    ty (heap s') 1 = TFree /\ ty (heap s') 5 = TFree /\ ty (heap s') 7 = TFree.
Proof.
  assert (Hk : peek (heap owned_pair_state) (1 + 1) = 2)
    by (vm_compute; reflexivity).
  assert (Hs : slots (heap owned_pair_state) 1 = [5; 7])
    by (vm_compute; reflexivity).
  assert (A8 : forall c, In c (non_nil (slots (heap owned_pair_state) 1)) ->
            0 < c /\ c + 1 < HeapSize /\
            (c + 1 < 1 \/ 1 + 2 + peek (heap owned_pair_state) (1 + 1) <= c) /\
            (ty (heap owned_pair_state) c = TNum \/
             ty (heap owned_pair_state) c = TStr) /\
            hdr_ref_count (peek (heap owned_pair_state) c) = 1).
  { rewrite Hs, Hk. intros c Hc.
    assert (E : c = 5 \/ c = 7) by (cbn in Hc; intuition).
    destruct E; subst c.
    - split; [lia|]. split; [reflexivity|]. split; [right; lia|].
      split; [left; vm_compute; reflexivity|vm_compute; reflexivity].
    - split; [lia|]. split; [reflexivity|]. split; [right; lia|].
      split; [right; vm_compute; reflexivity|vm_compute; reflexivity]. }
  assert (A9 : ForallOrdPairs apart (slots (heap owned_pair_state) 1)).
  { rewrite Hs.
    apply FOP_cons; [apply Forall_cons; [unfold apart; lia|apply Forall_nil]|].
    apply FOP_cons; [apply Forall_nil|apply FOP_nil]. }
  destruct (rc_releases_tup 0 1 [0] owned_pair_state
              ltac:(vm_compute; reflexivity) ltac:(lia)
              ltac:(rewrite Hk; lia) ltac:(rewrite Hk; vm_compute; discriminate)
              ltac:(vm_compute; reflexivity) ltac:(vm_compute; reflexivity)
              ltac:(vm_compute; reflexivity) A8 A9 ltac:(rewrite Hk; cbn; lia))
    as (s' & H1 & _ & _ & H2 & _ & _ & H3 & _).
  rewrite Hs in H3.
  exists s'. split; [exact H1|]. split; [exact H2|].
  split; apply H3; cbn; auto.
Defined.

(** * Building values *)

Lemma frees_emit_st e s :
  is_free_event e = false -> frees (out (emit_st e s)) = frees (out s).
Proof.
  intros H. unfold emit_st. destruct (log_ready s); [|reflexivity].
  norm. rewrite frees_snoc, H. apply app_nil_r.
Qed.

Lemma init_ref_count_eq m loc s :
  0 <= loc < HeapSize ->
  exists s',
    init_ref_count m loc s = Ok (tt, s') /\
    heap s' = poke (heap s) loc
                (set_ref_count (peek (heap s) loc) (if is_ref_count m then 1 else 0)) /\
    top s' = top s /\ root s' = root s /\ live s' = live s /\
    forwarding s' = forwarding s /\ log_ready s' = log_ready s /\
    frees (out s') = frees (out s).
Proof.
  intros H. unfold init_ref_count, log_ref_count. rewrite bind_load by lia.
  destruct (is_ref_count m).
  - rewrite bind_store by lia. rewrite emit_ok. eexists. split; [reflexivity|].
    rewrite heap_emit_st, top_emit_st, root_emit_st, live_emit_st,
      forwarding_emit_st, log_ready_emit_st, frees_emit_st by reflexivity.
    norm. tauto.
  - rewrite store_ok by lia. eexists. split; [reflexivity|]. norm. tauto.
Qed.

Lemma init_st_frees m l tag s : frees (out (init_st m l tag s)) = frees (out s).
Proof.
  unfold init_st. cbv zeta. norm.
  destruct (is_ref_count m); rewrite !frees_emit_st by reflexivity; reflexivity.
Qed.

(** [ObjRef(ALLOC, size)]. *)
Lemma ObjRef_alloc_spec m n s :
  0 <= top s -> 1 <= n -> top s + n < HeapSize ->
  Z.of_nat (length (heap s)) = HeapSize ->
  exists s',
    ObjRef_alloc m n s = Ok (top s, s') /\
    top s' = top s + n /\ root s' = top s :: root s /\
    live s' = live s /\ forwarding s' = forwarding s /\
    log_ready s' = log_ready s /\
    length (heap s') = length (heap s) /\
    peek (heap s') (top s) = (if is_ref_count m then 1 else 0) /\
    (forall j, top s < j < top s + n -> peek (heap s') j = 0) /\
    (forall j, 0 <= j -> j < top s \/ top s + n <= j ->
               peek (heap s') j = peek (heap s) j) /\
    frees (out s') = frees (out s).
Proof.
  intros Ht Hn Hb Hlen.
  destruct (Mem_alloc_spec n s Ht ltac:(lia) Hb Hlen)
    as (s1 & E1 & T1 & R1 & L1 & F1 & G1 & Len1 & Z1 & O1 & Out1).
  destruct (init_ref_count_eq m (top s) s1 ltac:(lia))
    as (s2 & E2 & H2 & T2 & R2 & L2 & F2 & G2 & Out2).
  exists (with_root s2 (top s :: root s2)). split.
  { unfold ObjRef_alloc. rewrite (bind_eq _ _ _ _ _ E1).
    rewrite (bind_eq _ _ _ _ _ E2). reflexivity. }
  norm. rewrite H2, length_poke.
  repeat split; try congruence.
  - rewrite peek_poke_eq by lia. rewrite Z1 by lia.
    destruct (is_ref_count m); reflexivity.
  - intros j Hj. rewrite peek_poke_neq by lia. apply Z1. lia.
  - intros j Hj Ho. rewrite peek_poke_neq by lia. apply O1; lia.
  - rewrite Out2, Out1. apply frees_emit_st. reflexivity.
Qed.

(** [NumRef(val)] builds a Num at the old [top] that reads back as
    [val] wrapped to a signed 16-bit word, through [Num::to_i] and
    through [Obj::to_i]; [Num::set] replaces the value and touches no
    other word.  The new handle is at the head of the root list, the
    count of the object is 1 under reference counting and 0 otherwise,
    and no word outside the two of the object changes. *)
Theorem num_round_trip :
  forall m v n s,
    0 <= top s -> top s + 2 < HeapSize ->
    Z.of_nat (length (heap s)) = HeapSize ->
    exists s',
      NumRef_new m v s = Ok (top s, s') /\
      top s' = top s + 2 /\ root s' = top s :: root s /\
      ty (heap s') (top s) = TNum /\
      hdr_ref_count (peek (heap s') (top s)) = (if is_ref_count m then 1 else 0) /\
      Num_to_i (top s) s' = Ok (to_SWd v, s') /\
      Obj_to_i (S n) (top s) s' = Ok (to_SWd v, s') /\
      (forall j, 0 <= j -> j < top s \/ top s + 2 <= j ->
                 peek (heap s') j = peek (heap s) j) /\
      (forall w, exists s2,
         Num_set (top s) w s' = Ok (tt, s2) /\
         Num_to_i (top s) s2 = Ok (to_SWd w, s2) /\
         root s2 = root s' /\ top s2 = top s' /\
         (forall j, 0 <= j -> j <> top s + 1 ->
                    peek (heap s2) j = peek (heap s') j)).
Proof.
  intros m v n s Ht Hb Hlen.
  destruct (ObjRef_alloc_spec m Num_size_needed s Ht ltac:(unfold Num_size_needed; lia)
              ltac:(unfold Num_size_needed; lia) Hlen)
    as (s1 & E1 & T1 & R1 & L1 & F1 & G1 & Len1 & P1 & Z1 & O1 & Out1).
  unfold Num_size_needed in *.
  set (t := top s) in *.
  destruct (init_st_frame m t TNum s1) as (Ih & It & Ir & _).
  set (s2 := init_st m t TNum s1) in *.
  set (h3 := poke (heap s2) (t + 1) (to_UWd v)).
  set (s3 := emit_st (ESetInt (t + 1) (to_SWd v)) (with_heap s2 h3)).
  assert (Len2 : length (heap s2) = length (heap s)).
  { rewrite Ih, length_poke. exact Len1. }
  assert (E : NumRef_new m v s = Ok (t, s3)).
  { unfold NumRef_new. rewrite (bind_eq _ _ _ _ _ E1). unfold Num_init.
    rewrite bind_assoc.
    rewrite (bind_eq _ _ _ _ _ (Obj_init_eq m t TNum s1 ltac:(lia) ltac:(lia))).
    fold s2. rewrite bind_assoc, bind_store by lia. unfold log_set_val.
    rewrite bind_emit. reflexivity. }
  assert (Hh3 : heap s3 = h3) by (unfold s3; now rewrite heap_emit_st).
  assert (Pt : peek (heap s3) t = init_hdr m (peek (heap s1) t) TNum).
  { rewrite Hh3. unfold h3. rewrite peek_poke_neq by lia.
    rewrite Ih. apply peek_poke_eq. lia. }
  assert (Pv : peek (heap s3) (t + 1) = to_UWd v).
  { rewrite Hh3. unfold h3. apply peek_poke_eq. lia. }
  assert (Hty : ty (heap s3) t = TNum).
  { unfold ty. rewrite Pt. apply hdr_type_init_hdr. unfold TNum. lia. }
  assert (Hto : Num_to_i t s3 = Ok (to_SWd v, s3)).
  { unfold Num_to_i. rewrite bind_load by lia. rewrite Pv.
    unfold ret, to_UWd. now rewrite to_SWd_mod. }
  exists s3. split; [exact E|].
  split; [unfold s3; rewrite top_emit_st; norm; congruence|].
  split; [unfold s3; rewrite root_emit_st; norm; congruence|].
  split; [exact Hty|].
  split; [rewrite Pt; apply hdr_ref_count_init_hdr|].
  split; [exact Hto|]. split.
  { unfold Obj_to_i, Obj_type. rewrite bind_assoc, bind_load, bind_ret by lia.
    fold (ty (heap s3) t). rewrite Hty. exact Hto. }
  split.
  { intros j Hj Ho. rewrite Hh3. unfold h3. rewrite peek_poke_neq by lia.
    rewrite Ih, peek_poke_neq by lia. apply O1; lia. }
  intros w.
  exists (emit_st (ESetInt (t + 1) (to_SWd w))
            (with_heap s3 (poke (heap s3) (t + 1) (to_UWd w)))).
  split.
  { unfold Num_set. rewrite bind_store by lia. apply emit_ok. }
  rewrite root_emit_st, top_emit_st, heap_emit_st. norm.
  split.
  { unfold Num_to_i. rewrite bind_load by lia. rewrite heap_emit_st. norm.
    rewrite peek_poke_eq by (rewrite Hh3; unfold h3; rewrite length_poke; lia).
    unfold ret, to_UWd. now rewrite to_SWd_mod. }
  split; [reflexivity|]. split; [reflexivity|].
  intros j Hj Hne. apply peek_poke_neq; lia.
Qed.

Lemma num_round_trip_witness :
  exists s',
    NumRef_new REF_COUNT_GC 70000 (boot REF_COUNT_GC) = Ok (1, s') /\
    Num_to_i 1 s' = Ok (4464, s').
Proof.
  destruct (num_round_trip REF_COUNT_GC 70000 0 (boot REF_COUNT_GC)
              ltac:(vm_compute; discriminate) ltac:(vm_compute; reflexivity)
              ltac:(vm_compute; reflexivity))
    as (s' & H1 & _ & _ & _ & _ & H2 & _).
  exists s'. split; [exact H1|exact H2].
Defined.

(** The loop of [Str::init] from character [i] on. *)
Lemma Str_init_loop loc data len : forall k n i s,
  0 <= loc -> loc + 2 + len <= HeapSize ->
  Z.of_nat (length (heap s)) = HeapSize ->
  peek (heap s) (loc + 1) = len ->
  0 <= i -> i + Z.of_nat k = len -> (k < n)%nat ->
  exists s',
    for_field n (load (loc + 1))
      (fun i _ =>
         let c := nth (Z.to_nat i) data 0 in
         store (loc + 2 + i) (to_UWd c) ;;
         log_set_char (loc + 2 + i) c) i tt s = Ok (tt, s') /\
    (forall j, i <= j < len ->
       peek (heap s') (loc + 2 + j) = to_UWd (nth (Z.to_nat j) data 0)) /\
    (forall a, 0 <= a -> a < loc + 2 + i \/ loc + 2 + len <= a ->
       peek (heap s') a = peek (heap s) a) /\
    length (heap s') = length (heap s) /\
    top s' = top s /\ root s' = root s /\ live s' = live s /\
    forwarding s' = forwarding s /\ log_ready s' = log_ready s /\
    frees (out s') = frees (out s).
Proof.
  induction k as [|k IH]; intros n i s Hloc Hfit Hlen Hl Hi Hk Hn;
    (destruct n as [|n]; [lia|]); cbn [for_field]; rewrite bind_load by lia;
    rewrite Hl.
  - destruct (Z.ltb_spec i len); [lia|]. exists s. split; [reflexivity|].
    repeat split; auto. intros j Hj. lia.
  - destruct (Z.ltb_spec i len); [|lia]. cbv zeta.
    rewrite bind_assoc, bind_store by lia. unfold log_set_char.
    rewrite bind_emit.
    set (c := nth (Z.to_nat i) data 0).
    set (s1 := emit_st (ESetChar (loc + 2 + i) c)
                 (with_heap s (poke (heap s) (loc + 2 + i) (to_UWd c)))).
    assert (Hh1 : heap s1 = poke (heap s) (loc + 2 + i) (to_UWd c)).
    { unfold s1. now rewrite heap_emit_st. }
    destruct (IH n (i + 1) s1 Hloc Hfit) as (s' & E & P & O & Len & T & R & L & F & G & Out);
      try lia.
    { rewrite Hh1, length_poke. exact Hlen. }
    { rewrite Hh1, peek_poke_neq by lia. exact Hl. }
    exists s'. split; [exact E|].
    split.
    { intros j Hj. destruct (Z.eq_dec j i) as [->|Hne].
      - rewrite O by lia. rewrite Hh1. apply peek_poke_eq. lia.
      - apply P. lia. }
    split.
    { intros a Ha Ho. rewrite O by lia. rewrite Hh1. apply peek_poke_neq; lia. }
    unfold s1 in *.
    rewrite top_emit_st, root_emit_st, live_emit_st, forwarding_emit_st,
      log_ready_emit_st, frees_emit_st in * by reflexivity.
    norm. rewrite Len, Hh1, length_poke. tauto.
Qed.

Lemma peeks_of_list h f m : forall a (l : list Z),
  length l = m ->
  (forall j, (j < m)%nat -> peek h (a + Z.of_nat j) = f (nth j l 0)) ->
  peeks h a m = map f l.
Proof.
  induction m as [|m IH]; intros a l Hl H; destruct l as [|x r]; try discriminate;
    cbn [peeks map]; [reflexivity|].
  f_equal.
  - specialize (H 0%nat ltac:(lia)). cbn [nth] in H. rewrite <- H. f_equal. lia.
  - apply IH; [cbn in Hl; lia|]. intros j Hj.
    specialize (H (S j) ltac:(lia)). cbn [nth] in H. rewrite <- H. f_equal. lia.
Qed.

(** [StrRef(data)] builds at the old [top] a Str whose characters,
    read back from the heap, are those of [data] (each as a 16-bit
    word) and whose size is two words more than their number.  The new
    handle is at the head of the root list; no word outside the object
    changes and no free event is logged. *)
Theorem str_round_trip :
  forall m n data s,
    0 <= top s -> top s + 2 + Z.of_nat (length data) < HeapSize ->
    Z.of_nat (length (heap s)) = HeapSize ->
    (length data < n)%nat ->
    exists s',
      StrRef_new m n data s = Ok (top s, s') /\
      top s' = top s + 2 + Z.of_nat (length data) /\
      root s' = top s :: root s /\
      ty (heap s') (top s) = TStr /\
      str_chars (heap s') (top s) = map to_UWd data /\
      size_of (heap s') (top s) = 2 + Z.of_nat (length data) /\
      (forall j, 0 <= j -> j < top s \/ top s' <= j ->
                 peek (heap s') j = peek (heap s) j) /\
      frees (out s') = frees (out s).
Proof.
  intros m n data s Ht Hb Hlen Hn.
  set (len := Z.of_nat (length data)) in *.
  assert (Hsz : Str_size_needed len = 2 + len).
  { unfold Str_size_needed. apply to_UWd_small. unfold HeapSize in *. lia. }
  destruct (ObjRef_alloc_spec m (2 + len) s Ht ltac:(lia) ltac:(lia) Hlen)
    as (s1 & E1 & T1 & R1 & L1 & F1 & G1 & Len1 & P1 & Z1 & O1 & Out1).
  set (t := top s) in *.
  destruct (init_st_frame m t TStr s1) as (Ih & It & Ir & Il & If & Ig).
  pose proof (init_st_frees m t TStr s1) as Io.
  set (s2 := init_st m t TStr s1) in *.
  set (h3 := poke (heap s2) (t + 1) (to_UWd len)).
  set (s3 := emit_st (ESetInt (t + 1) (to_UWd len)) (with_heap s2 h3)).
  assert (Len2 : length (heap s2) = length (heap s)).
  { rewrite Ih, length_poke. exact Len1. }
  assert (Hh3 : heap s3 = h3) by (unfold s3; now rewrite heap_emit_st).
  assert (Hul : to_UWd len = len) by (apply to_UWd_small; unfold HeapSize in *; lia).
  assert (Pl : peek (heap s3) (t + 1) = len).
  { rewrite Hh3. unfold h3. rewrite peek_poke_eq by lia. exact Hul. }
  destruct (Str_init_loop t data len (length data) n 0 s3)
    as (s4 & E4 & P4 & O4 & Len4 & T4 & R4 & L4 & F4 & G4 & Out4); try lia.
  { rewrite Hh3. unfold h3. rewrite length_poke. lia. }
  assert (E : StrRef_new m n data s = Ok (t, s4)).
  { unfold StrRef_new. fold len. rewrite Hsz. rewrite (bind_eq _ _ _ _ _ E1).
    unfold Str_init. rewrite bind_assoc.
    rewrite (bind_eq _ _ _ _ _ (Obj_init_eq m t TStr s1 ltac:(lia) ltac:(lia))).
    fold s2. fold len. rewrite !bind_assoc, bind_store by lia.
    rewrite !bind_assoc, bind_load by lia. norm. fold h3.
    replace (peek h3 (t + 1)) with (to_UWd len)
      by (unfold h3; rewrite peek_poke_eq by lia; reflexivity).
    unfold log_set_val. rewrite !bind_assoc, bind_emit. fold s3.
    rewrite (bind_eq _ _ _ _ _ E4). reflexivity. }
  assert (Pt : peek (heap s4) t = init_hdr m (peek (heap s1) t) TStr).
  { rewrite O4 by lia. rewrite Hh3. unfold h3. rewrite peek_poke_neq by lia.
    rewrite Ih. apply peek_poke_eq. lia. }
  assert (Pl4 : peek (heap s4) (t + 1) = len).
  { rewrite O4 by lia. exact Pl. }
  assert (Hty : ty (heap s4) t = TStr).
  { unfold ty. rewrite Pt. apply hdr_type_init_hdr. unfold TStr. lia. }
  exists s4. split; [exact E|].
  assert (T3 : top s3 = t + (2 + len)).
  { unfold s3. rewrite top_emit_st. norm. congruence. }
  split; [lia|].
  split; [rewrite R4; unfold s3; rewrite root_emit_st; norm; congruence|].
  split; [exact Hty|]. split.
  { unfold str_chars. rewrite Pl4. unfold len. rewrite Nat2Z.id.
    apply peeks_of_list; [reflexivity|]. intros j Hj.
    replace (t + 2 + Z.of_nat j) with (t + 2 + Z.of_nat j) by lia.
    rewrite P4 by (unfold len; lia). now rewrite Nat2Z.id. }
  split.
  { unfold size_of. rewrite Hty, Pl4. cbn. exact Hsz. }
  split.
  { intros j Hj Ho. rewrite O4 by lia. rewrite Hh3. unfold h3.
    rewrite peek_poke_neq by lia. rewrite Ih, peek_poke_neq by lia.
    apply O1; lia. }
  rewrite Out4. unfold s3. rewrite frees_emit_st by reflexivity. norm.
  rewrite Io. exact Out1.
Qed.

Lemma str_round_trip_witness :
  exists s',
    StrRef_new COPY_GC 10 [45; 52; 50] (boot COPY_GC) = Ok (1, s') /\
    str_chars (heap s') 1 = [45; 52; 50].
Proof.
  destruct (str_round_trip COPY_GC 10 [45; 52; 50] (boot COPY_GC)
              ltac:(vm_compute; discriminate) ltac:(vm_compute; reflexivity)
              ltac:(vm_compute; reflexivity) ltac:(cbn; lia))
    as (s' & H1 & _ & _ & _ & H2 & _).
  exists s'. split; [exact H1|exact H2].
Defined.

(** * [Obj::equals] *)

Lemma Obj_equals_eq a b s :
  0 <= a -> a + 2 < HeapSize -> 0 <= b -> b + 2 < HeapSize ->
  Obj_equals a b s = Ok (equals_val (heap s) a b, s).
Proof.
  intros Ha Ha' Hb Hb'. unfold Obj_equals, equals_val, Obj_type.
  rewrite bind_assoc, bind_load, bind_ret by lia. fold (ty (heap s) a).
  destruct (ty (heap s) a =? TNum).
  - rewrite bind_assoc, bind_load, bind_ret by lia. fold (ty (heap s) b).
    destruct (ty (heap s) b =? TNum); [|reflexivity].
    rewrite bind_load by lia. rewrite bind_load by lia. reflexivity.
  - destruct (ty (heap s) a =? TStr); [|reflexivity].
    rewrite bind_assoc, bind_load, bind_ret by lia. fold (ty (heap s) b).
    destruct (ty (heap s) b =? TStr); [|reflexivity].
    rewrite bind_load by lia. rewrite bind_load by lia.
    destruct (peek (heap s) (a + 1) =? peek (heap s) (b + 1)); [|reflexivity].
    destruct (peek (heap s) (a + 1) =? 0); [reflexivity|].
    rewrite bind_load by lia. rewrite bind_load by lia. reflexivity.
Qed.

Lemma equals_val_sym h a b : equals_val h a b = equals_val h b a.
Proof.
  unfold equals_val.
  destruct (Z.eqb_spec (ty h a) TNum) as [A|A];
    destruct (Z.eqb_spec (ty h b) TNum) as [B|B];
    destruct (Z.eqb_spec (ty h a) TStr) as [A'|A'];
    destruct (Z.eqb_spec (ty h b) TStr) as [B'|B'];
    cbn [andb]; try reflexivity;
    try (exfalso; unfold TNum, TStr in *; lia).
  - apply Z.eqb_sym.
  - destruct (Z.eqb_spec (peek h (a + 1)) (peek h (b + 1))) as [E|E];
      destruct (Z.eqb_spec (peek h (b + 1)) (peek h (a + 1))) as [E'|E'];
      try congruence; cbn [andb]; [|reflexivity].
    rewrite E. f_equal. apply Z.eqb_sym.
Qed.

Lemma equals_val_subst h a b c :
  equals_val h a b = true -> equals_val h a c = equals_val h b c.
Proof.
  unfold equals_val.
  destruct (Z.eqb_spec (ty h a) TNum) as [A|A].
  - destruct (Z.eqb_spec (ty h b) TNum) as [B|B]; [|discriminate].
    cbn [andb]. intros E. apply Z.eqb_eq in E. now rewrite E.
  - destruct (Z.eqb_spec (ty h a) TStr) as [A'|A']; [|discriminate].
    destruct (Z.eqb_spec (ty h b) TStr) as [B'|B']; [|discriminate].
    destruct (Z.eqb_spec (ty h b) TNum) as [B|B];
      [exfalso; unfold TNum, TStr in *; lia|].
    cbn [andb].
    destruct (Z.eqb_spec (peek h (a + 1)) (peek h (b + 1))) as [E|E];
      [|discriminate]. cbn [andb]. rewrite <- E.
    destruct (Z.eqb_spec (peek h (a + 1)) 0) as [Z0|Z0]; cbn [orb].
    + intros _. reflexivity.
    + intros E2. apply Z.eqb_eq in E2. now rewrite E2.
Qed.

(** [Obj::equals] reads the two objects and changes nothing.  Its
    answer is symmetric; an object that compares equal to another can
    stand for it in any further comparison (so the relation is
    transitive); an object equals itself exactly when it is a Num or a
    Str.  Two Num compare by their 16-bit values; two Str compare by
    their lengths and, when not empty, their first characters only. *)
Theorem equals_partial_equivalence :
  forall s a b c,
    0 <= a -> a + 2 < HeapSize -> 0 <= b -> b + 2 < HeapSize ->
    0 <= c -> c + 2 < HeapSize ->
    exists r,
      Obj_equals a b s = Ok (r, s) /\
      Obj_equals b a s = Ok (r, s) /\
      (r = true ->
       exists r', Obj_equals a c s = Ok (r', s) /\ Obj_equals b c s = Ok (r', s)) /\
      (Obj_equals a a s = Ok (true, s) <->
       ty (heap s) a = TNum \/ ty (heap s) a = TStr) /\
      (ty (heap s) a = TNum -> ty (heap s) b = TNum ->
       (r = true <->
        to_SWd (peek (heap s) (a + 1)) = to_SWd (peek (heap s) (b + 1)))) /\
      (ty (heap s) a = TStr -> ty (heap s) b = TStr ->
       (r = true <->
        peek (heap s) (a + 1) = peek (heap s) (b + 1) /\
        (peek (heap s) (a + 1) = 0 \/
         peek (heap s) (a + 2) = peek (heap s) (b + 2)))).
Proof.
  intros s a b c Ha Ha' Hb Hb' Hc Hc'.
  exists (equals_val (heap s) a b).
  split; [apply Obj_equals_eq; lia|].
  split; [rewrite (equals_val_sym (heap s) a b); apply Obj_equals_eq; lia|].
  split.
  { intros E. exists (equals_val (heap s) a c).
    split; [apply Obj_equals_eq; lia|].
    rewrite (equals_val_subst _ _ _ c E). apply Obj_equals_eq; lia. }
  split.
  { rewrite Obj_equals_eq by lia. unfold equals_val.
    destruct (Z.eqb_spec (ty (heap s) a) TNum) as [A|A].
    - rewrite Z.eqb_refl. cbn [andb]. split; [auto|reflexivity].
    - destruct (Z.eqb_spec (ty (heap s) a) TStr) as [A'|A'].
      + rewrite !Z.eqb_refl, orb_true_r. cbn [andb]. split; [auto|reflexivity].
      + split; [discriminate|]. intros [?|?]; contradiction. }
  split.
  { intros A B. unfold equals_val. rewrite A, B.
    change (TNum =? TNum) with true. cbv iota. cbn [andb].
    apply Z.eqb_eq. }
  intros A B. unfold equals_val. rewrite A, B.
  change (TStr =? TNum) with false. change (TStr =? TStr) with true.
  cbv iota. cbn [andb].
  destruct (Z.eqb_spec (peek (heap s) (a + 1)) (peek (heap s) (b + 1))) as [E|E];
    cbn [andb].
  - destruct (Z.eqb_spec (peek (heap s) (a + 1)) 0) as [Z0|Z0]; cbn [orb].
    + split; auto.
    + rewrite Z.eqb_eq. split; [auto|]. intros [_ [?|?]]; [contradiction|auto].
  - split; [discriminate|]. intros [? _]; contradiction.
Qed.

Lemma equals_partial_equivalence_witness :
  exists r,
    Obj_equals 1 3 (shared_tree_state MARK_SWEEP_GC)
    = Ok (r, shared_tree_state MARK_SWEEP_GC) /\
    Obj_equals 3 1 (shared_tree_state MARK_SWEEP_GC)
    = Ok (r, shared_tree_state MARK_SWEEP_GC).
Proof.
  destruct (equals_partial_equivalence (shared_tree_state MARK_SWEEP_GC) 1 3 6
              ltac:(lia) ltac:(vm_compute; reflexivity)
              ltac:(lia) ltac:(vm_compute; reflexivity)
              ltac:(lia) ltac:(vm_compute; reflexivity))
    as (r & H1 & H2 & _).
  exists r. split; [exact H1|exact H2].
Defined.

(** * The colours of a frame *)

Lemma to_UInt_to_Int x : to_UInt (to_Int x) = x mod 4294967296.
Proof.
  unfold to_UInt, to_Int. cbv zeta.
  destruct (Z.ltb_spec (x mod 4294967296) 2147483648).
  - apply Z.mod_mod. lia.
  - replace (x mod 4294967296 - 4294967296)
      with (x mod 4294967296 + (-1) * 4294967296) by ring.
    rewrite Z_mod_plus_full. apply Z.mod_mod. lia.
Qed.

Lemma to_Int_small x : 0 <= x < 2147483648 -> to_Int x = x.
Proof.
  intros H. unfold to_Int. cbv zeta. rewrite Z.mod_small by lia.
  destruct (Z.ltb_spec x 2147483648); lia.
Qed.

Lemma ramp_in_palette c :
  In c [nth 0 ramp_read 0; nth 1 ramp_read 0; nth 2 ramp_read 0; nth 3 ramp_read 0;
        nth 0 ramp_write 0; nth 1 ramp_write 0; nth 2 ramp_write 0;
        nth 3 ramp_write 0; 35; 43; 32] ->
  In c xpm_colors.
Proof. cbn. intuition. Qed.

(** [Mem::color_of_mem_loc] only ever answers one of the eleven
    characters that [Mem::snap] declares in the colour table of the
    frame.  It answers the blank exactly for a word that is not
    allocated, ['+'] exactly for an allocated word that has not been
    read or written since it was allocated, and ['#'] only for a word
    whose last write was marked as overhead. *)
Theorem color_in_palette :
  forall time info,
    0 <= time < 4294967296 ->
    0 <= last_read info <= time -> 0 <= last_write info <= time ->
    In (color_of_mem_loc time info) xpm_colors /\
    (color_of_mem_loc time info = 32 <-> is_allocated info = false) /\
    (color_of_mem_loc time info = 43 <->
     is_allocated info = true /\ last_read info = 0 /\ last_write info = 0) /\
    (color_of_mem_loc time info = 35 -> is_overhead info = true).
Proof.
  intros time [al ov lw lr] Ht Hr Hw. cbn [last_read last_write] in *.
  unfold color_of_mem_loc. cbn [is_allocated is_overhead last_read last_write].
  destruct al.
  2:{ split; [cbn; auto|]. split; [tauto|]. split; [|discriminate].
      split; [discriminate|]. intros [? _]. discriminate. }
  cbv zeta.
  assert (Hplus : forall x, 0 <= x <= time ->
            (to_UInt (to_Int (time - x)) =? time) = (x =? 0)).
  { intros x Hx. rewrite to_UInt_to_Int, Z.mod_small by lia.
    destruct (Z.eqb_spec (time - x) time); destruct (Z.eqb_spec x 0); lia. }
  destruct (Z.ltb_spec lw lr) as [Hlt|Hge].
  - rewrite Hplus by lia.
    destruct (Z.eqb_spec lr 0); [lia|].
    set (age := to_Int (time - lr)).
    destruct (age <? 5); [destruct ov|destruct (age <? 25); [|destruct (age <? 125)]];
      cbn [nth ramp_read];
      (split; [cbn; tauto|]);
      (split; [split; discriminate|]);
      (split; [split; [discriminate|intros (_ & ? & _); contradiction]|]);
      try discriminate; reflexivity.
  - rewrite Hplus by lia.
    destruct (Z.eqb_spec lw 0) as [E|E].
    + split; [cbn; tauto|]. split; [split; discriminate|].
      split; [|discriminate]. split; [intros _|reflexivity].
      repeat split; lia.
    + set (age := to_Int (time - lw)).
      destruct (age <? 5); [destruct ov|destruct (age <? 25); [|destruct (age <? 125)]];
        cbn [nth ramp_write];
        (split; [cbn; tauto|]);
        (split; [split; discriminate|]);
        (split; [split; [discriminate|intros (_ & _ & ?); contradiction]|]);
        try discriminate; reflexivity.
Qed.

Lemma color_in_palette_witness :
  In (color_of_mem_loc 9 (snd (was_written 8 (snd (was_allocated 7 MemInfo_new)))))
     xpm_colors.
Proof.
  apply (color_in_palette 9 (snd (was_written 8 (snd (was_allocated 7 MemInfo_new)))));
    vm_compute; split; first [discriminate | reflexivity].
Defined.

(** The colour of an allocated word in the frame taken right after an
    access, whatever happened to it before: ['a'] after [was_written]
    and ['#'] after [was_overhead]; after [was_read] it is ['0'], or
    still ['#'] when the last write was marked as overhead.  A word is
    blank after [was_freed] and ['+'] after [was_allocated]. *)
Theorem color_after_access :
  forall t info,
    0 <= t -> t + 1 < 4294967296 ->
    0 <= last_read info <= t -> 0 <= last_write info <= t ->
    is_allocated info = true ->
    color_of_mem_loc (fst (was_read t info)) (snd (was_read t info))
    = (if is_overhead info then 35 else 48) /\
    color_of_mem_loc (fst (was_written t info)) (snd (was_written t info)) = 97 /\
    color_of_mem_loc (fst (was_overhead t info)) (snd (was_overhead t info)) = 35 /\
    color_of_mem_loc (fst (was_freed t info)) (snd (was_freed t info)) = 32 /\
    color_of_mem_loc (fst (was_allocated t info)) (snd (was_allocated t info)) = 43.
Proof.
  intros t [al ov lw lr] Ht Hb Hr Hw Hal.
  cbn [last_read last_write is_allocated is_overhead] in *. subst al.
  assert (Hu : to_UInt (t + 1) = t + 1) by (unfold to_UInt; apply Z.mod_small; lia).
  unfold was_read, was_written, was_overhead, was_freed, was_allocated.
  cbv zeta. cbn [fst snd]. rewrite Hu. unfold color_of_mem_loc.
  cbn [is_allocated is_overhead last_read last_write]. cbv zeta.
  rewrite Z.sub_diag. change (to_Int 0) with 0.
  destruct (Z.ltb_spec lw (t + 1)); [|lia].
  destruct (Z.ltb_spec (t + 1) lr); [lia|].
  change (to_UInt 0) with 0. change (0 <? 5) with true.
  destruct (Z.eqb_spec 0 (t + 1)); [lia|].
  cbn [nth ramp_read ramp_write].
  split; [reflexivity|]. split; [reflexivity|]. split; [reflexivity|].
  split; [reflexivity|].
  change (0 <? 0) with false. cbv iota. rewrite Z.sub_0_r.
  rewrite to_UInt_to_Int, Z.mod_small, Z.eqb_refl by lia. reflexivity.
Qed.

Lemma color_after_access_witness :
  color_of_mem_loc (fst (was_read 8 (mkInfo true true 5 3)))
    (snd (was_read 8 (mkInfo true true 5 3))) = 35.
Proof.
  apply (color_after_access 8 (mkInfo true true 5 3));
    vm_compute; try reflexivity; try discriminate;
    split; first [discriminate | reflexivity].
Defined.

(** * Slots and handles *)

(** One more reference, in any mode. *)
Lemma inc_ref_count_spec m x s :
  0 <= x < HeapSize ->
  exists s',
    inc_ref_count m x s = Ok (tt, s') /\
    heap s' = poke (heap s) x
                (set_ref_count (peek (heap s) x)
                   (hdr_ref_count (peek (heap s) x)
                    + (if is_ref_count m then 1 else 0))) /\
    top s' = top s /\ root s' = root s /\ live s' = live s /\
    forwarding s' = forwarding s /\ log_ready s' = log_ready s /\
    frees (out s') = frees (out s).
Proof.
  intros Hx. destruct (is_ref_count m) eqn:Em.
  - destruct m; try discriminate. rewrite inc_ref_count_eq by lia.
    eexists. split; [reflexivity|].
    rewrite heap_emit_st, top_emit_st, root_emit_st, live_emit_st,
      forwarding_emit_st, log_ready_emit_st, frees_emit_st by reflexivity.
    norm. tauto.
  - rewrite inc_ref_count_other by exact Em. exists s.
    split; [reflexivity|]. rewrite Z.add_0_r, set_ref_count_same, poke_same.
    tauto.
Qed.

(** One reference less, when the count stays above zero. *)
Lemma dec_ref_count_spec m n x s :
  0 <= x < HeapSize ->
  (is_ref_count m = true -> (hdr_ref_count (peek (heap s) x) - 1) mod 256 <> 0) ->
  exists s',
    dec_ref_count m (S n) x s = Ok (false, s') /\
    heap s' = poke (heap s) x
                (set_ref_count (peek (heap s) x)
                   (hdr_ref_count (peek (heap s) x)
                    - (if is_ref_count m then 1 else 0))) /\
    top s' = top s /\ root s' = root s /\ live s' = live s /\
    forwarding s' = forwarding s /\ log_ready s' = log_ready s /\
    frees (out s') = frees (out s).
Proof.
  intros Hx Hnz. destruct (is_ref_count m) eqn:Em.
  - destruct m; try discriminate. rewrite dec_ref_count_eq by auto.
    eexists. split; [reflexivity|].
    rewrite heap_emit_st, top_emit_st, root_emit_st, live_emit_st,
      forwarding_emit_st, log_ready_emit_st, frees_emit_st by reflexivity.
    norm. tauto.
  - rewrite dec_ref_count_other by exact Em. exists s.
    split; [reflexivity|]. rewrite Z.sub_0_r, set_ref_count_same, poke_same.
    tauto.
Qed.

Lemma ObjRef_share_spec m x s :
  0 <= x < HeapSize ->
  exists s',
    ObjRef_share m x s = Ok (x, s') /\
    heap s' = poke (heap s) x
                (set_ref_count (peek (heap s) x)
                   (hdr_ref_count (peek (heap s) x)
                    + (if is_ref_count m then 1 else 0))) /\
    top s' = top s /\ root s' = x :: root s /\ live s' = live s /\
    forwarding s' = forwarding s /\ log_ready s' = log_ready s /\
    frees (out s') = frees (out s).
Proof.
  intros Hx.
  destruct (inc_ref_count_spec m x s Hx) as (s1 & E & H & T & R & L & F & G & O).
  exists (with_root s1 (x :: root s1)). split.
  { unfold ObjRef_share, read_barrier. rewrite bind_ret.
    rewrite (bind_eq _ _ _ _ _ E). reflexivity. }
  norm. rewrite R. tauto.
Qed.

(** [~ObjRef] of the newest handle when its object keeps a reference. *)
Lemma ObjRef_destroy_spec m n x rest s :
  root s = x :: rest -> 0 <= x < HeapSize ->
  (is_ref_count m = true -> (hdr_ref_count (peek (heap s) x) - 1) mod 256 <> 0) ->
  exists s',
    ObjRef_destroy m (S n) 0 s = Ok (tt, s') /\
    heap s' = poke (heap s) x
                (set_ref_count (peek (heap s) x)
                   (hdr_ref_count (peek (heap s) x)
                    - (if is_ref_count m then 1 else 0))) /\
    top s' = top s /\ root s' = rest /\ live s' = live s /\
    forwarding s' = forwarding s /\ log_ready s' = log_ready s /\
    frees (out s') = frees (out s).
Proof.
  intros Hr Hx Hnz.
  destruct (dec_ref_count_spec m n x (with_root s rest) Hx Hnz)
    as (s1 & E & H & T & R & L & F & G & O).
  exists s1. split.
  { unfold ObjRef_destroy. rewrite bind_gets, Hr. cbn [nth_error].
    rewrite bind_modify, Hr. cbn [remove_nth].
    rewrite (bind_eq _ _ _ _ _ E). reflexivity. }
  norm. tauto.
Qed.

Lemma set_ref_count_peek h x r j :
  0 <= j -> 0 <= x -> j <> x ->
  peek (poke h x r) j = peek h j.
Proof. intros. apply peek_poke_neq; auto. Qed.

(** The call [t.set(i, obj)] on an empty slot. *)
Lemma call_Tup_set_spec m n loc i x s :
  0 <= loc -> loc + 2 + peek (heap s) (loc + 1) <= HeapSize ->
  0 <= i < peek (heap s) (loc + 1) ->
  Z.of_nat (length (heap s)) = HeapSize ->
  0 <= x < HeapSize -> x <> loc + 1 -> x <> loc + 2 + i ->
  peek (heap s) (loc + 2 + i) = 0 ->
  hdr_ref_count (peek (heap s) x) <= 253 ->
  exists s1,
    call_Tup_set m (S (S n)) loc i x s = Ok (tt, s1) /\
    peek (heap s1) (loc + 2 + i) = x /\
    peek (heap s1) x
    = set_ref_count (peek (heap s) x)
        (hdr_ref_count (peek (heap s) x) + (if is_ref_count m then 1 else 0)) /\
    (forall j, 0 <= j -> j <> x -> j <> loc + 2 + i ->
               peek (heap s1) j = peek (heap s) j) /\
    length (heap s1) = length (heap s) /\
    top s1 = top s /\ root s1 = root s /\ live s1 = live s /\
    forwarding s1 = forwarding s /\ log_ready s1 = log_ready s /\
    frees (out s1) = frees (out s).
Proof.
  intros Hloc Hfit Hi Hlen Hx Hx1 Hx2 Hslot Hc.
  pose proof (hdr_ref_count_range (peek (heap s) x)) as Hc0.
  set (w := peek (heap s) x) in *. set (c := hdr_ref_count w) in *.
  set (k := if is_ref_count m then 1 else 0).
  assert (Hk : 0 <= k <= 1) by (unfold k; destruct (is_ref_count m); lia).
  set (slot := loc + 2 + i) in *.
  assert (Hcnt : forall r, 0 <= r < 256 -> hdr_ref_count (set_ref_count w r) = r).
  { intros r Hr. rewrite hdr_ref_count_set. apply Z.mod_small. lia. }
  (* the by-value copy of the argument *)
  destruct (ObjRef_share_spec m x s Hx) as (a & Ea & Ha & Ta & Ra & La & Fa & Ga & Oa).
  fold w c k in Ha.
  assert (Pa : peek (heap a) x = set_ref_count w (c + k)).
  { rewrite Ha. apply peek_poke_eq. lia. }
  assert (Qa : forall j, 0 <= j -> j <> x -> peek (heap a) j = peek (heap s) j).
  { intros j Hj Hne. rewrite Ha. apply peek_poke_neq; lia. }
  assert (Lena : length (heap a) = length (heap s)).
  { rewrite Ha. apply length_poke. }
  (* [obj.share()] in the body *)
  destruct (inc_ref_count_spec m x a Hx) as (b & Eb & Hb & Tb & Rb & Lb & Fb & Gb & Ob).
  rewrite Pa, Hcnt, set_ref_count_set in Hb by lia. fold k in Hb.
  assert (Pb : peek (heap b) x = set_ref_count w (c + k + k)).
  { rewrite Hb. apply peek_poke_eq. lia. }
  assert (Qb : forall j, 0 <= j -> j <> x -> peek (heap b) j = peek (heap s) j).
  { intros j Hj Hne. rewrite Hb, peek_poke_neq by lia. apply Qa; lia. }
  assert (Lenb : length (heap b) = length (heap s)).
  { rewrite Hb, length_poke. exact Lena. }
  (* the store *)
  set (d := emit_st (ESetRef slot x) (with_heap b (poke (heap b) slot x))).
  assert (Hd : heap d = poke (heap b) slot x) by (unfold d; now rewrite heap_emit_st).
  assert (Pd : peek (heap d) x = set_ref_count w (c + k + k)).
  { rewrite Hd, peek_poke_neq by (unfold slot in *; lia). exact Pb. }
  assert (Sd : peek (heap d) slot = x).
  { rewrite Hd. apply peek_poke_eq. unfold slot. lia. }
  assert (Et : Tup_set m (S (S n)) loc i x a = Ok (tt, d)).
  { unfold Tup_set. rewrite bind_load by lia.
    rewrite Qa by lia.
    destruct (Z.ltb_spec i (peek (heap s) (loc + 1))); [|lia].
    rewrite bind_assert_true by reflexivity.
    unfold share, read_barrier. rewrite !bind_assoc, bind_ret, bind_assoc.
    rewrite (bind_eq _ _ _ _ _ Eb), bind_ret.
    fold slot. rewrite bind_load by (unfold slot; lia).
    rewrite Qb by (unfold slot in *; lia). rewrite Hslot.
    cbn [unshare]. change (0 =? 0) with true. cbv iota. rewrite bind_ret.
    rewrite bind_store by (unfold slot; lia).
    rewrite bind_load by (unfold slot; lia). norm.
    rewrite peek_poke_eq by (unfold slot; lia).
    unfold log_set_ref. apply emit_ok. }
  (* the copy of the argument goes away *)
  destruct (ObjRef_destroy_spec m (S n) x (root s) d) as (e & Ee & He & Te & Re & Le & Fe & Ge & Oe).
  { unfold d. rewrite root_emit_st. norm. congruence. }
  { exact Hx. }
  { intros Em. rewrite Pd, Hcnt by lia. unfold k. rewrite Em.
    rewrite Z.mod_small by lia. lia. }
  rewrite Pd, Hcnt, set_ref_count_set in He by lia. fold k in He.
  replace (c + k + k - k) with (c + k) in He by lia.
  exists e. split.
  { unfold call_Tup_set. rewrite (bind_eq _ _ _ _ _ Ea).
    rewrite (bind_eq _ _ _ _ _ Et). exact Ee. }
  split.
  { rewrite He, peek_poke_neq by (unfold slot in *; lia). exact Sd. }
  split.
  { rewrite He. apply peek_poke_eq. rewrite Hd, length_poke. lia. }
  split.
  { intros j Hj H1 H2. rewrite He, peek_poke_neq by lia.
    rewrite Hd, peek_poke_neq by (unfold slot in *; lia). apply Qb; lia. }
  split; [rewrite He, length_poke, Hd, length_poke; exact Lenb|].
  unfold d in *.
  rewrite top_emit_st, live_emit_st, forwarding_emit_st, log_ready_emit_st,
    frees_emit_st in * by reflexivity.
  norm. repeat split; congruence.
Qed.

(** [Tup::get] on a slot in range. *)
Lemma Tup_get_spec m loc i s :
  0 <= loc -> loc + 2 + peek (heap s) (loc + 1) <= HeapSize ->
  0 <= i < peek (heap s) (loc + 1) ->
  0 <= peek (heap s) (loc + 2 + i) < HeapSize ->
  exists s',
    Tup_get m loc i s = Ok (peek (heap s) (loc + 2 + i), s') /\
    heap s' = poke (heap s) (peek (heap s) (loc + 2 + i))
                (set_ref_count (peek (heap s) (peek (heap s) (loc + 2 + i)))
                   (hdr_ref_count (peek (heap s) (peek (heap s) (loc + 2 + i)))
                    + (if is_ref_count m then 1 else 0))) /\
    top s' = top s /\ root s' = peek (heap s) (loc + 2 + i) :: root s /\
    live s' = live s /\ forwarding s' = forwarding s /\
    log_ready s' = log_ready s /\ frees (out s') = frees (out s).
Proof.
  intros Hloc Hfit Hi Hv.
  destruct (ObjRef_share_spec m _ s Hv) as (g & Eg & Hg).
  exists g. split; [|exact Hg].
  unfold Tup_get. rewrite bind_load by lia.
  destruct (Z.ltb_spec i (peek (heap s) (loc + 1))); [|lia].
  rewrite bind_assert_true by reflexivity.
  rewrite bind_load by lia. exact Eg.
Qed.

(** Storing a reference in an empty slot of a Tup, through the call
    [t.set(i, obj)], and fetching it back with [get(i)]: the slot
    holds the location, the handle that [get] returns holds it too and
    is the newest of the root list.  Under reference counting the
    object has one reference more once it is stored and another one
    for the handle that [get] made; in the other modes its header is
    not touched.  No other heap word changes and nothing is freed. *)
Theorem tup_set_then_get :
  forall m n loc i x s,
    0 <= loc -> loc + 2 + peek (heap s) (loc + 1) <= HeapSize ->
    0 <= i < peek (heap s) (loc + 1) ->
    Z.of_nat (length (heap s)) = HeapSize ->
    0 <= x < HeapSize -> x <> loc + 1 -> x <> loc + 2 + i ->
    peek (heap s) (loc + 2 + i) = 0 ->
    hdr_ref_count (peek (heap s) x) <= 253 ->
    exists s1 s2,
      call_Tup_set m (S (S n)) loc i x s = Ok (tt, s1) /\
      Tup_get m loc i s1 = Ok (x, s2) /\
      root s1 = root s /\ root s2 = x :: root s /\
      top s1 = top s /\ top s2 = top s /\
      peek (heap s1) (loc + 2 + i) = x /\
      peek (heap s1) x
      = set_ref_count (peek (heap s) x)
          (hdr_ref_count (peek (heap s) x) + (if is_ref_count m then 1 else 0)) /\
      peek (heap s2) x
      = set_ref_count (peek (heap s) x)
          (hdr_ref_count (peek (heap s) x) + (if is_ref_count m then 2 else 0)) /\
      (forall j, 0 <= j -> j <> x -> j <> loc + 2 + i ->
                 peek (heap s1) j = peek (heap s) j) /\
      (forall j, 0 <= j -> j <> x -> peek (heap s2) j = peek (heap s1) j) /\
      frees (out s2) = frees (out s).
Proof.
  intros m n loc i x s Hloc Hfit Hi Hlen Hx Hx1 Hx2 Hslot Hc.
  pose proof (hdr_ref_count_range (peek (heap s) x)) as Hc0.
  destruct (call_Tup_set_spec m n loc i x s Hloc Hfit Hi Hlen Hx Hx1 Hx2 Hslot Hc)
    as (s1 & E1 & S1 & P1 & Q1 & Len1 & T1 & R1 & L1 & F1 & G1 & O1).
  assert (Hl1 : peek (heap s1) (loc + 1) = peek (heap s) (loc + 1)).
  { apply Q1; lia. }
  destruct (Tup_get_spec m loc i s1 Hloc ltac:(lia) ltac:(lia) ltac:(rewrite S1; lia))
    as (s2 & E2 & H2 & T2 & R2 & L2 & F2 & G2 & O2).
  rewrite S1 in E2, H2, R2.
  exists s1, s2. split; [exact E1|]. split; [exact E2|].
  split; [exact R1|]. split; [congruence|]. split; [exact T1|].
  split; [congruence|]. split; [exact S1|]. split; [exact P1|].
  split.
  { rewrite H2, peek_poke_eq by lia. rewrite P1, hdr_ref_count_set, set_ref_count_set.
    f_equal. rewrite Z.mod_small by (destruct (is_ref_count m); lia).
    destruct (is_ref_count m); lia. }
  split; [exact Q1|]. split.
  { intros j Hj Hne. rewrite H2. apply peek_poke_neq; lia. }
  congruence.
Qed.

Lemma tup_set_then_get_witness :
  exists s1 s2,
    call_Tup_set REF_COUNT_GC 2 6 2 1 (shared_tree_state REF_COUNT_GC) = Ok (tt, s1) /\
    Tup_get REF_COUNT_GC 6 2 s1 = Ok (1, s2).
Proof.
  destruct (tup_set_then_get REF_COUNT_GC 0 6 2 1 (shared_tree_state REF_COUNT_GC)
              ltac:(lia) ltac:(vm_compute; discriminate)
              ltac:(vm_compute; split; [discriminate|reflexivity])
              ltac:(vm_compute; reflexivity)
              ltac:(vm_compute; split; [discriminate|reflexivity])
              ltac:(lia) ltac:(lia) ltac:(vm_compute; reflexivity)
              ltac:(vm_compute; discriminate))
    as (s1 & s2 & H1 & H2 & _).
  exists s1, s2. split; [exact H1|exact H2].
Defined.

(** * Vectors *)

(** [VecRef::push] when the backing Tup has room. *)
Lemma VecRef_push_spec m n v t cap len x s :
  0 <= v -> v + 2 < HeapSize -> 0 <= t -> t + 2 + cap <= HeapSize ->
  v + 2 < t \/ t + 2 + cap <= v ->
  Z.of_nat (length (heap s)) = HeapSize ->
  peek (heap s) (v + 1) = len -> peek (heap s) (v + 2) = t ->
  peek (heap s) (t + 1) = cap -> 0 <= len < cap ->
  peek (heap s) (t + 2 + len) = 0 ->
  0 <= x < HeapSize -> x <> v + 1 -> x <> v + 2 ->
  x <= t \/ t + 2 + cap <= x ->
  hdr_ref_count (peek (heap s) x) <= 253 ->
  exists s1,
    VecRef_push m (S (S n)) v x s = Ok (tt, s1) /\
    peek (heap s1) (v + 1) = len + 1 /\
    peek (heap s1) (t + 2 + len) = x /\
    peek (heap s1) x
    = set_ref_count (peek (heap s) x)
        (hdr_ref_count (peek (heap s) x) + (if is_ref_count m then 1 else 0)) /\
    (forall j, 0 <= j -> j <> x -> j <> t + 2 + len -> j <> v + 1 ->
               peek (heap s1) j = peek (heap s) j) /\
    length (heap s1) = length (heap s) /\
    top s1 = top s /\ root s1 = root s /\ live s1 = live s /\
    forwarding s1 = forwarding s /\ log_ready s1 = log_ready s /\
    frees (out s1) = frees (out s).
Proof.
  intros Hv Hv2 Ht Ht2 Hdis Hlen Pl Pt Pc Hl Hslot Hx Hx1 Hx2 Hxt Hc.
  assert (Hne : x <> t + 2 + len) by lia.
  destruct (call_Tup_set_spec m n t len x s Ht ltac:(lia) ltac:(lia) Hlen Hx
              ltac:(lia) Hne Hslot Hc)
    as (a & Ea & Sa & Pa & Qa & Lena & Ta & Ra & La & Fa & Ga & Oa).
  set (h1 := poke (heap a) (v + 1) (to_UWd (len + 1))).
  set (s1 := emit_st (ESetInt (v + 1) (to_UWd (len + 1))) (with_heap a h1)).
  assert (Hu : to_UWd (len + 1) = len + 1).
  { apply to_UWd_small. unfold HeapSize in *. lia. }
  assert (Hh1 : heap s1 = h1) by (unfold s1; now rewrite heap_emit_st).
  exists s1. split.
  { unfold VecRef_push. rewrite bind_load by lia. rewrite Pt.
    rewrite bind_load by lia. rewrite Pc.
    rewrite bind_load by lia. rewrite Pl.
    destruct (Z.eqb_spec cap len); [lia|]. rewrite bind_ret.
    rewrite bind_load by lia. rewrite Pl.
    rewrite (bind_eq _ _ _ _ _ Ea).
    rewrite bind_load by lia. rewrite Qa by lia. rewrite Pl.
    rewrite bind_store by lia. fold h1. rewrite bind_load by lia. norm.
    unfold h1 at 1. rewrite peek_poke_eq by lia.
    unfold log_set_val. apply emit_ok. }
  rewrite Hh1. unfold h1.
  split; [rewrite peek_poke_eq by lia; exact Hu|].
  split; [rewrite peek_poke_neq by lia; exact Sa|].
  split.
  { rewrite peek_poke_neq by lia. exact Pa. }
  split.
  { intros j Hj J1 J2 J3. rewrite peek_poke_neq by lia. apply Qa; lia. }
  split; [rewrite length_poke; exact Lena|].
  unfold s1.
  rewrite top_emit_st, root_emit_st, live_emit_st, forwarding_emit_st,
    log_ready_emit_st, frees_emit_st by reflexivity.
  norm. tauto.
Qed.


Lemma occurrences_cons x y xs :
  occurrences x (y :: xs) = (if x =? y then 1 else 0) + occurrences x xs.
Proof.
  unfold occurrences. cbn [filter]. destruct (x =? y); cbn [length]; lia.
Qed.

Lemma occurrences_le x xs : 0 <= occurrences x xs <= Z.of_nat (length xs).
Proof.
  unfold occurrences. pose proof (filter_length_le (Z.eqb x) xs). lia.
Qed.

Lemma occurrences_notin x xs : ~ In x xs -> occurrences x xs = 0.
Proof.
  intros H. unfold occurrences. induction xs as [|y r IH]; [reflexivity|].
  cbn [filter]. destruct (Z.eqb_spec x y) as [->|Hne].
  - exfalso. apply H. now left.
  - apply IH. intros Hin. apply H. now right.
Qed.


(** The loop of [Tup::init] over slots that are all nil. *)
Lemma Tup_init_loop m loc len : forall k n i s,
  0 <= loc -> loc + 2 + len <= HeapSize ->
  peek (heap s) (loc + 1) = len ->
  (forall j, i <= j < len -> peek (heap s) (loc + 2 + j) = 0) ->
  0 <= i -> i + Z.of_nat k = len -> (k < n)%nat ->
  for_field n (load (loc + 1))
    (fun i _ =>
       v <- load (loc + 2 + i) ;;
       if v =? 0 then ret tt else inc_ref_count m v) i tt s = Ok (tt, s).
Proof.
  induction k as [|k IH]; intros n i s Hloc Hfit Hl Hz Hi Hk Hn;
    (destruct n as [|n]; [lia|]); cbn [for_field]; rewrite bind_load by lia;
    rewrite Hl.
  - destruct (Z.ltb_spec i len); [lia|]. reflexivity.
  - destruct (Z.ltb_spec i len); [|lia].
    rewrite bind_assoc, bind_load by lia. rewrite Hz by lia.
    change (0 =? 0) with true. cbv iota. rewrite bind_ret.
    apply IH; auto; try lia. intros j Hj. apply Hz. lia.
Qed.

(** [TupRef(len)]. *)
Lemma TupRef_new_spec m n len s :
  0 <= top s -> 0 <= len -> top s + 2 + len < HeapSize ->
  Z.of_nat (length (heap s)) = HeapSize -> (Z.to_nat len < n)%nat ->
  exists s',
    TupRef_new m n len s = Ok (top s, s') /\
    top s' = top s + 2 + len /\ root s' = top s :: root s /\
    ty (heap s') (top s) = TTup /\
    hdr_ref_count (peek (heap s') (top s)) = (if is_ref_count m then 1 else 0) /\
    peek (heap s') (top s + 1) = len /\
    (forall j, 0 <= j < len -> peek (heap s') (top s + 2 + j) = 0) /\
    (forall j, 0 <= j -> j < top s \/ top s + 2 + len <= j ->
               peek (heap s') j = peek (heap s) j) /\
    length (heap s') = length (heap s) /\
    live s' = live s /\ forwarding s' = forwarding s /\
    log_ready s' = log_ready s /\ frees (out s') = frees (out s).
Proof.
  intros Ht Hl Hb Hlen Hn.
  assert (Hsz : Tup_size_needed len = 2 + len).
  { unfold Tup_size_needed. apply to_UWd_small. unfold HeapSize in *. lia. }
  assert (Hul : to_UWd len = len) by (apply to_UWd_small; unfold HeapSize in *; lia).
  destruct (ObjRef_alloc_spec m (2 + len) s Ht ltac:(lia) ltac:(lia) Hlen)
    as (s1 & E1 & T1 & R1 & L1 & F1 & G1 & Len1 & P1 & Z1 & O1 & Out1).
  set (t := top s) in *.
  destruct (init_st_frame m t TTup s1) as (Ih & It & Ir & Il & If & Ig).
  pose proof (init_st_frees m t TTup s1) as Io.
  set (s2 := init_st m t TTup s1) in *.
  set (h3 := poke (heap s2) (t + 1) (to_UWd len)).
  set (s3 := emit_st (ESetInt (t + 1) (to_UWd len)) (with_heap s2 h3)).
  assert (Len2 : length (heap s2) = length (heap s)).
  { rewrite Ih, length_poke. exact Len1. }
  assert (Hh3 : heap s3 = h3) by (unfold s3; now rewrite heap_emit_st).
  assert (Pl : peek (heap s3) (t + 1) = len).
  { rewrite Hh3. unfold h3. rewrite peek_poke_eq by lia. exact Hul. }
  assert (Pz : forall j, 0 <= j < len -> peek (heap s3) (t + 2 + j) = 0).
  { intros j Hj. rewrite Hh3. unfold h3. rewrite peek_poke_neq by lia.
    rewrite Ih, peek_poke_neq by lia. apply Z1. lia. }
  exists s3. split.
  { unfold TupRef_new. rewrite Hsz. rewrite (bind_eq _ _ _ _ _ E1).
    unfold Tup_init. rewrite bind_assoc.
    rewrite (bind_eq _ _ _ _ _ (Obj_init_eq m t TTup s1 ltac:(lia) ltac:(lia))).
    fold s2. rewrite !bind_assoc, bind_store by lia.
    rewrite !bind_assoc, bind_load by lia. norm. fold h3.
    replace (peek h3 (t + 1)) with (to_UWd len)
      by (unfold h3; rewrite peek_poke_eq by lia; reflexivity).
    unfold log_set_val. rewrite !bind_assoc, bind_emit. fold s3.
    rewrite (bind_eq _ _ _ _ _
               (Tup_init_loop m t len (Z.to_nat len) n 0 s3 ltac:(lia) ltac:(lia)
                  Pl Pz ltac:(lia) ltac:(lia) Hn)).
    reflexivity. }
  assert (Pt : peek (heap s3) t = init_hdr m (peek (heap s1) t) TTup).
  { rewrite Hh3. unfold h3. rewrite peek_poke_neq by lia.
    rewrite Ih. apply peek_poke_eq. lia. }
  assert (T3 : top s3 = t + (2 + len))
    by (unfold s3; rewrite top_emit_st; norm; congruence).
  assert (R3 : root s3 = t :: root s)
    by (unfold s3; rewrite root_emit_st; norm; congruence).
  assert (L3 : live s3 = live s)
    by (unfold s3; rewrite live_emit_st; norm; congruence).
  assert (F3 : forwarding s3 = forwarding s)
    by (unfold s3; rewrite forwarding_emit_st; norm; congruence).
  assert (G3 : log_ready s3 = log_ready s)
    by (unfold s3; rewrite log_ready_emit_st; norm; congruence).
  assert (O3 : frees (out s3) = frees (out s))
    by (unfold s3; rewrite frees_emit_st by reflexivity; norm; congruence).
  split; [lia|]. split; [exact R3|].
  split; [unfold ty; rewrite Pt; apply hdr_type_init_hdr; unfold TTup; lia|].
  split; [rewrite Pt; apply hdr_ref_count_init_hdr|].
  split; [exact Pl|]. split; [exact Pz|]. split.
  { intros j Hj Ho. rewrite Hh3. unfold h3. rewrite peek_poke_neq by lia.
    rewrite Ih, peek_poke_neq by lia. apply O1; lia. }
  split; [rewrite Hh3; unfold h3; rewrite length_poke; exact Len2|].
  tauto.
Qed.

(** [VecRef(cap)]. *)
Lemma VecRef_new_spec :
  forall m n cap s,
    0 <= top s -> 0 <= cap -> top s + 5 + cap < HeapSize ->
    Z.of_nat (length (heap s)) = HeapSize -> (Z.to_nat cap <= n)%nat ->
    exists s',
      VecRef_new m (S n) cap s = Ok (top s, s') /\
      top s' = top s + 5 + cap /\ root s' = top s :: root s /\
      ty (heap s') (top s) = TVec /\
      peek (heap s') (top s + 1) = 0 /\
      peek (heap s') (top s + 2) = top s + 3 /\
      ty (heap s') (top s + 3) = TTup /\
      peek (heap s') (top s + 4) = cap /\
      (forall j, 0 <= j < cap -> peek (heap s') (top s + 5 + j) = 0) /\
      hdr_ref_count (peek (heap s') (top s)) = (if is_ref_count m then 1 else 0) /\
      hdr_ref_count (peek (heap s') (top s + 3)) = (if is_ref_count m then 1 else 0) /\
      (forall j, 0 <= j < top s -> peek (heap s') j = peek (heap s) j) /\
      frees (out s') = frees (out s) /\
      length (heap s') = length (heap s).
Proof.
  intros m n cap s Ht Hcap Hb Hlen Hn.
  destruct (ObjRef_alloc_spec m (Vec_size_needed cap) s Ht
              ltac:(unfold Vec_size_needed; lia)
              ltac:(unfold Vec_size_needed; lia) Hlen)
    as (s1 & E1 & T1 & R1 & L1 & F1 & G1 & Len1 & P1 & Z1 & O1 & Out1).
  unfold Vec_size_needed in *.
  set (v := top s) in *.
  destruct (TupRef_new_spec m (S n) cap s1 ltac:(lia) Hcap ltac:(lia)
              ltac:(lia) ltac:(lia))
    as (s2 & E2 & T2 & R2 & Ty2 & C2 & Pl2 & Pz2 & O2 & Len2 & L2 & F2 & G2 & Out2).
  rewrite T1 in *. set (t := v + 3) in *.
  destruct (inc_ref_count_spec m t s2 ltac:(lia))
    as (s3 & E3 & H3 & T3 & R3 & L3 & F3 & G3 & Out3).
  set (k := if is_ref_count m then 1 else 0) in *.
  assert (Hk : 0 <= k <= 1) by (unfold k; destruct (is_ref_count m); lia).
  rewrite C2 in H3.
  assert (P3 : peek (heap s3) t = set_ref_count (peek (heap s2) t) (k + k)).
  { rewrite H3. apply peek_poke_eq. lia. }
  destruct (ObjRef_destroy_spec m n t (v :: root s) s3)
    as (s4 & E4 & H4 & T4 & R4 & L4 & F4 & G4 & Out4).
  { congruence. }
  { lia. }
  { intros Em. rewrite P3, hdr_ref_count_set. unfold k. rewrite Em. discriminate. }
  rewrite P3, hdr_ref_count_set, set_ref_count_set in H4.
  rewrite (Z.mod_small (k + k)) in H4 by lia.
  replace (k + k - (if is_ref_count m then 1 else 0)) with k in H4 by (unfold k; lia).
  assert (P4t : peek (heap s4) t = peek (heap s2) t).
  { rewrite H4, peek_poke_eq by (rewrite H3, length_poke; lia).
    rewrite <- C2. apply set_ref_count_same. }
  assert (Q4 : forall j, 0 <= j -> j <> t -> peek (heap s4) j = peek (heap s2) j).
  { intros j Hj Hne. rewrite H4, peek_poke_neq by lia.
    rewrite H3. apply peek_poke_neq; lia. }
  assert (Len4 : length (heap s4) = length (heap s)).
  { rewrite H4, length_poke, H3, length_poke. congruence. }
  (* [Vec::init] *)
  destruct (init_st_frame m v TVec s4) as (Ih & It & Ir & Il & If & Ig).
  pose proof (init_st_frees m v TVec s4) as Io.
  set (s5 := init_st m v TVec s4) in *.
  set (h6 := poke (poke (heap s5) (v + 1) 0) (v + 2) t).
  set (s6 := emit_st (ESetRef (v + 2) t)
               (emit_st (ESetInt (v + 1) 0) (with_heap s5 h6))).
  assert (Hh6 : heap s6 = h6) by (unfold s6; now rewrite !heap_emit_st).
  assert (Len5 : length (heap s5) = length (heap s)).
  { rewrite Ih, length_poke. exact Len4. }
  assert (E : VecRef_new m (S n) cap s = Ok (v, s6)).
  { unfold VecRef_new, Vec_size_needed. rewrite (bind_eq _ _ _ _ _ E1).
    rewrite (bind_eq _ _ _ _ _ E2). unfold share, read_barrier.
    rewrite !bind_assoc, bind_ret, bind_assoc. fold t.
    rewrite (bind_eq _ _ _ _ _ E3), bind_ret.
    rewrite (bind_eq _ _ _ _ _ E4).
    unfold Vec_init. rewrite !bind_assoc.
    rewrite (bind_eq _ _ _ _ _ (Obj_init_eq m v TVec s4 ltac:(lia) ltac:(lia))).
    fold s5. rewrite !bind_assoc, bind_store by lia.
    rewrite !bind_assoc, bind_store by lia. norm.
    unfold log_set_val, log_set_ref. rewrite !bind_assoc, bind_emit, bind_emit.
    reflexivity. }
  assert (Q6 : forall j, 0 <= j -> j <> v -> j <> v + 1 -> j <> v + 2 ->
               peek (heap s6) j = peek (heap s4) j).
  { intros j Hj J0 J1 J2. rewrite Hh6. unfold h6.
    rewrite !peek_poke_neq by lia. rewrite Ih. apply peek_poke_neq; lia. }
  assert (Pv : peek (heap s6) v = init_hdr m (peek (heap s4) v) TVec).
  { rewrite Hh6. unfold h6. rewrite !peek_poke_neq by lia.
    rewrite Ih. apply peek_poke_eq. lia. }
  assert (Pl6 : peek (heap s6) (v + 1) = 0).
  { rewrite Hh6. unfold h6. rewrite peek_poke_neq by lia.
    apply peek_poke_eq. lia. }
  assert (Pt6 : peek (heap s6) (v + 2) = t).
  { rewrite Hh6. unfold h6. apply peek_poke_eq. rewrite length_poke. lia. }
  exists s6. split; [exact E|].
  split.
  { unfold s6. rewrite !top_emit_st. norm. rewrite It, T4, T3, T2. unfold t. lia. }
  split.
  { unfold s6. rewrite !root_emit_st. norm. congruence. }
  split; [unfold ty; rewrite Pv; apply hdr_type_init_hdr; unfold TVec; lia|].
  split; [exact Pl6|]. split; [exact Pt6|].
  split.
  { unfold ty. rewrite Q6, P4t by (unfold t; lia). exact Ty2. }
  split.
  { replace (v + 4) with (t + 1) by (unfold t; lia).
    rewrite Q6, Q4 by (unfold t; lia). exact Pl2. }
  split.
  { intros j Hj. replace (v + 5 + j) with (t + 2 + j) by (unfold t; lia).
    rewrite Q6, Q4 by (unfold t; lia). apply Pz2. lia. }
  split; [rewrite Pv; apply hdr_ref_count_init_hdr|].
  split.
  { rewrite Q6, P4t by (unfold t; lia). exact C2. }
  split.
  { intros j Hj. rewrite Q6, Q4 by (unfold t; lia).
    rewrite O2 by lia. apply O1; lia. }
  split.
  { unfold s6. rewrite !frees_emit_st by reflexivity. norm. congruence. }
  rewrite Hh6. unfold h6. rewrite !length_poke. exact Len5.
Qed.


(** [VecRef(cap)] builds, at the old [top], an empty Vec and behind it
    its backing Tup of [cap] slots, all nil; the handle of the Vec is
    the newest of the root list and the temporary handle of the Tup is
    gone.  Under reference counting both objects are left with a count
    of one, and of zero otherwise.  Nothing below the old [top] changes,
    nothing is freed, and [get] on the new vector fails for every
    index. *)
Theorem vec_new_is_empty :
  forall m n cap s,
    0 <= top s -> 0 <= cap -> top s + 5 + cap < HeapSize ->
    Z.of_nat (length (heap s)) = HeapSize -> (Z.to_nat cap <= n)%nat ->
    exists s',
      VecRef_new m (S n) cap s = Ok (top s, s') /\
      top s' = top s + 5 + cap /\ root s' = top s :: root s /\
      ty (heap s') (top s) = TVec /\
      peek (heap s') (top s + 1) = 0 /\
      peek (heap s') (top s + 2) = top s + 3 /\
      ty (heap s') (top s + 3) = TTup /\
      peek (heap s') (top s + 4) = cap /\
      (forall j, 0 <= j < cap -> peek (heap s') (top s + 5 + j) = 0) /\
      hdr_ref_count (peek (heap s') (top s)) = (if is_ref_count m then 1 else 0) /\
      hdr_ref_count (peek (heap s') (top s + 3)) = (if is_ref_count m then 1 else 0) /\
      (forall j, 0 <= j < top s -> peek (heap s') j = peek (heap s) j) /\
      frees (out s') = frees (out s) /\
      (forall i, 0 <= i -> Vec_get m (top s) i s' = Abort).
Proof.
  intros m n cap s Ht Hcap Hb Hlen Hn.
  destruct (VecRef_new_spec m n cap s Ht Hcap Hb Hlen Hn)
    as (s' & E & T & R & Tv & Pl & Pt & Tt & Pc & Pz & Cv & Ct & O & F & Len).
  exists s'. split; [exact E|]. split; [exact T|]. split; [exact R|].
  split; [exact Tv|]. split; [exact Pl|]. split; [exact Pt|].
  split; [exact Tt|]. split; [exact Pc|]. split; [exact Pz|].
  split; [exact Cv|]. split; [exact Ct|]. split; [exact O|].
  split; [exact F|].
  intros i Hi. unfold Vec_get. rewrite bind_load by lia. rewrite Pl.
  destruct (Z.ltb_spec i 0); [lia|]. reflexivity.
Qed.

Lemma vec_new_is_empty_witness :
  exists s',
    VecRef_new MARK_COMPACT_GC 5 4 (boot MARK_COMPACT_GC) = Ok (1, s') /\
    top s' = 10 /\ Vec_get MARK_COMPACT_GC 1 0 s' = Abort.
Proof.
  destruct (vec_new_is_empty MARK_COMPACT_GC 4 4 (boot MARK_COMPACT_GC)
              ltac:(vm_compute; discriminate) ltac:(lia)
              ltac:(vm_compute; reflexivity) ltac:(vm_compute; reflexivity)
              ltac:(cbn; lia))
    as (s' & H1 & H2 & H3).
  exists s'. split; [exact H1|]. split; [exact H2|].
  apply H3. lia.
Defined.



(** * [Mem::log_roots] *)

Lemma each_add_live l : forall s,
  each add_live_loc l s
  = Ok (tt, with_live s (fold_left (fun acc x => set_insert x acc) l (live s))).
Proof.
  induction l as [|x l IH]; intros s; cbn [each fold_left].
  - destruct s; reflexivity.
  - unfold add_live_loc at 1. rewrite bind_modify, IH. reflexivity.
Qed.

Lemma fold_set_insert_In l : forall acc y,
  In y (fold_left (fun acc x => set_insert x acc) l acc) <-> In y acc \/ In y l.
Proof.
  induction l as [|x l IH]; intros acc y; cbn [fold_left In]; [tauto|].
  rewrite IH, set_insert_In. intuition.
Qed.

Lemma fold_set_insert_sorted l : forall acc,
  StronglySorted Z.lt acc ->
  StronglySorted Z.lt (fold_left (fun acc x => set_insert x acc) l acc).
Proof.
  induction l as [|x l IH]; intros acc Hs; cbn [fold_left]; auto.
  apply IH. now apply set_insert_sorted.
Qed.

Lemma log_each_roots d n h cs base T :
  Cells h T base cs -> 1 <= base -> T <= HeapSize -> ty h 0 = TNil ->
  (d + Z.to_nat HeapSize < n)%nat ->
  forall roots s,
    heap s = h ->
    (forall r, In r roots -> good d cs h r = true) ->
    each (fun loc => add_live_loc loc ;; Obj_traverse n add_live_loc loc) roots s
    = Ok (tt, with_live s
                (fold_left (fun acc x => set_insert x acc) (marked d h roots)
                   (live s))).
Proof.
  intros HC Hb HT Hnil Hn. induction roots as [|r roots IH]; intros s Hh Hg.
  - cbn. destruct s; reflexivity.
  - cbn [each]. rewrite bind_assoc. unfold add_live_loc at 1.
    rewrite bind_modify.
    set (s1 := with_live s (set_insert r (live s))).
    rewrite (bind_cong _ _ (fun _ => each _ roots)) by reflexivity.
    unfold bind at 1.
    rewrite (Obj_traverse_eq add_live_loc add_live_loc_heap d h);
      [| eapply good_tree_ok; eauto; apply Hg; now left | exact Hh | exact Hn].
    rewrite each_add_live.
    rewrite IH; [| exact Hh | intros r' Hr'; apply Hg; now right].
    unfold marked. cbn [flat_map fold_left]. rewrite fold_left_app.
    reflexivity.
Qed.

(** [Mem::log_roots] on a well-formed state returns, touches nothing
    but the live set, and prints the handles as they are and, in
    ascending order without repetition, every location that marking
    calls its visit function on.  These are the objects that
    [Mem::mark_live] finds live from the same state, together with
    location 0 whenever a handle or a visited slot is nil. *)
Theorem log_roots_prints_reachable :
  forall m d k s n,
    wfb d k m s = true -> (d + Z.to_nat HeapSize < n)%nat ->
    exists L s1,
      log_roots n s = Ok ((root s, L), with_live s L) /\
      StronglySorted Z.lt L /\
      (forall r, In r (root s) -> In r L) /\
      mark_live m n s = Ok (tt, s1) /\
      (forall y, In y (live s1) <-> y <> 0 /\ In y L) /\
      (In 0 L <->
       exists r, In r (root s) /\ (r = 0 \/ In 0 (visit_seq d (heap s) r))).
Proof.
  intros m d k s n Hwfb Hn.
  destruct (wfb_WF d k m s Hwfb) as (cs & Hwf).
  pose proof (WF_top_le _ _ _ _ Hwf) as HT.
  pose proof Hwf as (Hlen & Ht1 & Ht2 & Hnil & HC & Hg).
  pose proof (region_base_pos m (top s)) as Hb.
  destruct (mark_live_post m d s) as (A & B & C & D & E & F). cbv zeta in *.
  set (L := fold_left (fun acc x => set_insert x acc)
              (marked d (heap s) (root s)) []).
  assert (HL : forall y, In y L <-> In y (marked d (heap s) (root s))).
  { intros y. unfold L. rewrite fold_set_insert_In. cbn. tauto. }
  exists L. eexists. split.
  { unfold log_roots. rewrite bind_gets, bind_modify.
    rewrite (bind_eq _ _ _ _ _
               (log_each_roots d n (heap s) cs _ (top s) HC Hb HT Hnil Hn
                  (root s) (with_live s []) eq_refl Hg)).
    rewrite bind_gets. norm. reflexivity. }
  split; [apply fold_set_insert_sorted; constructor|].
  split.
  { intros r Hr. apply HL. unfold marked. apply in_flat_map.
    exists r. split; [exact Hr|now left]. }
  split; [eapply mark_live_eq; eauto|].
  split.
  { intros y. rewrite F, live_of_In, HL. tauto. }
  rewrite HL. unfold marked. rewrite in_flat_map. split.
  - intros (r & Hr & [E0|Hin]); exists r; auto.
  - intros (r & Hr & [E0|Hin]); exists r; split; auto. now left. now right.
Qed.

Lemma log_roots_prints_reachable_witness :
  exists L s1,
    log_roots (5 + Z.to_nat HeapSize + 1) (shared_tree_state MARK_SWEEP_GC)
    = Ok ((root (shared_tree_state MARK_SWEEP_GC), L),
          with_live (shared_tree_state MARK_SWEEP_GC) L) /\
    mark_live MARK_SWEEP_GC (5 + Z.to_nat HeapSize + 1)
      (shared_tree_state MARK_SWEEP_GC) = Ok (tt, s1) /\
    (forall y, In y (live s1) <-> y <> 0 /\ In y L).
Proof.
  destruct (log_roots_prints_reachable MARK_SWEEP_GC 5 100
              (shared_tree_state MARK_SWEEP_GC) (5 + Z.to_nat HeapSize + 1)
              ltac:(vm_compute; reflexivity) ltac:(lia))
    as (L & s1 & H1 & _ & _ & H2 & H3 & _).
  exists L, s1. split; [exact H1|]. split; [exact H2|exact H3].
Defined.

(** * Splitting a line into fields *)

(** [StrRef(len)]: a Str of [len] characters, all zero. *)
Lemma StrRef_new_len_spec m L s :
  0 <= top s -> 0 <= L -> top s + 2 + L < HeapSize ->
  Z.of_nat (length (heap s)) = HeapSize ->
  exists s',
    StrRef_new_len m L s = Ok (top s, s') /\
    top s' = top s + 2 + L /\ root s' = top s :: root s /\
    ty (heap s') (top s) = TStr /\
    hdr_ref_count (peek (heap s') (top s)) = (if is_ref_count m then 1 else 0) /\
    peek (heap s') (top s + 1) = L /\
    (forall j, 0 <= j -> j < top s \/ top s + 2 + L <= j ->
               peek (heap s') j = peek (heap s) j) /\
    length (heap s') = length (heap s) /\
    live s' = live s /\ forwarding s' = forwarding s /\
    log_ready s' = log_ready s /\ frees (out s') = frees (out s).
Proof.
  intros Ht HL Hb Hlen.
  assert (Hsz : Str_size_needed L = 2 + L).
  { unfold Str_size_needed. apply to_UWd_small. unfold HeapSize in *. lia. }
  assert (Hul : to_UWd L = L) by (apply to_UWd_small; unfold HeapSize in *; lia).
  destruct (ObjRef_alloc_spec m (2 + L) s Ht ltac:(lia) ltac:(lia) Hlen)
    as (s1 & E1 & T1 & R1 & L1 & F1 & G1 & Len1 & P1 & Z1 & O1 & Out1).
  set (t := top s) in *.
  destruct (init_st_frame m t TStr s1) as (Ih & It & Ir & Il & If & Ig).
  pose proof (init_st_frees m t TStr s1) as Io.
  set (s2 := init_st m t TStr s1) in *.
  set (h3 := poke (heap s2) (t + 1) (to_UWd L)).
  set (s3 := emit_st (ESetInt (t + 1) (to_UWd L)) (with_heap s2 h3)).
  assert (Len2 : length (heap s2) = length (heap s)).
  { rewrite Ih, length_poke. exact Len1. }
  assert (Hh3 : heap s3 = h3) by (unfold s3; now rewrite heap_emit_st).
  assert (T3 : top s3 = t + (2 + L))
    by (unfold s3; rewrite top_emit_st; norm; congruence).
  assert (R3 : root s3 = t :: root s)
    by (unfold s3; rewrite root_emit_st; norm; congruence).
  assert (L3 : live s3 = live s)
    by (unfold s3; rewrite live_emit_st; norm; congruence).
  assert (F3 : forwarding s3 = forwarding s)
    by (unfold s3; rewrite forwarding_emit_st; norm; congruence).
  assert (G3 : log_ready s3 = log_ready s)
    by (unfold s3; rewrite log_ready_emit_st; norm; congruence).
  assert (O3 : frees (out s3) = frees (out s))
    by (unfold s3; rewrite frees_emit_st by reflexivity; norm; congruence).
  assert (Pt : peek (heap s3) t = init_hdr m (peek (heap s1) t) TStr).
  { rewrite Hh3. unfold h3. rewrite peek_poke_neq by lia.
    rewrite Ih. apply peek_poke_eq. lia. }
  exists s3. split.
  { unfold StrRef_new_len. rewrite Hsz. rewrite (bind_eq _ _ _ _ _ E1).
    unfold Str_init_len. rewrite bind_assoc.
    rewrite (bind_eq _ _ _ _ _ (Obj_init_eq m t TStr s1 ltac:(lia) ltac:(lia))).
    fold s2. rewrite !bind_assoc, bind_store by lia.
    rewrite !bind_assoc, bind_load by lia. norm. fold h3.
    replace (peek h3 (t + 1)) with (to_UWd L)
      by (unfold h3; rewrite peek_poke_eq by lia; reflexivity).
    unfold log_set_val. rewrite bind_emit. reflexivity. }
  split; [lia|]. split; [exact R3|].
  split; [unfold ty; rewrite Pt; apply hdr_type_init_hdr; unfold TStr; lia|].
  split; [rewrite Pt; apply hdr_ref_count_init_hdr|].
  split.
  { rewrite Hh3. unfold h3. rewrite peek_poke_eq by lia. exact Hul. }
  split.
  { intros j Hj Ho. rewrite Hh3. unfold h3. rewrite peek_poke_neq by lia.
    rewrite Ih, peek_poke_neq by lia. apply O1; lia. }
  split; [rewrite Hh3; unfold h3; rewrite length_poke; exact Len2|].
  tauto.
Qed.

(** [Str::copy] into a Str that lies above the source. *)
Lemma Str_copy_spec loc b e dest s :
  0 <= loc + 2 + b -> b <= e -> dest + 2 + (e - b) <= HeapSize ->
  loc + 2 + e <= dest + 2 ->
  Z.of_nat (length (heap s)) = HeapSize ->
  exists s',
    Str_copy loc b e dest s = Ok (tt, s') /\
    (forall j, 0 <= j < e - b ->
       peek (heap s') (dest + 2 + j) = peek (heap s) (loc + 2 + b + j)) /\
    (forall j, 0 <= j -> j < dest + 2 \/ dest + 2 + (e - b) <= j ->
       peek (heap s') j = peek (heap s) j) /\
    length (heap s') = length (heap s) /\
    top s' = top s /\ root s' = root s /\ live s' = live s /\
    forwarding s' = forwarding s /\ log_ready s' = log_ready s /\
    frees (out s') = frees (out s).
Proof.
  intros Hs Hbe Hd Hsd Hlen. eexists. split.
  { unfold Str_copy.
    rewrite (bind_eq _ _ _ _ _
               (copy_words_eq (dest + 2) (loc + 2 + b) (e - b) s ltac:(lia)
                  ltac:(lia) ltac:(lia) ltac:(lia) ltac:(lia))).
    unfold log_copy_mem. apply emit_ok. }
  rewrite heap_emit_st, top_emit_st, root_emit_st, live_emit_st,
    forwarding_emit_st, log_ready_emit_st, frees_emit_st by reflexivity.
  norm. split.
  { intros j Hj. apply copy_heap_in; lia. }
  split.
  { intros j Hj Ho. apply copy_heap_out; lia. }
  split; [apply copy_heap_length|]. tauto.
Qed.

Lemma set_ref_count_step w a d :
  0 <= a < 256 ->
  set_ref_count (set_ref_count w a) (hdr_ref_count (set_ref_count w a) + d)
  = set_ref_count w (a + d).
Proof.
  intros Ha. rewrite hdr_ref_count_set, Z.mod_small by lia.
  apply set_ref_count_set.
Qed.

(** One round of the loop of [StrRef::split]: the field from [b] to
    [e] becomes a new Str at [top], pushed on the Vec at [v]. *)
Lemma split_body_spec m n loc v cap i b e s :
  0 <= loc -> 0 <= b <= e -> loc + 2 + e <= v ->
  0 <= v -> v + 5 + cap <= top s -> top s + 2 + (e - b) < HeapSize ->
  Z.of_nat (length (heap s)) = HeapSize ->
  peek (heap s) (v + 1) = i -> peek (heap s) (v + 2) = v + 3 ->
  peek (heap s) (v + 4) = cap -> 0 <= i < cap ->
  peek (heap s) (v + 5 + i) = 0 ->
  exists s',
    (substr <- StrRef_new_len m (e - b) ;;
     Str_copy loc b e substr ;;
     _ <- ObjRef_share m substr ;;
     VecRef_push m (S (S n)) v substr ;;
     ObjRef_destroy m (S (S n)) 0 ;;
     ObjRef_destroy m (S (S n)) 0) s = Ok (tt, s') /\
    top s' = top s + 2 + (e - b) /\ root s' = root s /\
    peek (heap s') (v + 1) = i + 1 /\
    peek (heap s') (v + 5 + i) = top s /\
    ty (heap s') (top s) = TStr /\
    hdr_ref_count (peek (heap s') (top s)) = (if is_ref_count m then 1 else 0) /\
    peek (heap s') (top s + 1) = e - b /\
    (forall q, 0 <= q < e - b ->
       peek (heap s') (top s + 2 + q) = peek (heap s) (loc + 2 + b + q)) /\
    (forall j, 0 <= j < top s -> j <> v + 1 -> j <> v + 5 + i ->
       peek (heap s') j = peek (heap s) j) /\
    length (heap s') = length (heap s) /\
    live s' = live s /\ forwarding s' = forwarding s /\
    log_ready s' = log_ready s /\ frees (out s') = frees (out s).
Proof.
  intros Hloc Hbe Hsrc Hv Hvt Hroom Hlen Pl Pt Pc Hi Hslot.
  set (T := top s) in *. set (L := e - b) in *.
  set (k := if is_ref_count m then 1 else 0).
  assert (Hk : 0 <= k <= 1) by (unfold k; destruct (is_ref_count m); lia).
  destruct (StrRef_new_len_spec m L s ltac:(lia) ltac:(lia) ltac:(lia) Hlen)
    as (s1 & E1 & T1 & R1 & Ty1 & C1 & P1 & O1 & Len1 & L1 & F1 & G1 & Out1).
  fold T k in E1, T1, R1, Ty1, C1, P1, O1.
  set (w := peek (heap s1) T) in *.
  destruct (Str_copy_spec loc b e T s1 ltac:(lia) ltac:(lia) ltac:(lia) ltac:(lia)
              ltac:(lia))
    as (s2 & E2 & Ch2 & O2 & Len2 & T2 & R2 & L2 & F2 & G2 & Out2).
  fold L in Ch2, O2.
  assert (W2 : peek (heap s2) T = w) by (apply O2; lia).
  destruct (ObjRef_share_spec m T s2 ltac:(lia))
    as (s3 & E3 & H3 & T3 & R3 & L3 & F3 & G3 & Out3).
  rewrite W2, C1 in H3. fold k in H3.
  assert (W3 : peek (heap s3) T = set_ref_count w (k + k)).
  { rewrite H3. apply peek_poke_eq. lia. }
  assert (Q3 : forall j, 0 <= j -> j <> T -> peek (heap s3) j = peek (heap s2) j).
  { intros j Hj Hne. rewrite H3. apply peek_poke_neq; lia. }
  assert (Q30 : forall j, 0 <= j < T -> peek (heap s3) j = peek (heap s) j).
  { intros j Hj. rewrite Q3, O2, O1 by lia. reflexivity. }
  assert (Len3 : length (heap s3) = length (heap s)).
  { rewrite H3, length_poke. congruence. }
  destruct (VecRef_push_spec m n v (v + 3) cap i T s3)
    as (s4 & E4 & Pl4 & S4 & W4 & Q4 & Len4 & T4 & R4 & L4 & F4 & G4 & Out4);
    try lia.
  { rewrite Q30 by lia. exact Pl. }
  { rewrite Q30 by lia. exact Pt. }
  { rewrite Q30 by lia. replace (v + 3 + 1) with (v + 4) by lia. exact Pc. }
  { rewrite Q30 by lia. replace (v + 3 + 2 + i) with (v + 5 + i) by lia.
    exact Hslot. }
  { rewrite W3, hdr_ref_count_set, Z.mod_small by lia. lia. }
  rewrite W3, set_ref_count_step in W4 by lia. fold k in W4.
  replace (v + 3 + 2 + i) with (v + 5 + i) in * by lia.
  destruct (ObjRef_destroy_spec m (S n) T (T :: root s) s4)
    as (s5 & E5 & H5 & T5 & R5 & L5 & F5 & G5 & Out5).
  { congruence. }
  { lia. }
  { intros Em. rewrite W4, hdr_ref_count_set. unfold k. rewrite Em. discriminate. }
  rewrite W4 in H5.
  replace (hdr_ref_count (set_ref_count w (k + k + k))
           - (if is_ref_count m then 1 else 0))
    with (hdr_ref_count (set_ref_count w (k + k + k)) + - k) in H5
    by (unfold k; lia).
  rewrite set_ref_count_step in H5 by lia.
  replace (k + k + k + - k) with (k + k) in H5 by lia.
  assert (W5 : peek (heap s5) T = set_ref_count w (k + k)).
  { rewrite H5. apply peek_poke_eq. lia. }
  destruct (ObjRef_destroy_spec m (S n) T (root s) s5)
    as (s6 & E6 & H6 & T6 & R6 & L6 & F6 & G6 & Out6).
  { congruence. }
  { lia. }
  { intros Em. rewrite W5, hdr_ref_count_set. unfold k. rewrite Em. discriminate. }
  rewrite W5 in H6.
  replace (hdr_ref_count (set_ref_count w (k + k))
           - (if is_ref_count m then 1 else 0))
    with (hdr_ref_count (set_ref_count w (k + k)) + - k) in H6
    by (unfold k; lia).
  rewrite set_ref_count_step in H6 by lia.
  replace (k + k + - k) with k in H6 by lia.
  assert (W6 : peek (heap s6) T = w).
  { rewrite H6, peek_poke_eq by (rewrite H5, length_poke; lia).
    rewrite <- C1. apply set_ref_count_same. }
  assert (Q6 : forall j, 0 <= j -> j <> T -> peek (heap s6) j = peek (heap s4) j).
  { intros j Hj Hne. rewrite H6, peek_poke_neq by lia.
    rewrite H5. apply peek_poke_neq; lia. }
  exists s6. split.
  { rewrite (bind_eq _ _ _ _ _ E1). rewrite (bind_eq _ _ _ _ _ E2).
    rewrite (bind_eq _ _ _ _ _ E3). rewrite (bind_eq _ _ _ _ _ E4).
    rewrite (bind_eq _ _ _ _ _ E5). exact E6. }
  split; [congruence|]. split; [exact R6|].
  split; [rewrite Q6 by lia; exact Pl4|].
  split; [rewrite Q6 by lia; exact S4|].
  split; [unfold ty; rewrite W6; exact Ty1|].
  split; [rewrite W6; exact C1|].
  split.
  { rewrite Q6, Q4, Q3, O2 by lia. exact P1. }
  split.
  { intros q Hq. rewrite Q6, Q4, Q3 by lia. rewrite Ch2 by lia.
    apply O1; lia. }
  split.
  { intros j Hj J1 J2. rewrite Q6, Q4 by lia. apply Q30. lia. }
  split; [rewrite H6, length_poke, H5, length_poke; congruence|].
  repeat split; congruence.
Qed.

Lemma sumZ_map_nonneg {A} (f : A -> Z) (l : list A) :
  (forall x, In x l -> 0 <= f x) -> 0 <= sumZ (map f l).
Proof.
  induction l as [|x l IH]; intros H; unfold sumZ; cbn [map fold_right]; [lia|].
  fold (sumZ (map f l)). specialize (IH (fun y Hy => H y (or_intror Hy))).
  specialize (H x (or_introl eq_refl)). lia.
Qed.

(** The loop of [StrRef::split] over the fields still to be built,
    whose bounds are [bs]. *)
Lemma split_loop_spec m n loc v cap begin end_ : forall bs i s,
  0 <= loc -> 0 <= v ->
  (forall q, (q < length bs)%nat ->
     (peek begin (i + Z.of_nat q), peek end_ (i + Z.of_nat q)) = nth q bs (0, 0)) ->
  (forall p, In p bs -> 0 <= fst p <= snd p /\ loc + 2 + snd p <= v) ->
  v + 5 + cap <= top s ->
  top s + sumZ (map (fun p => 2 + (snd p - fst p)) bs) < HeapSize ->
  Z.of_nat (length (heap s)) = HeapSize ->
  peek (heap s) (v + 1) = i -> peek (heap s) (v + 2) = v + 3 ->
  peek (heap s) (v + 4) = cap -> 0 <= i -> i + Z.of_nat (length bs) = cap ->
  (forall j, i <= j < cap -> peek (heap s) (v + 5 + j) = 0) ->
  exists s',
    for_n (length bs)
      (fun i =>
         let b := nth (Z.to_nat i) begin 0 in
         let e := nth (Z.to_nat i) end_ 0 in
         substr <- StrRef_new_len m (e - b) ;;
         Str_copy loc b e substr ;;
         _ <- ObjRef_share m substr ;;
         VecRef_push m (S (S n)) v substr ;;
         ObjRef_destroy m (S (S n)) 0 ;;
         ObjRef_destroy m (S (S n)) 0) i s = Ok (tt, s') /\
    top s' = top s + sumZ (map (fun p => 2 + (snd p - fst p)) bs) /\
    root s' = root s /\ peek (heap s') (v + 1) = cap /\
    (forall q, (q < length bs)%nat ->
       let p := nth q bs (0, 0) in
       let a := peek (heap s') (v + 5 + i + Z.of_nat q) in
       top s <= a /\ a + 2 + (snd p - fst p) <= top s' /\
       ty (heap s') a = TStr /\
       hdr_ref_count (peek (heap s') a) = (if is_ref_count m then 1 else 0) /\
       peek (heap s') (a + 1) = snd p - fst p /\
       (forall r, 0 <= r < snd p - fst p ->
          peek (heap s') (a + 2 + r) = peek (heap s) (loc + 2 + fst p + r))) /\
    (forall j, 0 <= j < top s -> j <> v + 1 ->
       j < v + 5 + i \/ v + 5 + cap <= j ->
       peek (heap s') j = peek (heap s) j) /\
    length (heap s') = length (heap s) /\
    live s' = live s /\ forwarding s' = forwarding s /\
    log_ready s' = log_ready s /\ frees (out s') = frees (out s).
Proof.
  induction bs as [|p0 bs IH];
    intros i s Hloc Hv Hbuf Hbs Hvt Hroom Hlen Pl Pt Pc Hi Hcap Hz.
  - exists s. cbn [length for_n map sumZ fold_right] in *.
    split; [reflexivity|]. split; [lia|]. split; [reflexivity|].
    split; [lia|]. split; [intros q Hq; lia|]. tauto.
  - cbn [length map] in *. unfold sumZ in Hroom |- *. cbn [fold_right] in *.
    fold (sumZ (map (fun p => 2 + (snd p - fst p)) bs)) in *.
    pose proof (Hbuf 0%nat ltac:(lia)) as Hb0. cbn [nth] in Hb0.
    rewrite Z.add_0_r in Hb0.
    destruct (Hbs p0 (or_introl eq_refl)) as (Hp0 & Hp1).
    assert (Hsum : 0 <= sumZ (map (fun p => 2 + (snd p - fst p)) bs)).
    { apply sumZ_map_nonneg. intros p Hp. destruct (Hbs p (or_intror Hp)). lia. }
    assert (Eb : nth (Z.to_nat i) begin 0 = fst p0)
      by (change (peek begin i = fst p0); now rewrite <- Hb0).
    assert (Ee : nth (Z.to_nat i) end_ 0 = snd p0)
      by (change (peek end_ i = snd p0); now rewrite <- Hb0).
    destruct (split_body_spec m n loc v cap i (fst p0) (snd p0) s Hloc Hp0 Hp1 Hv
                Hvt ltac:(lia) Hlen Pl Pt Pc ltac:(lia) ltac:(apply Hz; lia))
      as (s1 & E1 & T1 & R1 & Pl1 & S1 & Ty1 & C1 & Ln1 & Ch1 & Q1 & Len1 & L1 &
          F1 & G1 & O1).
    destruct (IH (i + 1) s1 Hloc Hv) as
      (s' & E & T' & R' & Pl' & El' & Q' & Len' & L' & F' & G' & O').
    { intros q Hq. replace (i + 1 + Z.of_nat q) with (i + Z.of_nat (S q)) by lia.
      rewrite (Hbuf (S q) ltac:(lia)). reflexivity. }
    { intros p Hp. apply Hbs. now right. }
    { lia. }
    { lia. }
    { congruence. }
    { exact Pl1. }
    { rewrite Q1 by lia. exact Pt. }
    { rewrite Q1 by lia. exact Pc. }
    { lia. }
    { lia. }
    { intros j Hj. rewrite Q1 by lia. apply Hz. lia. }
    exists s'. split.
    { cbn [for_n]. cbv zeta. rewrite Eb, Ee.
      rewrite (bind_eq _ _ _ _ _ E1). exact E. }
    split; [lia|]. split; [congruence|]. split; [exact Pl'|].
    split.
    { intros q Hq. cbv zeta. destruct q as [|q]; cbn [nth].
      - rewrite Z.add_0_r.
        assert (A : peek (heap s') (v + 5 + i) = top s).
        { rewrite Q' by lia. exact S1. }
        rewrite A.
        split; [lia|]. split; [lia|].
        split; [unfold ty; rewrite Q' by lia; exact Ty1|].
        split; [rewrite Q' by lia; exact C1|].
        split; [rewrite Q' by lia; exact Ln1|].
        intros r Hr. rewrite Q' by lia. apply Ch1. exact Hr.
      - specialize (El' q ltac:(lia)). cbv zeta in El'.
        replace (v + 5 + (i + 1) + Z.of_nat q)
          with (v + 5 + i + Z.of_nat (S q)) in El' by lia.
        destruct El' as (A1 & A2 & A3 & A4 & A5 & A6).
        split; [lia|]. split; [lia|]. split; [exact A3|].
        split; [exact A4|]. split; [exact A5|].
        intros r Hr. rewrite A6 by exact Hr.
        assert (Hin : In (nth q bs (0, 0)) bs) by (apply nth_In; lia).
        destruct (Hbs _ (or_intror Hin)) as (B1 & B2).
        apply Q1; lia. }
    split.
    { intros j Hj J1 J2. rewrite Q' by lia. apply Q1; lia. }
    split; [congruence|]. repeat split; congruence.
Qed.

(** ** The bounds of the fields *)

Lemma bounds_from_length segs : forall o,
  length (bounds_from o segs) = length segs.
Proof. induction segs as [|seg r IH]; intros o; cbn; auto. Qed.

Lemma join_cons sep seg r :
  r <> [] -> join sep (seg :: r) = seg ++ sep :: join sep r.
Proof. destruct r; [congruence|reflexivity]. Qed.

Lemma bounds_from_nth sep : forall segs o q,
  (q < length segs)%nat ->
  let p := nth q (bounds_from o segs) (0, 0) in
  o <= fst p /\ snd p = fst p + Z.of_nat (length (nth q segs [])) /\
  snd p <= o + Z.of_nat (length (join sep segs)) /\
  (forall r, (r < length (nth q segs []))%nat ->
     nth (Z.to_nat (fst p - o) + r) (join sep segs) 0 = nth r (nth q segs []) 0).
Proof.
  induction segs as [|seg rest IH]; intros o q Hq; cbn [length] in Hq; [lia|].
  cbv zeta. destruct q as [|q]; cbn [bounds_from nth fst snd].
  - split; [lia|]. split; [reflexivity|].
    destruct rest as [|s2 rest].
    + cbn [join]. split; [lia|]. intros r Hr. f_equal. lia.
    + rewrite join_cons by discriminate. rewrite length_app. split; [lia|].
      intros r Hr. replace (Z.to_nat (o - o) + r)%nat with r by lia.
      apply app_nth1. exact Hr.
  - assert (Hne : rest <> []) by (destruct rest; [cbn in Hq; lia|discriminate]).
    destruct (IH (o + Z.of_nat (length seg) + 1) q ltac:(lia)) as (A & B & C & D).
    set (p := nth q (bounds_from (o + Z.of_nat (length seg) + 1) rest) (0, 0)) in *.
    rewrite join_cons by exact Hne. rewrite length_app. cbn [length].
    split; [lia|]. split; [exact B|]. split; [lia|].
    intros r Hr. rewrite <- (D r Hr).
    rewrite app_nth2 by lia.
    replace (Z.to_nat (fst p - o) + r - length seg)%nat
      with (S (Z.to_nat (fst p - (o + Z.of_nat (length seg) + 1)) + r))
      by lia.
    reflexivity.
Qed.

Lemma bounds_from_sizes segs : forall o,
  sumZ (map (fun p => 2 + (snd p - fst p)) (bounds_from o segs))
  = sumZ (map (fun seg => 2 + Z.of_nat (length seg)) segs).
Proof.
  induction segs as [|seg r IH]; intros o; [reflexivity|].
  cbn [bounds_from map fst snd]. unfold sumZ in *. cbn [fold_right].
  rewrite IH. lia.
Qed.

(** [Str::split] on a string with at most four separators. *)
Lemma Str_split_bounds n loc sep b0 e0 s :
  0 <= loc -> 0 <= peek (heap s) (loc + 1) ->
  loc + 2 + peek (heap s) (loc + 1) <= HeapSize ->
  (Z.to_nat (peek (heap s) (loc + 1)) < n)%nat ->
  count_sep sep (str_chars (heap s) loc) <= 4 ->
  exists b e,
    Str_split n loc sep (stack_array5 b0) (stack_array5 e0) s
    = Ok ((Z.of_nat (length (split_on sep (str_chars (heap s) loc))), b, e), s) /\
    (forall q, (q < length (split_on sep (str_chars (heap s) loc)))%nat ->
       (peek b (Z.of_nat q), peek e (Z.of_nat q))
       = nth q (bounds_from 0 (split_on sep (str_chars (heap s) loc))) (0, 0)).
Proof.
  intros Hloc Hlen Hb Hn Hk.
  set (cs := str_chars (heap s) loc) in *.
  pose proof (split_on_length sep cs) as HL.
  pose proof (Str_split_eq n loc sep (stack_array5 b0) (stack_array5 e0) s
                Hloc Hlen Hb Hn) as E.
  fold cs in E.
  destruct (split_chars_spec sep 5 cs 0
              (mkSplit 0 0 (stack_array5 b0) (stack_array5 e0))) as [S1 _];
    simpl; rewrite ?length_stack_array5; try reflexivity; try lia.
  simpl in S1.
  assert (Hcs : Z.of_nat (length cs) = peek (heap s) (loc + 1)).
  { unfold cs, str_chars. rewrite length_peeks. lia. }
  rewrite Hcs in S1.
  destruct S1 as (st' & E1 & Hf & Hb' & He' & _ & Hnew); [lia|].
  rewrite E1 in E. simpl in E. exists (sp_begin st'), (sp_end st').
  split; [rewrite E; repeat f_equal; lia|].
  intros q Hq. specialize (Hnew (Z.of_nat q) ltac:(lia)). simpl in Hnew.
  rewrite Hnew, Nat2Z.id.
  destruct (split_on sep cs) eqn:Es; [now apply split_on_nonempty in Es|].
  reflexivity.
Qed.

(** What [StrRef::split(sep)] builds. *)
Lemma StrRef_split_spec :
  forall m n s loc sep b0 e0,
    0 <= loc -> 0 <= peek (heap s) (loc + 1) ->
    loc + 2 + peek (heap s) (loc + 1) <= top s ->
    Z.of_nat (length (heap s)) = HeapSize ->
    count_sep sep (str_chars (heap s) loc) <= 4 ->
    top s + 5 + Z.of_nat (length (split_on sep (str_chars (heap s) loc)))
      + sumZ (map (fun seg => 2 + Z.of_nat (length seg))
                (split_on sep (str_chars (heap s) loc))) < HeapSize ->
    (Z.to_nat (peek (heap s) (loc + 1)) < S (S n))%nat -> (4 <= n)%nat ->
    exists s',
      StrRef_split m (S (S n)) loc sep b0 e0 s = Ok (top s, s') /\
      root s' = top s :: root s /\
      top s'
      = top s + 5 + Z.of_nat (length (split_on sep (str_chars (heap s) loc)))
        + sumZ (map (fun seg => 2 + Z.of_nat (length seg))
                  (split_on sep (str_chars (heap s) loc))) /\
      ty (heap s') (top s) = TVec /\
      peek (heap s') (top s + 1)
      = Z.of_nat (length (split_on sep (str_chars (heap s) loc))) /\
      peek (heap s') (top s + 2) = top s + 3 /\
      (forall q, (q < length (split_on sep (str_chars (heap s) loc)))%nat ->
         let a := peek (heap s') (top s + 5 + Z.of_nat q) in
         top s < a < top s' /\
         ty (heap s') a = TStr /\
         str_chars (heap s') a = nth q (split_on sep (str_chars (heap s) loc)) [] /\
         hdr_ref_count (peek (heap s') a) = (if is_ref_count m then 1 else 0)) /\
      join sep (split_on sep (str_chars (heap s) loc)) = str_chars (heap s) loc /\
      (forall j, 0 <= j < top s -> peek (heap s') j = peek (heap s) j) /\
      frees (out s') = frees (out s) /\
      ty (heap s') (top s + 3) = TTup /\
      peek (heap s') (top s + 4)
      = Z.of_nat (length (split_on sep (str_chars (heap s) loc))).
Proof.
  intros m n s loc sep b0 e0 Hloc Hlen Hsrc Hheap Hk Hroom Hn Hn4.
  set (cs := str_chars (heap s) loc) in *.
  set (segs := split_on sep cs) in *.
  pose proof (split_on_length sep cs) as HL. fold segs in HL.
  pose proof (split_on_join sep cs) as HJ. fold segs in HJ.
  assert (Hcs : Z.of_nat (length cs) = peek (heap s) (loc + 1)).
  { unfold cs, str_chars. rewrite length_peeks. lia. }
  assert (Hsum : 0 <= sumZ (map (fun seg => 2 + Z.of_nat (length seg)) segs)).
  { apply sumZ_map_nonneg. intros x _. lia. }
  set (count := Z.of_nat (length segs)) in *.
  destruct (Str_split_bounds (S (S n)) loc sep b0 e0 s Hloc Hlen ltac:(lia) Hn Hk)
    as (b & e & E0 & Hbuf).
  fold cs segs count in E0, Hbuf.
  set (v := top s) in *.
  destruct (VecRef_new_spec m (S n) count s ltac:(lia) ltac:(lia) ltac:(lia)
              Hheap ltac:(lia))
    as (s1 & E1 & T1 & R1 & Tv1 & Pl1 & Pt1 & Tt1 & Pc1 & Pz1 & Cv1 & Ct1 & O1 &
        F1 & Len1).
  fold v in E1, T1, R1, Tv1, Pl1, Pt1, Tt1, Pc1, Pz1, Cv1, Ct1, O1.
  set (bs := bounds_from 0 segs).
  assert (Hbl : length bs = length segs) by apply bounds_from_length.
  assert (Hbs : forall q, (q < length segs)%nat ->
            let p := nth q bs (0, 0) in
            0 <= fst p /\ snd p = fst p + Z.of_nat (length (nth q segs [])) /\
            snd p <= Z.of_nat (length cs) /\
            (forall r, (r < length (nth q segs []))%nat ->
               nth (Z.to_nat (fst p) + r) cs 0 = nth r (nth q segs []) 0)).
  { intros q Hq. cbv zeta.
    destruct (bounds_from_nth sep segs 0 q Hq) as (A & B & C & D).
    fold bs in A, B, C, D. rewrite HJ in C, D.
    split; [exact A|]. split; [exact B|]. split; [lia|].
    intros r Hr. rewrite <- (D r Hr). f_equal. lia. }
  destruct (split_loop_spec m n loc v count b e bs 0 s1 Hloc ltac:(lia))
    as (s2 & E2 & T2 & R2 & Pl2 & El2 & Q2 & Len2 & L2 & F2 & G2 & O2).
  { intros q Hq. rewrite Z.add_0_l. apply Hbuf. lia. }
  { intros p Hp. destruct (In_nth bs p (0, 0) Hp) as (q & Hq & <-).
    destruct (Hbs q ltac:(lia)) as (A & B & C & _). lia. }
  { lia. }
  { unfold bs. rewrite bounds_from_sizes. lia. }
  { congruence. }
  { exact Pl1. }
  { exact Pt1. }
  { exact Pc1. }
  { lia. }
  { unfold count. lia. }
  { intros j Hj. apply Pz1. lia. }
  unfold bs in T2. rewrite bounds_from_sizes in T2. fold bs in T2.
  exists s2. split.
  { unfold StrRef_split. rewrite (bind_eq _ _ _ _ _ E0).
    rewrite (bind_eq _ _ _ _ _ E1).
    unfold count at 1. rewrite Nat2Z.id, <- Hbl.
    rewrite (bind_eq _ _ _ _ _ E2). reflexivity. }
  split; [congruence|]. split; [lia|].
  split.
  { unfold ty. rewrite Q2 by lia. exact Tv1. }
  split; [exact Pl2|].
  split.
  { rewrite Q2 by lia. exact Pt1. }
  split.
  { intros q Hq. cbv zeta.
    specialize (El2 q ltac:(lia)). cbv zeta in El2.
    rewrite Z.add_0_r in El2.
    destruct El2 as (A1 & A2 & A3 & A4 & A5 & A6).
    destruct (Hbs q Hq) as (B0 & B1 & B2 & B3).
    set (a := peek (heap s2) (v + 5 + Z.of_nat q)) in *.
    set (p := nth q bs (0, 0)) in *.
    split; [lia|]. split; [exact A3|]. split; [|exact A4].
    unfold str_chars. rewrite A5.
    replace (snd p - fst p) with (Z.of_nat (length (nth q segs []))) by lia.
    rewrite Nat2Z.id.
    rewrite <- (map_id (nth q segs [])) at 2.
    apply peeks_of_list; [reflexivity|].
    intros r Hr. rewrite A6 by lia.
    rewrite O1 by lia.
    rewrite <- (B3 r Hr). unfold cs, str_chars.
    rewrite nth_peeks by lia. f_equal. lia. }
  split; [exact HJ|]. split.
  { intros j Hj. rewrite Q2 by lia. apply O1. lia. }
  split; [congruence|]. split.
  { unfold ty. rewrite Q2 by lia. exact Tt1. }
  rewrite Q2 by lia. exact Pc1.
Qed.


(** [StrRef::split(sep)] on a string with at most four separators and
    enough room above [top]: it returns a new Vec, at the old [top],
    whose length is the number of fields of the string and whose
    elements are new Str objects that hold the fields, in order (and
    the fields, joined by the separator, are the string).  The handle
    of the Vec is the only new one in the root list; under reference
    counting every new Str is left with a count of one, held by its
    slot.  Nothing below the old [top] changes (the string included)
    and nothing is freed. *)
Theorem split_builds_fields :
  forall m n s loc sep b0 e0,
    0 <= loc -> 0 <= peek (heap s) (loc + 1) ->
    loc + 2 + peek (heap s) (loc + 1) <= top s ->
    Z.of_nat (length (heap s)) = HeapSize ->
    count_sep sep (str_chars (heap s) loc) <= 4 ->
    top s + 5 + Z.of_nat (length (split_on sep (str_chars (heap s) loc)))
      + sumZ (map (fun seg => 2 + Z.of_nat (length seg))
                (split_on sep (str_chars (heap s) loc))) < HeapSize ->
    (Z.to_nat (peek (heap s) (loc + 1)) < S (S n))%nat -> (4 <= n)%nat ->
    exists s',
      StrRef_split m (S (S n)) loc sep b0 e0 s = Ok (top s, s') /\
      root s' = top s :: root s /\
      top s'
      = top s + 5 + Z.of_nat (length (split_on sep (str_chars (heap s) loc)))
        + sumZ (map (fun seg => 2 + Z.of_nat (length seg))
                  (split_on sep (str_chars (heap s) loc))) /\
      ty (heap s') (top s) = TVec /\
      peek (heap s') (top s + 1)
      = Z.of_nat (length (split_on sep (str_chars (heap s) loc))) /\
      peek (heap s') (top s + 2) = top s + 3 /\
      (forall q, (q < length (split_on sep (str_chars (heap s) loc)))%nat ->
         let a := peek (heap s') (top s + 5 + Z.of_nat q) in
         top s < a < top s' /\
         ty (heap s') a = TStr /\
         str_chars (heap s') a = nth q (split_on sep (str_chars (heap s) loc)) [] /\
         hdr_ref_count (peek (heap s') a) = (if is_ref_count m then 1 else 0)) /\
      join sep (split_on sep (str_chars (heap s) loc)) = str_chars (heap s) loc /\
      (forall j, 0 <= j < top s -> peek (heap s') j = peek (heap s) j) /\
      frees (out s') = frees (out s).
Proof.
  intros m n s loc sep b0 e0 Hloc Hlen Hsrc Hheap Hk Hroom Hn Hn4.
  destruct (StrRef_split_spec m n s loc sep b0 e0 Hloc Hlen Hsrc Hheap Hk Hroom
              Hn Hn4)
    as (s' & H1 & H2 & H3 & H4 & H5 & H6 & H7 & H8 & H9 & H10 & _).
  exists s'. split; [exact H1|]. split; [exact H2|]. split; [exact H3|].
  split; [exact H4|]. split; [exact H5|]. split; [exact H6|].
  split; [exact H7|]. split; [exact H8|]. split; [exact H9|exact H10].
Qed.

Lemma split_builds_fields_witness :
  exists s',
    StrRef_split REF_COUNT_GC 12 1 44 [] [] (line_state REF_COUNT_GC)
    = Ok (top (line_state REF_COUNT_GC), s') /\
    peek (heap s') (top (line_state REF_COUNT_GC) + 1) = 3.
Proof.
  destruct (split_builds_fields REF_COUNT_GC 10 (line_state REF_COUNT_GC) 1 44 [] []
              ltac:(lia) ltac:(vm_compute; discriminate)
              ltac:(vm_compute; discriminate) ltac:(vm_compute; reflexivity)
              ltac:(vm_compute; discriminate) ltac:(vm_compute; reflexivity)
              ltac:(vm_compute; lia) ltac:(lia))
    as (s' & H1 & _ & _ & _ & H2 & _).
  exists s'. split; [exact H1|]. rewrite H2. vm_compute. reflexivity.
Defined.

(** * [split], its buffers and what it returns (C10) *)

(** C10, as the code has it.  With the five-element buffers of
    [StrRef::split], [Str::split] stays inside them exactly when the
    string has at most four separators: it then returns one pair more
    than there are separators, the pairs are the bounds of the fields
    of the string (which, joined by the separator, give the string
    back), and with five or more separators a write falls outside the
    buffers, for [Str::split] and so for [StrRef::split].  With at
    most four separators [StrRef::split] goes on to allocate: when
    there is room above [top] for the Vec, its backing Tup and one Str
    for each field, it returns a new Vec of one element more than
    there are separators, whose elements are Str objects that hold the
    fields of the string in order; the string itself is unchanged. *)
Theorem split_buffers :
  forall m n s loc sep b0 e0,
    0 <= loc -> 0 <= peek (heap s) (loc + 1) ->
    loc + 2 + peek (heap s) (loc + 1) <= HeapSize ->
    (Z.to_nat (peek (heap s) (loc + 1)) < n)%nat ->
    let cs := str_chars (heap s) loc in
    let k := count_sep sep cs in
    (k <= 4 ->
       (exists b e,
          Str_split n loc sep (stack_array5 b0) (stack_array5 e0) s
            = Ok ((k + 1, b, e), s) /\
          length b = 5%nat /\ length e = 5%nat /\
          (forall j, 0 <= j <= k ->
             (peek b j, peek e j)
             = nth (Z.to_nat j) (bounds_from 0 (split_on sep cs)) (0, 0)) /\
          Z.of_nat (length (split_on sep cs)) = k + 1 /\
          join sep (split_on sep cs) = cs /\
          Forall (fun seg => ~ In sep seg) (split_on sep cs)) /\
       (loc + 2 + peek (heap s) (loc + 1) <= top s ->
        Z.of_nat (length (heap s)) = HeapSize ->
        top s + 5 + (k + 1)
        + sumZ (map (fun seg => 2 + Z.of_nat (length seg)) (split_on sep cs))
        < HeapSize ->
        (6 <= n)%nat ->
        exists s',
          StrRef_split m n loc sep b0 e0 s = Ok (top s, s') /\
          root s' = top s :: root s /\
          ty (heap s') (top s) = TVec /\
          peek (heap s') (top s + 1) = k + 1 /\
          peek (heap s') (top s + 2) = top s + 3 /\
          ty (heap s') (top s + 3) = TTup /\
          map (str_chars (heap s')) (slots (heap s') (top s + 3))
          = split_on sep cs /\
          (forall a, In a (slots (heap s') (top s + 3)) ->
                     ty (heap s') a = TStr) /\
          str_chars (heap s') loc = cs)) /\
    (4 < k ->
       Str_split n loc sep (stack_array5 b0) (stack_array5 e0) s = Abort /\
       StrRef_split m n loc sep b0 e0 s = Abort).
Proof.
  intros m n s loc sep b0 e0 Hloc Hlen Hb Hn cs k.
  pose proof (split_on_length sep cs) as HL. fold k in HL.
  pose proof (Str_split_eq n loc sep (stack_array5 b0) (stack_array5 e0) s
                Hloc Hlen Hb Hn) as E.
  fold cs in E.
  destruct (split_chars_spec sep 5 cs 0
              (mkSplit 0 0 (stack_array5 b0) (stack_array5 e0))) as [S1 S2];
    simpl; rewrite ?length_stack_array5; try reflexivity; try lia.
  simpl in S1, S2.
  assert (Hcs : Z.of_nat (length cs) = peek (heap s) (loc + 1)).
  { unfold cs, str_chars. rewrite length_peeks. lia. }
  rewrite Hcs in S1, S2. split.
  - intros Hk. split.
    + destruct S1 as (st' & E1 & Hf & Hb' & He' & _ & Hnew); [lia|].
      rewrite E1 in E. simpl in E. exists (sp_begin st'), (sp_end st').
      split; [rewrite E; repeat f_equal; lia|].
      repeat split; try lia; auto using split_on_join, split_on_no_sep.
      intros j Hj. specialize (Hnew j ltac:(lia)). simpl in Hnew. rewrite Hnew.
      destruct (split_on sep cs) eqn:Es; [now apply split_on_nonempty in Es|].
      reflexivity.
    + intros Hsrc Hheap Hroom Hn6.
      destruct n as [|[|n']]; try lia.
      assert (Hroom' :
                top s + 5 + Z.of_nat (length (split_on sep cs))
                + sumZ (map (fun seg => 2 + Z.of_nat (length seg))
                          (split_on sep cs)) < HeapSize)
        by (rewrite HL; exact Hroom).
      destruct (StrRef_split_spec m n' s loc sep b0 e0 Hloc Hlen Hsrc Hheap
                  Hk Hroom' Hn ltac:(lia))
        as (s' & H1 & H2 & H3 & H4 & H5 & H6 & H7 & H8 & H9 & H10 & H11 & H12).
      fold cs in H3, H5, H7, H8, H12.
      set (segs := split_on sep cs) in *.
      assert (Hsl : slots (heap s') (top s + 3)
                    = peeks (heap s') (top s + 5) (length segs)).
      { unfold slots. replace (top s + 3 + 1) with (top s + 4) by lia.
        rewrite H12, Nat2Z.id. f_equal. lia. }
      exists s'. split; [exact H1|]. split; [exact H2|].
      split; [exact H4|]. split; [rewrite H5; exact HL|].
      split; [exact H6|]. split; [exact H11|].
      split.
      { rewrite Hsl.
        apply (nth_ext _ _ [] []).
        - rewrite length_map. apply length_peeks.
        - intros q Hq. rewrite length_map, length_peeks in Hq.
          rewrite (nth_indep _ [] (str_chars (heap s') 0))
            by (rewrite length_map, length_peeks; exact Hq).
          rewrite map_nth. rewrite nth_peeks by exact Hq.
          destruct (H7 q Hq) as (_ & _ & Hc & _). exact Hc. }
      split.
      { intros a Ha. rewrite Hsl in Ha.
        destruct (In_nth _ _ 0 Ha) as (q & Hq & <-).
        rewrite length_peeks in Hq. rewrite nth_peeks by exact Hq.
        destruct (H7 q Hq) as (_ & Ht & _). exact Ht. }
      unfold cs, str_chars. rewrite (H9 (loc + 1)) by lia.
      apply peeks_ext. intros j Hj. apply H9. lia.
  - intros Hk. rewrite S2 in E by lia. simpl in E. split; [exact E|].
    unfold StrRef_split. now apply bind_abort.
Qed.

(** The line ["3,al,x"] has two separators and three fields. *)
Lemma split_buffers_witness :
  count_sep 44 (str_chars (heap (line_state COPY_GC)) 1) = 2 /\
  (exists b e,
     Str_split 10 1 44 (stack_array5 []) (stack_array5 []) (line_state COPY_GC)
       = Ok ((2 + 1, b, e), line_state COPY_GC) /\
     (peek b 0, peek e 0) = (0, 1) /\
     (peek b 1, peek e 1) = (2, 4) /\
     (peek b 2, peek e 2) = (5, 6)) /\
  (exists s',
     StrRef_split COPY_GC 10 1 44 [] [] (line_state COPY_GC)
     = Ok (top (line_state COPY_GC), s') /\
     map (str_chars (heap s'))
       (slots (heap s') (top (line_state COPY_GC) + 3))
     = [[51]; [97; 108]; [120]]).
Proof.
  pose proof (split_buffers COPY_GC 10 (line_state COPY_GC) 1 44 [] []
                ltac:(lia) ltac:(now vm_compute) ltac:(now vm_compute)
                ltac:(vm_compute; lia)) as H.
  cbv zeta in H. destruct H as [H _].
  assert (K : count_sep 44 (str_chars (heap (line_state COPY_GC)) 1) = 2)
    by (vm_compute; reflexivity).
  assert (Hseg : split_on 44 (str_chars (heap (line_state COPY_GC)) 1)
                 = [[51]; [97; 108]; [120]])
    by (vm_compute; reflexivity).
  split; [exact K|].
  rewrite K, Hseg in H.
  destruct (H ltac:(clear; lia)) as [HA HB]. clear H.
  split.
  - destruct HA as (b & e & E & _ & _ & Hb & _).
    pose proof (Hb 0 ltac:(clear; lia)) as H0.
    pose proof (Hb 1 ltac:(clear; lia)) as H1.
    pose proof (Hb 2 ltac:(clear; lia)) as H2.
    vm_compute in H0, H1, H2.
    exists b, e. split; [exact E|]. unfold peek. simpl Z.to_nat.
    split; [exact H0|]. split; [exact H1|exact H2].
  - destruct (HB ltac:(clear; vm_compute; discriminate)
                 ltac:(clear; vm_compute; reflexivity)
                 ltac:(clear; vm_compute; reflexivity)
                 ltac:(clear; lia))
      as (s' & E & _ & _ & _ & _ & _ & Hm & _).
    exists s'. split; [exact E|exact Hm].
Defined.

(** At most four separators keep the writes inside the buffers, but
    do not make [split] return: it allocates a Vec, its backing Tup
    and a Str for each field, and [Mem::reserve] stops when [top]
    would reach the end of the heap.  On the line ["3,al,x"] followed
    by a Str of 1980 characters [top] is 1991; [Str::split] returns
    the three pairs, the Vec and its Tup of three slots take [top] to
    1999, and the first field does not fit. *)
Lemma split_aborts_without_room :
  count_sep 44 (str_chars (heap (full_line_state MARK_SWEEP_GC)) 1) = 2 /\
  top (full_line_state MARK_SWEEP_GC) = 1991 /\
  (exists b e,
     Str_split 20 1 44 (stack_array5 []) (stack_array5 [])
       (full_line_state MARK_SWEEP_GC)
     = Ok ((3, b, e), full_line_state MARK_SWEEP_GC)) /\
  StrRef_split MARK_SWEEP_GC 20 1 44 [] [] (full_line_state MARK_SWEEP_GC)
  = Abort.
Proof.
  split; [vm_compute; reflexivity|]. split; [vm_compute; reflexivity|].
  split; [do 2 eexists; vm_compute; reflexivity|].
  vm_compute. reflexivity.
Qed.

(** * Growing a vector *)

Lemma occurrences_nonneg x xs : 0 <= occurrences x xs.
Proof. apply occurrences_le. Qed.


(** The loop of [Tup::cleanup] over slots that hold [es], when every
    object in a slot has more references than slots that hold it: each
    loses one reference per slot and none is freed. *)
Lemma cleanup_dec_loop n t len : forall es F i s,
  (length es < F)%nat ->
  0 <= t -> t + 2 + len <= HeapSize ->
  Z.of_nat (length (heap s)) = HeapSize ->
  peek (heap s) (t + 1) = len -> 0 <= i -> i + Z.of_nat (length es) = len ->
  (forall q, (q < length es)%nat ->
     peek (heap s) (t + 2 + i + Z.of_nat q) = nth q es 0) ->
  (forall e, In e (non_nil es) ->
     0 < e < HeapSize /\ (e < t \/ t + 2 + len <= e) /\
     occurrences e es < hdr_ref_count (peek (heap s) e)) ->
  exists s',
    for_field F (load (t + 1))
      (fun i _ =>
         v <- load (t + 2 + i) ;;
         unshare REF_COUNT_GC (S (S n)) v ;;
         store (t + 2 + i) 0) i tt s = Ok (tt, s') /\
    (forall j, i <= j < len -> peek (heap s') (t + 2 + j) = 0) /\
    (forall e, In e (non_nil es) ->
       peek (heap s') e
       = set_ref_count (peek (heap s) e)
           (hdr_ref_count (peek (heap s) e) - occurrences e es)) /\
    (forall j, 0 <= j -> j < t + 2 + i \/ t + 2 + len <= j ->
       ~ In j (non_nil es) -> peek (heap s') j = peek (heap s) j) /\
    length (heap s') = length (heap s) /\
    top s' = top s /\ root s' = root s /\ live s' = live s /\
    forwarding s' = forwarding s /\ log_ready s' = log_ready s /\
    frees (out s') = frees (out s).
Proof.
  induction es as [|e es IH]; intros F i s HF Ht Hfit Hlen Pl Hi Hk Hsl Hes;
    (destruct F as [|F]; [cbn [length] in HF; lia|]);
    rewrite for_field_unfold, bind_load by lia; rewrite Pl; cbn [length] in *.
  - destruct (Z.ltb_spec i len); [lia|]. exists s. split; [reflexivity|].
    split; [intros; lia|]. split; [intros e []|]. split; [reflexivity|]. tauto.
  - destruct (Z.ltb_spec i len); [|lia].
    rewrite bind_assoc, bind_load by lia.
    pose proof (Hsl 0%nat ltac:(lia)) as H0. cbn [nth] in H0.
    rewrite Z.add_0_r in H0. rewrite H0, bind_assoc.
    assert (Hin_e : e <> 0 -> In e (non_nil (e :: es))).
    { intros E0. apply non_nil_In. split; [now left|exact E0]. }
    assert (Hstep : exists s1,
              unshare REF_COUNT_GC (S (S n)) e s = Ok (tt, s1) /\
              (e <> 0 ->
               peek (heap s1) e
               = set_ref_count (peek (heap s) e) (hdr_ref_count (peek (heap s) e) - 1)) /\
              (forall j, 0 <= j -> (e <> 0 -> j <> e) ->
                         peek (heap s1) j = peek (heap s) j) /\
              length (heap s1) = length (heap s) /\
              top s1 = top s /\ root s1 = root s /\ live s1 = live s /\
              forwarding s1 = forwarding s /\ log_ready s1 = log_ready s /\
              frees (out s1) = frees (out s)).
    { destruct (Z.eq_dec e 0) as [E0|E0].
      - exists s. rewrite E0. split; [reflexivity|]. split; [contradiction|].
        split; [reflexivity|]. tauto.
      - destruct (Hes e (Hin_e E0)) as (A & B & C).
        pose proof (hdr_ref_count_range (peek (heap s) e)) as Hr.
        pose proof (occurrences_nonneg e (e :: es)) as Ho.
        rewrite occurrences_cons, Z.eqb_refl in C.
        pose proof (occurrences_nonneg e es) as Ho'.
        rewrite unshare_eq by (try lia; rewrite Z.mod_small; lia).
        eexists. split; [reflexivity|].
        rewrite heap_emit_st, top_emit_st, root_emit_st, live_emit_st,
          forwarding_emit_st, log_ready_emit_st, frees_emit_st by reflexivity.
        norm. split; [intros _; apply peek_poke_eq; lia|].
        split.
        { intros j Hj Hne. specialize (Hne E0). apply peek_poke_neq; lia. }
        split; [apply length_poke|]. tauto. }
    destruct Hstep as (s1 & E1 & P1 & Q1 & Len1 & T1 & R1 & L1 & F1 & G1 & O1).
    rewrite (bind_eq _ _ _ _ _ E1). rewrite bind_store by lia.
    set (s2 := with_heap s1 (poke (heap s1) (t + 2 + i) 0)).
    assert (Hout : forall e', In e' (non_nil (e :: es)) ->
              0 < e' < HeapSize /\ (e' < t \/ t + 2 + len <= e')).
    { intros e' Hin. destruct (Hes e' Hin) as (A & B & _). tauto. }
    assert (Q2 : forall j, 0 <= j -> (e <> 0 -> j <> e) -> j <> t + 2 + i ->
                 peek (heap s2) j = peek (heap s) j).
    { intros j Hj J1 J2. unfold s2. norm. rewrite peek_poke_neq by lia.
      apply Q1; auto. }
    assert (P2 : e <> 0 ->
                 peek (heap s2) e
                 = set_ref_count (peek (heap s) e) (hdr_ref_count (peek (heap s) e) - 1)).
    { intros E0. destruct (Hout e (Hin_e E0)) as (A & B).
      unfold s2. norm. rewrite peek_poke_neq by lia. apply P1, E0. }
    assert (Hcnt2 : forall e', In e' (non_nil es) ->
              hdr_ref_count (peek (heap s2) e')
              = hdr_ref_count (peek (heap s) e') - (if e' =? e then 1 else 0)).
    { intros e' Hin. apply non_nil_In in Hin. destruct Hin as [Hin Hne].
      assert (Hin' : In e' (non_nil (e :: es))).
      { apply non_nil_In. split; [now right|exact Hne]. }
      destruct (Hes e' Hin') as (A & B & C).
      pose proof (hdr_ref_count_range (peek (heap s) e')) as Hr.
      pose proof (occurrences_nonneg e' (e :: es)) as Ho.
      destruct (Z.eqb_spec e' e) as [->|Hd].
      - rewrite P2 by exact Hne. rewrite hdr_ref_count_set. apply Z.mod_small. lia.
      - rewrite Q2 by (auto; lia). lia. }
    assert (LenA : Z.of_nat (length (heap s2)) = HeapSize).
    { unfold s2. norm. rewrite length_poke. congruence. }
    destruct (IH F (i + 1) s2 ltac:(lia) Ht Hfit LenA)
      as (s' & E & Z' & P' & Q' & Len' & T' & R' & L' & F' & G' & O').
    { rewrite Q2; [exact Pl|lia| |lia]. intros E0. destruct (Hout e (Hin_e E0)). lia. }
    { lia. }
    { lia. }
    { intros q Hq. rewrite Q2.
      - replace (t + 2 + (i + 1) + Z.of_nat q) with (t + 2 + i + Z.of_nat (S q)) by lia.
        rewrite (Hsl (S q) ltac:(lia)). reflexivity.
      - lia.
      - intros E0. destruct (Hout e (Hin_e E0)). lia.
      - lia. }
    { intros e' Hin.
      assert (Hin' : In e' (non_nil (e :: es))).
      { apply non_nil_In. apply non_nil_In in Hin. split; [now right|tauto]. }
      destruct (Hes e' Hin') as (A & B & C).
      split; [exact A|]. split; [exact B|].
      rewrite (Hcnt2 e' Hin). rewrite occurrences_cons in C.
      destruct (e' =? e); lia. }
    exists s'. split; [exact E|].
    split.
    { intros j Hj. destruct (Z.eq_dec j i) as [->|Hne]; [|apply Z'; lia].
      rewrite Q'; try lia.
      - unfold s2. norm. apply peek_poke_eq. lia.
      - intros X. destruct (Hout (t + 2 + i)) as (_ & B); [|lia].
        apply non_nil_In. apply non_nil_In in X. split; [now right|tauto]. }
    split.
    { intros e' Hin. rewrite occurrences_cons.
      pose proof (Hin) as Hin2. apply non_nil_In in Hin2. destruct Hin2 as [Hin2 Hne].
      destruct (Hes e' Hin) as (A & B & C).
      destruct (in_dec Z.eq_dec e' es) as [Hi2|Hn2].
      - assert (Hin3 : In e' (non_nil es)) by (apply non_nil_In; tauto).
        rewrite (P' e' Hin3), (Hcnt2 e' Hin3).
        destruct (Z.eqb_spec e' e) as [->|Hd].
        + rewrite P2 by exact Hne. rewrite set_ref_count_set.
          f_equal; try lia.
        + rewrite Q2 by (auto; lia). f_equal; try lia.
      - destruct Hin2 as [<-|Hin2]; [|contradiction].
        rewrite Q'.
        + rewrite P2 by exact Hne. rewrite Z.eqb_refl, occurrences_notin by exact Hn2.
          f_equal; try lia.
        + lia.
        + destruct (Hout e Hin). lia.
        + intros X. apply non_nil_In in X. tauto. }
    split.
    { intros j Hj Jo Hnin.
      assert (Hn1 : ~ In j (non_nil es)).
      { intros X. apply Hnin. apply non_nil_In. apply non_nil_In in X.
        split; [now right|tauto]. }
      rewrite (Q' j Hj ltac:(lia) Hn1). apply Q2; [exact Hj| |lia].
      intros E0 ->. apply Hnin. apply Hin_e. exact E0. }
    split; [rewrite Len'; unfold s2; norm; rewrite length_poke; exact Len1|].
    unfold s2 in *. norm. repeat split; congruence.
Qed.






Lemma emit_st_off e s : log_ready s = false -> emit_st e s = s.
Proof. intros H. unfold emit_st. rewrite H. reflexivity. Qed.

Lemma frees_free_st m l z s :
  frees (out (free_st m l z s))
  = frees (out s) ++ (if log_ready s then [EFree l z] else []).
Proof.
  destruct (log_ready s) eqn:E; [now apply free_st_out|].
  rewrite app_nil_r. unfold free_st. cbv zeta.
  destruct (init_st_frame m l TFree s) as (_ & _ & _ & _ & _ & G).
  rewrite emit_st_off by (norm; congruence). norm.
  unfold init_st. cbv zeta. norm.
  destruct (is_ref_count m).
  - rewrite (emit_st_off (EInit l TFree)) by exact E.
    rewrite emit_st_off by exact E. reflexivity.
  - rewrite emit_st_off by exact E. reflexivity.
Qed.

(** The last reference to a Tup goes away under reference counting:
    the objects in its slots lose one count per slot that names them
    (none of them reaches zero), and the Tup becomes a Free record. *)
Lemma unshare_backing_spec n t N s :
  0 < t -> 0 <= N -> t + 2 + N <= HeapSize ->
  Z.of_nat (length (heap s)) = HeapSize ->
  ty (heap s) t = TTup -> peek (heap s) (t + 1) = N ->
  hdr_ref_count (peek (heap s) t) = 1 ->
  (forall e, In e (non_nil (slots (heap s) t)) ->
     0 < e < HeapSize /\ (e < t \/ t + 2 + N <= e) /\
     occurrences e (slots (heap s) t) < hdr_ref_count (peek (heap s) e)) ->
  (Z.to_nat N < S (S n))%nat ->
  exists s',
    unshare REF_COUNT_GC (S (S (S (S (S n))))) t s = Ok (tt, s') /\
    ty (heap s') t = TFree /\ peek (heap s') (t + 1) = 2 + N /\
    (forall j, 0 <= j < N -> peek (heap s') (t + 2 + j) = 0) /\
    (forall e, In e (non_nil (slots (heap s) t)) ->
       peek (heap s') e
       = set_ref_count (peek (heap s) e)
           (hdr_ref_count (peek (heap s) e) - occurrences e (slots (heap s) t))) /\
    (forall j, 0 <= j -> j < t \/ t + 2 + N <= j ->
       ~ In j (non_nil (slots (heap s) t)) -> peek (heap s') j = peek (heap s) j) /\
    length (heap s') = length (heap s) /\
    top s' = top s /\ root s' = root s /\ live s' = live s /\
    forwarding s' = forwarding s /\ log_ready s' = log_ready s /\
    frees (out s')
    = frees (out s) ++ (if log_ready s then [EFree t (2 + N)] else []).
Proof.
  intros Ht HN Hfit Hlen Hty Pc Hcnt Hes Hn.
  set (es := slots (heap s) t) in *.
  assert (Hesl : length es = Z.to_nat N).
  { unfold es, slots. rewrite Pc. apply length_peeks. }
  set (hA := poke (heap s) t (set_ref_count (peek (heap s) t) 0)).
  set (sA := emit_st (ERefCount t 0) (with_heap s hA)).
  assert (HhA : heap sA = hA) by (unfold sA; now rewrite heap_emit_st).
  assert (QA : forall j, 0 <= j -> j <> t -> peek (heap sA) j = peek (heap s) j).
  { intros j Hj Hne. rewrite HhA. unfold hA. apply peek_poke_neq; lia. }
  assert (TyA : ty (heap sA) t = TTup).
  { unfold ty. rewrite HhA. unfold hA. rewrite peek_poke_eq by lia.
    rewrite hdr_type_set_ref_count. exact Hty. }
  assert (LenA : Z.of_nat (length (heap sA)) = HeapSize).
  { rewrite HhA. unfold hA. rewrite length_poke. exact Hlen. }
  destruct (cleanup_dec_loop n t N es (S (S n)) 0 sA ltac:(lia) ltac:(lia) Hfit
              LenA ltac:(rewrite QA by lia; exact Pc) ltac:(lia) ltac:(lia))
    as (sB & EB & ZB & PB & QB & LenB & TB & RB & LB & FB & GB & OB).
  { intros q Hq. rewrite QA by lia. unfold es, slots. rewrite Pc.
    rewrite nth_peeks by lia. f_equal. lia. }
  { intros e He. destruct (Hes e He) as (A & B & C).
    rewrite QA by lia. tauto. }
  assert (Hnt : forall j, j = t \/ j = t + 1 -> ~ In j (non_nil es)).
  { intros j Hj X. destruct (Hes j X) as (_ & B & _). lia. }
  assert (PLB : peek (heap sB) t = peek (heap sA) t).
  { apply QB; [lia|lia|]. apply Hnt. now left. }
  assert (PKB : peek (heap sB) (t + 1) = N).
  { rewrite QB; [|lia|lia|apply Hnt; now right]. rewrite QA by lia. exact Pc. }
  assert (TyB : ty (heap sB) t = TTup) by (unfold ty; rewrite PLB; exact TyA).
  assert (Hu : to_UWd (2 + N) = 2 + N).
  { apply to_UWd_small. unfold HeapSize in *. lia. }
  assert (SzB : size_of (heap sB) t = 2 + N).
  { unfold size_of. rewrite TyB, PKB. change (TTup =? TNum) with false.
    change (TTup =? TTup) with true. cbv iota. exact Hu. }
  destruct (free_st_frame REF_COUNT_GC t (2 + N) sB) as (Fh & Ft & Fr & Fl & Ff & Fg).
  exists (free_st REF_COUNT_GC t (2 + N) sB). split.
  { cbn [unshare]. destruct (Z.eqb_spec t 0); [lia|].
    cbn [dec_ref_count]. change (is_ref_count REF_COUNT_GC) with true. cbv iota.
    rewrite !bind_assoc, bind_load by lia. cbv zeta.
    rewrite !bind_assoc, bind_store by lia. unfold log_ref_count.
    rewrite !bind_assoc, bind_emit. rewrite hdr_ref_count_set, Hcnt.
    change ((1 - 1) mod 256) with 0. change (0 =? 0) with true. cbv iota.
    change (1 - 1) with 0. fold hA. fold sA.
    rewrite !bind_assoc. cbn [Obj_cleanup]. unfold Obj_type.
    rewrite !bind_assoc, bind_load by lia. rewrite bind_ret.
    fold (ty (heap sA) t). rewrite TyA.
    change (TTup =? TTup) with true. cbv iota.
    rewrite (bind_eq _ _ _ _ _ EB). rewrite bind_ret.
    rewrite (bind_eq _ _ _ _ _
               (Obj_size_eq t sB ltac:(lia) ltac:(lia)
                  ltac:(rewrite TyB; discriminate))).
    rewrite SzB. apply Mem_free_eq; try lia. }
  split.
  { unfold ty. rewrite Fh, peek_poke_neq, peek_poke_eq by lia.
    apply hdr_type_init_hdr. unfold TFree. lia. }
  split.
  { rewrite Fh, peek_poke_eq by (rewrite length_poke; lia). exact Hu. }
  split.
  { intros j Hj. rewrite Fh, !peek_poke_neq by lia. apply ZB. lia. }
  split.
  { intros e He. destruct (Hes e He) as (A & B & C).
    rewrite Fh, !peek_poke_neq by lia. rewrite (PB e He).
    rewrite QA by lia. reflexivity. }
  split.
  { intros j Hj Jo Jn. rewrite Fh, !peek_poke_neq by lia.
    rewrite QB by (auto; lia). apply QA; lia. }
  split.
  { rewrite Fh, !length_poke, LenB, HhA. unfold hA. apply length_poke. }
  rewrite frees_free_st.
  unfold sA in *.
  rewrite ?top_emit_st, ?root_emit_st, ?live_emit_st, ?forwarding_emit_st,
    ?log_ready_emit_st, ?frees_emit_st in * by reflexivity.
  norm.
  split; [congruence|]. split; [congruence|]. split; [congruence|].
  split; [congruence|]. split; [congruence|].
  rewrite GB, OB. reflexivity.
Qed.




(** * Reading a Vec of rows: [Vec::get(i, j)] *)

Lemma container_ok_inv h r :
  container_ok h r = true ->
  0 <= r /\ r + 1 < HeapSize /\
  (ty h r = TTup -> r + 2 + peek h (r + 1) <= HeapSize) /\
  (ty h r = TVec ->
   r + 2 < HeapSize /\ 0 <= peek h (r + 2) /\
   0 <= peek h (peek h (r + 2) + 1) /\
   peek h (r + 2) + 2 + peek h (peek h (r + 2) + 1) <= HeapSize /\
   (r + 2 < peek h (r + 2) \/
    peek h (r + 2) + 2 + peek h (peek h (r + 2) + 1) <= r)).
Proof.
  unfold container_ok. cbv zeta. intros H.
  apply andb_true_iff in H. destruct H as (H & H3).
  apply andb_true_iff in H. destruct H as (H1 & H2).
  apply Z.leb_le in H1. apply Z.ltb_lt in H2.
  split; [exact H1|]. split; [exact H2|]. split.
  - intros E. rewrite E in H3. change (TTup =? TTup) with true in H3.
    cbv iota in H3. apply Z.leb_le in H3. exact H3.
  - intros E. rewrite E in H3. change (TVec =? TTup) with false in H3.
    change (TVec =? TVec) with true in H3. cbv iota in H3.
    apply andb_true_iff in H3. destruct H3 as (H3 & H7).
    apply andb_true_iff in H3. destruct H3 as (H3 & H6).
    apply andb_true_iff in H3. destruct H3 as (H3 & H8).
    apply andb_true_iff in H3. destruct H3 as (H4 & H5).
    apply Z.ltb_lt in H4. apply Z.leb_le in H5. apply Z.leb_le in H6.
    apply Z.leb_le in H8.
    apply orb_true_iff in H7.
    rewrite Z.ltb_lt, Z.leb_le in H7. tauto.
Qed.

(** The step [get(j)] on a Tup or Vec, as [Vec::get(i, j)] takes it on
    the row, and as [Vec::get(i)] is on the Vec itself. *)
Lemma get_elem_spec m r j s :
  container_ok (heap s) r = true -> 0 <= j ->
  match elem_at (heap s) r j with
  | None =>
      ty (heap s) r = TTup \/ ty (heap s) r = TVec ->
      (if ty (heap s) r =? TTup then Tup_get m r j else Vec_get m r j) s = Abort
  | Some x =>
      0 <= x < HeapSize ->
      exists s',
        (if ty (heap s) r =? TTup then Tup_get m r j else Vec_get m r j) s
        = Ok (x, s') /\
        heap s' = poke (heap s) x
                    (set_ref_count (peek (heap s) x)
                       (hdr_ref_count (peek (heap s) x)
                        + (if is_ref_count m then 1 else 0))) /\
        top s' = top s /\ root s' = x :: root s /\ live s' = live s /\
        forwarding s' = forwarding s /\ log_ready s' = log_ready s /\
        frees (out s') = frees (out s)
  end.
Proof.
  intros Hok Hj. destruct (container_ok_inv _ _ Hok) as (Hr & Hr1 & HT & HV).
  unfold elem_at.
  destruct (Z.eqb_spec (ty (heap s) r) TTup) as [ET|ET].
  - specialize (HT ET).
    destruct (Z.ltb_spec j (peek (heap s) (r + 1))) as [Hlt|Hge].
    + intros Hx. apply Tup_get_spec; auto; lia.
    + intros _. unfold Tup_get. rewrite bind_load by lia.
      destruct (Z.ltb_spec j (peek (heap s) (r + 1))); [lia|]. reflexivity.
  - destruct (Z.eqb_spec (ty (heap s) r) TVec) as [EV|EV].
    2:{ intros [H|H]; contradiction. }
    destruct (HV EV) as (Hr2 & Ht & Hcap & Hfit & Hdis).
    destruct (Z.ltb_spec j (peek (heap s) (r + 1))) as [Hlt|Hge]; cbn [andb].
    + destruct (Z.ltb_spec j (peek (heap s) (peek (heap s) (r + 2) + 1)))
        as [Hlt2|Hge2].
      * intros Hx.
        destruct (Tup_get_spec m (peek (heap s) (r + 2)) j s Ht Hfit ltac:(lia) Hx)
          as (s' & E & H).
        exists s'. split; [|exact H].
        unfold Vec_get. rewrite bind_load by lia.
        destruct (Z.ltb_spec j (peek (heap s) (r + 1))); [|lia].
        rewrite bind_assert_true by reflexivity. rewrite bind_load by lia.
        exact E.
      * intros _. unfold Vec_get. rewrite bind_load by lia.
        destruct (Z.ltb_spec j (peek (heap s) (r + 1))); [|lia].
        rewrite bind_assert_true by reflexivity. rewrite bind_load by lia.
        unfold Tup_get. rewrite bind_load by lia.
        destruct (Z.ltb_spec j (peek (heap s) (peek (heap s) (r + 2) + 1)));
          [lia|]. reflexivity.
    + intros _. unfold Vec_get. rewrite bind_load by lia.
      destruct (Z.ltb_spec j (peek (heap s) (r + 1))); [lia|]. reflexivity.
Qed.

(** What [elem_at] and [container_ok] read at [r] is not the header
    of [r]'s count. *)
Lemma elem_at_count h r c j :
  container_ok h r = true -> 0 <= j ->
  Z.of_nat (length h) = HeapSize ->
  let h' := poke h r (set_ref_count (peek h r) c) in
  ty h' r = ty h r /\ elem_at h' r j = elem_at h r j /\
  container_ok h' r = container_ok h r.
Proof.
  intros Hok Hj Hlen h'.
  destruct (container_ok_inv _ _ Hok) as (Hr & Hr1 & HT & HV).
  assert (Ty : ty h' r = ty h r).
  { unfold ty, h'. rewrite peek_poke_eq by lia. apply hdr_type_set_ref_count. }
  assert (P1 : peek h' (r + 1) = peek h (r + 1))
    by (unfold h'; apply peek_poke_neq; lia).
  assert (P2 : peek h' (r + 2) = peek h (r + 2))
    by (unfold h'; apply peek_poke_neq; lia).
  split; [exact Ty|].
  unfold elem_at, container_ok. cbv zeta. rewrite Ty, P1, P2.
  destruct (Z.eqb_spec (ty h r) TTup) as [ET|ET].
  - split; [|reflexivity].
    destruct (j <? peek h (r + 1)); [|reflexivity].
    unfold h'. rewrite peek_poke_neq by lia. reflexivity.
  - destruct (Z.eqb_spec (ty h r) TVec) as [EV|EV]; [|split; reflexivity].
    destruct (HV EV) as (Hr2 & Ht & Hcap & Hfit & Hdis).
    assert (P3 : peek h' (peek h (r + 2) + 1) = peek h (peek h (r + 2) + 1)).
    { unfold h'. apply peek_poke_neq; lia. }
    rewrite P3. split; [|reflexivity].
    destruct (Z.ltb_spec j (peek h (r + 1))); [|reflexivity].
    destruct (Z.ltb_spec j (peek h (peek h (r + 2) + 1))); [|reflexivity].
    cbn [andb]. unfold h'. rewrite peek_poke_neq by lia. reflexivity.
Qed.

(** [~ObjRef] of the handle under the newest one, when its object
    keeps at least one reference. *)
Lemma ObjRef_destroy_second_spec m n a x rest s :
  root s = a :: x :: rest -> 0 <= x < HeapSize ->
  (is_ref_count m = true -> (hdr_ref_count (peek (heap s) x) - 1) mod 256 <> 0) ->
  exists s',
    ObjRef_destroy m (S n) 1 s = Ok (tt, s') /\
    heap s' = poke (heap s) x
                (set_ref_count (peek (heap s) x)
                   (hdr_ref_count (peek (heap s) x)
                    - (if is_ref_count m then 1 else 0))) /\
    top s' = top s /\ root s' = a :: rest /\ live s' = live s /\
    forwarding s' = forwarding s /\ log_ready s' = log_ready s /\
    frees (out s') = frees (out s).
Proof.
  intros Hr Hx Hnz.
  destruct (dec_ref_count_spec m n x (with_root s (a :: rest)) Hx Hnz)
    as (s1 & E & H & T & R & L & F & G & O).
  exists s1. split.
  { unfold ObjRef_destroy. rewrite bind_gets, Hr. cbn [nth_error].
    rewrite bind_modify, Hr. cbn [remove_nth].
    rewrite (bind_eq _ _ _ _ _ E). reflexivity. }
  norm. tauto.
Qed.

(** The cases of [Vec::get(i, j)]. *)
Lemma Vec_get2_cases :
  forall m n v i j s,
    0 <= i -> 0 <= j ->
    Z.of_nat (length (heap s)) = HeapSize ->
    ty (heap s) v = TVec -> container_ok (heap s) v = true ->
    (forall r, elem_at (heap s) v i = Some r ->
       container_ok (heap s) r = true /\
       (forall x, elem_at (heap s) r j = Some x ->
          0 <= x < HeapSize /\
          (is_ref_count m = true ->
           1 <= hdr_ref_count (peek (heap s) r) <= 253))) ->
    match elem_at (heap s) v i with
    | None => Vec_get2 m (S n) v i j s = Abort
    | Some r =>
        match elem_at (heap s) r j with
        | None => Vec_get2 m (S n) v i j s = Abort
        | Some x =>
            exists s',
              Vec_get2 m (S n) v i j s = Ok (x, s') /\
              root s' = x :: root s /\ top s' = top s /\
              peek (heap s') x
              = set_ref_count (peek (heap s) x)
                  (hdr_ref_count (peek (heap s) x)
                   + (if is_ref_count m then 1 else 0)) /\
              (forall l, 0 <= l -> l <> x -> peek (heap s') l = peek (heap s) l) /\
              frees (out s') = frees (out s) /\
              length (heap s') = length (heap s) /\ live s' = live s /\
              forwarding s' = forwarding s /\ log_ready s' = log_ready s
        end
    end.
Proof.
  intros m n v i j s Hi Hj Hlen Tyv Hokv Hrow.
  set (k := if is_ref_count m then 1 else 0).
  assert (Hk : 0 <= k <= 1) by (unfold k; destruct (is_ref_count m); lia).
  pose proof (get_elem_spec m v i s Hokv Hi) as G1.
  rewrite Tyv in G1. change (TVec =? TTup) with false in G1. cbv iota in G1.
  destruct (elem_at (heap s) v i) as [r|] eqn:Er.
  2:{ unfold Vec_get2. apply bind_abort. apply G1. now right. }
  destruct (Hrow r eq_refl) as (Hokr & Hx).
  destruct (container_ok_inv _ _ Hokr) as (Hr & Hr1 & _ & _).
  destruct (G1 ltac:(lia)) as (s1 & E1 & H1 & T1 & R1 & L1 & F1 & Gl1 & O1).
  fold k in H1.
  destruct (elem_at_count (heap s) r (hdr_ref_count (peek (heap s) r) + k) j
              Hokr Hj Hlen) as (Ty1 & El1 & Ok1).
  rewrite <- H1 in Ty1, El1, Ok1.
  assert (Len1 : Z.of_nat (length (heap s1)) = HeapSize).
  { rewrite H1, length_poke. exact Hlen. }
  assert (Hhead :
            Vec_get2 m (S n) v i j s
            = (ty_ <- ret (ty (heap s) r) ;;
               assert ((ty_ =? TTup) || (ty_ =? TVec)) ;;
               x <- (if ty_ =? TTup then Tup_get m r j else Vec_get m r j) ;;
               ObjRef_destroy m (S n) 1 ;; ret x) s1).
  { unfold Vec_get2. rewrite (bind_eq _ _ _ _ _ E1).
    unfold Obj_type. rewrite !bind_assoc, bind_load by lia.
    fold (ty (heap s1) r). rewrite Ty1. reflexivity. }
  rewrite Hhead. clear Hhead. rewrite bind_ret.
  pose proof (get_elem_spec m r j s1 ltac:(rewrite Ok1; exact Hokr) Hj) as G2.
  rewrite El1, Ty1 in G2.
  destruct (elem_at (heap s) r j) as [x|] eqn:Ex.
  2:{ destruct (Z.eqb_spec (ty (heap s) r) TTup) as [ET|ET].
      - cbn [orb]. rewrite bind_assert_true by reflexivity.
        apply bind_abort. apply G2. now left.
      - destruct (Z.eqb_spec (ty (heap s) r) TVec) as [EV|EV].
        + cbn [orb]. rewrite bind_assert_true by reflexivity.
          apply bind_abort. apply G2. now right.
        + reflexivity. }
  assert (Hty : (ty (heap s) r =? TTup) || (ty (heap s) r =? TVec) = true).
  { unfold elem_at in Ex.
    destruct (ty (heap s) r =? TTup); [reflexivity|].
    destruct (ty (heap s) r =? TVec); [reflexivity|discriminate]. }
  destruct (Hx x eq_refl) as (Hxr & Hcnt).
  destruct (G2 Hxr) as (s2 & E2 & H2 & T2 & R2 & L2 & F2 & Gl2 & O2).
  fold k in H2.
  pose proof (hdr_ref_count_range (peek (heap s) r)) as Hc.
  set (w := peek (heap s) r) in *. set (c := hdr_ref_count w) in *.
  assert (Hc' : 0 <= c + k < 256 /\ 0 <= c + k + k < 256).
  { unfold k in *. destruct (is_ref_count m); [specialize (Hcnt eq_refl)|]; lia. }
  assert (P1r : peek (heap s1) r = set_ref_count w (c + k)).
  { rewrite H1. apply peek_poke_eq. lia. }
  assert (P2r : peek (heap s2) r
                = set_ref_count w (c + k + (if x =? r then k else 0))).
  { rewrite H2. destruct (Z.eqb_spec x r) as [E|E].
    - subst x. rewrite peek_poke_eq by lia. rewrite P1r.
      apply set_ref_count_step. lia.
    - rewrite peek_poke_neq by lia. rewrite P1r. f_equal. lia. }
  destruct (ObjRef_destroy_second_spec m n x r (root s) s2)
    as (s3 & E3 & H3 & T3 & R3 & L3 & F3 & Gl3 & O3).
  { congruence. }
  { lia. }
  { intros Em. rewrite P2r, hdr_ref_count_set. specialize (Hcnt Em).
    unfold k in *. rewrite Em in *.
    destruct (x =? r);
      [rewrite (Z.mod_small (c + 1 + 1)) by lia
      |rewrite (Z.mod_small (c + 1 + 0)) by lia];
      rewrite Z.mod_small by lia; lia. }
  exists s3. split.
  { rewrite Hty. rewrite bind_assert_true by reflexivity.
    rewrite (bind_eq _ _ _ _ _ E2). rewrite (bind_eq _ _ _ _ _ E3).
    reflexivity. }
  split; [exact R3|]. split; [congruence|].
  assert (P3r : peek (heap s3) r
                = set_ref_count w (c + (if x =? r then k else 0))).
  { rewrite H3, peek_poke_eq by (rewrite H2, length_poke; lia).
    rewrite P2r. fold k.
    replace (hdr_ref_count (set_ref_count w (c + k + (if x =? r then k else 0)))
             - k)
      with (hdr_ref_count (set_ref_count w (c + k + (if x =? r then k else 0)))
            + - k) by lia.
    rewrite set_ref_count_step by (destruct (x =? r); lia).
    f_equal. lia. }
  split.
  { destruct (Z.eqb_spec x r) as [E|E].
    - subst x. exact P3r.
    - rewrite H3, peek_poke_neq by lia. rewrite H2, peek_poke_eq by lia.
      rewrite H1, peek_poke_neq by lia. reflexivity. }
  split.
  { intros l Hl Hne. destruct (Z.eq_dec l r) as [E|E].
    - subst l. rewrite P3r. destruct (Z.eqb_spec x r); [congruence|].
      rewrite Z.add_0_r. apply set_ref_count_same.
    - rewrite H3, peek_poke_neq by lia. rewrite H2, peek_poke_neq by lia.
      rewrite H1. apply peek_poke_neq; lia. }
  split; [congruence|].
  split; [rewrite H3, length_poke, H2, length_poke, H1, length_poke; reflexivity|].
  split; [congruence|]. split; congruence.
Qed.


(** [Vec::get(i, j)] on a Vec of rows, each a Tup or a Vec, answers
    with a handle on element [j] of row [i]: the handle is the newest
    of the root list and the only one added, since the handle that the
    call takes on the row is gone when it returns.  Under reference
    counting the element has one reference more and the count of the
    row is what it was; the heap is otherwise unchanged and nothing is
    freed.  The call stops on an assertion when [i] is not below the
    length of the Vec (or of its backing Tup), when the row is neither
    a Tup nor a Vec, and when [j] is not below the length of the row. *)
Theorem get2_reads_cell :
  forall m n v i j s,
    0 <= i -> 0 <= j ->
    Z.of_nat (length (heap s)) = HeapSize ->
    ty (heap s) v = TVec -> container_ok (heap s) v = true ->
    (forall r, elem_at (heap s) v i = Some r ->
       container_ok (heap s) r = true /\
       (forall x, elem_at (heap s) r j = Some x ->
          0 <= x < HeapSize /\
          (is_ref_count m = true ->
           1 <= hdr_ref_count (peek (heap s) r) <= 253))) ->
    match elem_at (heap s) v i with
    | None => Vec_get2 m (S n) v i j s = Abort
    | Some r =>
        match elem_at (heap s) r j with
        | None => Vec_get2 m (S n) v i j s = Abort
        | Some x =>
            exists s',
              Vec_get2 m (S n) v i j s = Ok (x, s') /\
              root s' = x :: root s /\ top s' = top s /\
              peek (heap s') x
              = set_ref_count (peek (heap s) x)
                  (hdr_ref_count (peek (heap s) x)
                   + (if is_ref_count m then 1 else 0)) /\
              (forall l, 0 <= l -> l <> x -> peek (heap s') l = peek (heap s) l) /\
              frees (out s') = frees (out s)
        end
    end.
Proof.
  intros m n v i j s Hi Hj Hlen Tyv Hokv Hrow.
  pose proof (Vec_get2_cases m n v i j s Hi Hj Hlen Tyv Hokv Hrow) as H.
  destruct (elem_at (heap s) v i) as [r|]; [|exact H].
  destruct (elem_at (heap s) r j) as [x|]; [|exact H].
  destruct H as (s' & H1 & H2 & H3 & H4 & H5 & H6 & _).
  exists s'. tauto.
Qed.

Lemma get2_reads_cell_witness :
  exists s',
    Vec_get2 REF_COUNT_GC 1 1 0 1 (tup_row_state REF_COUNT_GC) = Ok (12, s') /\
    root s' = [12; 12; 8; 1; 0].
Proof.
  set (s := tup_row_state REF_COUNT_GC).
  assert (E1 : elem_at (heap s) 1 0 = Some 8) by (vm_compute; reflexivity).
  assert (E2 : elem_at (heap s) 8 1 = Some 12) by (vm_compute; reflexivity).
  assert (Hc : hdr_ref_count (peek (heap s) 8) = 2) by (vm_compute; reflexivity).
  assert (Hr : root s = [12; 8; 1; 0]) by (vm_compute; reflexivity).
  assert (Hrow : forall r, elem_at (heap s) 1 0 = Some r ->
            container_ok (heap s) r = true /\
            (forall x, elem_at (heap s) r 1 = Some x ->
               0 <= x < HeapSize /\
               (is_ref_count REF_COUNT_GC = true ->
                1 <= hdr_ref_count (peek (heap s) r) <= 253))).
  { rewrite E1. intros r Heq. injection Heq as <-.
    split; [vm_compute; reflexivity|].
    rewrite E2. intros x Heq. injection Heq as <-.
    rewrite Hc. unfold HeapSize. lia. }
  pose proof (get2_reads_cell REF_COUNT_GC 0 1 0 1 s ltac:(lia) ltac:(lia)
                ltac:(vm_compute; reflexivity) ltac:(vm_compute; reflexivity)
                ltac:(vm_compute; reflexivity) Hrow) as H.
  rewrite E1, E2 in H. destruct H as (s' & H1 & H2 & _).
  exists s'. split; [exact H1|]. rewrite H2, Hr. reflexivity.
Defined.

(** * Searching a column: [VecRef::contains] *)

(** [Obj::equals] does not look at reference counts. *)
Lemma equals_val_frame h h' a x :
  0 <= a -> 0 <= x -> x <> a + 1 -> (ty h a = TStr -> x <> a + 2) ->
  hdr_type (peek h' x) = hdr_type (peek h x) ->
  (forall l, 0 <= l -> l <> x -> peek h' l = peek h l) ->
  equals_val h' a x = equals_val h a x.
Proof.
  intros Ha Hx H1 H2 Hty Hfr.
  assert (Tyx : ty h' x = ty h x) by exact Hty.
  assert (Tya : ty h' a = ty h a).
  { destruct (Z.eq_dec a x) as [E|E]; [subst a; exact Tyx|].
    unfold ty. now rewrite Hfr by lia. }
  unfold equals_val. rewrite Tya, Tyx.
  rewrite (Hfr (a + 1)), (Hfr (x + 1)), (Hfr (x + 2)) by lia.
  destruct (ty h a =? TNum); [reflexivity|].
  destruct (Z.eqb_spec (ty h a) TStr) as [E|E]; [|reflexivity].
  rewrite (Hfr (a + 2)) by (specialize (H2 E); lia). reflexivity.
Qed.

Section Contains.

Variables (m : Mode) (v j obj : Z) (h : list Z).

Hypothesis Hj : 0 <= j.
Hypothesis Hlen : Z.of_nat (length h) = HeapSize.
Hypothesis Tyv : ty h v = TVec.
Hypothesis Hokv : container_ok h v = true.
Hypothesis Hobj : 0 <= obj /\ obj + 2 < HeapSize.
Hypothesis Hrows :
  forall i, 0 <= i < peek h (v + 1) ->
    exists r x,
      elem_at h v i = Some r /\ container_ok h r = true /\
      elem_at h r j = Some x /\
      0 <= x /\ x + 2 < HeapSize /\ x <> obj + 1 /\
      (ty h obj = TStr -> x <> obj + 2) /\
      (is_ref_count m = true ->
       1 <= hdr_ref_count (peek h r) <= 253 /\
       1 <= hdr_ref_count (peek h x) <= 253).

(** One round of the loop: the three handles it makes are gone at its
    end and the heap is as before. *)
Lemma contains_round n i s :
  heap s = h -> 0 <= i < peek h (v + 1) ->
  exists s',
    heap s' = h /\ top s' = top s /\ root s' = root s /\ live s' = live s /\
    forwarding s' = forwarding s /\ log_ready s' = log_ready s /\
    frees (out s') = frees (out s) /\
    forall B (K : bool -> M B),
      (other <- Vec_get2 m (S n) v i j ;;
       e <- ObjRef_equals m (S n) obj other ;;
       ObjRef_destroy m (S n) 0 ;;
       K e) s
      = K (match cell h v i j with
           | Some x => equals_val h obj x
           | None => false
           end) s'.
Proof.
  intros Hh Hi.
  destruct (Hrows i Hi) as (r & x & Er & Hokr & Ex & Hx & Hx2 & Hx3 & Hx4 & Hcnt).
  set (k := if is_ref_count m then 1 else 0).
  assert (Hk : 0 <= k <= 1) by (unfold k; destruct (is_ref_count m); lia).
  assert (Hrow' : forall r0, elem_at (heap s) v i = Some r0 ->
            container_ok (heap s) r0 = true /\
            (forall x0, elem_at (heap s) r0 j = Some x0 ->
               0 <= x0 < HeapSize /\
               (is_ref_count m = true ->
                1 <= hdr_ref_count (peek (heap s) r0) <= 253))).
  { rewrite Hh, Er. intros r0 E0. injection E0 as <-. split; [exact Hokr|].
    rewrite Ex. intros x0 E0. injection E0 as <-. split; [lia|].
    intros Em. apply Hcnt, Em. }
  pose proof (Vec_get2_cases m n v i j s ltac:(lia) Hj ltac:(rewrite Hh; exact Hlen)
                ltac:(rewrite Hh; exact Tyv) ltac:(rewrite Hh; exact Hokv) Hrow')
    as G.
  rewrite Hh, Er, Ex in G.
  destruct G as (s1 & E1 & R1 & T1 & P1 & Q1 & O1 & Len1 & L1 & F1 & G1).
  fold k in P1.
  pose proof (hdr_ref_count_range (peek h x)) as Hc.
  set (w := peek h x) in *. set (c := hdr_ref_count w) in *.
  assert (Hc' : 0 <= c + k + k < 256 /\ (is_ref_count m = true -> 1 <= c)).
  { unfold k in *. destruct (is_ref_count m).
    - destruct (Hcnt eq_refl) as (_ & Hcx). fold w c in Hcx. split; [lia|]. intros _. lia.
    - split; [lia|]. discriminate. }
  destruct Hc' as (Hc1 & Hc2).
  (* the argument of [equals] *)
  destruct (ObjRef_share_spec m x s1 ltac:(lia))
    as (s2 & E2 & H2 & T2 & R2 & L2 & F2 & G2 & O2).
  rewrite P1 in H2. fold k in H2. rewrite set_ref_count_step in H2 by lia.
  assert (P2 : peek (heap s2) x = set_ref_count w (c + k + k)).
  { rewrite H2. apply peek_poke_eq. lia. }
  assert (Q2 : forall l, 0 <= l -> l <> x -> peek (heap s2) l = peek h l).
  { intros l Hl Hne. rewrite H2, peek_poke_neq by lia. apply Q1; lia. }
  assert (Eq2 : equals_val (heap s2) obj x = equals_val h obj x).
  { apply equals_val_frame; try lia; try assumption.
    rewrite P2. apply hdr_type_set_ref_count. }
  destruct (ObjRef_destroy_spec m n x (root s1) s2)
    as (s3 & E3 & H3 & T3 & R3 & L3 & F3 & G3 & O3).
  { exact R2. }
  { lia. }
  { intros Em. rewrite P2, hdr_ref_count_set. specialize (Hc2 Em).
    unfold k in *. rewrite Em in *.
    rewrite (Z.mod_small (c + 1 + 1)) by lia. rewrite Z.mod_small by lia. lia. }
  rewrite P2 in H3. fold k in H3.
  replace (hdr_ref_count (set_ref_count w (c + k + k)) - k)
    with (hdr_ref_count (set_ref_count w (c + k + k)) + - k) in H3 by lia.
  rewrite set_ref_count_step in H3 by lia.
  replace (c + k + k + - k) with (c + k) in H3 by lia.
  assert (Len2 : Z.of_nat (length (heap s2)) = HeapSize).
  { rewrite H2, length_poke. lia. }
  assert (P3 : peek (heap s3) x = set_ref_count w (c + k)).
  { rewrite H3. apply peek_poke_eq. lia. }
  (* the handle [other] *)
  destruct (ObjRef_destroy_spec m n x (root s) s3)
    as (s4 & E4 & H4 & T4 & R4 & L4 & F4 & G4 & O4).
  { congruence. }
  { lia. }
  { intros Em. rewrite P3, hdr_ref_count_set. specialize (Hc2 Em).
    unfold k in *. rewrite Em in *.
    rewrite (Z.mod_small (c + 1)) by lia.
    replace (c + 1 - 1) with c by lia. rewrite Z.mod_small by lia. lia. }
  rewrite P3 in H4. fold k in H4.
  replace (hdr_ref_count (set_ref_count w (c + k)) - k)
    with (hdr_ref_count (set_ref_count w (c + k)) + - k) in H4 by lia.
  rewrite set_ref_count_step in H4 by lia.
  replace (c + k + - k) with c in H4 by lia.
  assert (Len3 : Z.of_nat (length (heap s3)) = HeapSize).
  { rewrite H3, length_poke. lia. }
  exists s4. split.
  { apply heap_ext.
    - rewrite H4, length_poke, H3, length_poke, H2, length_poke. lia.
    - intros l Hl. rewrite H4. destruct (Z.eq_dec l x) as [E|E].
      + subst l. rewrite peek_poke_eq by lia. apply set_ref_count_same.
      + rewrite peek_poke_neq by lia. rewrite H3, peek_poke_neq by lia.
        apply Q2; lia. }
  split; [congruence|]. split; [exact R4|]. split; [congruence|].
  split; [congruence|]. split; [congruence|]. split; [congruence|].
  intros B K. rewrite (bind_eq _ _ _ _ _ E1).
  unfold ObjRef_equals. rewrite !bind_assoc.
  rewrite (bind_eq _ _ _ _ _ E2). rewrite !bind_assoc.
  rewrite (bind_eq _ _ _ _ _ (Obj_equals_eq obj x s2 ltac:(lia) ltac:(lia)
                                ltac:(lia) ltac:(lia))).
  rewrite !bind_assoc. rewrite (bind_eq _ _ _ _ _ E3). rewrite bind_ret.
  rewrite (bind_eq _ _ _ _ _ E4).
  unfold cell. rewrite Er, Ex, Eq2. reflexivity.
Qed.

(** The loop from row [a] on, with [d] rows left. *)
Lemma contains_from_spec : forall d F a s,
  (d < F)%nat -> heap s = h -> Z.of_nat a + Z.of_nat d = peek h (v + 1) ->
  exists s',
    VecRef_contains_from m F v j obj (Z.of_nat a) s
    = Ok (existsb (fun i => match cell h v i j with
                            | Some x => equals_val h obj x
                            | None => false
                            end) (map Z.of_nat (seq a d)), s') /\
    heap s' = h /\ top s' = top s /\ root s' = root s /\ live s' = live s /\
    forwarding s' = forwarding s /\ log_ready s' = log_ready s /\
    frees (out s') = frees (out s).
Proof.
  destruct (container_ok_inv _ _ Hokv) as (Hv & Hv1 & _).
  induction d as [|d IH]; intros F a s HF Hh Hd;
    (destruct F as [|F]; [lia|]); cbn [VecRef_contains_from];
    rewrite bind_load by lia; rewrite Hh.
  - destruct (Z.ltb_spec (Z.of_nat a) (peek h (v + 1))); [lia|].
    exists s. cbn [seq map existsb]. repeat split; auto.
  - destruct (Z.ltb_spec (Z.of_nat a) (peek h (v + 1))); [|lia].
    destruct F as [|F]; [lia|].
    destruct (contains_round F (Z.of_nat a) s Hh ltac:(lia))
      as (s1 & H1 & T1 & R1 & L1 & F1 & G1 & O1 & E1).
    rewrite E1. cbn [seq map existsb].
    destruct (match cell h v (Z.of_nat a) j with
              | Some x => equals_val h obj x
              | None => false
              end).
    + exists s1. cbn [orb]. repeat split; auto.
    + cbn [orb].
      destruct (IH (S F) (S a) s1 ltac:(lia) H1 ltac:(lia))
        as (s2 & E2 & H2 & T2 & R2 & L2 & F2 & G2 & O2).
      exists s2. replace (Z.of_nat a + 1) with (Z.of_nat (S a)) by lia.
      split; [exact E2|]. repeat split; congruence.
Qed.

End Contains.

(** [VecRef::contains(j, obj)] on a Vec of rows that all have an
    element [j] is a pure query: it answers whether [Obj::equals]
    finds [obj] equal to element [j] of some row, and when it returns
    the heap, [top] and the root list are what they were (the handles
    made on the way are gone and under reference counting every count
    is back to its value) and nothing has been freed. *)
Theorem contains_is_query :
  forall m n v j obj s,
    0 <= j -> Z.of_nat (length (heap s)) = HeapSize ->
    ty (heap s) v = TVec -> container_ok (heap s) v = true ->
    0 <= peek (heap s) (v + 1) ->
    0 <= obj /\ obj + 2 < HeapSize ->
    (forall i, 0 <= i < peek (heap s) (v + 1) ->
       exists r x,
         elem_at (heap s) v i = Some r /\ container_ok (heap s) r = true /\
         elem_at (heap s) r j = Some x /\
         0 <= x /\ x + 2 < HeapSize /\ x <> obj + 1 /\
         (ty (heap s) obj = TStr -> x <> obj + 2) /\
         (is_ref_count m = true ->
          1 <= hdr_ref_count (peek (heap s) r) <= 253 /\
          1 <= hdr_ref_count (peek (heap s) x) <= 253)) ->
    (Z.to_nat (peek (heap s) (v + 1)) < n)%nat ->
    exists s',
      VecRef_contains m n v j obj s
      = Ok (some_row_equals (heap s) v j obj, s') /\
      heap s' = heap s /\ top s' = top s /\ root s' = root s /\
      frees (out s') = frees (out s).
Proof.
  intros m n v j obj s Hj Hlen Tyv Hokv Hl Hobj Hrows Hn.
  destruct (contains_from_spec m v j obj (heap s) Hj Hlen Tyv Hokv Hobj Hrows
              (Z.to_nat (peek (heap s) (v + 1))) n 0%nat s Hn eq_refl
              ltac:(lia))
    as (s' & E & H & T & R & _ & _ & _ & O).
  exists s'. split; [exact E|]. tauto.
Qed.

Lemma contains_is_query_witness :
  exists s',
    VecRef_contains REF_COUNT_GC 3 1 0 20 (two_rows_state REF_COUNT_GC)
    = Ok (true, s') /\
    root s' = root (two_rows_state REF_COUNT_GC).
Proof.
  set (s := two_rows_state REF_COUNT_GC).
  assert (Pl : peek (heap s) (1 + 1) = 2) by (vm_compute; reflexivity).
  assert (C8 : hdr_ref_count (peek (heap s) 8) = 2) by (vm_compute; reflexivity).
  assert (C12 : hdr_ref_count (peek (heap s) 12) = 2) by (vm_compute; reflexivity).
  assert (C16 : hdr_ref_count (peek (heap s) 16) = 2) by (vm_compute; reflexivity).
  assert (C18 : hdr_ref_count (peek (heap s) 18) = 2) by (vm_compute; reflexivity).
  assert (Hrows : forall i, 0 <= i < peek (heap s) (1 + 1) ->
            exists r x,
              elem_at (heap s) 1 i = Some r /\ container_ok (heap s) r = true /\
              elem_at (heap s) r 0 = Some x /\
              0 <= x /\ x + 2 < HeapSize /\ x <> 20 + 1 /\
              (ty (heap s) 20 = TStr -> x <> 20 + 2) /\
              (is_ref_count REF_COUNT_GC = true ->
               1 <= hdr_ref_count (peek (heap s) r) <= 253 /\
               1 <= hdr_ref_count (peek (heap s) x) <= 253)).
  { rewrite Pl. intros i Hi. assert (Hc : i = 0 \/ i = 1) by lia.
    destruct Hc as [E|E]; subst i.
    - exists 8, 16.
      split; [vm_compute; reflexivity|]. split; [vm_compute; reflexivity|].
      split; [vm_compute; reflexivity|]. split; [lia|].
      split; [unfold HeapSize; lia|]. split; [lia|]. split; [intros _; lia|].
      intros _. rewrite C8, C16. lia.
    - exists 12, 18.
      split; [vm_compute; reflexivity|]. split; [vm_compute; reflexivity|].
      split; [vm_compute; reflexivity|]. split; [lia|].
      split; [unfold HeapSize; lia|]. split; [lia|]. split; [intros _; lia|].
      intros _. rewrite C12, C18. lia. }
  destruct (contains_is_query REF_COUNT_GC 3 1 0 20 s ltac:(lia)
              ltac:(vm_compute; reflexivity) ltac:(vm_compute; reflexivity)
              ltac:(vm_compute; reflexivity) ltac:(rewrite Pl; lia)
              ltac:(unfold HeapSize; lia) Hrows ltac:(rewrite Pl; cbn; lia))
    as (s' & H1 & _ & _ & H4 & _).
  exists s'. split; [|exact H4].
  rewrite H1. f_equal.
Defined.

(** * Overwriting a slot: [Tup::set] on a slot that holds an object *)

(** [ObjRef::unshare] on an object that keeps a reference, or is a Num
    or Str losing its last one. *)
Lemma unshare_any m n o s :
  0 < o -> o + 1 < HeapSize -> Z.of_nat (length (heap s)) = HeapSize ->
  (is_ref_count m = true ->
   1 <= hdr_ref_count (peek (heap s) o) /\
   (hdr_ref_count (peek (heap s) o) = 1 ->
    ty (heap s) o = TNum \/ ty (heap s) o = TStr)) ->
  exists s',
    unshare m (S (S (S n))) o s = Ok (tt, s') /\
    (if is_ref_count m && (hdr_ref_count (peek (heap s) o) =? 1)
     then ty (heap s') o = TFree /\ peek (heap s') (o + 1) = size_of (heap s) o /\
          frees (out s')
          = frees (out s)
            ++ (if log_ready s then [EFree o (size_of (heap s) o)] else [])
     else peek (heap s') o
          = set_ref_count (peek (heap s) o)
              (hdr_ref_count (peek (heap s) o)
               - (if is_ref_count m then 1 else 0)) /\
          peek (heap s') (o + 1) = peek (heap s) (o + 1) /\
          frees (out s') = frees (out s)) /\
    (forall j, 0 <= j -> j <> o -> j <> o + 1 -> peek (heap s') j = peek (heap s) j) /\
    length (heap s') = length (heap s) /\
    top s' = top s /\ root s' = root s /\ live s' = live s /\
    forwarding s' = forwarding s /\ log_ready s' = log_ready s.
Proof.
  intros Ho Hb Hlen Hc.
  pose proof (hdr_ref_count_range (peek (heap s) o)) as Hr.
  destruct (is_ref_count m) eqn:Em.
  2:{ exists s. split; [apply unshare_other; exact Em|]. cbn [andb].
      rewrite Z.sub_0_r, set_ref_count_same. tauto. }
  assert (m = REF_COUNT_GC) by (destruct m; try discriminate; reflexivity).
  subst m. clear Em. destruct (Hc eq_refl) as (Hc1 & Hleaf). cbn [andb].
  set (c := hdr_ref_count (peek (heap s) o)) in *.
  set (h1 := poke (heap s) o (set_ref_count (peek (heap s) o) (c - 1))).
  destruct (Z.eqb_spec c 1) as [E|E].
  - specialize (Hleaf E).
    set (s1 := emit_st (ERefCount o 0) (with_heap s h1)).
    assert (Hd : dec_ref_count REF_COUNT_GC (S (S n)) o s = Ok (true, s1)).
    { apply dec_ref_count_zero_leaf; auto; [lia|]. fold c. rewrite E. reflexivity. }
    assert (Hh1 : heap s1 = h1) by (unfold s1; rewrite heap_emit_st; reflexivity).
    assert (Hl1 : length h1 = length (heap s)) by (unfold h1; apply length_poke).
    assert (Hty1 : ty (heap s1) o = ty (heap s) o).
    { rewrite Hh1. unfold ty, h1. rewrite peek_poke_eq by lia.
      apply hdr_type_set_ref_count. }
    assert (Hsz1 : size_of (heap s1) o = size_of (heap s) o).
    { apply size_of_ty; [exact Hty1|]. rewrite Hh1. unfold h1.
      apply peek_poke_neq; lia. }
    assert (HnF : ty (heap s1) o <> TForward).
    { rewrite Hty1. destruct Hleaf as [T|T]; rewrite T; discriminate. }
    exists (free_st REF_COUNT_GC o (size_of (heap s) o) s1).
    destruct (free_st_frame REF_COUNT_GC o (size_of (heap s) o) s1)
      as (Fh & Ft & Fr & Fl & Ff & Fg).
    split.
    { cbn [unshare]. destruct (Z.eqb_spec o 0); [lia|].
      rewrite (bind_eq _ _ _ _ _ Hd).
      rewrite (bind_eq _ _ _ _ _ (Obj_size_eq o s1 ltac:(lia) Hb HnF)).
      rewrite Hsz1. apply Mem_free_eq; try lia. rewrite Hh1, Hl1. lia. }
    split.
    { split.
      { unfold ty. rewrite Fh, peek_poke_neq, peek_poke_eq by (rewrite ?Hh1, ?Hl1; lia).
        apply hdr_type_init_hdr. unfold TFree. lia. }
      split.
      { rewrite Fh, peek_poke_eq by (rewrite length_poke, Hh1, Hl1; lia).
        apply size_of_leaf_UWd, Hleaf. }
      rewrite frees_free_st. unfold s1.
      rewrite log_ready_emit_st, frees_emit_st by reflexivity. reflexivity. }
    split.
    { intros j Hj J1 J2. rewrite Fh, Hh1. unfold h1.
      rewrite !peek_poke_neq by lia. reflexivity. }
    split; [rewrite Fh, !length_poke, Hh1; exact Hl1|].
    unfold s1 in *.
    rewrite top_emit_st, root_emit_st, live_emit_st, forwarding_emit_st,
      log_ready_emit_st in *.
    norm. repeat split; congruence.
  - assert (Hnz : (c - 1) mod 256 <> 0) by (rewrite Z.mod_small; lia).
    eexists. split; [apply unshare_eq; [lia|exact Hnz]|].
    rewrite heap_emit_st, top_emit_st, root_emit_st, live_emit_st,
      forwarding_emit_st, log_ready_emit_st, frees_emit_st by reflexivity.
    norm. fold c. fold h1.
    split.
    { split; [unfold h1; apply peek_poke_eq; lia|].
      split; [unfold h1; apply peek_poke_neq; lia|reflexivity]. }
    split; [intros j Hj J1 J2; unfold h1; apply peek_poke_neq; lia|].
    split; [apply length_poke|]. tauto.
Qed.

(** [t.set(i, obj)] on a slot that holds another object [o] stores
    [obj] there and lets [o] go.  Under reference counting [obj] gains
    one reference and [o] loses one; a Num or Str [o] that loses its
    last reference becomes, in place, a Free record of its size, with
    one free event.  In the other modes only the slot changes.  [top]
    and the root list are as before. *)
Theorem tup_set_replaces :
  forall m n loc i x o s,
    0 <= loc -> loc + 2 + peek (heap s) (loc + 1) <= HeapSize ->
    0 <= i < peek (heap s) (loc + 1) ->
    Z.of_nat (length (heap s)) = HeapSize ->
    peek (heap s) (loc + 2 + i) = o ->
    0 < o -> o + 1 < HeapSize ->
    o < loc \/ loc + 2 + peek (heap s) (loc + 1) <= o ->
    0 <= x < HeapSize -> x <> loc + 1 -> x <> loc + 2 + i ->
    x <> o -> x <> o + 1 ->
    hdr_ref_count (peek (heap s) x) <= 253 ->
    (is_ref_count m = true ->
     1 <= hdr_ref_count (peek (heap s) o) /\
     (hdr_ref_count (peek (heap s) o) = 1 ->
      ty (heap s) o = TNum \/ ty (heap s) o = TStr)) ->
    exists s',
      call_Tup_set m (3 + n) loc i x s = Ok (tt, s') /\
      peek (heap s') (loc + 2 + i) = x /\
      top s' = top s /\ root s' = root s /\
      peek (heap s') x
      = set_ref_count (peek (heap s) x)
          (hdr_ref_count (peek (heap s) x) + (if is_ref_count m then 1 else 0)) /\
      (forall j, 0 <= j -> j <> x -> j <> o -> j <> o + 1 -> j <> loc + 2 + i ->
         peek (heap s') j = peek (heap s) j) /\
      if is_ref_count m && (hdr_ref_count (peek (heap s) o) =? 1)
      then ty (heap s') o = TFree /\
           peek (heap s') (o + 1) = size_of (heap s) o /\
           frees (out s')
           = frees (out s)
             ++ (if log_ready s then [EFree o (size_of (heap s) o)] else [])
      else peek (heap s') o
           = set_ref_count (peek (heap s) o)
               (hdr_ref_count (peek (heap s) o)
                - (if is_ref_count m then 1 else 0)) /\
           peek (heap s') (o + 1) = peek (heap s) (o + 1) /\
           frees (out s') = frees (out s).
Proof.
  intros m n loc i x o s Hloc Hfit Hi Hlen Hslot Ho Ho1 Hout Hx Hx1 Hx2 Hxo Hx3
    Hc Hrc.
  pose proof (hdr_ref_count_range (peek (heap s) x)) as Hc0.
  set (w := peek (heap s) x) in *. set (c := hdr_ref_count w) in *.
  set (k := if is_ref_count m then 1 else 0).
  assert (Hk : 0 <= k <= 1) by (unfold k; destruct (is_ref_count m); lia).
  set (slot := loc + 2 + i) in *.
  assert (Hsl : 0 <= slot < HeapSize /\ slot <> o /\ slot <> o + 1 /\ slot <> x)
    by (unfold slot; lia).
  destruct Hsl as (Hsl & Hso & Hso1 & Hsx).
  assert (Hcnt : forall r, 0 <= r < 256 -> hdr_ref_count (set_ref_count w r) = r).
  { intros r Hr. rewrite hdr_ref_count_set. apply Z.mod_small. lia. }
  (* the by-value copy of the argument *)
  destruct (ObjRef_share_spec m x s Hx) as (a & Ea & Ha & Ta & Ra & La & Fa & Ga & Oa).
  fold w c k in Ha.
  assert (Pa : peek (heap a) x = set_ref_count w (c + k)).
  { rewrite Ha. apply peek_poke_eq. lia. }
  assert (Qa : forall j, 0 <= j -> j <> x -> peek (heap a) j = peek (heap s) j).
  { intros j Hj Hne. rewrite Ha. apply peek_poke_neq; lia. }
  (* [obj.share()] in the body *)
  destruct (inc_ref_count_spec m x a Hx) as (b & Eb & Hb & Tb & Rb & Lb & Fb & Gb & Ob).
  rewrite Pa, Hcnt, set_ref_count_set in Hb by lia. fold k in Hb.
  assert (Pb : peek (heap b) x = set_ref_count w (c + k + k)).
  { rewrite Hb. apply peek_poke_eq. rewrite Ha, length_poke. lia. }
  assert (Qb : forall j, 0 <= j -> j <> x -> peek (heap b) j = peek (heap s) j).
  { intros j Hj Hne. rewrite Hb, peek_poke_neq by lia. apply Qa; lia. }
  assert (Lenb : Z.of_nat (length (heap b)) = HeapSize).
  { rewrite Hb, length_poke, Ha, length_poke. exact Hlen. }
  (* [unshare] of what the slot held *)
  assert (Pob : peek (heap b) o = peek (heap s) o) by (apply Qb; lia).
  assert (Szb : size_of (heap b) o = size_of (heap s) o).
  { apply size_of_ext; apply Qb; lia. }
  destruct (unshare_any m n o b Ho Ho1 Lenb)
    as (u & Eu & Bu & Qu & Lenu & Tu & Ru & Lu & Fu & Gu).
  { unfold ty. rewrite Pob. exact Hrc. }
  rewrite Pob, Szb in Bu.
  (* the store *)
  set (d := emit_st (ESetRef slot x) (with_heap u (poke (heap u) slot x))).
  assert (Hd : heap d = poke (heap u) slot x) by (unfold d; now rewrite heap_emit_st).
  assert (Qd : forall j, 0 <= j -> j <> slot -> peek (heap d) j = peek (heap u) j).
  { intros j Hj Hne. rewrite Hd. apply peek_poke_neq; lia. }
  assert (Sd : peek (heap d) slot = x).
  { rewrite Hd. apply peek_poke_eq. lia. }
  assert (Et : Tup_set m (S (S (S n))) loc i x a = Ok (tt, d)).
  { unfold Tup_set. rewrite bind_load by lia.
    rewrite Qa by lia.
    destruct (Z.ltb_spec i (peek (heap s) (loc + 1))); [|lia].
    rewrite bind_assert_true by reflexivity.
    unfold share, read_barrier. rewrite !bind_assoc, bind_ret, bind_assoc.
    rewrite (bind_eq _ _ _ _ _ Eb), bind_ret.
    fold slot. rewrite bind_load by lia.
    rewrite Qb by lia. rewrite Hslot.
    rewrite (bind_eq _ _ _ _ _ Eu).
    rewrite bind_store by lia.
    rewrite bind_load by lia. norm.
    rewrite peek_poke_eq by lia.
    unfold log_set_ref. apply emit_ok. }
  (* the copy of the argument goes away *)
  assert (Pd : peek (heap d) x = set_ref_count w (c + k + k)).
  { rewrite Qd, Qu by lia. exact Pb. }
  destruct (ObjRef_destroy_spec m (S (S n)) x (root s) d)
    as (e & Ee & He & Te & Re & Le & Fe & Ge & Oe).
  { unfold d. rewrite root_emit_st. norm. congruence. }
  { exact Hx. }
  { intros Em. rewrite Pd, Hcnt by lia. unfold k. rewrite Em.
    rewrite Z.mod_small by lia. lia. }
  rewrite Pd, Hcnt, set_ref_count_set in He by lia. fold k in He.
  replace (c + k + k - k) with (c + k) in He by lia.
  assert (Lend : Z.of_nat (length (heap d)) = HeapSize).
  { rewrite Hd, length_poke. lia. }
  assert (Qe : forall j, 0 <= j -> j <> x -> peek (heap e) j = peek (heap d) j).
  { intros j Hj Hne. rewrite He. apply peek_poke_neq; lia. }
  assert (Fin : top e = top s /\ root e = root s /\ log_ready b = log_ready s /\
                frees (out e) = frees (out u) /\ frees (out b) = frees (out s)).
  { unfold d in *.
    rewrite top_emit_st, live_emit_st, forwarding_emit_st, log_ready_emit_st,
      frees_emit_st in * by reflexivity.
    norm. repeat split; congruence. }
  destruct Fin as (Ftop & Froot & Flr & Fo & Fob).
  rewrite Flr, Fob in Bu.
  exists e. split.
  { unfold call_Tup_set. rewrite (bind_eq _ _ _ _ _ Ea).
    change (3 + n)%nat with (S (S (S n))).
    rewrite (bind_eq _ _ _ _ _ Et). exact Ee. }
  split; [rewrite Qe by lia; exact Sd|].
  split; [exact Ftop|]. split; [exact Froot|].
  split; [rewrite He; apply peek_poke_eq; lia|].
  split.
  { intros j Hj J1 J2 J3 J4. rewrite Qe, Qd, Qu by lia. apply Qb; lia. }
  destruct (is_ref_count m && (hdr_ref_count (peek (heap s) o) =? 1)).
  - destruct Bu as (B1 & B2 & B3).
    split; [unfold ty; rewrite Qe, Qd by lia; exact B1|].
    split; [rewrite Qe, Qd by lia; exact B2|]. congruence.
  - destruct Bu as (B1 & B2 & B3).
    split; [rewrite Qe, Qd by lia; exact B1|].
    split; [rewrite Qe, Qd, B2 by lia; apply Qb; lia|]. congruence.
Qed.

Lemma tup_set_replaces_witness :
  exists s',
    call_Tup_set REF_COUNT_GC 3 1 0 7 owned_pair_state = Ok (tt, s') /\
    peek (heap s') 3 = 7 /\ ty (heap s') 5 = TFree /\
    hdr_ref_count (peek (heap s') 7) = 2.
Proof.
  set (s := owned_pair_state).
  assert (Pl : peek (heap s) (1 + 1) = 2) by (vm_compute; reflexivity).
  assert (Ps : peek (heap s) (1 + 2 + 0) = 5) by (vm_compute; reflexivity).
  assert (C5 : hdr_ref_count (peek (heap s) 5) = 1) by (vm_compute; reflexivity).
  assert (C7 : hdr_ref_count (peek (heap s) 7) = 1) by (vm_compute; reflexivity).
  assert (T5 : ty (heap s) 5 = TNum) by (vm_compute; reflexivity).
  assert (Hrc : is_ref_count REF_COUNT_GC = true ->
            1 <= hdr_ref_count (peek (heap s) 5) /\
            (hdr_ref_count (peek (heap s) 5) = 1 ->
             ty (heap s) 5 = TNum \/ ty (heap s) 5 = TStr)).
  { intros _. rewrite C5. split; [lia|]. intros _. left. exact T5. }
  destruct (tup_set_replaces REF_COUNT_GC 0 1 0 7 5 s
              ltac:(lia) ltac:(rewrite Pl; unfold HeapSize; lia)
              ltac:(rewrite Pl; lia) ltac:(vm_compute; reflexivity) Ps
              ltac:(lia) ltac:(unfold HeapSize; lia) ltac:(rewrite Pl; lia)
              ltac:(unfold HeapSize; lia) ltac:(lia) ltac:(lia) ltac:(lia)
              ltac:(lia) ltac:(rewrite C7; lia) Hrc)
    as (s' & H1 & H2 & _ & _ & Px & _ & B).
  rewrite C5 in B. cbn [is_ref_count andb Z.eqb Pos.eqb] in B.
  destruct B as (B1 & _).
  exists s'. split; [exact H1|]. split; [exact H2|]. split; [exact B1|].
  rewrite Px, C7, hdr_ref_count_set. reflexivity.
Defined.

(** * Reference counting: the last handle on a Vec *)

(** Under reference counting, destroying the only reference to a Vec
    that holds the only reference to its backing Tup releases both:
    [Vec::cleanup] lets the Tup go, whose [Tup::cleanup] takes from
    each element one count per slot that names it (here every element
    keeps a reference of its own) and clears the slots; the Tup and
    then the Vec become Free records of their sizes, with the two free
    events in that order.  The handle leaves the root list, [top] does
    not move and no other heap word changes. *)
Theorem rc_releases_vec :
  forall n v t N rest s,
    root s = v :: rest ->
    0 < v -> v + 2 < HeapSize -> 0 < t -> 0 <= N -> t + 2 + N <= HeapSize ->
    v + 2 < t \/ t + 2 + N <= v ->
    Z.of_nat (length (heap s)) = HeapSize ->
    ty (heap s) v = TVec -> hdr_ref_count (peek (heap s) v) = 1 ->
    peek (heap s) (v + 2) = t ->
    ty (heap s) t = TTup -> hdr_ref_count (peek (heap s) t) = 1 ->
    peek (heap s) (t + 1) = N ->
    (forall e, In e (non_nil (slots (heap s) t)) ->
       0 < e < HeapSize /\ (e < t \/ t + 2 + N <= e) /\
       (e < v \/ v + 2 < e) /\
       occurrences e (slots (heap s) t) < hdr_ref_count (peek (heap s) e)) ->
    (Z.to_nat N < 2 + n)%nat ->
    exists s',
      ObjRef_destroy REF_COUNT_GC (7 + n) 0 s = Ok (tt, s') /\
      root s' = rest /\ top s' = top s /\
      ty (heap s') v = TFree /\ peek (heap s') (v + 1) = 3 /\
      peek (heap s') (v + 2) = 0 /\
      ty (heap s') t = TFree /\ peek (heap s') (t + 1) = 2 + N /\
      (forall j, 0 <= j < N -> peek (heap s') (t + 2 + j) = 0) /\
      (forall e, In e (non_nil (slots (heap s) t)) ->
         peek (heap s') e
         = set_ref_count (peek (heap s) e)
             (hdr_ref_count (peek (heap s) e)
              - occurrences e (slots (heap s) t))) /\
      (forall j, 0 <= j -> j < v \/ v + 2 < j -> j < t \/ t + 2 + N <= j ->
         ~ In j (non_nil (slots (heap s) t)) ->
         peek (heap s') j = peek (heap s) j) /\
      frees (out s')
      = frees (out s)
        ++ (if log_ready s then [EFree t (2 + N); EFree v 3] else []).
Proof.
  intros n v t N rest s Hr Hv Hv2 Ht HN Hfit Hdis Hlen Tyv Cv Pt Tyt Ct Pc Hes Hn.
  set (es := slots (heap s) t) in *.
  set (hA := poke (heap s) v (set_ref_count (peek (heap s) v) 0)).
  set (sA := emit_st (ERefCount v 0) (with_heap (with_root s rest) hA)).
  assert (HhA : heap sA = hA) by (unfold sA; now rewrite heap_emit_st).
  assert (QA : forall j, 0 <= j -> j <> v -> peek (heap sA) j = peek (heap s) j).
  { intros j Hj Hne. rewrite HhA. unfold hA. apply peek_poke_neq; lia. }
  assert (TyA : ty (heap sA) v = TVec).
  { unfold ty. rewrite HhA. unfold hA. rewrite peek_poke_eq by lia.
    rewrite hdr_type_set_ref_count. exact Tyv. }
  assert (LenA : Z.of_nat (length (heap sA)) = HeapSize).
  { rewrite HhA. unfold hA. rewrite length_poke. exact Hlen. }
  assert (SlA : slots (heap sA) t = es).
  { unfold es, slots. rewrite (QA (t + 1)) by lia.
    apply peeks_ext. intros j Hj. rewrite Pc in Hj. apply QA; lia. }
  (* [Vec::cleanup]: the backing Tup goes *)
  destruct (unshare_backing_spec n t N sA Ht HN Hfit LenA)
    as (sB & EB & TyB & PB & ZB & XB & QB & LenB & TB & RB & LB & FB & GB & OB).
  { unfold ty. rewrite QA by lia. exact Tyt. }
  { rewrite QA by lia. exact Pc. }
  { rewrite QA by lia. exact Ct. }
  { rewrite SlA. intros e He. destruct (Hes e He) as (A & B & C & D).
    rewrite QA by lia. tauto. }
  { lia. }
  rewrite SlA in XB, QB.
  assert (Hnv : forall j, v <= j <= v + 2 -> ~ In j (non_nil es)).
  { intros j Hj X. destruct (Hes j X) as (_ & _ & C & _). lia. }
  set (hC := poke (heap sB) (v + 2) 0).
  set (sC := with_heap sB hC).
  assert (PvC : peek (heap sC) v = peek (heap sA) v).
  { unfold sC, hC. norm. rewrite peek_poke_neq by lia.
    apply QB; [lia|lia|apply Hnv; lia]. }
  assert (TyC : ty (heap sC) v = TVec) by (unfold ty; rewrite PvC; exact TyA).
  assert (SzC : size_of (heap sC) v = 3).
  { unfold size_of. rewrite TyC. reflexivity. }
  assert (LenC : Z.of_nat (length (heap sC)) = HeapSize).
  { unfold sC, hC. norm. rewrite length_poke. lia. }
  destruct (free_st_frame REF_COUNT_GC v 3 sC) as (Fh & Ft & Fr & Fl & Ff & Fg).
  exists (free_st REF_COUNT_GC v 3 sC). split.
  { unfold ObjRef_destroy. rewrite bind_gets, Hr. cbn [nth_error].
    rewrite bind_modify, Hr. cbn [remove_nth].
    change (7 + n)%nat with (S (S (S (S (S (S (S n))))))).
    cbn [dec_ref_count]. change (is_ref_count REF_COUNT_GC) with true. cbv iota.
    rewrite !bind_assoc, bind_load by lia. norm. cbv zeta.
    rewrite !bind_assoc, bind_store by lia. unfold log_ref_count.
    rewrite !bind_assoc, bind_emit. rewrite hdr_ref_count_set, Cv.
    change ((1 - 1) mod 256) with 0. change (0 =? 0) with true. cbv iota.
    norm. change (1 - 1) with 0. fold hA. fold sA.
    rewrite !bind_assoc. cbn [Obj_cleanup]. unfold Obj_type.
    rewrite !bind_assoc, bind_load by lia. rewrite bind_ret.
    fold (ty (heap sA) v). rewrite TyA.
    change (TVec =? TTup) with false. change (TVec =? TVec) with true. cbv iota.
    rewrite ?bind_assoc. rewrite bind_load by lia. rewrite QA by lia. rewrite Pt.
    rewrite ?bind_assoc. rewrite (bind_eq _ _ _ _ _ EB).
    rewrite ?bind_assoc. rewrite bind_store by lia. fold hC. fold sC.
    rewrite ?bind_ret.
    rewrite (bind_eq _ _ _ _ _
               (Obj_size_eq v sC ltac:(lia) ltac:(lia)
                  ltac:(rewrite TyC; discriminate))).
    rewrite SzC. apply Mem_free_eq; lia. }
  assert (QC : forall j, 0 <= j -> j <> v + 2 -> peek (heap sC) j = peek (heap sB) j).
  { intros j Hj Hne. unfold sC, hC. norm. apply peek_poke_neq; lia. }
  assert (QF : forall j, 0 <= j -> j <> v -> j <> v + 1 ->
            peek (heap (free_st REF_COUNT_GC v 3 sC)) j = peek (heap sC) j).
  { intros j Hj J1 J2. rewrite Fh, !peek_poke_neq by lia. reflexivity. }
  split; [rewrite Fr; unfold sC; norm; rewrite RB; unfold sA;
          rewrite root_emit_st; reflexivity|].
  split; [rewrite Ft; unfold sC; norm; rewrite TB; unfold sA;
          rewrite top_emit_st; reflexivity|].
  split.
  { unfold ty. rewrite Fh, peek_poke_neq, peek_poke_eq by lia.
    apply hdr_type_init_hdr. unfold TFree. lia. }
  split.
  { rewrite Fh, peek_poke_eq by (rewrite length_poke; lia). reflexivity. }
  split.
  { rewrite QF by lia. unfold sC, hC. norm. apply peek_poke_eq. lia. }
  split; [unfold ty; rewrite QF, QC by lia; exact TyB|].
  split; [rewrite QF, QC by lia; exact PB|].
  split; [intros j Hj; rewrite QF, QC by lia; apply ZB; lia|].
  split.
  { intros e He. destruct (Hes e He) as (A & B & C & D).
    rewrite QF, QC by lia. rewrite (XB e He). rewrite QA by lia. reflexivity. }
  split.
  { intros j Hj J1 J2 J3. rewrite QF, QC by lia.
    rewrite QB by (auto; lia). apply QA; lia. }
  rewrite frees_free_st.
  assert (GC : log_ready sC = log_ready s).
  { unfold sC. norm. rewrite GB. unfold sA. now rewrite log_ready_emit_st. }
  assert (OC : frees (out sC)
               = frees (out s) ++ (if log_ready s then [EFree t (2 + N)] else [])).
  { unfold sC. norm. rewrite OB. unfold sA.
    rewrite log_ready_emit_st, frees_emit_st by reflexivity. reflexivity. }
  rewrite GC, OC, <- app_assoc. destruct (log_ready s); reflexivity.
Qed.

Lemma rc_releases_vec_witness :
  exists s',
    ObjRef_destroy REF_COUNT_GC 8 0 num_vec_state = Ok (tt, s') /\
    root s' = [1; 0] /\ ty (heap s') 3 = TFree /\ ty (heap s') 6 = TFree /\
    frees (out s') = [EFree 6 4; EFree 3 3].
Proof.
  set (s := num_vec_state).
  assert (Hsl : slots (heap s) 6 = [1; 1]) by (vm_compute; reflexivity).
  assert (C1 : hdr_ref_count (peek (heap s) 1) = 3) by (vm_compute; reflexivity).
  assert (Hes : forall e, In e (non_nil (slots (heap s) 6)) ->
            0 < e < HeapSize /\ (e < 6 \/ 6 + 2 + 2 <= e) /\
            (e < 3 \/ 3 + 2 < e) /\
            occurrences e (slots (heap s) 6) < hdr_ref_count (peek (heap s) e)).
  { rewrite Hsl. intros e He.
    assert (E : e = 1) by (cbn in He; intuition). subst e. rewrite C1.
    change (occurrences 1 [1; 1]) with 2. unfold HeapSize. lia. }
  destruct (rc_releases_vec 1 3 6 2 [1; 0] s
              ltac:(vm_compute; reflexivity) ltac:(lia)
              ltac:(unfold HeapSize; lia) ltac:(lia) ltac:(lia)
              ltac:(unfold HeapSize; lia) ltac:(lia)
              ltac:(vm_compute; reflexivity) ltac:(vm_compute; reflexivity)
              ltac:(vm_compute; reflexivity) ltac:(vm_compute; reflexivity)
              ltac:(vm_compute; reflexivity) ltac:(vm_compute; reflexivity)
              ltac:(vm_compute; reflexivity) Hes ltac:(cbn; lia))
    as (s' & H1 & H2 & _ & H4 & _ & _ & H7 & _ & _ & _ & _ & H12).
  exists s'. split; [exact H1|]. split; [exact H2|]. split; [exact H4|].
  split; [exact H7|]. rewrite H12. vm_compute. reflexivity.
Defined.
